(** * Bigstack / codebase-ai-agent: chunk extraction, ranking and ingestion

    A shallow embedding of
      - [src/services/codebase-processor.js] (class [CodebaseProcessor]),
      - the RAG service (class [RAGService]),
      - [src/api/repository-api.js] ([processRepositoryAsync]),
      - the script [ingest-repository] (the batch loop and the dry run of
        [main]),
      - the Bedrock and OpenSearch services ([buildPrompt],
        [preprocessCodeForEmbedding], the document of [indexCodeChunk], the
        results of [hybridSearch]),
      - [src/api/chat-api.js] (the query route),
    followed by the properties the specification states about them and by
    further properties of the code.

    Conventions of the embedding.
      - A JavaScript string is the list of its code units; code units are
        taken in the range 0..255 (Latin-1), so a string is a [list ascii].
        Character classes ([\s], [\w], [.]), [trim] and [toLowerCase] are
        the ECMAScript ones restricted to that range.
      - JavaScript numbers are IEEE 754 binary64 values: [Double.double]
        is the [spec_float] of the standard library at precision 53 and
        maximal exponent 1024, and products and differences are its
        correctly rounded [SFmul] and [SFsub].  A decimal literal of the
        source is the double nearest to it.  A score read from a search
        response is a JSON number, that is a finite double.
      - [null] and [undefined] fields are [None].
      - Built-ins of Node that are not modelled ([JSON], [path]) are the
        methods of the class [Host]; the search index, the embedding
        provider and the job-status table are explicit inputs.
      - The sessions table is a state threaded through the calls; the
        clock and the generator of identifiers are inputs. *)

From Stdlib Require Import Ascii String DecimalString.
From Stdlib Require Import ZArith Bool Arith PeanoNat Lia.
From Stdlib Require Import Floats.SpecFloat.
From Stdlib Require Import List Permutation Sorted.
From Equations Require Import Equations.
Import ListNotations.

Set Implicit Arguments.
Close Scope Z_scope.
Local Open Scope nat_scope.
Local Open Scope list_scope.

(* ===================================================================== *)
(** ** JavaScript strings *)
(* ===================================================================== *)

Module JS.

Definition jstring := list ascii.

(** String literals of the source are written [lit "..."]. *)
Definition lit (s : string) : jstring := list_ascii_of_string s.
Arguments lit s%_string.

Definition code (c : ascii) : nat := nat_of_ascii c.
Definition chr (n : nat) : ascii := ascii_of_nat n.

Definition LF : ascii := chr 10.
Definition CR : ascii := chr 13.

(** [line + '\n'] *)
Definition nl (line : jstring) : jstring := line ++ [LF].

(** WhiteSpace and LineTerminator code units below 256: TAB, LF, VT, FF,
    CR, SP, NBSP.  This is the set stripped by [String.prototype.trim] and
    matched by the regular-expression class [\s]. *)
Definition isSpace (c : ascii) : bool :=
  let n := code c in
  ((9 <=? n) && (n <=? 13)) || (n =? 32) || (n =? 160).

(** The class [\w]: [A-Za-z0-9_]. *)
Definition isWord (c : ascii) : bool :=
  let n := code c in
  ((65 <=? n) && (n <=? 90)) || ((97 <=? n) && (n <=? 122))
  || ((48 <=? n) && (n <=? 57)) || (n =? 95).

(** The class [.] (no [s] flag): anything but a line terminator. *)
Definition isDot (c : ascii) : bool :=
  let n := code c in negb ((n =? 10) || (n =? 13)).

Fixpoint dropWhile (p : ascii -> bool) (s : jstring) : jstring :=
  match s with
  | [] => []
  | c :: s' => if p c then dropWhile p s' else s
  end.

Definition trimStart (s : jstring) : jstring := dropWhile isSpace s.
Definition trimEnd (s : jstring) : jstring := rev (dropWhile isSpace (rev s)).

(** [String.prototype.trim] *)
Definition trim (s : jstring) : jstring := trimEnd (trimStart s).

(** Truthiness of a string: every string but the empty one is truthy. *)
Definition truthy (s : jstring) : bool :=
  match s with [] => false | _ :: _ => true end.

(** [String.prototype.startsWith] *)
Fixpoint startsWith (prefix s : jstring) : bool :=
  match prefix, s with
  | [], _ => true
  | _ :: _, [] => false
  | a :: prefix', b :: s' => Ascii.eqb a b && startsWith prefix' s'
  end.

(** [String.prototype.includes] *)
Fixpoint includes (needle s : jstring) : bool :=
  startsWith needle s ||
  match s with
  | [] => false
  | _ :: s' => includes needle s'
  end.

(** [a === b] on strings *)
Fixpoint streq (a b : jstring) : bool :=
  match a, b with
  | [], [] => true
  | x :: a', y :: b' => Ascii.eqb x y && streq a' b'
  | _, _ => false
  end.

(** [s.split('\n')]: the result is never empty; the empty string gives one
    empty line. *)
Fixpoint splitLines (s : jstring) : list jstring :=
  match s with
  | [] => [[]]
  | c :: s' =>
      if Ascii.eqb c LF then [] :: splitLines s'
      else match splitLines s' with
           | l :: ls => (c :: l) :: ls
           | [] => [[c]]
           end
  end.

(** [parts.join(sep)] *)
Fixpoint join (sep : jstring) (parts : list jstring) : jstring :=
  match parts with
  | [] => []
  | [p] => p
  | p :: ps => p ++ sep ++ join sep ps
  end.

(** [String.prototype.toLowerCase] on code units below 256: [A-Z] and the
    Latin-1 capitals U+00C0..U+00DE (U+00D7, the multiplication sign,
    excepted) move up by 32; every other unit is unchanged. *)
Definition lowerChar (c : ascii) : ascii :=
  let n := code c in
  if ((65 <=? n) && (n <=? 90))
     || ((192 <=? n) && (n <=? 222) && negb (n =? 215))
  then chr (n + 32) else c.

Definition toLowerCase (s : jstring) : jstring := map lowerChar s.

(** [s.substring(0, n)] *)
Definition substring0 (n : nat) (s : jstring) : jstring := firstn n s.

(** Decimal rendering of a non-negative integer, as [`${n}`] does. *)
Definition ofNat (n : nat) : jstring :=
  lit (NilEmpty.string_of_uint (Nat.to_uint n)).

(** Number of occurrences of one code unit:
    [(line.match(/c/g) || []).length]. *)
Definition countChar (c : ascii) (s : jstring) : nat :=
  length (filter (Ascii.eqb c) s).

(** *** Regular expressions

    The fragment of ECMAScript regular expressions the source uses, with
    the backtracking semantics of the language: alternatives are tried
    left to right, quantifiers are greedy, an iteration of [*] that
    consumes nothing is rejected.  [rGroup] is a capturing group. *)

Inductive regex : Type :=
| rChar (p : ascii -> bool)
| rEps
| rSeq (a b : regex)
| rAlt (a b : regex)
| rStar (a : regex)
| rGroup (n : nat) (a : regex).

Definition captures := list (nat * jstring).

Fixpoint getGroup (n : nat) (caps : captures) : option jstring :=
  match caps with
  | [] => None
  | (m, v) :: caps' => if n =? m then Some v else getGroup n caps'
  end.

Section Matcher.
Variable R : Type.

Fixpoint rmatch (r : regex) (input : jstring) (caps : captures)
         (k : jstring -> captures -> option R) {struct r} : option R :=
  match r with
  | rChar p =>
      match input with
      | c :: rest => if p c then k rest caps else None
      | [] => None
      end
  | rEps => k input caps
  | rSeq a b => rmatch a input caps (fun rest caps' => rmatch b rest caps' k)
  | rAlt a b =>
      match rmatch a input caps k with
      | Some res => Some res
      | None => rmatch b input caps k
      end
  | rStar a =>
      (fix iter (fuel : nat) (input : jstring) (caps : captures) : option R :=
         match fuel with
         | O => k input caps
         | S fuel' =>
             match rmatch a input caps
                     (fun rest caps' =>
                        if length rest <? length input
                        then iter fuel' rest caps' else None) with
             | Some res => Some res
             | None => k input caps
             end
         end) (length input) input caps
  | rGroup n a =>
      rmatch a input caps
        (fun rest caps' =>
           k rest ((n, firstn (length input - length rest) input) :: caps'))
  end.
End Matcher.

(** One match attempt at the start of [input]: the captures and the text
    left after the match. *)
Definition matchHere (r : regex) (input : jstring) : option (captures * jstring) :=
  rmatch r input [] (fun rest caps => Some (caps, rest)).

(** A pattern written [/^.../]: only the start of the input is tried. *)
Definition matchAnchored (r : regex) (input : jstring) : option captures :=
  option_map fst (matchHere r input).

(** A pattern without [^]: every start position, left to right. *)
Fixpoint matchAnywhere (r : regex) (input : jstring) : option captures :=
  match matchHere r input with
  | Some (caps, _) => Some caps
  | None =>
      match input with
      | [] => None
      | _ :: rest => matchAnywhere r rest
      end
  end.

Definition isSome {A} (o : option A) : bool :=
  match o with Some _ => true | None => false end.

(** [/^.../.test(input)] *)
Definition test (r : regex) (input : jstring) : bool :=
  isSome (matchAnchored r input).

(** Building blocks. *)
Definition rIs (c : ascii) : regex := rChar (Ascii.eqb c).
Fixpoint rLit (w : jstring) : regex :=
  match w with
  | [] => rEps
  | [c] => rIs c
  | c :: w' => rSeq (rIs c) (rLit w')
  end.
Definition rPlus (a : regex) : regex := rSeq a (rStar a).
Definition rOpt (a : regex) : regex := rAlt a rEps.
Fixpoint rAlts (rs : list regex) : regex :=
  match rs with
  | [] => rChar (fun _ => false)
  | [a] => a
  | a :: rs' => rAlt a (rAlts rs')
  end.
Fixpoint rSeqs (rs : list regex) : regex :=
  match rs with
  | [] => rEps
  | [a] => a
  | a :: rs' => rSeq a (rSeqs rs')
  end.
(** [a{1,n+1}] *)
Fixpoint rUpTo (n : nat) (a : regex) : regex :=
  match n with
  | O => a
  | S n' => rSeq a (rOpt (rUpTo n' a))
  end.

Definition ws : regex := rChar isSpace.       (* \s *)
Definition wd : regex := rChar isWord.        (* \w *)
Definition dot : regex := rChar isDot.        (* .  *)
Definition ws0 : regex := rStar ws.           (* \s* *)
Definition ws1 : regex := rPlus ws.           (* \s+ *)
Definition wd1 : regex := rPlus wd.           (* \w+ *)
Definition word (w : string) : regex := rLit (lit w).
Arguments word w%_string.

End JS.

Import JS.

(* ===================================================================== *)
(** ** The host: Node built-ins that are inputs of the model *)
(* ===================================================================== *)

(** [JSON.parse] throws on malformed text: [None].  [JSON_stringify v n] is
    [JSON.stringify(v, null, n)].  [ignore_ignores ps p] is the answer of
    an [ignore()] object loaded with the pattern lines [ps] for the
    relative path [p].  [fs_readFile] is [None] when the promise rejects. *)
Class Host : Type := {
  json : Type;
  JSON_parse : jstring -> option json;
  JSON_stringify : json -> nat -> jstring;
  path_join : jstring -> jstring -> jstring;
  path_relative : jstring -> jstring -> jstring;
  path_basename : jstring -> jstring;
  path_extname : jstring -> jstring;
  ignore_ignores : list jstring -> jstring -> bool;
  fs_readFile : jstring -> option jstring
}.

(* ===================================================================== *)
(** ** codebase-processor.js *)
(* ===================================================================== *)

Module Processor.

Inductive chunkType : Set :=
| file_overview | function | class | route | documentation | configuration.

Record chunk : Type := mkChunk {
  type : chunkType;
  content : jstring;
  filePath : jstring;
  fileName : jstring;
  fileType : jstring;
  repository : jstring;
  startLine : nat;
  endLine : nat;
  functionName : option jstring;
  className : option jstring;
  description : option jstring
}.

(** [chunk.content += text] *)
Definition appendContent (c : chunk) (text : jstring) : chunk :=
  mkChunk (type c) (content c ++ text) (filePath c) (fileName c) (fileType c)
          (repository c) (startLine c) (endLine c) (functionName c)
          (className c) (description c).

(** [chunk.endLine = n] *)
Definition setEndLine (c : chunk) (n : nat) : chunk :=
  mkChunk (type c) (content c) (filePath c) (fileName c) (fileType c)
          (repository c) (startLine c) n (functionName c)
          (className c) (description c).

(** [this.supportedExtensions] *)
Definition supportedExtensions : list jstring :=
  map lit [".js"; ".ts"; ".jsx"; ".tsx"; ".py"; ".java"; ".cpp"; ".c"; ".h";
           ".cs"; ".php"; ".rb"; ".go"; ".rs"; ".swift"; ".kt"; ".scala";
           ".md"; ".txt"; ".json"; ".yaml"; ".yml"; ".xml"; ".html"; ".css";
           ".sql"; ".sh"; ".bat"; ".dockerfile"; ".tf"]%string.

(** [this.ignoredDirectories] *)
Definition ignoredDirectories : list jstring :=
  map lit ["node_modules"; ".git"; ".svn"; ".hg"; "dist"; "build"; "target";
           ".next"; ".nuxt"; "coverage"; ".nyc_output"; "logs"; "tmp";
           "temp"]%string.

(** [set.has(x)] and [array.includes(x)] on strings *)
Definition has (xs : list jstring) (x : jstring) : bool := existsb (streq x) xs.

(** [isCodeFile] *)
Definition codeExtensions : list jstring :=
  map lit [".js"; ".ts"; ".jsx"; ".tsx"; ".py"; ".java"; ".cpp"; ".c"; ".h";
           ".cs"; ".php"; ".rb"; ".go"; ".rs"]%string.

Definition isCodeFile (extension : jstring) : bool := has codeExtensions extension.

(** [getFileType] *)
Definition typeMap : list (jstring * jstring) :=
  map (fun p => (lit (fst p), lit (snd p)))
    [(".js", "javascript"); (".ts", "typescript"); (".jsx", "react");
     (".tsx", "react-typescript"); (".py", "python"); (".java", "java");
     (".cpp", "cpp"); (".c", "c"); (".h", "c-header"); (".cs", "csharp");
     (".php", "php"); (".rb", "ruby"); (".go", "go"); (".rs", "rust");
     (".md", "markdown"); (".json", "json"); (".yaml", "yaml");
     (".yml", "yaml")]%string.

Fixpoint lookup (k : jstring) (m : list (jstring * jstring)) : option jstring :=
  match m with
  | [] => None
  | (k', v) :: m' => if streq k k' then Some v else lookup k m'
  end.

Definition getFileType (extension : jstring) : jstring :=
  match lookup extension typeMap with
  | Some t => t
  | None => lit "unknown"
  end.

(** The class [[^)]] *)
Definition notParen : regex := rChar (fun c => negb (Ascii.eqb c ")"%char)).

(** [( [^)]* ) \s* =>] *)
Definition arrowTail : regex :=
  rSeqs [word "("; rStar notParen; word ")"; ws0; word "=>"].

(** [extractFunctionName]: the five patterns, tried in order; the first
    that matches anywhere in the line gives [match[1]]. *)
Definition functionNamePatterns : list regex :=
  [ rSeqs [word "function"; ws1; rGroup 1 wd1];
    rSeqs [word "const"; ws1; rGroup 1 wd1; ws0; word "="];
    rSeqs [word "def"; ws1; rGroup 1 wd1];
    rSeqs [rGroup 1 wd1; ws0; word ":"; ws0; word "function"];
    rSeqs [rGroup 1 wd1; ws0; word ":"; ws0; arrowTail] ].

Fixpoint firstGroup1 (ps : list regex) (line : jstring) : option jstring :=
  match ps with
  | [] => None
  | p :: ps' =>
      match matchAnywhere p line with
      | Some caps => getGroup 1 caps
      | None => firstGroup1 ps' line
      end
  end.

Definition extractFunctionName (line : jstring) : option jstring :=
  firstGroup1 functionNamePatterns line.

(** [extractClassName]: [/class\s+(\w+)|interface\s+(\w+)/], result
    [match[1] || match[2]]. *)
Definition classNamePattern : regex :=
  rAlt (rSeqs [word "class"; ws1; rGroup 1 wd1])
       (rSeqs [word "interface"; ws1; rGroup 2 wd1]).

Definition extractClassName (line : jstring) : option jstring :=
  match matchAnywhere classNamePattern line with
  | Some caps =>
      match getGroup 1 caps with
      | Some n => Some n
      | None => getGroup 2 caps
      end
  | None => None
  end.

(** The table [patterns] of [extractCodeChunks], in the order of
    [Object.entries]: function, class, route. *)
Definition verbs : regex :=
  rAlts [word "get"; word "post"; word "put"; word "delete"; word "patch"].

Definition functionPatterns : list regex :=
  [ rSeqs [ws0; rGroup 1 (rAlts
      [ rSeqs [word "function"; ws1; wd1];
        rSeqs [word "const"; ws1; wd1; ws0; word "="; ws0; arrowTail];
        rSeqs [word "def"; ws1; wd1];
        rSeqs [word "public"; ws1; wd1; ws1; wd1; ws0; word "("] ])];
    rSeqs [ws0; rGroup 1 (rAlts
      [ rSeqs [word "async"; ws1; word "function"; ws1; wd1];
        rSeqs [word "export"; ws1; rOpt (rGroup 2 (rSeq (word "async") ws1));
               word "function"; ws1; wd1] ])];
    rSeqs [ws0; rGroup 1 (rAlts
      [ rSeqs [wd1; ws0; word ":"; ws0; word "function"];
        rSeqs [wd1; ws0; word ":"; ws0; arrowTail] ])] ].

Definition classPatterns : list regex :=
  [ rSeqs [ws0; rGroup 1 (rAlts
      [ rSeqs [word "class"; ws1; wd1];
        rSeqs [word "interface"; ws1; wd1];
        rSeqs [word "type"; ws1; wd1] ])];
    rSeqs [ws0; rGroup 1 (rSeqs
      [ word "export"; ws1; rOpt (rGroup 2 (rSeq (word "default") ws1));
        word "class"; ws1; wd1 ])] ].

Definition routePatterns : list regex :=
  [ rSeqs [ws0; rGroup 1 (rAlt
      (rSeqs [word "app."; rGroup 2 verbs])
      (rSeqs [word "router."; rGroup 3 verbs]))];
    rSeqs [ws0; word "@";
           rGroup 1 (rAlts [word "Get"; word "Post"; word "Put";
                            word "Delete"; word "Patch"]);
           ws0; word "("] ].

Definition patterns : list (chunkType * list regex) :=
  [ (function, functionPatterns); (class, classPatterns);
    (route, routePatterns) ].

(** [/^(import|require|from|#include|using)/] *)
Definition importPattern : regex :=
  rGroup 1 (rAlts [word "import"; word "require"; word "from";
                   word "#include"; word "using"]).

(** [/^(import|require|from|package)/] *)
Definition preamblePattern : regex :=
  rGroup 1 (rAlts [word "import"; word "require"; word "from"; word "package"]).

(** [/^(#{1,6})\s+(.+)/] *)
Definition headerPattern : regex :=
  rSeqs [rGroup 1 (rUpTo 5 (word "#")); ws1; rGroup 2 (rPlus dot)].

(** *** createFileOverview *)

Definition isImportLine (line : jstring) : bool := test importPattern (trim line).

(** The test of the first branch of the comment loop, on the trimmed line. *)
Definition tripleQuote : jstring := [chr 34; chr 34; chr 34].

Definition isTopComment (line : jstring) : bool :=
  startsWith (lit "//") line || startsWith (lit "/*") line
  || startsWith (lit "#") line || startsWith tripleQuote line.

(** The test of the [else if] branch, which leaves the loop. *)
Definition stopsTopScan (line : jstring) : bool :=
  truthy line && negb (test preamblePattern line).

(** The loop [for (i = 0; i < Math.min(20, lines.length); i++)], over the
    lines it visits. *)
Fixpoint scanTopComments (visited : list jstring) : list jstring :=
  match visited with
  | [] => []
  | l :: rest =>
      let line := trim l in
      if isTopComment line then line :: scanTopComments rest
      else if stopsTopScan line then []
      else scanTopComments rest
  end.

Definition topCommentsOf (lines : list jstring) : list jstring :=
  scanTopComments (firstn (Nat.min 20 (length lines)) lines).

Definition importsOf (lines : list jstring) : list jstring :=
  firstn 10 (filter isImportLine lines).

Definition commentsSection (topComments : list jstring) : jstring :=
  if 0 <? length topComments
  then lit "Comments:" ++ [LF] ++ join [LF] topComments ++ [LF]
  else [].

Definition importsSection (imports : list jstring) : jstring :=
  if 0 <? length imports
  then lit "Imports/Dependencies:" ++ [LF] ++ join [LF] imports ++ [LF]
  else [].

Definition createFileOverview (content filePath : jstring) : jstring :=
  let lines := splitLines content in
  let totalLines := length lines in
  let imports := importsOf lines in
  let topComments := topCommentsOf lines in
  lit "File: " ++ filePath ++ [LF]
  ++ lit "Total Lines: " ++ ofNat totalLines ++ [LF]
  ++ [LF]
  ++ commentsSection topComments ++ [LF]
  ++ importsSection imports ++ [LF]
  ++ [LF]
  ++ lit "Preview:" ++ [LF]
  ++ join [LF] (firstn 30 lines).

(** *** Loops over the lines of a file

    [for (let i = 0; i < lines.length; i++) { const line = lines[i]; ... }]
    with the loop body as a state transformer. *)
Fixpoint forLines {S : Type} (body : nat -> jstring -> S -> S)
         (i : nat) (lines : list jstring) (st : S) : S :=
  match lines with
  | [] => st
  | line :: rest => forLines body (i + 1) rest (body i line st)
  end.

(** [if (current && current.content.trim()) chunks.push(current)] *)
Definition pushIfContent (chunks : list chunk) (current : option chunk) : list chunk :=
  match current with
  | Some c => if truthy (trim (content c)) then chunks ++ [c] else chunks
  | None => chunks
  end.

Section WithHost.
Context {host : Host}.

(** *** extractCodeChunks *)

Record codeScan : Type := mkCodeScan {
  chunks : list chunk;
  currentChunk : option chunk;
  braceCount : Z;
  inMultilineComment : bool
}.

(** The two assignments that precede [if (inMultilineComment) continue]. *)
Definition commentGate (inside : bool) (trimmedLine : jstring) : bool :=
  let inside1 := if includes (lit "/*") trimmedLine then true else inside in
  if includes (lit "*/") trimmedLine then false else inside1.

(** The test of the second [continue]. *)
Definition isSkippedLine (trimmedLine : jstring) : bool :=
  startsWith (lit "//") trimmedLine || startsWith (lit "#") trimmedLine
  || negb (truthy trimmedLine).

(** The body of [if (pattern.test(line))]: flush, start a new chunk, reset
    the brace counter. *)
Definition startChunk (filePath fileName repositoryName : jstring)
           (ty : chunkType) (i : nat) (line : jstring) (st : codeScan) : codeScan :=
  mkCodeScan
    (pushIfContent (chunks st) (currentChunk st))
    (Some (mkChunk ty (nl line) filePath fileName
                   (getFileType (path_extname fileName)) repositoryName
                   (i + 1) (i + 1)
                   (extractFunctionName line)
                   (match ty with class => extractClassName line | _ => None end)
                   None))
    0%Z
    (inMultilineComment st).

(** The inner loop [for (const pattern of typePatterns)], left by [break]
    at the first pattern that matches. *)
Fixpoint tryPatterns (filePath fileName repositoryName : jstring)
         (ty : chunkType) (typePatterns : list regex)
         (i : nat) (line : jstring) (st : codeScan) : codeScan :=
  match typePatterns with
  | [] => st
  | pattern :: rest =>
      if test pattern line
      then startChunk filePath fileName repositoryName ty i line st
      else tryPatterns filePath fileName repositoryName ty rest i line st
  end.

(** The outer loop [for (const [type, typePatterns] of Object.entries(patterns))];
    it has no [break] of its own. *)
Definition checkPatterns (filePath fileName repositoryName : jstring)
           (i : nat) (line : jstring) (st : codeScan) : codeScan :=
  fold_left
    (fun acc entry =>
       tryPatterns filePath fileName repositoryName (fst entry) (snd entry) i line acc)
    patterns st.

(** The block [if (currentChunk) { ... }] that ends the loop body. *)
Definition accumulate (i : nat) (line : jstring) (st : codeScan) : codeScan :=
  match currentChunk st with
  | None => st
  | Some c =>
      let c' := setEndLine (appendContent c (nl line)) (i + 1) in
      let braces := (braceCount st + Z.of_nat (countChar "{"%char line)
                     - Z.of_nat (countChar "}"%char line))%Z in
      if (braces <=? 0)%Z && (100 <? length (content c'))
      then mkCodeScan (chunks st ++ [c']) None braces (inMultilineComment st)
      else mkCodeScan (chunks st) (Some c') braces (inMultilineComment st)
  end.

Definition codeBody (filePath fileName repositoryName : jstring)
           (i : nat) (line : jstring) (st : codeScan) : codeScan :=
  let trimmedLine := trim line in
  let inside := commentGate (inMultilineComment st) trimmedLine in
  let st1 := mkCodeScan (chunks st) (currentChunk st) (braceCount st) inside in
  if inside then st1
  else if isSkippedLine trimmedLine then
    mkCodeScan (chunks st1)
               (option_map (fun c => appendContent c (nl line)) (currentChunk st1))
               (braceCount st1) inside
  else accumulate i line (checkPatterns filePath fileName repositoryName i line st1).

Definition extractCodeChunks (content filePath fileName repositoryName : jstring)
  : list chunk :=
  let lines := splitLines content in
  let st := forLines (codeBody filePath fileName repositoryName) 0 lines
                     (mkCodeScan [] None 0%Z false) in
  pushIfContent (chunks st) (currentChunk st).

(** *** extractDocumentationChunks *)

Record docScan : Type := mkDocScan {
  sections : list chunk;
  currentSection : option chunk
}.

(** [line.match(/^(#{1,6})\s+(.+)/)] *)
Definition headerMatch (line : jstring) : option captures :=
  matchAnchored headerPattern line.

Definition docBody (filePath fileName repositoryName : jstring)
           (i : nat) (line : jstring) (st : docScan) : docScan :=
  match headerMatch line with
  | Some caps =>
      mkDocScan
        (pushIfContent (sections st) (currentSection st))
        (Some (mkChunk documentation (nl line) filePath fileName
                       (lit "markdown") repositoryName (i + 1) (i + 1)
                       None None (getGroup 2 caps)))
  | None =>
      match currentSection st with
      | Some c =>
          mkDocScan (sections st)
                    (Some (setEndLine (appendContent c (nl line)) (i + 1)))
      | None => st
      end
  end.

Definition extractDocumentationChunks
           (content filePath fileName repositoryName : jstring) : list chunk :=
  let lines := splitLines content in
  let st := forLines (docBody filePath fileName repositoryName) 0 lines
                     (mkDocScan [] None) in
  pushIfContent (sections st) (currentSection st).

(** *** extractConfigChunks *)

Definition extractConfigChunks
           (content filePath fileName repositoryName : jstring) : list chunk :=
  match JSON_parse content with
  | Some config =>
      [ mkChunk configuration (JSON_stringify config 2) filePath fileName
                (lit "json") repositoryName 1 (length (splitLines content))
                None None
                (Some (lit "Configuration file: " ++ fileName)) ]
  | None => []
  end.

(** *** processFile *)

(** What the method writes with [console.error] / [console.warn]. *)
Inductive logEntry : Type :=
| ErrorProcessingFile (filePath : jstring)
| ErrorScanningDirectory (dirPath : jstring).

(** [s.replace(/\\/g, '/')] *)
Definition slashes (p : jstring) : jstring :=
  map (fun c => if Ascii.eqb c (chr 92) then "/"%char else c) p.

Definition fileOverviewChunk (content relativePath fileName fileExtension
                              repositoryName : jstring) : chunk :=
  mkChunk file_overview (createFileOverview content relativePath)
          relativePath fileName (getFileType fileExtension) repositoryName
          1 (length (splitLines content))
          None None (Some (lit "Overview of " ++ fileName)).

(** The chain [if (isCodeFile) ... else if ('.md') ... else if ('.json') ...]:
    the chunks pushed after the overview. *)
Definition specificChunks (content relativePath fileName fileExtension
                           repositoryName : jstring) : list chunk :=
  if isCodeFile fileExtension then
    extractCodeChunks content relativePath fileName repositoryName
  else if streq fileExtension (lit ".md") then
    extractDocumentationChunks content relativePath fileName repositoryName
  else if streq fileExtension (lit ".json") then
    extractConfigChunks content relativePath fileName repositoryName
  else [].

(** The chunks returned and the console lines written: the [catch] block
    logs the error and returns no chunk. *)
Definition processFile (filePath repositoryPath repositoryName : jstring)
  : list chunk * list logEntry :=
  match fs_readFile filePath with
  | None => ([], [ErrorProcessingFile filePath])
  | Some content =>
      let relativePath := slashes (path_relative repositoryPath filePath) in
      let fileName := path_basename filePath in
      let fileExtension := toLowerCase (path_extname filePath) in
      (fileOverviewChunk content relativePath fileName fileExtension repositoryName
       :: specificChunks content relativePath fileName fileExtension repositoryName,
       [])
  end.

(** *** loadGitignore, scanDirectory, processRepository *)

(** The patterns added after the repository's own [.gitignore]. *)
Definition defaultIgnorePatterns : list jstring :=
  map lit ["node_modules/**"; ".git/**"; "dist/**"; "build/**"; "coverage/**";
           "*.log"; ".env*"; "*.min.js"; "*.bundle.js"]%string.

Definition loadGitignore (repositoryPath : jstring) : jstring -> bool :=
  ignore_ignores
    (match fs_readFile (path_join repositoryPath (lit ".gitignore")) with
     | Some gitignoreContent => [gitignoreContent]
     | None => []
     end ++ defaultIgnorePatterns).

(** An entry of [fs.readdir(dir, { withFileTypes: true })]; the listing of
    a directory is [None] when reading it fails. *)
#[local] Unset Elimination Schemes.
Inductive dirent : Type :=
| FileEntry (name : jstring)
| DirectoryEntry (name : jstring) (listing : option (list dirent))
| OtherEntry (name : jstring).
#[local] Set Elimination Schemes.

Definition entryName (e : dirent) : jstring :=
  match e with
  | FileEntry n | DirectoryEntry n _ | OtherEntry n => n
  end.

(** One turn of [for (const entry of entries)]: the files found and the
    warnings written. *)
Fixpoint scanEntry (gitignore : jstring -> bool) (dirPath relativePath : jstring)
         (entry : dirent) {struct entry} : list jstring * list logEntry :=
  let fullPath := path_join dirPath (entryName entry) in
  let relativeFilePath := slashes (path_join relativePath (entryName entry)) in
  if gitignore relativeFilePath then ([], [])
  else
    match entry with
    | DirectoryEntry name listing =>
        if has ignoredDirectories name then ([], [])
        else
          match listing with
          | None => ([], [ErrorScanningDirectory fullPath])
          | Some entries =>
              (fix each (es : list dirent) : list jstring * list logEntry :=
                 match es with
                 | [] => ([], [])
                 | e :: es' =>
                     let found := scanEntry gitignore fullPath relativeFilePath e in
                     let others := each es' in
                     (fst found ++ fst others, snd found ++ snd others)
                 end) entries
          end
    | FileEntry name =>
        if has supportedExtensions (toLowerCase (path_extname name))
        then ([fullPath], []) else ([], [])
    | OtherEntry _ => ([], [])
    end.

Definition scanDirectory (dirPath : jstring) (listing : option (list dirent))
           (gitignore : jstring -> bool) (relativePath : jstring)
  : list jstring * list logEntry :=
  match listing with
  | None => ([], [ErrorScanningDirectory dirPath])
  | Some entries =>
      fold_right
        (fun e others =>
           let found := scanEntry gitignore dirPath relativePath e in
           (fst found ++ fst others, snd found ++ snd others))
        ([], []) entries
  end.

(** [root] is the directory tree found at [repositoryPath]. *)
Definition processRepository (root : option (list dirent))
           (repositoryPath repositoryName : jstring) : list chunk * list logEntry :=
  let gitignore := loadGitignore repositoryPath in
  let scanned := scanDirectory repositoryPath root gitignore [] in
  fold_left
    (fun acc file =>
       let fileChunks := processFile file repositoryPath repositoryName in
       (fst acc ++ fst fileChunks, snd acc ++ snd fileChunks))
    (fst scanned) ([], snd scanned).

End WithHost.

(** *** A host for the examples

    Paths are POSIX paths without trailing separators; [JSON.parse]
    accepts the five texts listed and rejects the rest, and every example
    below is stated on inputs where Node answers the same. *)
Module ExampleHost.

Fixpoint afterLast (c : ascii) (seen p : jstring) : jstring :=
  match p with
  | [] => seen
  | x :: p' => if Ascii.eqb x c then afterLast c p' p' else afterLast c seen p'
  end.

Definition basename (p : jstring) : jstring := afterLast "/"%char p p.

Fixpoint lastDot (p : jstring) : option jstring :=
  match p with
  | [] => None
  | x :: p' =>
      match lastDot p' with
      | Some e => Some e
      | None => if Ascii.eqb x "."%char then Some p else None
      end
  end.

Definition extname (p : jstring) : jstring :=
  match basename p with
  | [] => []
  | first :: rest =>
      match lastDot rest with
      | Some e => e
      | None => []
      end
  end.

Fixpoint stripPrefix (prefix p : jstring) : option jstring :=
  match prefix, p with
  | [], _ => Some p
  | a :: prefix', b :: p' => if Ascii.eqb a b then stripPrefix prefix' p' else None
  | _ :: _, [] => None
  end.

Definition relative (from to : jstring) : jstring :=
  match stripPrefix (from ++ lit "/") to with
  | Some rest => rest
  | None => to
  end.

Inductive value : Set := EmptyObject | EmptyArray | Null | True | False.

Definition parse (text : jstring) : option value :=
  if streq text (lit "{}") then Some EmptyObject
  else if streq text (lit "[]") then Some EmptyArray
  else if streq text (lit "null") then Some Null
  else if streq text (lit "true") then Some True
  else if streq text (lit "false") then Some False
  else None.

Definition stringify (v : value) (indent : nat) : jstring :=
  match v with
  | EmptyObject => lit "{}"
  | EmptyArray => lit "[]"
  | Null => lit "null"
  | True => lit "true"
  | False => lit "false"
  end.

(** [files] is the content of the readable files, by path. *)
Definition host (files : list (jstring * jstring)) : Host :=
  {| json := value;
     JSON_parse := parse;
     JSON_stringify := stringify;
     path_join := fun a b => match a with [] => b | _ => a ++ lit "/" ++ b end;
     path_relative := relative;
     path_basename := basename;
     path_extname := extname;
     ignore_ignores := fun _ _ => false;
     fs_readFile := fun p => lookup p files |}.

(** A small repository: one source file, one markdown file, two JSON
    files (the second malformed) and an unreadable directory. *)
Definition exampleFiles : list (jstring * jstring) :=
  [ (lit "repo/auth.js",
     lit "// session helpers
import db from './db';

function login(user) {
  /* check
     the password */
  return db.check(user);
}");
    (lit "repo/README.md",
     lit "Bigstack
# Setup
Run the installer.
## Usage
See the API.");
    (lit "repo/package.json", lit "{}");
    (lit "repo/broken.json", lit "{oops") ].

Definition exampleRoot : option (list dirent) :=
  Some [ FileEntry (lit "auth.js"); FileEntry (lit "README.md");
         FileEntry (lit "package.json"); FileEntry (lit "broken.json");
         FileEntry (lit "logo.png");
         DirectoryEntry (lit "node_modules") None;
         DirectoryEntry (lit "private") None ].

Definition exampleHost : Host := host exampleFiles.

End ExampleHost.

End Processor.

(* ===================================================================== *)
(** ** JavaScript numbers *)
(* ===================================================================== *)

Module Double.

Definition prec : Z := 53%Z.
Definition emax : Z := 1024%Z.

(** A Number value. *)
Definition double : Type := spec_float.

(** [x * y], [x - y] and [x / y] *)
Definition mul : double -> double -> double := SFmul prec emax.
Definition sub : double -> double -> double := SFsub prec emax.
Definition div : double -> double -> double := SFdiv prec emax.

(** [x < y], [x <= y] and [x === y]; all three are false when an operand
    is NaN. *)
Definition ltb : double -> double -> bool := SFltb.
Definition leb : double -> double -> bool := SFleb.
Definition eqb : double -> double -> bool := SFeqb.

Definition zero : double := S754_zero false.

(** The decimal literal whose value is the fraction [n / d], for instance
    [literal 15 10] for [1.5]: the double nearest to it, which the
    division of the library gives for the two integers. *)
Definition literal (n d : positive) : double :=
  div (S754_finite false n 0) (S754_finite false d 0).

Definition isNaN (x : double) : bool :=
  match x with S754_nan => true | _ => false end.

Definition isFinite (x : double) : bool :=
  match x with S754_zero _ | S754_finite _ _ _ => true | _ => false end.

(** The mantissa and the exponent are those of a binary64 value. *)
Definition valid : double -> bool := valid_binary prec emax.

(** A number of a JSON text: a double that is neither NaN nor infinite. *)
Record number : Type := mkNumber {
  value : double;
  value_is_number : valid value && isFinite value = true
}.

End Double.

(* ===================================================================== *)
(** ** The RAG service: ranking and context assembly *)
(* ===================================================================== *)

Module Rag.

(** [metadata] of an indexed document, as far as [buildContext] reads it. *)
Record metadata : Type := mkMetadata {
  functionName : option jstring;
  className : option jstring
}.

(** One element of the array returned by [hybridSearch]
    ([{ id, score, ...hit._source }]). *)
Record hit : Type := mkHit {
  score : Double.number;
  content : jstring;
  filePath : jstring;
  fileName : jstring;
  chunkType : jstring;
  meta : option metadata
}.

(** [{ ...chunk, adjustedScore: relevanceScore }] *)
Record ranked : Type := mkRanked {
  chunk : hit;
  adjustedScore : Double.double
}.

Definition boost : Double.double := Double.literal 15 10.          (* 1.5 *)
Definition relevanceFloor : Double.double := Double.literal 3 10.  (* 0.3 *)

(** The four outer tests, on [queryLower]. *)
Definition asksSetup (queryLower : jstring) : bool :=
  includes (lit "setup") queryLower || includes (lit "install") queryLower
  || includes (lit "configure") queryLower.

Definition asksApi (queryLower : jstring) : bool :=
  includes (lit "api") queryLower || includes (lit "endpoint") queryLower
  || includes (lit "route") queryLower.

Definition asksDatabase (queryLower : jstring) : bool :=
  includes (lit "database") queryLower || includes (lit "model") queryLower
  || includes (lit "schema") queryLower.

Definition asksAuth (queryLower : jstring) : bool :=
  includes (lit "auth") queryLower || includes (lit "login") queryLower
  || includes (lit "user") queryLower.

(** The four inner tests, on the candidate. *)
Definition isSetupChunk (c : hit) : bool :=
  streq (fileName c) (lit "package.json") || streq (fileName c) (lit "README.md")
  || streq (chunkType c) (lit "documentation").

Definition isApiChunk (c : hit) : bool :=
  includes (lit "routes") (filePath c) || streq (chunkType c) (lit "route").

Definition isDatabaseChunk (c : hit) : bool :=
  includes (lit "models") (filePath c) || streq (chunkType c) (lit "class").

Definition isAuthChunk (c : hit) : bool :=
  includes (lit "auth") (filePath c)
  || includes (lit "auth") (toLowerCase (content c)).

(** The callback of [searchResults.map]. *)
Definition rescore (queryLower : jstring) (c : hit) : ranked :=
  let relevanceScore := Double.value (score c) in
  let relevanceScore :=
    if asksSetup queryLower then
      if isSetupChunk c then Double.mul relevanceScore boost else relevanceScore
    else relevanceScore in
  let relevanceScore :=
    if asksApi queryLower then
      if isApiChunk c then Double.mul relevanceScore boost else relevanceScore
    else relevanceScore in
  let relevanceScore :=
    if asksDatabase queryLower then
      if isDatabaseChunk c then Double.mul relevanceScore boost else relevanceScore
    else relevanceScore in
  let relevanceScore :=
    if asksAuth queryLower then
      if isAuthChunk c then Double.mul relevanceScore boost else relevanceScore
    else relevanceScore in
  mkRanked c relevanceScore.

(** [Array.prototype.sort(compare)].  The sort of the language is stable;
    with a comparator that is a total preorder its result is the stable
    ordering, which insertion from the right computes: [x] moves behind
    [y] when [compare(x, y) > 0], and stays in front of it when the
    comparator answers a negative number, zero or NaN, which the sort
    takes for zero. *)
Section Sort.
Variable A : Type.
Variable compare : A -> A -> Double.double.

Fixpoint insert (x : A) (l : list A) : list A :=
  match l with
  | [] => [x]
  | y :: l' =>
      if Double.ltb Double.zero (compare x y) then y :: insert x l'
      else x :: y :: l'
  end.

Definition sort (l : list A) : list A := fold_right insert [] l.
End Sort.

(** [(a, b) => b.adjustedScore - a.adjustedScore] *)
Definition byScoreDesc (a b : ranked) : Double.double :=
  Double.sub (adjustedScore b) (adjustedScore a).

(** [chunk => chunk.adjustedScore > 0.3] *)
Definition aboveFloor (c : ranked) : bool :=
  Double.ltb relevanceFloor (adjustedScore c).

Definition filterAndRankResults (searchResults : list hit) (query : jstring)
  : list ranked :=
  let queryLower := toLowerCase query in
  filter aboveFloor (sort byScoreDesc (map (rescore queryLower) searchResults)).

(** [searchRelevantContext].  The index is an input: [hybridSearch query
    embedding limit filters] is the array of hits, or the error the call
    throws.  [filters.repository] is set when [repositoryFilter] is truthy. *)
Section Search.
Variables embedding error : Type.
Variable hybridSearch :
  jstring -> embedding -> nat -> option jstring -> error + list hit.

Definition filtersOf (repositoryFilter : option jstring) : option jstring :=
  match repositoryFilter with
  | Some r => if truthy r then Some r else None
  | None => None
  end.

Definition searchRelevantContext (query : jstring) (queryEmbedding : embedding)
           (repositoryFilter : option jstring) : error + list ranked :=
  match hybridSearch query queryEmbedding 15 (filtersOf repositoryFilter) with
  | inl e => inl e
  | inr searchResults =>
      inr (firstn 8 (filterAndRankResults searchResults query))
  end.
End Search.

(** *** buildContext *)

Definition sentinel : jstring :=
  lit "No specific codebase context found for this query.".

Definition fence : jstring := lit "```".

(** [chunk.metadata?.functionName], when truthy. *)
Definition truthyField (f : metadata -> option jstring) (c : hit) : option jstring :=
  match meta c with
  | Some m =>
      match f m with
      | Some v => if truthy v then Some v else None
      | None => None
      end
  | None => None
  end.

(** [${chunk.content.substring(0, 1000)}${chunk.content.length > 1000 ? '...' : ''}] *)
Definition renderedContent (text : jstring) : jstring :=
  substring0 1000 text ++ (if 1000 <? length text then lit "..." else []).

(** The statements of the [forEach] callback that come before the content:
    the heading, the path, and the function and class names when truthy. *)
Definition blockHead (index : nat) (c : hit) : jstring :=
  lit "### " ++ ofNat (index + 1) ++ lit ". " ++ fileName c
    ++ lit " (" ++ chunkType c ++ lit ")" ++ [LF]
  ++ (lit "**File Path:** " ++ filePath c ++ [LF])
  ++ match truthyField functionName c with
     | Some f => lit "**Function:** " ++ f ++ [LF]
     | None => []
     end
  ++ match truthyField className c with
     | Some n => lit "**Class:** " ++ n ++ [LF]
     | None => []
     end.

(** The last statement of the callback. *)
Definition blockContent (c : hit) : jstring :=
  lit "**Content:**" ++ [LF] ++ fence ++ [LF]
  ++ renderedContent (content c) ++ [LF] ++ fence ++ [LF] ++ [LF].

(** The text one call of the callback appends. *)
Definition block (index : nat) (c : hit) : jstring :=
  blockHead index c ++ blockContent c.

(** [relevantChunks.forEach((chunk, index) => { context += ... })] *)
Fixpoint forEachChunk (index : nat) (cs : list ranked) (context : jstring) : jstring :=
  match cs with
  | [] => context
  | c :: rest => forEachChunk (index + 1) rest (context ++ block index (chunk c))
  end.

Definition buildContext (relevantChunks : list ranked) : jstring :=
  if length relevantChunks =? 0 then sentinel
  else forEachChunk 0 relevantChunks
         (lit "## Relevant Codebase Information:" ++ [LF] ++ [LF]).

End Rag.

(* ===================================================================== *)
(** ** repository-api.js and the ingest script: ingestion *)
(* ===================================================================== *)

Module Ingest.

(** *** The embedding-and-indexing loop

    [for (let i = 0; i < chunks.length; i += batchSize) {
       const batch = chunks.slice(i, i + batchSize);
       await Promise.all(batch.map(async (chunk) => {
         try { embed; index; processedCount++; } catch (error) { log } }));
       ... }]

    The callbacks of one batch run interleaved on a single thread; each
    increments the counter at most once, so the counter after the batch
    does not depend on the interleaving.  [succeeds k] tells whether both
    awaited calls resolve for the chunk at position [k] of [chunks]. *)
Section BatchLoop.
Variable T : Type.
Variable batchSize : nat.
Hypothesis batchSize_pos : 0 < batchSize.
Variable succeeds : nat -> bool.
(** What follows [Promise.all] in the loop body, given the counter. *)
Variable afterBatch : nat -> T -> T.
(** [chunks.length] *)
Variable total : nat.

(** The callback, for the chunk at position [k]. *)
Definition processItem (processedCount k : nat) : nat :=
  if succeeds k then processedCount + 1 else processedCount.

(** Positions of [chunks.slice(i, i + batchSize)]. *)
Definition batchPositions (i : nat) : list nat :=
  seq i (Nat.min batchSize (total - i)).

Definition processBatch (processedCount i : nat) : nat :=
  fold_left processItem (batchPositions i) processedCount.

Equations? batchLoop (i processedCount : nat) (st : T) : nat * T
  by wf (total - i) lt :=
batchLoop i processedCount st with lt_dec i total := {
  | left _ =>
      let processedCount' := processBatch processedCount i in
      batchLoop (i + batchSize) processedCount' (afterBatch processedCount' st)
  | right _ => (processedCount, st) }.
Proof. lia. Qed.
End BatchLoop.

(** *** processRepositoryAsync *)

Inductive jobStatus : Set := processing | completed | failed.

(** The [message] of a status record:
    ['Cloning repository...'], ['Processing code files...'],
    ['Generating embeddings...'],
    [`Indexing chunks... ${Math.round(processedCount / chunks.length * 100)}%`],
    [`Successfully processed ${processedCount} chunks`], [error.message]. *)
Inductive jobMessage : Type :=
| Cloning
| ProcessingFiles
| GeneratingEmbeddings
| Indexing (processedCount total : nat)
| SuccessfullyProcessed (processedCount : nat)
| ErrorMessage (text : jstring).

Record statusRecord : Type := mkStatus {
  status : jobStatus;
  message : jobMessage
}.

(** The tables written by the job: the updates issued for this ingestion
    with [updateIngestionStatus] (oldest first; the item stored under the
    ingestion id is the last one) and the [totalChunks] saved with
    [saveRepositoryMetadata].  Both helpers catch their own errors. *)
Record tables : Type := mkTables {
  ingestions : list statusRecord;
  repositories : list nat
}.

Definition updateIngestionStatus (s : jobStatus) (m : jobMessage) (t : tables) : tables :=
  mkTables (ingestions t ++ [mkStatus s m]) (repositories t).

Definition saveRepositoryMetadata (totalChunks : nat) (t : tables) : tables :=
  mkTables (ingestions t) (repositories t ++ [totalChunks]).

(** The outcome of every awaited call that can reject. *)
Record world : Type := mkWorld {
  gitClone : option jstring;                          (* [Some m]: rejects *)
  processRepository : jstring + list Processor.chunk; (* [inl m]: throws *)
  generateCodeEmbeddings : nat -> bool;               (* per chunk position *)
  indexCodeChunk : nat -> bool
}.

Definition itemSucceeds (w : world) (k : nat) : bool :=
  generateCodeEmbeddings w k && indexCodeChunk w k.

(** Computations that write the tables and may throw [error.message]. *)
Definition job (A : Type) : Type := tables -> (jstring + A) * tables.

Definition ret {A} (a : A) : job A := fun t => (inr a, t).
Definition throw {A} (m : jstring) : job A := fun t => (inl m, t).
Definition bind {A B} (c : job A) (k : A -> job B) : job B :=
  fun t => match c t with
           | (inr a, t') => k a t'
           | (inl m, t') => (inl m, t')
           end.
Definition tryCatch {A} (body : job A) (handler : jstring -> job A) : job A :=
  fun t => match body t with
           | (inr a, t') => (inr a, t')
           | (inl m, t') => handler m t'
           end.
Definition write (f : tables -> tables) : job unit := fun t => (inr tt, f t).

Notation "x <- c ;; k" := (bind c (fun x => k))
  (at level 61, c at next level, right associativity).
Notation "c ;;; k" := (bind c (fun _ => k))
  (at level 61, right associativity).

Definition batchSize : nat := 10.

Definition batchSize_pos : 0 < batchSize := Nat.lt_0_succ 9.

Definition indexAll (w : world) (chunks : list Processor.chunk) : job nat :=
  fun t =>
    let total := length chunks in
    let '(processedCount, t') :=
      batchLoop batchSize_pos (itemSucceeds w)
        (fun count => updateIngestionStatus processing (Indexing count total))
        total 0 0 t in
    (inr processedCount, t').

(** [if (localPath) { repositoryPath = localPath } else { await git.clone(...) }] *)
Definition obtainRepository (w : world) (localPath : option jstring) : job unit :=
  let clone := match gitClone w with Some m => throw m | None => ret tt end in
  match localPath with
  | Some p => if truthy p then ret tt else clone
  | None => clone
  end.

(** The body of [try] and the [catch] block.  The removal of the
    temporary directory, whose rejection is caught, and the console lines
    write no table and are left out. *)
Definition processRepositoryAsync (w : world) (localPath : option jstring) : job unit :=
  tryCatch
    (write (updateIngestionStatus processing Cloning) ;;;
     obtainRepository w localPath ;;;
     write (updateIngestionStatus processing ProcessingFiles) ;;;
     chunks <- (match processRepository w with
                | inl m => throw m
                | inr chunks => ret chunks
                end) ;;
     write (updateIngestionStatus processing GeneratingEmbeddings) ;;;
     processedCount <- indexAll w chunks ;;
     write (saveRepositoryMetadata processedCount) ;;;
     write (updateIngestionStatus completed (SuccessfullyProcessed processedCount)))
    (fun m => write (updateIngestionStatus failed (ErrorMessage m))).

(** The status stored under the ingestion id when the job has run. *)
Definition finalStatus (t : tables) : option statusRecord :=
  last (map Some (ingestions t)) None.

(** *** The loop of the ingest script: the same loop with [batchSize = 5];
    between batches it only waits. *)
Definition scriptBatchSize : nat := 5.

Definition scriptBatchSize_pos : 0 < scriptBatchSize := Nat.lt_0_succ 4.

Definition scriptIndexed (succeeds : nat -> bool) (total : nat) : nat :=
  fst (batchLoop scriptBatchSize_pos succeeds (fun _ (u : unit) => u) total 0 0 tt).

End Ingest.

(* ===================================================================== *)
(** ** bedrock-service.js: the texts sent to the models *)
(* ===================================================================== *)

(** The strings kept in [chunk.type]. *)
Module ChunkType.

Definition name (t : Processor.chunkType) : jstring :=
  match t with
  | Processor.file_overview => lit "file_overview"
  | Processor.function => lit "function"
  | Processor.class => lit "class"
  | Processor.route => lit "route"
  | Processor.documentation => lit "documentation"
  | Processor.configuration => lit "configuration"
  end.

End ChunkType.

Module Bedrock.

(** [s.replace(/\s+/g, " ")]: every maximal run of white space becomes one
    space.  [inRun] tells that the unit in front belongs to the run being
    replaced. *)
Fixpoint replaceSpaces (inRun : bool) (s : jstring) : jstring :=
  match s with
  | [] => []
  | c :: rest =>
      if isSpace c
      then (if inRun then replaceSpaces true rest
            else " "%char :: replaceSpaces true rest)
      else c :: replaceSpaces false rest
  end.

(** [codeChunk.description ? `Description: ${codeChunk.description}` : ""] *)
Definition descriptionLine (description : option jstring) : jstring :=
  match description with
  | Some d => if truthy d then lit "Description: " ++ d else []
  | None => []
  end.

(** [preprocessCodeForEmbedding]: the text embedded for a chunk. *)
Definition preprocessCodeForEmbedding (codeChunk : Processor.chunk) : jstring :=
  let processed := trim (replaceSpaces false (Processor.content codeChunk)) in
  join [LF]
    (filter truthy
       [ lit "File: " ++ Processor.filePath codeChunk;
         lit "Type: " ++ ChunkType.name (Processor.type codeChunk);
         descriptionLine (Processor.description codeChunk);
         lit "Content: " ++ processed ]).

(** *** Objects read by [buildPrompt]

    The elements of [conversationHistory] are the objects stored in the
    session.  A property of such an object is a string or an array of plain
    objects; a property the object does not have reads as [undefined]. *)
Inductive jsValue : Type :=
| undefined
| text (s : jstring)
| objects (n : nat).

Definition jsObject : Type := list (jstring * jsValue).

(** [o.key] *)
Fixpoint property (key : jstring) (o : jsObject) : jsValue :=
  match o with
  | [] => undefined
  | (k, v) :: o' => if streq key k then v else property key o'
  end.

(** [`${v}`] *)
Definition interpolate (v : jsValue) : jstring :=
  match v with
  | undefined => lit "undefined"
  | text s => s
  | objects n => join (lit ",") (repeat (lit "[object Object]") n)
  end.

(** [(msg) => `${msg.role}: ${msg.content}`] *)
Definition historyLine (msg : jsObject) : jstring :=
  interpolate (property (lit "role") msg) ++ lit ": "
  ++ interpolate (property (lit "content") msg).

Definition preamble : jstring :=
  lit "You are an AI assistant specialized in helping developers understand codebases and get onboarded to new projects. You have access to the codebase context and should provide accurate, helpful responses.".

Definition instructions : jstring :=
  lit "## Instructions:
1. Provide clear, accurate answers based on the codebase context
2. Include specific file names, function names, and code snippets when relevant
3. If you're not sure about something, say so rather than guessing
4. For setup questions, provide step-by-step instructions
5. For architecture questions, explain the overall structure and relationships
6. Use markdown formatting for better readability

Please answer the question:".

Definition buildPrompt (userQuestion codebaseContext : jstring)
           (conversationHistory : list jsObject) : jstring :=
  preamble ++ [LF] ++ [LF]
  ++ lit "## Codebase Context:" ++ [LF]
  ++ codebaseContext ++ [LF] ++ [LF]
  ++ lit "## Conversation History:" ++ [LF]
  ++ join [LF] (map historyLine conversationHistory) ++ [LF] ++ [LF]
  ++ lit "## Current Question:" ++ [LF]
  ++ userQuestion ++ [LF] ++ [LF]
  ++ instructions.

End Bedrock.

(* ===================================================================== *)
(** ** opensearch-service.js: what is stored and what a search returns *)
(* ===================================================================== *)

Module OpenSearch.

Record documentMetadata : Type := mkDocumentMetadata {
  startLine : nat;
  endLine : nat;
  functionName : option jstring;
  className : option jstring;
  description : option jstring
}.

Record document (vector : Type) : Type := mkDocument {
  content : jstring;
  embedding : vector;
  filePath : jstring;
  fileName : jstring;
  fileType : jstring;
  chunkType : jstring;
  repository : jstring;
  branch : jstring;
  timestamp : jstring;
  metadata : documentMetadata
}.

(** The [document] built by [indexCodeChunk]; [now] is
    [new Date().toISOString()].  The chunks of the processor carry no
    [branch], so [codeChunk.branch || 'main'] is ['main']. *)
Definition documentOf {vector : Type} (codeChunk : Processor.chunk)
           (embedding : vector) (now : jstring) : document vector :=
  mkDocument (Processor.content codeChunk) embedding
             (Processor.filePath codeChunk) (Processor.fileName codeChunk)
             (Processor.fileType codeChunk)
             (ChunkType.name (Processor.type codeChunk))
             (Processor.repository codeChunk)
             (lit "main") now
             (mkDocumentMetadata
                (Processor.startLine codeChunk) (Processor.endLine codeChunk)
                (Processor.functionName codeChunk)
                (Processor.className codeChunk)
                (Processor.description codeChunk)).

(** The callback of [response.body.hits.hits.map] in [hybridSearch]:
    [{ id, score: hit._score, ...hit._source }], where [_source] is the
    stored document without its embedding. *)
Definition resultOf {vector : Type} (score : Double.number) (d : document vector)
  : Rag.hit :=
  Rag.mkHit score (content d) (filePath d) (fileName d) (chunkType d)
            (Some (Rag.mkMetadata (functionName (metadata d))
                                  (className (metadata d)))).

End OpenSearch.

(* ===================================================================== *)
(** ** rag-service.js: sessions, history, suggestions, intents *)
(* ===================================================================== *)

Module RagService.

(** An element of [interaction.sources]. *)
Record savedSource : Type := mkSavedSource {
  filePath : jstring;
  fileName : jstring;
  score : Double.number
}.

Record interaction : Type := mkInteraction {
  timestamp : jstring;
  query : jstring;
  response : jstring;
  sources : list savedSource
}.

Record session : Type := mkSession {
  sessionId : jstring;
  createdAt : jstring;
  lastUpdated : jstring;
  conversationHistory : list interaction;
  queryCount : nat
}.

(** An element of the [sources] returned by [processQuery]. *)
Record citedSource : Type := mkCitedSource {
  citedFilePath : jstring;
  citedFileName : jstring;
  citedChunkType : jstring;
  citedScore : Double.number
}.

(** The value [processQuery] resolves to; [answerSessionId] is the
    [sessionId] argument as it was passed. *)
Record answer : Type := mkAnswer {
  answerResponse : jstring;
  answerSources : list citedSource;
  answerSessionId : option jstring
}.

(** The object stored for an interaction, as [buildPrompt] reads it back. *)
Definition interactionObject (i : interaction) : Bedrock.jsObject :=
  [ (lit "timestamp", Bedrock.text (timestamp i));
    (lit "query", Bedrock.text (query i));
    (lit "response", Bedrock.text (response i));
    (lit "sources", Bedrock.objects (length (sources i))) ].

(** *** The sessions table

    The items by key.  The table answers every request; it rejects an
    [UpdateCommand] whose key is empty or whose item does not exist (the
    update expression reads [queryCount]).  [clockReads] counts the
    evaluations of [new Date()]. *)
Definition table : Type := list (jstring * session).

Fixpoint getItem (key : jstring) (t : table) : option session :=
  match t with
  | [] => None
  | (k, item) :: t' => if streq key k then Some item else getItem key t'
  end.

Fixpoint putItem (key : jstring) (item : session) (t : table) : table :=
  match t with
  | [] => [(key, item)]
  | (k, old) :: t' =>
      if streq key k then (k, item) :: t' else (k, old) :: putItem key item t'
  end.

Record store : Type := mkStore {
  items : table;
  clockReads : nat
}.

Section Service.
Variables vector error : Type.

(** The services awaited by [processQuery], each with the error it throws;
    [invokeModel] is the reply of the model to a full prompt. *)
Record services : Type := mkServices {
  generateEmbeddings : jstring -> error + vector;
  hybridSearch : jstring -> vector -> nat -> option jstring -> error + list Rag.hit;
  invokeModel : jstring -> error + jstring;
  tableRejects : error;
  toISOString : nat -> jstring;
  uuidv4 : jstring
}.

Variable w : services.

Definition action (A : Type) : Type := store -> (error + A) * store.

Definition resolve {A} (a : A) : action A := fun st => (inr a, st).
Definition andThen {A B} (c : action A) (k : A -> action B) : action B :=
  fun st => match c st with
            | (inr a, st') => k a st'
            | (inl e, st') => (inl e, st')
            end.
Definition await {A} (outcome : error + A) : action A :=
  fun st => (outcome, st).

(** [new Date().toISOString()] *)
Definition now : action jstring :=
  fun st => (inr (toISOString w (clockReads st)),
             mkStore (items st) (clockReads st + 1)).

Definition send_put (key : jstring) (item : session) : action unit :=
  fun st => (inr tt, mkStore (putItem key item (items st)) (clockReads st)).

(** [sessionId] when it is truthy. *)
Definition given (sessionId : option jstring) : option jstring :=
  match sessionId with
  | Some s => if truthy s then Some s else None
  | None => None
  end.

Definition getOrCreateSession (sessionId : option jstring) : action session :=
  let sessionId :=
    match given sessionId with
    | Some s => s
    | None => uuidv4 w
    end in
  fun st =>
    match getItem sessionId (items st) with
    | Some item => (inr item, st)
    | None =>
        andThen now (fun createdAt =>
        andThen now (fun lastUpdated =>
        let newSession := mkSession sessionId createdAt lastUpdated [] 0 in
        andThen (send_put sessionId newSession) (fun _ =>
        resolve newSession))) st
    end.

(** [s => ({ filePath: s.filePath, fileName: s.fileName, score: s.score })] *)
Definition savedSourceOf (s : Rag.ranked) : savedSource :=
  mkSavedSource (Rag.filePath (Rag.chunk s)) (Rag.fileName (Rag.chunk s))
                (Rag.score (Rag.chunk s)).

(** The [UpdateCommand]: [SET lastUpdated = :lastUpdated,
    queryCount = queryCount + :inc,
    conversationHistory = list_append(conversationHistory, :interaction)]. *)
Definition send_update (sessionId : option jstring) (lastUpdated : jstring)
           (i : interaction) : action unit :=
  fun st =>
    match given sessionId with
    | Some key =>
        match getItem key (items st) with
        | Some item =>
            (inr tt,
             mkStore (putItem key
                        (mkSession (RagService.sessionId item) (createdAt item)
                                   lastUpdated
                                   (conversationHistory item ++ [i])
                                   (queryCount item + 1))
                        (items st))
                     (clockReads st))
        | None => (inl (tableRejects w), st)
        end
    | None => (inl (tableRejects w), st)
    end.

Definition updateSession (sessionId : option jstring) (query response : jstring)
           (sources : list Rag.ranked) : action unit :=
  andThen now (fun timestamp =>
  let interaction :=
    mkInteraction timestamp query response (map savedSourceOf sources) in
  andThen now (fun lastUpdated =>
  send_update sessionId lastUpdated interaction)).

(** [generateResponse(prompt, context, conversationHistory)] *)
Definition generateResponse (prompt context : jstring)
           (conversationHistory : list interaction) : error + jstring :=
  invokeModel w (Bedrock.buildPrompt prompt context
                   (map interactionObject conversationHistory)).

Definition citedSourceOf (c : Rag.ranked) : citedSource :=
  mkCitedSource (Rag.filePath (Rag.chunk c)) (Rag.fileName (Rag.chunk c))
                (Rag.chunkType (Rag.chunk c)) (Rag.score (Rag.chunk c)).

(** [processQuery]; its [catch] block logs and rethrows. *)
Definition processQuery (query : jstring) (sessionId repositoryFilter : option jstring)
  : action answer :=
  andThen (getOrCreateSession sessionId) (fun session =>
  andThen (await (generateEmbeddings w query)) (fun queryEmbedding =>
  andThen (await (Rag.searchRelevantContext (hybridSearch w) query queryEmbedding
                 repositoryFilter)) (fun relevantChunks =>
  let context := Rag.buildContext relevantChunks in
  andThen (await (generateResponse query context (conversationHistory session)))
       (fun response =>
  andThen (updateSession sessionId query response relevantChunks) (fun _ =>
  resolve (mkAnswer response (map citedSourceOf relevantChunks) sessionId)))))).

End Service.

(** *** getConversationHistory *)

(** [array.slice(start)] for an integer [start]. *)
Definition slice {A : Type} (start : Z) (l : list A) : list A :=
  let n := Z.of_nat (length l) in
  let k := if (start <? 0)%Z then Z.max (n + start) 0 else Z.min start n in
  skipn (Z.to_nat k) l.

(** [-limit], as [slice] reads it: [limit] is an integer or [NaN] ([None]),
    and [NaN] is read as 0. *)
Definition minus (limit : option Z) : Z :=
  match limit with
  | Some n => (- n)%Z
  | None => 0%Z
  end.

(** [result] is the outcome of the [GetCommand]: the error it throws, or
    the item found, if any, with its [conversationHistory] attribute, if
    any. *)
Definition getConversationHistory {error A : Type}
           (result : error + option (option (list A))) (limit : option Z) : list A :=
  match result with
  | inr (Some (Some conversationHistory)) => slice (minus limit) conversationHistory
  | inr _ => []
  | inl _ => []
  end.

(** *** generateSuggestedQuestions *)

(** A bucket of the [file_types] aggregation. *)
Record bucket : Type := mkBucket {
  key : jstring;
  doc_count : nat
}.

Definition baseSuggestions : list jstring :=
  map lit
    [ "How do I set up the development environment for this project?";
      "What is the overall architecture of this application?";
      "How does authentication work in this system?";
      "What are the main API endpoints and what do they do?";
      "How do I run tests for this project?";
      "What dependencies does this project use?";
      "How is the database configured?";
      "What is the deployment process?" ]%string.

Definition nodeSuggestions : list jstring :=
  map lit [ "How do I install npm dependencies?";
            "What Node.js version is required?" ]%string.

Definition pythonSuggestions : list jstring :=
  map lit [ "How do I set up a Python virtual environment?";
            "What Python packages are required?" ]%string.

Definition fallbackSuggestions : list jstring :=
  map lit [ "How do I set up this project?";
            "What is the project structure?";
            "How do I run the application?" ]%string.

(** [fileTypes] is what [getRepositoryStats] returns in [stats.fileTypes],
    or the error it throws. *)
Definition generateSuggestedQuestions {error : Type}
           (fileTypes : error + list bucket) : list jstring :=
  match fileTypes with
  | inl _ => fallbackSuggestions
  | inr fileTypes =>
      let suggestions := baseSuggestions in
      let suggestions :=
        if existsb (fun ft => streq (key ft) (lit "javascript")
                              || streq (key ft) (lit "typescript")) fileTypes
        then suggestions ++ nodeSuggestions else suggestions in
      let suggestions :=
        if existsb (fun ft => streq (key ft) (lit "python")) fileTypes
        then suggestions ++ pythonSuggestions else suggestions in
      firstn 6 suggestions
  end.

(** *** analyzeQueryIntent *)

Definition intents : list (jstring * list jstring) :=
  map (fun entry => (lit (fst entry), map lit (snd entry)))
    [ ("setup", ["setup"; "install"; "configure"; "environment"; "dependencies"]);
      ("architecture", ["architecture"; "structure"; "design"; "overview"; "how does"]);
      ("api", ["api"; "endpoint"; "route"; "request"; "response"]);
      ("database", ["database"; "db"; "model"; "schema"; "data"]);
      ("authentication", ["auth"; "login"; "user"; "permission"; "token"]);
      ("deployment", ["deploy"; "build"; "production"; "docker"; "server"]);
      ("testing", ["test"; "testing"; "spec"; "unit"; "integration"]);
      ("troubleshooting", ["error"; "issue"; "problem"; "debug"; "fix"]) ]%string.

(** [keywords.some(keyword => queryLower.includes(keyword))] *)
Definition mentions (queryLower : jstring) (keywords : list jstring) : bool :=
  existsb (fun keyword => includes keyword queryLower) keywords.

(** The loop over [Object.entries(intents)], left at the first intent one
    of whose keywords occurs. *)
Fixpoint firstIntent (entries : list (jstring * list jstring)) (queryLower : jstring)
  : option jstring :=
  match entries with
  | [] => None
  | (intent, keywords) :: rest =>
      if mentions queryLower keywords then Some intent
      else firstIntent rest queryLower
  end.

Definition analyzeQueryIntent (query : jstring) : jstring :=
  let queryLower := toLowerCase query in
  match firstIntent intents queryLower with
  | Some intent => intent
  | None => lit "general"
  end.

End RagService.

(* ===================================================================== *)
(** ** chat-api.js: the query route *)
(* ===================================================================== *)

Module ChatApi.
Import RagService.

(** [req.body.query]: absent, a value that is not a string, or a string. *)
Inductive bodyValue : Type :=
| absent
| notAString
| textValue (s : jstring).

(** The reply of the route: status 400 with its [error], status 200 with
    the answer and the [timestamp], or status 500. *)
Inductive reply : Type :=
| badRequest (error : jstring)
| success (data : answer) (timestamp : jstring)
| serverError.

Definition queryRequired : jstring :=
  lit "Query is required and must be a non-empty string".

Definition queryTooLong : jstring :=
  lit "Query is too long. Maximum 1000 characters allowed.".

Section Route.
Variables vector error : Type.
Variable w : services vector error.

(** [router.post('/query', ...)] *)
Definition postQuery (query : bodyValue) (sessionId repository : option jstring)
  : store -> reply * store :=
  fun st =>
    match query with
    | textValue query =>
        if negb (truthy query) || (length (trim query) =? 0)
        then (badRequest queryRequired, st)
        else if 1000 <? length query
        then (badRequest queryTooLong, st)
        else
          let currentSessionId :=
            match given sessionId with
            | Some s => s
            | None => uuidv4 w
            end in
          match processQuery w (trim query) (Some currentSessionId) repository st with
          | (inr result, st') =>
              match now w st' with
              | (inr timestamp, st'') => (success result timestamp, st'')
              | (inl _, st'') => (serverError, st'')
              end
          | (inl _, st') => (serverError, st')
          end
    | _ => (badRequest queryRequired, st)
    end.

End Route.

End ChatApi.

(* ===================================================================== *)
(** ** The ingest script: the summary of a dry run *)
(* ===================================================================== *)

Module IngestScript.

(** [counts[key] = (counts[key] || 0) + 1] on an object whose keys are
    file types or chunk types; the entries are kept in the order
    [Object.entries] lists them, the order of first insertion. *)
Fixpoint increment (key : jstring) (counts : list (jstring * nat))
  : list (jstring * nat) :=
  match counts with
  | [] => [(key, 0 + 1)]
  | (k, n) :: rest =>
      if streq key k then (k, n + 1) :: rest else (k, n) :: increment key rest
  end.

(** The [forEach] of the dry run: [fileTypes] and [chunkTypes]. *)
Definition drySummary (chunks : list Processor.chunk)
  : list (jstring * nat) * list (jstring * nat) :=
  fold_left
    (fun counts chunk =>
       (increment (Processor.fileType chunk) (fst counts),
        increment (ChunkType.name (Processor.type chunk)) (snd counts)))
    chunks ([], []).

End IngestScript.

(* ===================================================================== *)
(** * Vocabulary of the properties *)
(* ===================================================================== *)

Module RegexSpec.

(** [matches r u]: the text [u] belongs to the language of [r]. *)
Inductive matches : regex -> jstring -> Prop :=
| mChar p c : p c = true -> matches (rChar p) [c]
| mEps : matches rEps []
| mSeq a b u v : matches a u -> matches b v -> matches (rSeq a b) (u ++ v)
| mAltL a b u : matches a u -> matches (rAlt a b) u
| mAltR a b u : matches b u -> matches (rAlt a b) u
| mStarNil a : matches (rStar a) []
| mStarApp a u v : matches a u -> matches (rStar a) v -> matches (rStar a) (u ++ v)
| mGroup n a u : matches a u -> matches (rGroup n a) u.

(** What [c*] does for a character class [p], with the continuation [k]:
    the longest run of the class after which [k] succeeds is taken. *)
Fixpoint greedy {R : Type} (p : ascii -> bool) (input : jstring) (caps : captures)
         (k : jstring -> captures -> option R) : option R :=
  match input with
  | c :: rest =>
      if p c then
        match greedy p rest caps k with
        | Some res => Some res
        | None => k input caps
        end
      else k input caps
  | [] => k input caps
  end.

End RegexSpec.

Module ProcessorSpec.
Import Processor ExampleHost.

(** Lines [a+1 .. b] of a file (1-based, inclusive). *)
Definition linesBetween (lines : list jstring) (a b : nat) : list jstring :=
  firstn (b - a) (skipn a lines).

(** [endLine >= startLine >= 1] and [endLine <= n]. *)
Definition inRange (n : nat) (c : chunk) : Prop :=
  1 <= startLine c /\ startLine c <= endLine c /\ endLine c <= n.

Definition isCodeType (t : chunkType) : Prop :=
  t = function \/ t = class \/ t = route.

(** What the loop of [extractCodeChunks] keeps true: the chunks pushed and
    the open chunk have a code type and a range inside the lines read. *)
Definition codeInv (k : nat) (st : codeScan) : Prop :=
  (forall c, In c (chunks st) -> isCodeType (type c) /\ inRange k c) /\
  (forall c, currentChunk st = Some c -> isCodeType (type c) /\ inRange k c).

(** The chunk starts at a header line and takes its description from the
    second group of the header pattern, the title. *)
Definition startsAtHeader (lines : list jstring) (c : chunk) : Prop :=
  exists line caps,
    nth_error lines (startLine c - 1) = Some line /\
    headerMatch line = Some caps /\
    description c = getGroup 2 caps.

(** The content is the text of lines [startLine .. endLine]. *)
Definition holdsItsLines (lines : list jstring) (c : chunk) : Prop :=
  content c = concat (map nl (linesBetween lines (startLine c - 1) (endLine c))).

Definition docChunk (lines : list jstring) (c : chunk) : Prop :=
  type c = documentation /\ inRange (length lines) c /\
  startsAtHeader lines c /\ holdsItsLines lines c.

(** The open section always ends at the last line read. *)
Definition docInv (lines : list jstring) (k : nat) (st : docScan) : Prop :=
  (forall c, In c (sections st) -> docChunk lines c) /\
  (forall c, currentSection st = Some c -> docChunk lines c /\ endLine c = k).

(** Without a header line nothing is ever opened. *)
Definition docIdle (lines : list jstring) (k : nat) (st : docScan) : Prop :=
  sections st = [] /\ currentSection st = None.

(** The line, trimmed, starts with one of the words. *)
Definition startsWithOneOf (words : list jstring) (l : jstring) : bool :=
  existsb (fun w => startsWith w (trim l)) words.

(** A comment line, for the overview: the line starts with [//], [/*],
    [#] or three double quotes. *)
Definition commentStyle (l : jstring) : bool :=
  startsWithOneOf [lit "//"; lit "/*"; lit "#"; repeat (chr 34) 3] l.

(** An import-style line, as the overview lists them. *)
Definition importStyle (l : jstring) : bool :=
  startsWithOneOf (map lit ["import"; "require"; "from"; "#include"; "using"]%string) l.

(** A line the comment scan passes over although it is not a comment. *)
Definition preambleStyle (l : jstring) : bool :=
  startsWithOneOf (map lit ["import"; "require"; "from"; "package"]%string) l.

Definition blankLine (l : jstring) : bool :=
  match trim l with [] => true | _ :: _ => false end.

(** The comment scan of the code over the lines it visits: a comment line
    is collected, trimmed; a blank line and a line that starts with
    [import], [require], [from] or [package] are passed over; any other
    line ends the scan. *)
Fixpoint collectComments (visited : list jstring) : list jstring :=
  match visited with
  | [] => []
  | l :: rest =>
      if commentStyle l then trim l :: collectComments rest
      else if blankLine l || preambleStyle l then collectComments rest
      else []
  end.

Definition scannedComments (lines : list jstring) : list jstring :=
  collectComments (firstn 20 lines).

(** The comment scan as the specification words it: it stops at the first
    line that is neither a comment nor an import-style line. *)
Fixpoint statedScan (visited : list jstring) : list jstring :=
  match visited with
  | [] => []
  | l :: rest =>
      if commentStyle l then trim l :: statedScan rest
      else if importStyle l then statedScan rest
      else []
  end.

Definition statedComments (lines : list jstring) : list jstring :=
  statedScan (firstn 20 lines).

(** A section of the overview: nothing when there is no item, otherwise
    the heading and the items, each on a line of its own. *)
Definition titled (heading : jstring) (items : list jstring) : jstring :=
  match items with
  | [] => []
  | _ :: _ => heading ++ [LF] ++ join [LF] items ++ [LF]
  end.

(** A file whose first line is a [using] directive. *)
Definition usingFile : jstring :=
  lit "using System;
// entry point
class Program {}".

(** The block-comment flag of [extractCodeChunks] when [k] lines have been
    read. *)
Definition flagAfter (lines : list jstring) (k : nat) : bool :=
  fold_left (fun inside l => commentGate inside (trim l)) (firstn k lines) false.

(** Line [j] (counted from 0) is left by [if (inMultilineComment) continue]. *)
Definition gated (lines : list jstring) (j : nat) : bool := flagAfter lines (j + 1).

(** What the lines numbered [a+1 .. b] add to a chunk that stays open:
    each line that is not gated, with its newline. *)
Definition keptText (lines : list jstring) (a b : nat) : jstring :=
  concat (map (fun j => if gated lines j then [] else nl (nth j lines []))
              (seq a (b - a))).

(** The content of a code chunk when [last] lines have been read: the
    triggering line, possibly a second copy of it, and the lines kept after
    it; behind [endLine] there are only gated lines, blank lines and
    single-line comments. *)
Definition codeContent (lines : list jstring) (last : nat) (c : chunk) : Prop :=
  exists trigger dup,
    nth_error lines (startLine c - 1) = Some trigger /\
    (dup = [] \/ dup = nl trigger) /\
    1 <= startLine c /\ startLine c <= endLine c /\ endLine c <= last /\
    content c = nl trigger ++ dup ++ keptText lines (startLine c) last /\
    forall j, endLine c <= j < last ->
              gated lines j = true \/
              isSkippedLine (trim (nth j lines [])) = true.

(** A chunk that has been pushed. *)
Definition emitted (lines : list jstring) (c : chunk) : Prop :=
  exists last, last <= length lines /\ codeContent lines last c.

(** Between two turns of the loop. *)
Definition contentInv (lines : list jstring) (k : nat) (st : codeScan) : Prop :=
  inMultilineComment st = flagAfter lines k /\
  (forall c, In c (chunks st) -> emitted lines c) /\
  (forall c, currentChunk st = Some c -> codeContent lines k c).

(** Inside turn [k], between the pattern tests and the final block: the
    open chunk is an older one or has just been started on [line]. *)
Definition contentMid (lines : list jstring) (k : nat) (line : jstring)
           (st : codeScan) : Prop :=
  (forall c, In c (chunks st) -> emitted lines c) /\
  (forall c, currentChunk st = Some c ->
             codeContent lines k c \/
             (content c = nl line /\ startLine c = k + 1 /\ endLine c = k + 1)).

(** Lines [startLine .. endLine] of the file, each followed by a newline:
    the content the specification gives to a function, class or route
    chunk. *)
Definition contentOfRange (text : jstring) (c : chunk) : jstring :=
  concat (map nl (linesBetween (splitLines text) (startLine c - 1) (endLine c))).

Definition summary (c : chunk) : chunkType * jstring * nat * nat :=
  (type c, Processor.content c, startLine c, endLine c).

(** Some pattern of a family matches the line. *)
Definition anyOf (ps : list regex) (line : jstring) : bool :=
  existsb (fun p => test p line) ps.

(** [headerMatch[2]] *)
Definition title (line : jstring) : option jstring :=
  match headerMatch line with
  | Some caps => getGroup 2 caps
  | None => None
  end.

(** The example repository: its path and its name. *)
Definition repo : jstring := lit "repo".

Definition demo : jstring := lit "demo".

Definition noChunk : chunk := mkChunk file_overview [] [] [] [] [] 0 0 None None None.

(** The chunk of [login] in [auth.js]. *)
Definition loginChunk : chunk :=
  nth 1 (fst (processRepository (host := exampleHost) exampleRoot repo demo)) noChunk.

(** The section [Usage] of [README.md]. *)
Definition usageChunk : chunk :=
  nth 1 (extractDocumentationChunks
           (lit "Bigstack
# Setup
Run the installer.
## Usage
See the API.") (lit "README.md") (lit "README.md") demo) noChunk.

End ProcessorSpec.

Module DoubleSpec.
Import Double.

(** The double with sign [s], mantissa [m] and exponent [e]; infinite when
    the exponent is out of range. *)
Definition packed (s : bool) (m e : Z) : double :=
  match m with
  | Z0 => S754_zero s
  | Zpos p => if (e <=? emax - prec)%Z then S754_finite s p e else S754_infinity s
  | Zneg _ => S754_nan
  end.

(** A number above the value of every finite double, in units of
    [2^-1074]. *)
Definition beyond : Z := (2 ^ 2200)%Z.

(** The place of a double in the order of the doubles: a finite double by
    its value in units of [2^-1074], the infinities beyond them. *)
Definition rank (x : double) : Z :=
  match x with
  | S754_zero _ => 0%Z
  | S754_finite s m e => cond_Zopp s (Zpos m * 2 ^ (e + 1074))%Z
  | S754_infinity s => cond_Zopp s beyond
  | S754_nan => 0%Z
  end.

(** A binary64 value that is not NaN. *)
Definition ordered (x : double) : Prop := valid x = true /\ isNaN x = false.

(** The doubles of some decimal literals. *)
Definition one : number := mkNumber (literal 1 1) eq_refl.
Definition half : number := mkNumber (literal 1 2) eq_refl.
Definition quarter : number := mkNumber (literal 1 4) eq_refl.
Definition oneFifth : number := mkNumber (literal 2 10) eq_refl.
Definition threeTenths : number := mkNumber (literal 3 10) eq_refl.
Definition sevenTenths : number := mkNumber (literal 7 10) eq_refl.
Definition nineTenths : number := mkNumber (literal 9 10) eq_refl.
Definition oneTwentieth : number := mkNumber (literal 5 100) eq_refl.

End DoubleSpec.

Module RagSpec.
Import Rag DoubleSpec.

(** [a] may stand in front of [b]: [b.adjustedScore <= a.adjustedScore]. *)
Definition notBelow (a b : ranked) : Prop :=
  Double.leb (adjustedScore b) (adjustedScore a) = true.

(** The adjusted score is a binary64 value that is not NaN. *)
Definition wellScored (r : ranked) : Prop := ordered (adjustedScore r).

(** The four conditions a (query, candidate) pair can trigger. *)
Definition setupTriggered (query : jstring) (c : hit) : bool :=
  asksSetup (toLowerCase query) && isSetupChunk c.

Definition apiTriggered (query : jstring) (c : hit) : bool :=
  asksApi (toLowerCase query) && isApiChunk c.

Definition databaseTriggered (query : jstring) (c : hit) : bool :=
  asksDatabase (toLowerCase query) && isDatabaseChunk c.

Definition authTriggered (query : jstring) (c : hit) : bool :=
  asksAuth (toLowerCase query) && isAuthChunk c.

Definition otherTriggers (query : jstring) (c : hit) : nat :=
  Nat.b2n (apiTriggered query c) + Nat.b2n (databaseTriggered query c)
  + Nat.b2n (authTriggered query c).

Definition triggers (query : jstring) (c : hit) : nat :=
  Nat.b2n (setupTriggered query c) + otherTriggers query c.

(** [relevanceScore *= 1.5], [k] times; every product is rounded. *)
Definition boosted (k : nat) (relevanceScore : Double.double) : Double.double :=
  Nat.iter k (fun s => Double.mul s boost) relevanceScore.

(** The chunks with their positions, as [forEach] passes them. *)
Definition indexed (cs : list ranked) : list (nat * ranked) :=
  combine (seq 0 (length cs)) cs.

Definition packageJson : hit :=
  mkHit one (lit "{}") (lit "package.json") (lit "package.json")
        (lit "configuration") None.

(** A manifest kept under a [routes] directory. *)
Definition routesPackageJson : hit :=
  mkHit one (lit "{}") (lit "routes/package.json") (lit "package.json")
        (lit "configuration") None.

Definition authorNote : hit :=
  mkHit oneFifth (lit "Author: the team") (lit "notes.txt") (lit "notes.txt")
        (lit "file_overview") None.

(** A candidate found with a score of 0.3. *)
Definition floorNote : hit :=
  mkHit threeTenths (lit "Notes") (lit "notes.txt") (lit "notes.txt")
        (lit "file_overview") None.

(** The same manifest, found with a score of 0.7. *)
Definition weakRoutesPackageJson : hit :=
  mkHit sevenTenths (lit "{}") (lit "routes/package.json") (lit "package.json")
        (lit "configuration") None.

End RagSpec.

Module IngestSpec.
Import Ingest.

(** Number of positions in [lo, hi) whose chunk is embedded and indexed. *)
Definition successes (succeeds : nat -> bool) (lo hi : nat) : nat :=
  length (filter succeeds (seq lo (hi - lo))).

Definition failures (succeeds : nat -> bool) (lo hi : nat) : nat :=
  length (filter (fun k => negb (succeeds k)) (seq lo (hi - lo))).

Definition isProcessing (s : statusRecord) : Prop := status s = processing.

(** The job clones when [localPath] is not given. *)
Definition mustClone (localPath : option jstring) : bool :=
  match localPath with
  | Some p => negb (truthy p)
  | None => true
  end.

(** The error thrown outside the per-item loop, if any: by [git.clone] or
    by [processRepository]. *)
Definition outsideFailure (w : world) (localPath : option jstring) : option jstring :=
  match (if mustClone localPath then gitClone w else None) with
  | Some m => Some m
  | None =>
      match processRepository w with
      | inl m => Some m
      | inr _ => None
      end
  end.

(** Ten chunks of which three fail: seven are counted and the job is
    [completed]. *)
Definition tenChunks : list Processor.chunk :=
  repeat (Processor.mkChunk Processor.function (lit "f") (lit "a.js") (lit "a.js")
            (lit "javascript") (lit "demo") 1 1 None None None) 10.

Definition threeFail : world :=
  mkWorld None (inr tenChunks)
          (fun k => negb ((k =? 2) || (k =? 5)))
          (fun k => negb (k =? 7)).

End IngestSpec.

Module ScanSpec.
Import Processor.

Section WithHost.
Context {host : Host}.

(** [found gitignore dirPath relativePath entries file]: [file] is the full
    path of a regular file below the directory [dirPath] whose listing is
    [entries].  Its extension is supported, and neither it nor a directory
    on the way down to it is ignored, by its path relative to the root or,
    for a directory, by its name. *)
Inductive found (gitignore : jstring -> bool)
  : jstring -> jstring -> list dirent -> jstring -> Prop :=
| foundHere dirPath relativePath entries name :
    In (FileEntry name) entries ->
    gitignore (slashes (path_join relativePath name)) = false ->
    has supportedExtensions (toLowerCase (path_extname name)) = true ->
    found gitignore dirPath relativePath entries (path_join dirPath name)
| foundBelow dirPath relativePath entries name below file :
    In (DirectoryEntry name (Some below)) entries ->
    gitignore (slashes (path_join relativePath name)) = false ->
    has ignoredDirectories name = false ->
    found gitignore (path_join dirPath name)
          (slashes (path_join relativePath name)) below file ->
    found gitignore dirPath relativePath entries file.

(** What one entry contributes. *)
Definition foundAt (gitignore : jstring -> bool) (dirPath relativePath : jstring)
           (entry : dirent) (file : jstring) : Prop :=
  gitignore (slashes (path_join relativePath (entryName entry))) = false /\
  match entry with
  | FileEntry name =>
      has supportedExtensions (toLowerCase (path_extname name)) = true /\
      file = path_join dirPath name
  | DirectoryEntry name (Some below) =>
      has ignoredDirectories name = false /\
      found gitignore (path_join dirPath name)
            (slashes (path_join relativePath name)) below file
  | _ => False
  end.

End WithHost.

(** A tree with a source file two directories down, next to files and
    directories that the scan leaves out. *)
Definition nestedRoot : list dirent :=
  [ DirectoryEntry (lit "src")
      (Some [ DirectoryEntry (lit "api") (Some [ FileEntry (lit "chat.JS") ]);
              DirectoryEntry (lit "build") (Some [ FileEntry (lit "out.js") ]);
              FileEntry (lit "logo.png") ]);
    DirectoryEntry (lit "locked") None ].

End ScanSpec.

Module RepositorySpec.
Import Processor.

Definition isOverview (c : chunk) : bool :=
  match type c with
  | file_overview => true
  | _ => false
  end.

Section WithHost.
Context {host : Host}.

(** [fs.readFile] resolves. *)
Definition readable (file : jstring) : bool := isSome (fs_readFile file).

Definition unreadable (file : jstring) : bool := negb (readable file).

End WithHost.

End RepositorySpec.

Module SectionSpec.
Import Processor.

Definition isHeader (line : jstring) : bool := isSome (headerMatch line).

(** The numbers of the header lines, the first line of [lines] being line
    [i + 1]. *)
Fixpoint headerLinesFrom (i : nat) (lines : list jstring) : list nat :=
  match lines with
  | [] => []
  | line :: rest =>
      (if isHeader line then [i + 1] else []) ++ headerLinesFrom (i + 1) rest
  end.

Definition headerLines (lines : list jstring) : list nat := headerLinesFrom 0 lines.

(** Where the sections that start at [starts] end: each on the line in
    front of the next header, the last one on [lastLine]. *)
Definition sectionEnds (starts : list nat) (lastLine : nat) : list nat :=
  match starts with
  | [] => []
  | _ :: later => map Nat.pred later ++ [lastLine]
  end.

(** The text has a unit that is not white space. *)
Definition hasInk (s : jstring) : bool := existsb (fun c => negb (isSpace c)) s.

Definition open (st : docScan) : list chunk :=
  match currentSection st with
  | Some c => [c]
  | None => []
  end.

(** When [k] lines have been read the sections pushed and the open one
    start at the headers seen so far; the sections pushed end in front of
    the next header, the open one at line [k]. *)
Definition docTiling (lines : list jstring) (k : nat) (st : docScan) : Prop :=
  map startLine (sections st ++ open st) = headerLines (firstn k lines) /\
  map endLine (sections st) = map Nat.pred (tl (headerLines (firstn k lines))) /\
  (forall c, currentSection st = Some c ->
             endLine c = k /\ hasInk (content c) = true) /\
  (currentSection st = None -> sections st = []).

End SectionSpec.

Module CodeSpec.
Import Processor ProcessorSpec.

(** The scanned extensions that [typeMap] does not list. *)
Definition untypedExtensions : list jstring :=
  map lit [".swift"; ".kt"; ".scala"; ".txt"; ".xml"; ".html"; ".css";
           ".sql"; ".sh"; ".bat"; ".dockerfile"; ".tf"]%string.

(** The patterns that start a chunk of type [t]. *)
Definition familyOf (t : chunkType) : list regex :=
  match t with
  | function => functionPatterns
  | class => classPatterns
  | route => routePatterns
  | _ => []
  end.

Section WithHost.
Context {host : Host}.

(** The chunk was started on a line that matches a pattern of its type and
    that the loop did not skip, and it has the fields given to it then. *)
Definition startedOn (fileName : jstring) (lines : list jstring) (c : chunk) : Prop :=
  exists line,
    nth_error lines (startLine c - 1) = Some line /\
    1 <= startLine c /\
    anyOf (familyOf (type c)) line = true /\
    gated lines (startLine c - 1) = false /\
    isSkippedLine (trim line) = false /\
    functionName c = extractFunctionName line /\
    className c = match type c with
                  | class => extractClassName line
                  | _ => None
                  end /\
    fileType c = getFileType (path_extname fileName) /\
    description c = None.

Definition declInv (fileName : jstring) (lines : list jstring) (st : codeScan) : Prop :=
  (forall c, In c (chunks st) -> startedOn fileName lines c) /\
  (forall c, currentChunk st = Some c -> startedOn fileName lines c).

End WithHost.

(** A source file whose extension is written in capitals. *)
Definition capitalsHost : Host :=
  ExampleHost.host [ (lit "repo/App.JS", lit "function f() {
  return 1;
}
class A {}") ].

End CodeSpec.

Module RankingSpec.
Import Rag DoubleSpec.

(** The candidate has adjusted score [v]. *)
Definition scores (v : Double.double) (r : ranked) : bool :=
  Double.eqb (adjustedScore r) v.

(** An index that answers every search with the same five candidates. *)
Definition fiveHits : list hit :=
  [ mkHit half (lit "a") (lit "src/a.js") (lit "a.js") (lit "function") None;
    mkHit quarter (lit "b") (lit "README.md") (lit "README.md")
          (lit "documentation") None;
    mkHit half (lit "c") (lit "src/c.js") (lit "c.js") (lit "function") None;
    mkHit oneTwentieth (lit "d") (lit "package.json") (lit "package.json")
          (lit "configuration") None;
    mkHit nineTenths (lit "e") (lit "src/e.js") (lit "e.js") (lit "class") None ].

Definition fiveHitsIndex (query : jstring) (embedding : unit) (limit : nat)
           (filters : option jstring) : unit + list hit :=
  inr fiveHits.

End RankingSpec.

Module SessionSpec.
Import RagService.

(** The history stored under [key]; a session that does not exist has
    none. *)
Definition historyOf (key : jstring) (st : store) : list interaction :=
  match getItem key (items st) with
  | Some s => conversationHistory s
  | None => []
  end.

Definition countOf (key : jstring) (st : store) : nat :=
  match getItem key (items st) with
  | Some s => queryCount s
  | None => 0
  end.

(** [queryCount] is the number of interactions stored. *)
Definition countsMatch (st : store) : Prop :=
  forall key, countOf key st = length (historyOf key st).

(** The line [buildPrompt] writes for a stored interaction. *)
Definition undefinedLine : jstring := lit "undefined: undefined".

(** A world in which every service answers: one candidate is found, and
    the model replies with a fixed text. *)
Definition calm : services unit unit :=
  mkServices (fun _ => inr tt)
          (fun _ _ _ _ =>
             inr [Rag.mkHit DoubleSpec.half (lit "x") (lit "src/x.js") (lit "x.js")
                            (lit "function") None])
          (fun _ => inr (lit "It is a function."))
          tt
          (fun n => lit "2024-01-01T00:00:0" ++ ofNat n ++ lit ".000Z")
          (lit "0b1f6c3e-0000-4000-8000-000000000000").

Definition emptyStore : store := mkStore [] 0.

End SessionSpec.

Module IntentSpec.
Import RagService.

(** No keyword of the entry occurs in the query. *)
Definition silent (queryLower : jstring) (entry : jstring * list jstring) : Prop :=
  mentions queryLower (snd entry) = false.

(** A question that names authentication after the words [how does]. *)
Definition howDoesAuthWork : jstring :=
  lit "How does authentication work in this system?".

End IntentSpec.

Module TextSpec.

(** No two units of white space stand side by side. *)
Definition singleSpaced (s : jstring) : Prop :=
  forall u x y v, s = u ++ x :: y :: v -> isSpace x = true -> isSpace y = false.

(** The only white space in the text is the space. *)
Definition onlySpaces (s : jstring) : Prop :=
  Forall (fun c => isSpace c = true -> c = " "%char) s.

(** The text neither starts nor ends with white space. *)
Definition trimmed (s : jstring) : Prop :=
  (forall c r, s = c :: r -> isSpace c = false) /\
  (forall r c, s = r ++ [c] -> isSpace c = false).

(** The units of the text that are not white space. *)
Definition ink (s : jstring) : jstring := filter (fun c => negb (isSpace c)) s.

Definition blank (s : jstring) : Prop := Forall (fun c => isSpace c = true) s.

(** The words of a text, in order: its maximal runs of units that are not
    white space.  [current] holds the units read so far of the word that
    is being read. *)
Fixpoint words (s current : jstring) : list jstring :=
  match s with
  | [] => match current with [] => [] | _ :: _ => [current] end
  | c :: rest =>
      if isSpace c
      then match current with
           | [] => words rest []
           | _ :: _ => current :: words rest []
           end
      else words rest (current ++ [c])
  end.

(** A word is not empty and holds no white space. *)
Definition inked (w : jstring) : Prop :=
  w <> [] /\ Forall (fun c => isSpace c = false) w.

(** The line [Description: ...] of the text that is embedded, with its
    line break, for a chunk that has a description. *)
Definition descriptionPart (description : option jstring) : jstring :=
  match description with
  | Some d => if truthy d then lit "Description: " ++ d ++ [LF] else []
  | None => []
  end.

(** A chunk whose content is spread over lines and indented. *)
Definition indentedChunk : Processor.chunk :=
  Processor.mkChunk Processor.function
    (lit "function f() {
    return  1;
}
") (lit "src/f.js") (lit "f.js") (lit "javascript") (lit "demo") 1 3
    (Some (lit "f")) None None.

End TextSpec.

Module TallySpec.

(** [counts[key] || 0] *)
Fixpoint countFor (key : jstring) (counts : list (jstring * nat)) : nat :=
  match counts with
  | [] => 0
  | (k, n) :: rest => if streq key k then n else countFor key rest
  end.

(** How many of [keys] are [key]. *)
Definition occurrences (key : jstring) (keys : list jstring) : nat :=
  length (filter (streq key) keys).

(** The counts of the types in [keys], one key after the other. *)
Definition tally (keys : list jstring) (counts : list (jstring * nat))
  : list (jstring * nat) :=
  fold_left (fun counts key => IngestScript.increment key counts) keys counts.

(** Every count of a well-formed summary is positive, no type is listed
    twice. *)
Definition wellFormed (counts : list (jstring * nat)) : Prop :=
  NoDup (map fst counts) /\ Forall (fun entry => 1 <= snd entry) counts.

End TallySpec.

Module ProgressSpec.
Import Ingest IngestSpec.

(** The number of batches of [total] chunks: [total / batchSize], rounded
    up. *)
Definition batches (batchSize total : nat) : nat :=
  (total + batchSize - 1) / batchSize.

(** The counter after batch [j], counted from 0: the successes among the
    chunks of the batches up to that one. *)
Definition countAfter (succeeds : nat -> bool) (batchSize total j : nat) : nat :=
  successes succeeds 0 (Nat.min ((j + 1) * batchSize) total).

(** The progress records of the job. *)
Definition progressReports (w : world) (total : nat) : list statusRecord :=
  map (fun j => mkStatus processing
                  (Indexing (countAfter (itemSucceeds w) batchSize total j) total))
      (seq 0 (batches batchSize total)).

(** Twenty-three chunks, of which those at positions 4 and 15 fail. *)
Definition twentyThree : list Processor.chunk :=
  repeat (Processor.mkChunk Processor.function (lit "f") (lit "a.js") (lit "a.js")
            (lit "javascript") (lit "demo") 1 1 None None None) 23.

Definition twoFail : world :=
  mkWorld None (inr twentyThree)
          (fun k => negb (k =? 4))
          (fun k => negb (k =? 15)).

End ProgressSpec.

Module NameSpec.

(** The pattern has no capturing group. *)
Fixpoint groupFree (r : regex) : bool :=
  match r with
  | rChar _ => true
  | rEps => true
  | rSeq a b => groupFree a && groupFree b
  | rAlt a b => groupFree a && groupFree b
  | rStar a => groupFree a
  | rGroup _ _ => false
  end.

(** [name] is a non-empty run of word characters that occurs in [line]. *)
Definition identifierIn (line name : jstring) : Prop :=
  name <> [] /\ Forall (fun c => isWord c = true) name /\
  exists before after, line = before ++ name ++ after.

(** The patterns whose group [n] is [(\w+)], met once on the way through
    the pattern and followed by no other group. *)
Inductive namesGroup (n : nat) : regex -> Prop :=
| ngLast : namesGroup n (rGroup n wd1)
| ngThen post : groupFree post = true -> namesGroup n (rSeq (rGroup n wd1) post)
| ngAfter pre r : namesGroup n r -> namesGroup n (rSeq pre r).

End NameSpec.

Module FamilySpec.
Import Processor.

Fixpoint takeWhile (p : ascii -> bool) (s : jstring) : jstring :=
  match s with
  | [] => []
  | c :: s' => if p c then c :: takeWhile p s' else []
  end.

(** The line without its indentation. *)
Definition token (line : jstring) : jstring := dropWhile isSpace line.

(** The word the line starts with, and the first unit behind that word and
    the white space that follows it. *)
Definition headWord (line : jstring) : jstring := takeWhile isWord (token line).

Definition afterWord (line : jstring) : option ascii :=
  hd_error (dropWhile isSpace (dropWhile isWord (token line))).

Definition signature (line : jstring) : jstring * option ascii :=
  (headWord line, afterWord line).

Definition allAscii : list ascii := map ascii_of_nat (seq 0 256).

(** The pattern matches no empty text. *)
Fixpoint nonEmpty (r : regex) : bool :=
  match r with
  | rChar _ => true
  | rEps => false
  | rSeq a b => nonEmpty a || nonEmpty b
  | rAlt a b => nonEmpty a && nonEmpty b
  | rStar _ => false
  | rGroup _ a => nonEmpty a
  end.

(** Every text the pattern matches is empty or starts with a unit of [P]. *)
Fixpoint startsIn (P : ascii -> bool) (r : regex) : bool :=
  match r with
  | rChar p => forallb (fun c => implb (p c) (P c)) allAscii
  | rEps => true
  | rSeq a b => startsIn P a && (nonEmpty a || startsIn P b)
  | rAlt a b => startsIn P a && startsIn P b
  | rStar a => startsIn P a
  | rGroup _ a => startsIn P a
  end.

Definition oneOf (cs : list ascii) (c : ascii) : bool := existsb (Ascii.eqb c) cs.

(** What the signature of a line is when a pattern of the family matches
    it. *)
Definition sigFunction (s : jstring * option ascii) : bool :=
  match snd s with
  | Some c =>
      (has (map lit ["function"; "const"; "def"; "public"; "async"]%string) (fst s)
       && isWord c)
      || (streq (fst s) (lit "export") && oneOf ["a"; "f"]%char c)
      || (truthy (fst s) && Ascii.eqb c ":"%char)
  | None => false
  end.

Definition sigClass (s : jstring * option ascii) : bool :=
  match snd s with
  | Some c =>
      (has (map lit ["class"; "interface"; "type"]%string) (fst s) && isWord c)
      || (streq (fst s) (lit "export") && oneOf ["d"; "c"]%char c)
  | None => false
  end.

Definition sigRoute (s : jstring * option ascii) : bool :=
  match snd s with
  | Some c =>
      (has (map lit ["app"; "router"]%string) (fst s) && Ascii.eqb c "."%char)
      || (negb (truthy (fst s)) && Ascii.eqb c "@"%char)
  | None => false
  end.

(** The number of families with a pattern that matches the line. *)
Definition familiesMatching (line : jstring) : nat :=
  Nat.b2n (ProcessorSpec.anyOf functionPatterns line)
  + Nat.b2n (ProcessorSpec.anyOf classPatterns line)
  + Nat.b2n (ProcessorSpec.anyOf routePatterns line).

End FamilySpec.

Module ExactSpec.
Import Processor ProcessorSpec FamilySpec.

(** The content of a code chunk when [last] lines have been read: the
    line that started it, twice, and the lines kept after it; behind
    [endLine] there are only lines left out as part of a block comment,
    blank lines and single-line comments. *)
Definition exactContent (lines : list jstring) (last : nat) (c : chunk) : Prop :=
  exists trigger,
    nth_error lines (startLine c - 1) = Some trigger /\
    1 <= startLine c /\ startLine c <= endLine c /\ endLine c <= last /\
    content c = nl trigger ++ nl trigger ++ keptText lines (startLine c) last /\
    forall j, endLine c <= j < last ->
              gated lines j = true \/
              isSkippedLine (trim (nth j lines [])) = true.

(** Where the content of a pushed chunk stops: on its last line, when the
    final block of the loop closed it; in front of a line that started
    another chunk; or at the end of the file. *)
Definition closedAt (lines : list jstring) (last : nat) (c : chunk) : Prop :=
  last = endLine c \/
  last = length lines \/
  exists line, nth_error lines last = Some line /\
               gated lines last = false /\
               isSkippedLine (trim line) = false /\
               familiesMatching line = 1.

Definition exactEmitted (lines : list jstring) (c : chunk) : Prop :=
  exists last, last <= length lines /\ exactContent lines last c /\
               closedAt lines last c.

(** The chunk ends in front of the line on which the other starts. *)
Definition endsBefore (a b : chunk) : Prop := endLine a < startLine b.

Section WithHost.
Context {host : Host}.

(** The chunks pushed and the open one, oldest first. *)
Definition opened (st : codeScan) : list chunk :=
  chunks st ++ match currentChunk st with
               | Some c => [c]
               | None => []
               end.

(** What holds of the chunks when [k] lines have been read. *)
Definition exactPre (lines : list jstring) (k : nat) (st : codeScan) : Prop :=
  (forall c, In c (chunks st) -> exactEmitted lines c) /\
  (forall c, currentChunk st = Some c -> exactContent lines k c) /\
  StronglySorted endsBefore (opened st) /\
  (forall c, In c (opened st) -> endLine c <= k).

(** Between two turns of the loop. *)
Definition exactInv (lines : list jstring) (k : nat) (st : codeScan) : Prop :=
  inMultilineComment st = flagAfter lines k /\ exactPre lines k st.

(** Inside turn [k], between the pattern tests and the final block: the
    open chunk is an older one or has just been started on [line]. *)
Definition exactMid (lines : list jstring) (k : nat) (line : jstring)
           (st : codeScan) : Prop :=
  (forall c, In c (chunks st) -> exactEmitted lines c) /\
  (forall c, currentChunk st = Some c ->
             exactContent lines k c \/
             (content c = nl line /\ startLine c = k + 1 /\ endLine c = k + 1)) /\
  StronglySorted endsBefore (opened st) /\
  (forall c, In c (chunks st) -> endLine c <= k) /\
  (forall c, currentChunk st = Some c -> endLine c <= k + 1).

End WithHost.

End ExactSpec.

(* ===================================================================== *)
(** * Properties *)
(* ===================================================================== *)

(** ** Strings and lines *)

Module JSFacts.

Lemma splitLines_not_nil (s : jstring) : splitLines s <> [].
Proof.
  destruct s as [|c s]; simpl; [discriminate|].
  destruct (Ascii.eqb c LF); [discriminate|].
  destruct (splitLines s); discriminate.
Qed.

Lemma splitLines_length (s : jstring) : 1 <= length (splitLines s).
Proof.
  pose proof (splitLines_not_nil s) as H.
  destruct (splitLines s); [contradiction|simpl; lia].
Qed.

Lemma streq_eq (a b : jstring) : streq a b = true <-> a = b.
Proof.
  revert b; induction a as [|x a IH]; intros [|y b]; simpl;
    try (split; (reflexivity || discriminate)).
  rewrite andb_true_iff, Ascii.eqb_eq, IH.
  split; [intros [-> ->]; reflexivity | intros [= -> ->]; auto].
Qed.

Lemma streq_refl (a : jstring) : streq a a = true.
Proof. apply streq_eq; reflexivity. Qed.

Lemma startsWith_app (p s : jstring) : startsWith p (p ++ s) = true.
Proof.
  induction p as [|c p IH]; simpl; [reflexivity|].
  rewrite Ascii.eqb_refl; exact IH.
Qed.

Lemma startsWith_prefix (p s : jstring) :
  startsWith p s = true -> exists rest, s = p ++ rest.
Proof.
  revert s; induction p as [|c p IH]; intros s H; simpl in *.
  - exists s; reflexivity.
  - destruct s as [|d s]; [discriminate|].
    apply andb_true_iff in H; destruct H as [Hc Hp].
    apply Ascii.eqb_eq in Hc; subst d.
    destruct (IH _ Hp) as [rest ->]; exists rest; reflexivity.
Qed.

(** [includes] is substring search. *)
Lemma includes_iff (needle s : jstring) :
  includes needle s = true <-> exists pre post, s = pre ++ needle ++ post.
Proof.
  split.
  - induction s as [|c s IH]; simpl; intros H;
      apply orb_true_iff in H; destruct H as [H|H].
    + apply startsWith_prefix in H; destruct H as [rest ->].
      exists [], rest; reflexivity.
    + discriminate.
    + apply startsWith_prefix in H; destruct H as [rest ->].
      exists [], rest; reflexivity.
    + destruct (IH H) as (pre & post & ->).
      exists (c :: pre), post; reflexivity.
  - intros (pre & post & ->).
    induction pre as [|c pre IH]; simpl.
    + assert (Hs : startsWith needle (needle ++ post) = true)
        by apply startsWith_app.
      destruct (needle ++ post); simpl; rewrite Hs; reflexivity.
    + rewrite IH; apply orb_true_r.
Qed.

Lemma toLowerCase_app (a b : jstring) :
  toLowerCase (a ++ b) = toLowerCase a ++ toLowerCase b.
Proof. apply map_app. Qed.

(** A keyword already in lower case is still found after the text is
    lowered. *)
Lemma includes_toLowerCase (needle s : jstring) :
  toLowerCase needle = needle ->
  includes needle s = true -> includes needle (toLowerCase s) = true.
Proof.
  intros Hn H; apply includes_iff in H; destruct H as (pre & post & ->).
  apply includes_iff.
  exists (toLowerCase pre), (toLowerCase post).
  rewrite !toLowerCase_app, Hn; reflexivity.
Qed.

End JSFacts.

(** ** Regular expressions: what a successful match consumed *)

Module RegexFacts.
Import RegexSpec.

(** The prefix cut off by a suffix of known length. *)
Lemma firstn_consumed (u rest : jstring) :
  firstn (length (u ++ rest) - length rest) (u ++ rest) = u.
Proof.
  rewrite length_app. replace (length u + length rest - length rest) with (length u) by lia.
  rewrite firstn_app, Nat.sub_diag, firstn_all. simpl. apply app_nil_r.
Qed.

(** A match that succeeds has consumed a word of the language and handed
    the rest to its continuation. *)
Lemma rmatch_sound (R : Type) (r : regex) :
  forall (input : jstring) (caps : captures)
         (k : jstring -> captures -> option R) (res : R),
    rmatch r input caps k = Some res ->
    exists u rest caps',
      input = u ++ rest /\ matches r u /\ k rest caps' = Some res.
Proof.
  induction r as [p| |a IHa b IHb|a IHa b IHb|a IHa|n a IHa];
    intros input caps k res H; simpl in H.
  - destruct input as [|c rest]; [discriminate|].
    destruct (p c) eqn:Ep; [|discriminate].
    exists [c], rest, caps. repeat split; [constructor; exact Ep|exact H].
  - exists [], input, caps. repeat split; [constructor|exact H].
  - apply IHa in H. destruct H as (u & rest & caps' & -> & Hu & H).
    apply IHb in H. destruct H as (v & rest' & caps'' & -> & Hv & H).
    exists (u ++ v), rest', caps''. rewrite app_assoc.
    repeat split; [constructor; assumption|exact H].
  - destruct (rmatch a input caps k) as [res'|] eqn:Ea.
    + injection H as <-. apply IHa in Ea.
      destruct Ea as (u & rest & caps' & -> & Hu & H).
      exists u, rest, caps'. repeat split; [apply mAltL; exact Hu|exact H].
    + apply IHb in H. destruct H as (u & rest & caps' & -> & Hu & H).
      exists u, rest, caps'. repeat split; [apply mAltR; exact Hu|exact H].
  - remember (length input) as fuel eqn:Ef. clear Ef.
    revert input caps H. induction fuel as [|fuel IHf]; intros input caps H.
    + exists [], input, caps. repeat split; [constructor|exact H].
    + match type of H with
      | match ?m with _ => _ end = _ => destruct m as [res'|] eqn:Ea
      end.
      * injection H as <-. apply IHa in Ea.
        destruct Ea as (u & rest & caps' & -> & Hu & H).
        destruct (length rest <? length (u ++ rest)); [|discriminate].
        apply IHf in H. destruct H as (v & rest' & caps'' & -> & Hv & H).
        exists (u ++ v), rest', caps''. rewrite app_assoc.
        repeat split; [apply mStarApp; assumption|exact H].
      * exists [], input, caps. repeat split; [constructor|exact H].
  - apply IHa in H. destruct H as (u & rest & caps' & -> & Hu & H).
    exists u, rest, ((n, firstn (length (u ++ rest) - length rest) (u ++ rest)) :: caps').
    repeat split; [constructor; exact Hu|exact H].
Qed.

(** The same, for a capturing group: the capture is the word consumed. *)
Lemma rmatch_group_sound (R : Type) (n : nat) (a : regex) (input : jstring)
      (caps : captures) (k : jstring -> captures -> option R) (res : R) :
  rmatch (rGroup n a) input caps k = Some res ->
  exists u rest caps',
    input = u ++ rest /\ matches a u /\ k rest ((n, u) :: caps') = Some res.
Proof.
  simpl. intros H. apply rmatch_sound in H.
  destruct H as (u & rest & caps' & -> & Hu & H).
  rewrite firstn_consumed in H. exists u, rest, caps'. auto.
Qed.

Lemma matches_star_class (p : ascii -> bool) (u : jstring) :
  matches (rStar (rChar p)) u -> Forall (fun c => p c = true) u.
Proof.
  intros H. remember (rStar (rChar p)) as r eqn:Er.
  induction H; try discriminate; injection Er as ->.
  - constructor.
  - inversion H; subst. simpl. constructor; auto.
Qed.

(** [c+] for a character class: a non-empty run of the class. *)
Lemma matches_plus_class (p : ascii -> bool) (u : jstring) :
  matches (rPlus (rChar p)) u -> u <> [] /\ Forall (fun c => p c = true) u.
Proof.
  unfold rPlus. intros H. inversion H as [| |a b v w Hv Hw| | | | |]; subst.
  inversion Hv; subst. apply matches_star_class in Hw. simpl.
  split; [discriminate|constructor; assumption].
Qed.

(** [c{1,n+1}]: between one and [n+1] copies of the character. *)
Lemma matches_upTo (n : nat) (c : ascii) (u : jstring) :
  matches (rUpTo n (rIs c)) u ->
  1 <= length u <= n + 1 /\ Forall (fun x => x = c) u.
Proof.
  revert u. induction n as [|n IH]; intros u H; simpl in H.
  - inversion H; subst. match goal with E : Ascii.eqb _ _ = true |- _ =>
      apply Ascii.eqb_eq in E; subst end.
    simpl; split; [lia|repeat constructor].
  - inversion H as [| |a b v w Hv Hw| | | | |]; subst.
    inversion Hv; subst. match goal with E : Ascii.eqb _ _ = true |- _ =>
      apply Ascii.eqb_eq in E; subst end.
    unfold rOpt in Hw. inversion Hw; subst.
    + match goal with M : matches (rUpTo _ _) _ |- _ => apply IH in M;
        destruct M as [Hl Hf] end.
      simpl. split; [lia|constructor; auto].
    + match goal with M : matches rEps _ |- _ => inversion M; subst end.
      simpl. split; [lia|repeat constructor].
Qed.

(** *** Words and alternatives of words *)

Lemma rmatch_rLit (R : Type) (w input : jstring) (caps : captures)
      (k : jstring -> captures -> option R) :
  rmatch (rLit w) input caps k
  = if startsWith w input then k (skipn (length w) input) caps else None.
Proof.
  revert input. induction w as [|c w IH]; intros input; [reflexivity|].
  destruct w as [|d w].
  - cbn [rLit rIs rmatch startsWith length skipn].
    destruct input as [|b rest]; [reflexivity|].
    destruct (Ascii.eqb c b); reflexivity.
  - change (rLit (c :: d :: w)) with (rSeq (rIs c) (rLit (d :: w))).
    cbn [rmatch rIs]. destruct input as [|b rest]; [reflexivity|].
    cbn [startsWith]. destruct (Ascii.eqb c b); [|reflexivity].
    rewrite IH. reflexivity.
Qed.

(** [/^(w1|w2|...)/.test(input)]: the input starts with one of the words. *)
Lemma test_words (n : nat) (words : list jstring) (input : jstring) :
  test (rGroup n (rAlts (map rLit words))) input
  = existsb (fun w => startsWith w input) words.
Proof.
  unfold test, matchAnchored, matchHere. cbn [rmatch].
  set (k := fun (rest : jstring) (caps' : captures) =>
              Some ((n, firstn (length input - length rest) input) :: caps', rest)).
  induction words as [|w words IH]; [destruct input; reflexivity|].
  destruct words as [|w' words].
  - cbn [map rAlts existsb]. rewrite rmatch_rLit, orb_false_r.
    destruct (startsWith w input); reflexivity.
  - change (rAlts (map rLit (w :: w' :: words)))
      with (rAlt (rLit w) (rAlts (map rLit (w' :: words)))).
    cbn [rmatch]. rewrite rmatch_rLit.
    change (existsb (fun w0 => startsWith w0 input) (w :: w' :: words))
      with (startsWith w input || existsb (fun w0 => startsWith w0 input) (w' :: words)).
    destruct (startsWith w input); [reflexivity|]. exact IH.
Qed.

(** *** Greedy repetition of a character class *)

Lemma rmatch_star_class (R : Type) (p : ascii -> bool) (input : jstring)
      (caps : captures) (k : jstring -> captures -> option R) :
  rmatch (rStar (rChar p)) input caps k = greedy p input caps k.
Proof.
  simpl. remember (length input) as fuel eqn:Ef.
  assert (Hf : length input <= fuel) by lia. clear Ef.
  revert fuel Hf. induction input as [|c rest IH]; intros fuel Hf.
  - destruct fuel; reflexivity.
  - destruct fuel as [|fuel]; [simpl in Hf; lia|].
    cbn [greedy]. destruct (p c) eqn:Ep; [|reflexivity].
    replace (length rest <? length (c :: rest)) with true
      by (symmetry; apply Nat.ltb_lt; simpl; lia).
    rewrite IH by (simpl in Hf; lia). reflexivity.
Qed.

(** When the repetition fails, the continuation fails after every run of
    the class. *)
Lemma greedy_none (R : Type) (p : ascii -> bool) (input : jstring)
      (caps : captures) (k : jstring -> captures -> option R) :
  greedy p input caps k = None ->
  forall u rest, input = u ++ rest -> Forall (fun c => p c = true) u ->
                 k rest caps = None.
Proof.
  induction input as [|c tl IH]; intros H u rest E Hu.
  - destruct u; [|discriminate]. simpl in E. subst rest. exact H.
  - cbn [greedy] in H. destruct u as [|d u].
    + simpl in E. subst rest. destruct (p c); [|exact H].
      destruct (greedy p tl caps k); [discriminate|exact H].
    + injection E as <- ->. inversion Hu as [|? ? Hd Hu']; subst.
      rewrite Hd in H. destruct (greedy p (u ++ rest) caps k) eqn:G; [discriminate|].
      apply (IH eq_refl u rest eq_refl Hu').
Qed.

(** When it succeeds, it has taken the longest run of the class after
    which the continuation succeeds. *)
Lemma greedy_split (R : Type) (p : ascii -> bool) (input : jstring)
      (caps : captures) (k : jstring -> captures -> option R) (res : R) :
  greedy p input caps k = Some res ->
  exists u rest,
    input = u ++ rest /\ Forall (fun c => p c = true) u /\
    k rest caps = Some res /\
    forall u' rest', input = u' ++ rest' -> Forall (fun c => p c = true) u' ->
                     length u < length u' -> k rest' caps = None.
Proof.
  revert res. induction input as [|c tl IH]; intros res H; cbn [greedy] in H.
  - exists [], []. repeat split; [constructor|exact H|].
    intros u' rest' E _ Hl. destruct u'; [simpl in Hl; lia|discriminate].
  - destruct (p c) eqn:Ep.
    + destruct (greedy p tl caps k) as [res'|] eqn:G.
      * injection H as <-. destruct (IH _ eq_refl) as (u & rest & -> & Hu & Hk & Hmax).
        exists (c :: u), rest. repeat split; [constructor; assumption|exact Hk|].
        intros u' rest' E Hu' Hl. destruct u' as [|d u']; [simpl in Hl; lia|].
        injection E as <- E. inversion Hu'; subst.
        apply (Hmax u' rest' E); [assumption|simpl in Hl; lia].
      * exists [], (c :: tl). repeat split; [constructor|exact H|].
        intros u' rest' E Hu' Hl. destruct u' as [|d u']; [simpl in Hl; lia|].
        injection E as <- E. inversion Hu'; subst.
        eapply greedy_none; [exact G|reflexivity|assumption].
    + exists [], (c :: tl). repeat split; [constructor|exact H|].
      intros u' rest' E Hu' Hl. destruct u' as [|d u']; [simpl in Hl; lia|].
      injection E as <- E. inversion Hu'; subst. congruence.
Qed.

(** With a continuation that always succeeds, the repetition succeeds. *)
Lemma greedy_total (R : Type) (p : ascii -> bool) (input : jstring)
      (caps : captures) (k : jstring -> captures -> option R) :
  (forall rest, k rest caps <> None) -> greedy p input caps k <> None.
Proof.
  intros Hk. induction input as [|c tl IH]; cbn [greedy]; [apply Hk|].
  destruct (p c); [|apply Hk].
  destruct (greedy p tl caps k); [discriminate|apply Hk].
Qed.

End RegexFacts.

Module HeaderFacts.
Import Processor RegexSpec RegexFacts.

Lemma rmatch_seq (R : Type) (a b : regex) (input : jstring) (caps : captures)
      (k : jstring -> captures -> option R) :
  rmatch (rSeq a b) input caps k
  = rmatch a input caps (fun rest caps' => rmatch b rest caps' k).
Proof. reflexivity. Qed.

(** The second group of the header pattern, [(.+)], at the end of the
    pattern: it takes the first character, which is not a line
    terminator, and every such character that follows. *)
Lemma titleGroup_spec (input : jstring) (caps : captures)
      (res : captures * jstring) :
  rmatch (rGroup 2 (rPlus dot)) input caps (fun rest caps' => Some (caps', rest))
  = Some res ->
  exists title rest,
    input = title ++ rest /\
    (title <> [] /\ Forall (fun c => isDot c = true) title) /\
    (rest = [] \/ exists c rest', rest = c :: rest' /\ isDot c = false) /\
    res = ((2, title) :: caps, rest).
Proof.
  unfold rPlus, dot. cbn [rmatch]. intros H.
  destruct input as [|d tl]; [discriminate|].
  destruct (isDot d) eqn:Ed; [|discriminate].
  change (rmatch (rStar (rChar isDot)) tl caps
            (fun rest caps' =>
               Some ((2, firstn (length (d :: tl) - length rest) (d :: tl)) :: caps',
                     rest)) = Some res) in H.
  rewrite rmatch_star_class in H. apply greedy_split in H.
  destruct H as (t & rest & -> & Ht & Hk & Hmax).
  exists (d :: t), rest. split; [reflexivity|].
  split; [split; [discriminate|constructor; assumption]|].
  split.
  - destruct rest as [|c rest']; [left; reflexivity|right].
    exists c, rest'. split; [reflexivity|].
    destruct (isDot c) eqn:Ec; [|reflexivity]. exfalso.
    specialize (Hmax (t ++ [c]) rest').
    rewrite <- app_assoc in Hmax. specialize (Hmax eq_refl).
    assert (Hf : Forall (fun c => isDot c = true) (t ++ [c]))
      by (apply Forall_app; split; [assumption|repeat constructor; exact Ec]).
    specialize (Hmax Hf). rewrite length_app in Hmax. simpl in Hmax.
    specialize (Hmax ltac:(lia)). discriminate Hmax.
  - cbv beta in Hk. change (d :: t ++ rest) with ((d :: t) ++ rest) in Hk.
    rewrite firstn_consumed in Hk. injection Hk as <-. reflexivity.
Qed.

Lemma titleGroup_total (c : ascii) (tail : jstring) (caps : captures) :
  isDot c = true ->
  rmatch (rGroup 2 (rPlus dot)) (c :: tail) caps
         (fun rest caps' => Some (caps', rest)) <> None.
Proof.
  intros Hc. unfold rPlus, dot. cbn [rmatch]. rewrite Hc.
  change (rmatch (rStar (rChar isDot)) tail caps
            (fun rest caps' =>
               Some ((2, firstn (length (c :: tail) - length rest) (c :: tail)) :: caps',
                     rest)) <> None).
  rewrite rmatch_star_class. apply greedy_total. intros rest. discriminate.
Qed.

(** A line matched by [/^(#{1,6})\s+(.+)/] is one to six [#], then white
    space, then a non-empty title free of line terminators; the title is
    the second group.  The title runs to the end of the line or to a line
    terminator, and the white space in front of it is the longest that
    leaves a title. *)
Lemma headerPattern_sound (line : jstring) (caps : captures) :
  matchAnchored headerPattern line = Some caps ->
  exists hashes spaces title rest,
    line = hashes ++ spaces ++ title ++ rest /\
    (1 <= length hashes <= 6 /\ Forall (fun c => c = "#"%char) hashes) /\
    (spaces <> [] /\ Forall (fun c => isSpace c = true) spaces) /\
    (title <> [] /\ Forall (fun c => isDot c = true) title) /\
    getGroup 2 caps = Some title /\
    (rest = [] \/ exists c rest', rest = c :: rest' /\ isDot c = false) /\
    (forall w tail,
        spaces ++ title ++ rest = w ++ tail ->
        Forall (fun c => isSpace c = true) w ->
        (exists c tail', tail = c :: tail' /\ isDot c = true) ->
        length w <= length spaces).
Proof.
  unfold matchAnchored, matchHere, headerPattern.
  cbn [rSeqs]. intros H.
  destruct (rmatch _ line [] _) as [[caps0 rest0]|] eqn:E; [|discriminate].
  simpl in H. injection H as ->.
  rewrite rmatch_seq in E. apply rmatch_group_sound in E.
  destruct E as (hashes & r1 & c1 & -> & Hh & E).
  rewrite rmatch_seq in E. unfold ws1, rPlus in E. rewrite rmatch_seq in E.
  unfold ws in E. cbn [rmatch] in E.
  destruct r1 as [|s r1']; [discriminate|].
  destruct (isSpace s) eqn:Es; [|discriminate].
  change (rmatch (rStar (rChar isSpace)) r1' ((1, hashes) :: c1)
            (fun rest caps' =>
               rmatch (rGroup 2 (rPlus dot)) rest caps'
                      (fun rest0 caps0 => Some (caps0, rest0)))
          = Some (caps, rest0)) in E.
  rewrite rmatch_star_class in E. apply greedy_split in E.
  destruct E as (u & r2 & -> & Hu & Hk & Hmax).
  apply titleGroup_spec in Hk.
  destruct Hk as (title & rest & -> & Ht & Hrest & Hres).
  injection Hres as -> ->.
  exists hashes, (s :: u), title, rest.
  split; [reflexivity|].
  split; [exact (@matches_upTo 5 "#"%char hashes Hh)|].
  split; [split; [discriminate|constructor; assumption]|].
  split; [exact Ht|].
  split; [reflexivity|].
  split; [exact Hrest|].
  intros w tail Ew Hw (c & tail' & -> & Hc).
  destruct (Nat.le_gt_cases (length w) (length (s :: u))) as [Hle|Hgt]; [exact Hle|].
  exfalso. destruct w as [|s' w']; [simpl in Hgt; lia|].
  simpl in Ew. injection Ew as <- Ew. inversion Hw as [|? ? _ Hw']; subst.
  specialize (Hmax w' (c :: tail') Ew Hw' ltac:(simpl in Hgt; lia)).
  exact (@titleGroup_total c tail' _ Hc Hmax).
Qed.

End HeaderFacts.

(** ** codebase-processor.js *)

Module ProcessorFacts.
Import Processor ProcessorSpec JSFacts RegexFacts.

Lemma linesBetween_snoc (lines : list jstring) (a b : nat) (x : jstring) :
  nth_error lines b = Some x -> a <= b ->
  linesBetween lines a (b + 1) = linesBetween lines a b ++ [x].
Proof.
  intros Hx Hab. unfold linesBetween.
  apply nth_error_split in Hx. destruct Hx as (l1 & l2 & -> & Hlen).
  rewrite skipn_app.
  replace (a - length l1) with 0 by lia. simpl skipn at 2.
  assert (Hs : length (skipn a l1) = b - a) by (rewrite length_skipn; lia).
  rewrite !firstn_app, Hs.
  replace (b + 1 - a - (b - a)) with 1 by lia.
  replace (b - a - (b - a)) with 0 by lia.
  rewrite firstn_all2 by lia.
  rewrite (firstn_all2 (n := b - a)) by lia.
  simpl. rewrite app_nil_r. reflexivity.
Qed.

(** The rule for a loop over the lines of a file: a property that holds
    before the loop and is kept by every turn holds when the loop ends. *)
Lemma forLines_invariant {S : Type} (body : nat -> jstring -> S -> S)
      (P : nat -> S -> Prop) (lines : list jstring) (st : S) :
  P 0 st ->
  (forall k line st',
      nth_error lines k = Some line -> P k st' -> P (k + 1) (body k line st')) ->
  P (length lines) (forLines body 0 lines st).
Proof.
  intros H0 Hstep.
  assert (G : forall rest done st',
             lines = done ++ rest -> P (length done) st' ->
             P (length lines) (forLines body (length done) rest st')).
  { induction rest as [|line rest IH]; intros done st' Hl HP.
    - rewrite app_nil_r in Hl; subst done; exact HP.
    - simpl.
      replace (length done + 1) with (length (done ++ [line]))
        by (rewrite length_app; reflexivity).
      apply IH.
      + rewrite <- app_assoc; exact Hl.
      + rewrite length_app; simpl. apply Hstep; [|exact HP].
        subst lines. rewrite nth_error_app2 by lia.
        replace (length done - length done) with 0 by lia. reflexivity. }
  apply (G lines [] st); [reflexivity | exact H0].
Qed.

Lemma in_pushIfContent (chunks : list chunk) (current : option chunk) (c : chunk) :
  In c (pushIfContent chunks current) -> In c chunks \/ current = Some c.
Proof.
  unfold pushIfContent. destruct current as [d|]; [|auto].
  destruct (truthy (trim (content d))); [|auto].
  intros H; apply in_app_or in H; destruct H as [H|[<-|[]]]; auto.
Qed.

Lemma in_firstn {A} (n : nat) (l : list A) (x : A) :
  In x (firstn n l) -> In x l.
Proof.
  intros H. rewrite <- (firstn_skipn n l). apply in_or_app. left; exact H.
Qed.

Lemma nth_error_lt {A} (l : list A) (k : nat) (x : A) :
  nth_error l k = Some x -> k < length l.
Proof. intros H; apply nth_error_Some; congruence. Qed.

(** *** Line ranges of the chunks of one file *)

Section WithHost.
Context {host : Host}.

Section Code.
Variables filePath fileName repositoryName : jstring.

Lemma codeInv_mono (k k' : nat) (st : codeScan) :
  k <= k' -> codeInv k st -> codeInv k' st.
Proof.
  unfold codeInv, inRange.
  intros Hk [H1 H2]; split; intros c Hc;
    [destruct (H1 c Hc) as (? & ? & ? & ?) | destruct (H2 c Hc) as (? & ? & ? & ?)];
    repeat split; auto; lia.
Qed.

Lemma startChunk_inv (ty : chunkType) (i : nat) (line : jstring) (st : codeScan) :
  isCodeType ty -> codeInv (i + 1) st ->
  codeInv (i + 1) (startChunk filePath fileName repositoryName ty i line st).
Proof.
  intros Hty [H1 H2]; split; simpl.
  - intros c Hc. apply in_pushIfContent in Hc. destruct Hc; auto.
  - intros c [= <-]; simpl. split; [exact Hty|]. unfold inRange; simpl; lia.
Qed.

Lemma tryPatterns_inv (ty : chunkType) (ps : list regex) (i : nat)
      (line : jstring) (st : codeScan) :
  isCodeType ty -> codeInv (i + 1) st ->
  codeInv (i + 1) (tryPatterns filePath fileName repositoryName ty ps i line st).
Proof.
  intros Hty Hst. induction ps as [|p ps IH]; simpl; [exact Hst|].
  destruct (test p line); [apply startChunk_inv; assumption | exact IH].
Qed.

Lemma checkPatterns_inv (i : nat) (line : jstring) (st : codeScan) :
  codeInv (i + 1) st ->
  codeInv (i + 1) (checkPatterns filePath fileName repositoryName i line st).
Proof.
  intros Hst. unfold checkPatterns, patterns; cbn [fold_left fst snd].
  repeat apply tryPatterns_inv; unfold isCodeType; auto.
Qed.

Lemma accumulate_inv (i : nat) (line : jstring) (st : codeScan) :
  codeInv (i + 1) st -> codeInv (i + 1) (accumulate i line st).
Proof.
  intros [H1 H2]. unfold accumulate.
  destruct (currentChunk st) as [c|] eqn:Ec; [|split; [exact H1|]].
  - destruct (H2 c eq_refl) as (Hty & Hs & Hse & He).
    assert (Hc' : isCodeType (type (setEndLine (appendContent c (nl line)) (i + 1)))
                  /\ inRange (i + 1) (setEndLine (appendContent c (nl line)) (i + 1))).
    { split; [exact Hty|]. unfold inRange; simpl; lia. }
    match goal with |- context [if ?b then _ else _] => destruct b end;
      split; simpl; intros d Hd.
    + apply in_app_or in Hd; destruct Hd as [Hd|[<-|[]]]; auto.
    + discriminate.
    + auto.
    + injection Hd as <-; exact Hc'.
  - rewrite Ec; intros d Hd; discriminate.
Qed.

Lemma codeBody_inv (k : nat) (line : jstring) (st : codeScan) :
  codeInv k st -> codeInv (k + 1) (codeBody filePath fileName repositoryName k line st).
Proof.
  intros Hst. apply codeInv_mono with (k' := k + 1) in Hst; [|lia].
  destruct Hst as [H1 H2]. unfold codeBody.
  destruct (commentGate (inMultilineComment st) (trim line)).
  - split; simpl; assumption.
  - destruct (isSkippedLine (trim line)).
    + split; simpl; [assumption|].
      intros c Hc. destruct (currentChunk st) as [d|]; [|discriminate].
      injection Hc as <-. apply (H2 d eq_refl).
    + apply accumulate_inv, checkPatterns_inv. split; simpl; assumption.
Qed.

Lemma extractCodeChunks_inv (content : jstring) (c : chunk) :
  In c (extractCodeChunks content filePath fileName repositoryName) ->
  isCodeType (type c) /\ inRange (length (splitLines content)) c.
Proof.
  unfold extractCodeChunks. intros Hc.
  assert (Hinv : codeInv (length (splitLines content))
                   (forLines (codeBody filePath fileName repositoryName) 0
                      (splitLines content) (mkCodeScan [] None 0%Z false))).
  { apply forLines_invariant with (P := codeInv).
    - split; simpl; [intros ? []|discriminate].
    - intros k line st' _ Hst. apply codeBody_inv; exact Hst. }
  destruct Hinv as [H1 H2].
  apply in_pushIfContent in Hc; destruct Hc; auto.
Qed.

(** *** What a code chunk holds *)

Lemma firstn_snoc (lines : list jstring) (k : nat) (line : jstring) :
  nth_error lines k = Some line -> firstn (k + 1) lines = firstn k lines ++ [line].
Proof.
  intros H. apply nth_error_split in H. destruct H as (l1 & l2 & -> & <-).
  rewrite !firstn_app. rewrite firstn_all2 by lia.
  replace (length l1 + 1 - length l1) with 1 by lia.
  rewrite firstn_all, Nat.sub_diag. simpl. rewrite app_nil_r. reflexivity.
Qed.

Lemma flagAfter_step (lines : list jstring) (k : nat) (line : jstring) :
  nth_error lines k = Some line ->
  flagAfter lines (k + 1) = commentGate (flagAfter lines k) (trim line).
Proof.
  intros H. unfold flagAfter. rewrite (firstn_snoc _ _ H), fold_left_app. reflexivity.
Qed.

Lemma keptText_snoc (lines : list jstring) (a k : nat) :
  a <= k ->
  keptText lines a (k + 1)
  = keptText lines a k ++ (if gated lines k then [] else nl (nth k lines [])).
Proof.
  intros H. unfold keptText.
  replace (k + 1 - a) with (S (k - a)) by lia.
  rewrite seq_S, map_app, concat_app. simpl.
  replace (a + (k - a)) with k by lia. rewrite app_nil_r. reflexivity.
Qed.

Lemma keptText_nil (lines : list jstring) (a : nat) : keptText lines a a = [].
Proof. unfold keptText. rewrite Nat.sub_diag. reflexivity. Qed.

Lemma nth_of_nth_error (lines : list jstring) (k : nat) (line : jstring) :
  nth_error lines k = Some line -> nth k lines [] = line.
Proof. intros H. apply nth_error_nth. exact H. Qed.

(** A chunk that stays open over a line that adds [text] to it. *)
Lemma codeContent_extend (lines : list jstring) (k : nat) (c c' : chunk)
      (text : jstring) :
  codeContent lines k c ->
  text = (if gated lines k then [] else nl (nth k lines [])) ->
  startLine c' = startLine c ->
  content c' = content c ++ text ->
  (endLine c' = k + 1 \/
   (endLine c' = endLine c /\
    (gated lines k = true \/ isSkippedLine (trim (nth k lines [])) = true))) ->
  codeContent lines (k + 1) c'.
Proof.
  intros (trigger & dup & Ht & Hd & H1 & Hse & He & Hc & Hrest) Htext Hs Hcont Hend.
  exists trigger, dup. rewrite Hs.
  split; [exact Ht|]. split; [exact Hd|]. split; [exact H1|].
  split; [destruct Hend as [->|[-> _]]; lia|].
  split; [destruct Hend as [->|[-> _]]; lia|].
  split.
  - rewrite Hcont, Hc, keptText_snoc by lia. rewrite Htext, <- !app_assoc. reflexivity.
  - intros j Hj. destruct Hend as [E|[E Hk]]; rewrite E in Hj; [lia|].
    destruct (Nat.eq_dec j k) as [->|Hne]; [exact Hk|].
    apply Hrest. lia.
Qed.

Lemma codeContent_emitted (lines : list jstring) (k : nat) (c : chunk) :
  k <= length lines -> codeContent lines k c -> emitted lines c.
Proof. intros Hk Hc. exists k. auto. Qed.

(** A chunk just started on line [k], before the final block of the turn. *)
Lemma fresh_codeContent (lines : list jstring) (k : nat) (line : jstring) (c : chunk) :
  nth_error lines k = Some line ->
  content c = nl line -> startLine c = k + 1 -> endLine c = k + 1 ->
  codeContent lines (k + 1) c.
Proof.
  intros Hk Hc Hs He. exists line, [].
  rewrite Hs, He, Hc, keptText_nil.
  replace (k + 1 - 1) with k by lia.
  repeat split; auto; try lia.
  rewrite app_nil_r. reflexivity.
Qed.

Lemma startChunk_mid (lines : list jstring) (ty : chunkType) (k : nat)
      (line : jstring) (st : codeScan) :
  nth_error lines k = Some line ->
  contentMid lines k line st ->
  contentMid lines k line (startChunk filePath fileName repositoryName ty k line st).
Proof.
  intros Hk [H1 H2]. pose proof (nth_error_lt _ _ Hk) as Hlt.
  split; simpl.
  - intros c Hc. apply in_pushIfContent in Hc. destruct Hc as [Hc|Hc]; [auto|].
    destruct (H2 c Hc) as [Ho|(Hcont & Hs & He)].
    + apply codeContent_emitted with (k := k); [lia|exact Ho].
    + apply codeContent_emitted with (k := k + 1); [lia|].
      apply fresh_codeContent with (line := line); assumption.
  - intros c [= <-]. right. simpl. auto.
Qed.

Lemma tryPatterns_mid (lines : list jstring) (ty : chunkType) (ps : list regex)
      (k : nat) (line : jstring) (st : codeScan) :
  nth_error lines k = Some line ->
  contentMid lines k line st ->
  contentMid lines k line
    (tryPatterns filePath fileName repositoryName ty ps k line st).
Proof.
  intros Hk Hst. induction ps as [|p ps IH]; simpl; [exact Hst|].
  destruct (test p line); [apply startChunk_mid; assumption|exact IH].
Qed.

Lemma checkPatterns_mid (lines : list jstring) (k : nat) (line : jstring)
      (st : codeScan) :
  nth_error lines k = Some line ->
  contentMid lines k line st ->
  contentMid lines k line (checkPatterns filePath fileName repositoryName k line st).
Proof.
  intros Hk Hst. unfold checkPatterns, patterns; cbn [fold_left fst snd].
  repeat apply tryPatterns_mid; assumption.
Qed.

Lemma inMultilineComment_tryPatterns (ty : chunkType) (ps : list regex)
      (k : nat) (line : jstring) (st : codeScan) :
  inMultilineComment (tryPatterns filePath fileName repositoryName ty ps k line st)
  = inMultilineComment st.
Proof.
  induction ps as [|p ps IH]; simpl; [reflexivity|].
  destruct (test p line); [reflexivity|exact IH].
Qed.

Lemma inMultilineComment_checkPatterns (k : nat) (line : jstring) (st : codeScan) :
  inMultilineComment (checkPatterns filePath fileName repositoryName k line st)
  = inMultilineComment st.
Proof.
  unfold checkPatterns, patterns; cbn [fold_left fst snd].
  rewrite !inMultilineComment_tryPatterns. reflexivity.
Qed.

Lemma accumulate_content (lines : list jstring) (k : nat) (line : jstring)
      (st : codeScan) :
  nth_error lines k = Some line ->
  gated lines k = false ->
  inMultilineComment st = flagAfter lines (k + 1) ->
  contentMid lines k line st ->
  contentInv lines (k + 1) (accumulate k line st).
Proof.
  intros Hk Hg Hflag [H1 H2]. pose proof (nth_error_lt _ _ Hk) as Hlt.
  unfold accumulate. destruct (currentChunk st) as [c|] eqn:Ec.
  - assert (Hc' : codeContent lines (k + 1)
                    (setEndLine (appendContent c (nl line)) (k + 1))).
    { destruct (H2 c eq_refl) as [Ho|(Hcont & Hs & He)].
      - apply codeContent_extend with (c := c) (text := nl line);
          [ exact Ho
          | rewrite Hg, (nth_of_nth_error _ _ Hk); reflexivity
          | reflexivity
          | reflexivity
          | left; reflexivity ].
      - exists line, (nl line). simpl. rewrite Hs, Hcont, keptText_nil.
        replace (k + 1 - 1) with k by lia.
        repeat split; auto; try lia.
        rewrite app_nil_r. reflexivity. }
    match goal with |- context [if ?b then _ else _] => destruct b end;
      (split; [exact Hflag|]); split; simpl.
    + intros d Hd. apply in_app_or in Hd. destruct Hd as [Hd|[<-|[]]]; [auto|].
      apply codeContent_emitted with (k := k + 1); [lia|exact Hc'].
    + discriminate.
    + exact H1.
    + intros d [= <-]. exact Hc'.
  - split; [exact Hflag|]. split; [exact H1|]. rewrite Ec. discriminate.
Qed.

Lemma codeBody_content (lines : list jstring) (k : nat) (line : jstring)
      (st : codeScan) :
  nth_error lines k = Some line ->
  contentInv lines k st ->
  contentInv lines (k + 1) (codeBody filePath fileName repositoryName k line st).
Proof.
  intros Hk (Hflag & H1 & H2).
  assert (Hg : gated lines k = commentGate (inMultilineComment st) (trim line))
    by (unfold gated; rewrite (flagAfter_step _ _ Hk), Hflag; reflexivity).
  unfold codeBody. rewrite <- Hg.
  destruct (gated lines k) eqn:Eg.
  - split; [simpl; symmetry; exact Eg|]. split; simpl; [exact H1|].
    intros c Hc.
    apply codeContent_extend with (c := c) (text := []);
      [ apply H2; exact Hc
      | rewrite Eg; reflexivity
      | reflexivity
      | symmetry; apply app_nil_r
      | right; split; [reflexivity|left; exact Eg] ].
  - destruct (isSkippedLine (trim line)) eqn:Es.
    + split; [simpl; symmetry; exact Eg|]. split; simpl; [exact H1|].
      intros c Hc. destruct (currentChunk st) as [d|] eqn:Ed; [|discriminate].
      injection Hc as <-.
      apply codeContent_extend with (c := d) (text := nl line);
        [ apply H2; reflexivity
        | rewrite Eg, (nth_of_nth_error _ _ Hk); reflexivity
        | reflexivity
        | reflexivity
        | right; split; [reflexivity|];
          right; rewrite (nth_of_nth_error _ _ Hk); exact Es ].
    + apply accumulate_content; auto.
      * rewrite inMultilineComment_checkPatterns. simpl. symmetry. exact Eg.
      * apply checkPatterns_mid; [exact Hk|].
        split; simpl; [exact H1|]. intros c Hc. left. apply H2; exact Hc.
Qed.

(** Every function, class or route chunk holds its triggering line, once
    or twice, followed by the lines outside block comments that were read
    while it was open; the lines behind [endLine] among them are blank
    lines and single-line comments. *)
Lemma extractCodeChunks_content (content : jstring) (c : chunk) :
  In c (extractCodeChunks content filePath fileName repositoryName) ->
  emitted (splitLines content) c.
Proof.
  unfold extractCodeChunks. intros Hc.
  assert (Hinv : contentInv (splitLines content) (length (splitLines content))
                   (forLines (codeBody filePath fileName repositoryName) 0
                      (splitLines content) (mkCodeScan [] None 0%Z false))).
  { apply forLines_invariant with (P := contentInv (splitLines content)).
    - split; [reflexivity|]. split; simpl; [intros ? []|discriminate].
    - intros k line st' Hk Hst. apply codeBody_content; assumption. }
  destruct Hinv as (_ & H1 & H2).
  apply in_pushIfContent in Hc. destruct Hc as [Hc|Hc]; [auto|].
  apply codeContent_emitted with (k := length (splitLines content)); auto.
Qed.

End Code.

Section Documentation.
Variables filePath fileName repositoryName : jstring.

Lemma docBody_inv (lines : list jstring) (k : nat) (line : jstring) (st : docScan) :
  nth_error lines k = Some line ->
  docInv lines k st ->
  docInv lines (k + 1) (docBody filePath fileName repositoryName k line st).
Proof.
  intros Hk [H1 H2]. pose proof (nth_error_lt _ _ Hk) as Hlt.
  unfold docBody. destruct (headerMatch line) as [caps|] eqn:Eh.
  - split; simpl.
    + intros c Hc. apply in_pushIfContent in Hc. destruct Hc as [Hc|Hc]; auto.
      apply H2; exact Hc.
    + intros c [= <-]. split; [|reflexivity].
      repeat split; simpl; try lia.
      * exists line, caps. simpl. replace (k + 1 - 1) with k by lia. auto.
      * unfold holdsItsLines; simpl. replace (k + 1 - 1) with k by lia.
        rewrite (linesBetween_snoc lines (a := k) Hk) by lia.
        unfold linesBetween. replace (k - k) with 0 by lia.
        simpl. rewrite app_nil_r. reflexivity.
  - destruct (currentSection st) as [c|] eqn:Ec.
    + destruct (H2 c eq_refl) as [(Hty & (Hs & Hse & He) & (l0 & caps & Hl0 & Hm & Hd) & Hcont) Hend].
      split; simpl; [exact H1|].
      intros d [= <-]. split; [|reflexivity].
      repeat split; simpl; try lia; try assumption.
      * exists l0, caps. simpl. auto.
      * unfold holdsItsLines in *; simpl.
        rewrite (linesBetween_snoc lines (a := startLine c - 1) Hk) by lia.
        rewrite map_app, concat_app. simpl. rewrite app_nil_r.
        rewrite Hcont, Hend. reflexivity.
    + split; [exact H1|]. rewrite Ec. discriminate.
Qed.

Lemma extractDocumentationChunks_inv (content : jstring) (c : chunk) :
  In c (extractDocumentationChunks content filePath fileName repositoryName) ->
  docChunk (splitLines content) c.
Proof.
  unfold extractDocumentationChunks. intros Hc.
  assert (Hinv : docInv (splitLines content) (length (splitLines content))
                   (forLines (docBody filePath fileName repositoryName) 0
                      (splitLines content) (mkDocScan [] None))).
  { apply forLines_invariant with (P := docInv (splitLines content)).
    - split; simpl; [intros ? []|discriminate].
    - intros k line st' Hk Hst. apply docBody_inv; assumption. }
  destruct Hinv as [H1 H2].
  apply in_pushIfContent in Hc; destruct Hc as [Hc|Hc]; auto.
  apply H2; exact Hc.
Qed.

Lemma extractDocumentationChunks_no_header (content : jstring) :
  (forall line, In line (splitLines content) -> headerMatch line = None) ->
  extractDocumentationChunks content filePath fileName repositoryName = [].
Proof.
  intros Hno. unfold extractDocumentationChunks.
  assert (Hinv : docIdle (splitLines content) (length (splitLines content))
                   (forLines (docBody filePath fileName repositoryName) 0
                      (splitLines content) (mkDocScan [] None))).
  { apply forLines_invariant with (P := docIdle (splitLines content)).
    - split; reflexivity.
    - intros k line [ss cur] Hk [Hs Hc]; simpl in *; subst ss cur.
      unfold docBody. rewrite (Hno line (nth_error_In _ _ Hk)).
      split; reflexivity. }
  destruct Hinv as [-> ->]. reflexivity.
Qed.

End Documentation.

(** *** The overview of a file *)

Lemma isTopComment_commentStyle (l : jstring) :
  isTopComment (trim l) = commentStyle l.
Proof.
  unfold isTopComment, commentStyle, startsWithOneOf. cbn [existsb].
  rewrite orb_false_r, !orb_assoc. reflexivity.
Qed.

Lemma isImportLine_importStyle (l : jstring) : isImportLine l = importStyle l.
Proof.
  exact (test_words 1 (map lit ["import"; "require"; "from"; "#include"; "using"]%string)
                    (trim l)).
Qed.

Lemma stopsTopScan_spec (l : jstring) :
  stopsTopScan (trim l) = negb (blankLine l || preambleStyle l).
Proof.
  unfold stopsTopScan, blankLine, preambleStyle, startsWithOneOf.
  rewrite <- (test_words 1 (map lit ["import"; "require"; "from"; "package"]%string)
                         (trim l)).
  change (test (rGroup 1 (rAlts (map rLit (map lit ["import"; "require"; "from";
                                                    "package"]%string)))) (trim l))
    with (test preamblePattern (trim l)).
  destruct (trim l); reflexivity.
Qed.

Lemma scanTopComments_spec (visited : list jstring) :
  scanTopComments visited = collectComments visited.
Proof.
  induction visited as [|l rest IH]; [reflexivity|].
  cbn [scanTopComments collectComments].
  rewrite isTopComment_commentStyle, stopsTopScan_spec, IH.
  destruct (commentStyle l); [reflexivity|].
  destruct (blankLine l || preambleStyle l); reflexivity.
Qed.

Lemma scanTopComments_length (visited : list jstring) :
  length (scanTopComments visited) <= length visited.
Proof.
  induction visited as [|l rest IH]; simpl; [lia|].
  destruct (isTopComment (trim l)); simpl; [lia|].
  destruct (stopsTopScan (trim l)); simpl; lia.
Qed.

Lemma topCommentsOf_spec (lines : list jstring) :
  topCommentsOf lines = scannedComments lines.
Proof.
  unfold topCommentsOf, scannedComments. rewrite scanTopComments_spec.
  destruct (Nat.le_gt_cases 20 (length lines)) as [H|H].
  - rewrite Nat.min_l by exact H. reflexivity.
  - rewrite Nat.min_r by lia.
    rewrite !firstn_all2 by lia. reflexivity.
Qed.

Lemma importsOf_spec (lines : list jstring) :
  importsOf lines = firstn 10 (filter importStyle lines).
Proof.
  unfold importsOf. f_equal. apply filter_ext. apply isImportLine_importStyle.
Qed.

Lemma commentsSection_titled (comments : list jstring) :
  commentsSection comments = titled (lit "Comments:") comments.
Proof. destruct comments; reflexivity. Qed.

Lemma importsSection_titled (imports : list jstring) :
  importsSection imports = titled (lit "Imports/Dependencies:") imports.
Proof. destruct imports; reflexivity. Qed.

Lemma topCommentsOf_length (lines : list jstring) :
  length (topCommentsOf lines) <= 20.
Proof.
  unfold topCommentsOf.
  etransitivity; [apply scanTopComments_length|].
  rewrite length_firstn. lia.
Qed.

Lemma importsOf_length (lines : list jstring) : length (importsOf lines) <= 10.
Proof. unfold importsOf. rewrite length_firstn. lia. Qed.

Lemma importsOf_are_imports (lines : list jstring) (l : jstring) :
  In l (importsOf lines) -> In l lines /\ isImportLine l = true.
Proof.
  unfold importsOf. intros H. apply in_firstn in H.
  apply filter_In in H. exact H.
Qed.

(** *** The chunks of one file and of a repository *)

Lemma extractConfigChunks_inv (content filePath fileName repositoryName : jstring)
      (c : chunk) :
  In c (extractConfigChunks content filePath fileName repositoryName) ->
  type c = configuration /\ inRange (length (splitLines content)) c.
Proof.
  unfold extractConfigChunks. destruct (JSON_parse content); [|intros []].
  intros [<-|[]]. split; [reflexivity|].
  pose proof (splitLines_length content). unfold inRange; simpl; lia.
Qed.

Lemma specificChunks_inv (content relativePath fileName fileExtension
                          repositoryName : jstring) (c : chunk) :
  In c (specificChunks content relativePath fileName fileExtension repositoryName) ->
  type c <> file_overview /\ inRange (length (splitLines content)) c.
Proof.
  unfold specificChunks.
  destruct (isCodeFile fileExtension).
  { intros H. apply extractCodeChunks_inv in H. destruct H as [Hty Hr].
    split; [|exact Hr]. destruct Hty as [->|[->| ->]]; discriminate. }
  destruct (streq fileExtension (lit ".md")).
  { intros H. apply extractDocumentationChunks_inv in H.
    destruct H as (Hty & Hr & _). split; [rewrite Hty; discriminate|exact Hr]. }
  destruct (streq fileExtension (lit ".json")); [|intros []].
  intros H. apply extractConfigChunks_inv in H. destruct H as [Hty Hr].
  split; [rewrite Hty; discriminate|exact Hr].
Qed.

Lemma processFile_readable (filePath repositoryPath repositoryName content : jstring) :
  fs_readFile filePath = Some content ->
  processFile filePath repositoryPath repositoryName
  = (fileOverviewChunk content (slashes (path_relative repositoryPath filePath))
       (path_basename filePath) (toLowerCase (path_extname filePath)) repositoryName
     :: specificChunks content (slashes (path_relative repositoryPath filePath))
          (path_basename filePath) (toLowerCase (path_extname filePath))
          repositoryName,
     []).
Proof. intros H. unfold processFile, specificChunks. rewrite H. reflexivity. Qed.

Lemma processFile_ranges (filePath repositoryPath repositoryName : jstring) (c : chunk) :
  In c (fst (processFile filePath repositoryPath repositoryName)) ->
  exists content,
    fs_readFile filePath = Some content /\
    inRange (length (splitLines content)) c.
Proof.
  destruct (fs_readFile filePath) as [content|] eqn:Er.
  - rewrite (processFile_readable _ _ _ Er). simpl.
    intros [<-|H]; exists content; (split; [reflexivity|]).
    + pose proof (splitLines_length content). unfold inRange; simpl; lia.
    + apply specificChunks_inv in H. apply H.
  - unfold processFile. rewrite Er. intros [].
Qed.

Lemma processRepository_chunks (root : option (list dirent))
      (repositoryPath repositoryName : jstring) (c : chunk) :
  In c (fst (processRepository root repositoryPath repositoryName)) ->
  exists file,
    In file (fst (scanDirectory repositoryPath root
                    (loadGitignore repositoryPath) [])) /\
    In c (fst (processFile file repositoryPath repositoryName)).
Proof.
  unfold processRepository.
  set (files := fst (scanDirectory _ _ _ _)).
  set (log0 := snd (scanDirectory _ _ _ _)).
  assert (G : forall fs acc,
             In c (fst (fold_left
                          (fun acc file =>
                             (fst acc ++ fst (processFile file repositoryPath repositoryName),
                              snd acc ++ snd (processFile file repositoryPath repositoryName)))
                          fs acc)) ->
             In c (fst acc) \/
             exists file, In file fs /\
                          In c (fst (processFile file repositoryPath repositoryName))).
  { induction fs as [|f fs IH]; intros acc H; simpl in *; [auto|].
    apply IH in H. destruct H as [H|(file & Hf & Hc)].
    - simpl in H. apply in_app_or in H. destruct H; [auto|].
      right; exists f; auto.
    - right; exists file; auto. }
  intros H. apply G in H. destruct H as [[]|H]. exact H.
Qed.

(** *** The properties of the specification *)

(** C1.  Every chunk emitted by repository processing, of whatever type,
    comes from one scanned, readable file and satisfies
    [endLine >= startLine >= 1] and [endLine <=] the number of lines of the
    content of that file. *)
Theorem chunk_ranges_within_file (root : option (list dirent))
        (repositoryPath repositoryName : jstring) (c : chunk) :
  In c (fst (processRepository root repositoryPath repositoryName)) ->
  exists file content,
    In file (fst (scanDirectory repositoryPath root
                    (loadGitignore repositoryPath) [])) /\
    fs_readFile file = Some content /\
    In c (fst (processFile file repositoryPath repositoryName)) /\
    1 <= startLine c /\ startLine c <= endLine c /\
    endLine c <= length (splitLines content).
Proof.
  intros H. apply processRepository_chunks in H. destruct H as (file & Hf & Hc).
  destruct (processFile_ranges _ _ _ _ Hc) as (content & Hr & H1 & H2 & H3).
  exists file, content. auto 10.
Qed.

(** C7, as stated, on a file that opens with a [using] directive: the
    directive is an import-style line, which the overview lists, yet it
    ends the comment scan of the code, so the comment behind it is not
    collected; the scan the specification describes passes over it and
    collects the comment. *)
Lemma comment_scan_stops_at_using :
  ~ (forall content : jstring,
        topCommentsOf (splitLines content) = statedComments (splitLines content)).
Proof.
  intros H. specialize (H usingFile). vm_compute in H. discriminate H.
Qed.

(** The two scans on that file, and the overview the code builds for it:
    the directive is listed under [Imports/Dependencies:] and there is no
    [Comments:] section. *)
Lemma overview_of_using_file :
  importStyle (lit "using System;") = true /\
  statedComments (splitLines usingFile) = [lit "// entry point"] /\
  topCommentsOf (splitLines usingFile) = [] /\
  createFileOverview usingFile (lit "Program.cs")
  = lit "File: Program.cs
Total Lines: 3


Imports/Dependencies:
using System;


Preview:
using System;
// entry point
class Program {}".
Proof. repeat split; vm_compute; reflexivity. Qed.

(** C7 (amended).  For a readable file, [processFile] returns, without
    logging, one [file_overview] chunk followed by chunks of other types.
    The overview spans lines 1 to the line count.  Its content is, in
    this order: the path; the line count; under [Comments:], when there
    are any, the comment lines, trimmed, that a scan of the first 20
    lines collects, where the scan passes over blank lines and over lines
    that start with [import], [require], [from] or [package] and ends at
    the first other line that is not a comment; under
    [Imports/Dependencies:], when there are any, the first 10 lines of the
    whole file that start with [import], [require], [from], [#include] or
    [using]; and under [Preview:] the first 30 lines. *)
Theorem processFile_emits_one_overview
        (filePath repositoryPath repositoryName content : jstring) :
  fs_readFile filePath = Some content ->
  let lines := splitLines content in
  exists overview rest,
    processFile filePath repositoryPath repositoryName = (overview :: rest, []) /\
    (forall c, In c rest -> type c <> file_overview) /\
    type overview = file_overview /\
    startLine overview = 1 /\ endLine overview = length lines /\
    exists comments imports,
      Processor.content overview
      = lit "File: " ++ slashes (path_relative repositoryPath filePath) ++ [LF]
        ++ lit "Total Lines: " ++ ofNat (length lines) ++ [LF] ++ [LF]
        ++ titled (lit "Comments:") comments ++ [LF]
        ++ titled (lit "Imports/Dependencies:") imports ++ [LF] ++ [LF]
        ++ lit "Preview:" ++ [LF] ++ join [LF] (firstn 30 lines) /\
      comments = scannedComments lines /\
      length comments <= 20 /\
      imports = firstn 10 (filter importStyle lines) /\
      length imports <= 10.
Proof.
  intros Hr lines. rewrite (processFile_readable _ _ _ Hr).
  eexists _, _. split; [reflexivity|].
  split; [intros c Hc; apply specificChunks_inv in Hc; apply Hc|].
  repeat (split; [reflexivity|]).
  exists (topCommentsOf lines), (importsOf lines).
  split.
  { cbn [fileOverviewChunk Processor.content]. unfold createFileOverview.
    rewrite commentsSection_titled, importsSection_titled. reflexivity. }
  split; [apply topCommentsOf_spec|].
  split; [apply topCommentsOf_length|].
  split; [apply importsOf_spec|apply importsOf_length].
Qed.

(** C9.  [extractConfigChunks] returns exactly one [configuration] chunk,
    holding [JSON.stringify(config, null, 2)] and spanning the file, when
    the content parses; when parsing fails it returns the empty list and
    nothing is raised or logged: [processFile] answers the overview alone,
    with an empty log. *)
Theorem extractConfigChunks_parse_or_skip
        (content filePath fileName repositoryName : jstring) :
  (forall config, JSON_parse content = Some config ->
     exists c,
       extractConfigChunks content filePath fileName repositoryName = [c] /\
       type c = configuration /\
       Processor.content c = JSON_stringify config 2 /\
       startLine c = 1 /\ endLine c = length (splitLines content)) /\
  (JSON_parse content = None ->
     extractConfigChunks content filePath fileName repositoryName = [] /\
     forall file repositoryPath,
       fs_readFile file = Some content ->
       toLowerCase (path_extname file) = lit ".json" ->
       exists overview,
         processFile file repositoryPath repositoryName = ([overview], []) /\
         type overview = file_overview).
Proof.
  split.
  - intros config Hp. unfold extractConfigChunks. rewrite Hp.
    eexists. split; [reflexivity|]. simpl. auto.
  - intros Hp. unfold extractConfigChunks. rewrite Hp. split; [reflexivity|].
    intros file repositoryPath Hr He.
    rewrite (processFile_readable _ _ _ Hr), He.
    unfold specificChunks, extractConfigChunks. rewrite Hp.
    eexists. split; reflexivity.
Qed.

(** C10.  A markdown file without a header line yields no documentation
    chunk.  Every documentation chunk starts at a header line, made of one
    to six [#], white space and a title, and the title is its description.
    The title is the text of the line behind the white space: it runs to
    the end of the line, or to the carriage return or other line
    terminator the line holds, and it starts with the first character
    that is not white space, unless only white space follows the [#], in
    which case it is one white-space character.  The content of the chunk
    is the text of lines [startLine .. endLine]; so no line in front of
    the first header belongs to a chunk. *)
Theorem documentation_chunks_start_at_headers
        (content filePath fileName repositoryName : jstring) :
  let lines := splitLines content in
  let docs := extractDocumentationChunks content filePath fileName repositoryName in
  ((forall line, In line lines -> headerMatch line = None) -> docs = []) /\
  (forall c, In c docs ->
     type c = documentation /\
     (exists line hashes spaces title rest,
        nth_error lines (startLine c - 1) = Some line /\
        headerMatch line <> None /\
        line = hashes ++ spaces ++ title ++ rest /\
        (1 <= length hashes <= 6 /\ Forall (fun x => x = "#"%char) hashes) /\
        (spaces <> [] /\ Forall (fun x => isSpace x = true) spaces) /\
        (title <> [] /\ Forall (fun x => isDot x = true) title) /\
        description c = Some title /\
        (rest = [] \/ exists x rest', rest = x :: rest' /\ isDot x = false) /\
        (Forall (fun x => isDot x = true) line -> line = hashes ++ spaces ++ title) /\
        (forall w tail,
            spaces ++ title ++ rest = w ++ tail ->
            Forall (fun x => isSpace x = true) w ->
            (exists x tail', tail = x :: tail' /\ isDot x = true) ->
            length w <= length spaces) /\
        (forall x title', title = x :: title' -> isSpace x = true -> title' = [])) /\
     (1 <= startLine c /\ startLine c <= endLine c /\ endLine c <= length lines) /\
     Processor.content c
     = concat (map nl (linesBetween lines (startLine c - 1) (endLine c))) /\
     (forall j,
        (forall k line, k <= j -> nth_error lines k = Some line ->
                        headerMatch line = None) ->
        j + 1 < startLine c)).
Proof.
  intros lines docs. split.
  - apply extractDocumentationChunks_no_header.
  - intros c Hc. apply extractDocumentationChunks_inv in Hc.
    destruct Hc as (Hty & (Hs & Hse & He) & (line & caps & Hl & Hm & Hd) & Hcont).
    split; [exact Hty|].
    split.
    { destruct (HeaderFacts.headerPattern_sound _ Hm)
        as (hashes & spaces & title & rest & E & Hh & Hsp & Ht & Hg & Hrest & Hmax).
      exists line, hashes, spaces, title, rest.
      split; [exact Hl|]. split; [congruence|]. split; [exact E|].
      split; [exact Hh|]. split; [exact Hsp|]. split; [exact Ht|].
      split; [rewrite Hd; exact Hg|]. split; [exact Hrest|].
      split; [|split; [exact Hmax|]].
      - intros Hline. destruct Hrest as [->|(x & rest' & -> & Hx)].
        + rewrite E, app_nil_r. reflexivity.
        + exfalso. rewrite E in Hline. rewrite !Forall_app in Hline.
          destruct Hline as (_ & _ & _ & Hr). inversion Hr; subst. congruence.
      - intros x title' -> Hx.
        destruct title' as [|y title'']; [reflexivity|exfalso].
        destruct Ht as [_ Ht]. inversion Ht as [|? ? _ Ht']; subst.
        inversion Ht' as [|? ? Hy _]; subst.
        specialize (Hmax (spaces ++ [x]) (y :: title'' ++ rest)).
        rewrite <- app_assoc in Hmax. specialize (Hmax eq_refl).
        assert (Hw : Forall (fun c => isSpace c = true) (spaces ++ [x]))
          by (apply Forall_app; split; [apply Hsp|repeat constructor; exact Hx]).
        specialize (Hmax Hw (ex_intro _ y (ex_intro _ _ (conj eq_refl Hy)))).
        rewrite length_app in Hmax. simpl in Hmax. lia. }
    split; [auto|]. split; [exact Hcont|].
    intros j Hj.
    destruct (Nat.le_gt_cases (startLine c - 1) j) as [Hle|Hgt]; [|lia].
    rewrite (Hj _ _ Hle Hl) in Hm. discriminate.
Qed.

End WithHost.

(** C2 (the code departs from it).  On a three-line function the chunk
    spans lines 1 to 3 but holds the first line twice.  On a function with
    a block comment and a trailing line comment the chunk spans lines 1
    to 4, holds the first line twice, lacks the line that opens the block
    comment and holds line 5, which lies behind [endLine]. *)
Theorem extractCodeChunks_content_is_not_its_range
        (host : Host) (filePath fileName repositoryName : jstring) :
  let short := lit "function f() {
  return 1;
}" in
  let commented := lit "function g() {
  /* about
     g */
  return 2;
// end" in
  (map summary (extractCodeChunks short filePath fileName repositoryName)
   = [ (function,
        lit "function f() {
function f() {
  return 1;
}
", 1, 3) ]
   /\ ~ (forall c, In c (extractCodeChunks short filePath fileName repositoryName) ->
                   Processor.content c = contentOfRange short c))
  /\
  (map summary (extractCodeChunks commented filePath fileName repositoryName)
   = [ (function,
        lit "function g() {
function g() {
     g */
  return 2;
// end
", 1, 4) ]
   /\ ~ (forall c, In c (extractCodeChunks commented filePath fileName repositoryName) ->
                   Processor.content c = contentOfRange commented c)).
Proof.
  intros short commented. split; (split; [vm_compute; reflexivity|]).
  - intros H.
    specialize (H (hd (mkChunk function [] [] [] [] [] 0 0 None None None)
                      (extractCodeChunks short filePath fileName repositoryName))).
    assert (Hin : In (hd (mkChunk function [] [] [] [] [] 0 0 None None None)
                        (extractCodeChunks short filePath fileName repositoryName))
                     (extractCodeChunks short filePath fileName repositoryName))
      by (vm_compute; left; reflexivity).
    specialize (H Hin). vm_compute in H. discriminate H.
  - intros H.
    specialize (H (hd (mkChunk function [] [] [] [] [] 0 0 None None None)
                      (extractCodeChunks commented filePath fileName repositoryName))).
    assert (Hin : In (hd (mkChunk function [] [] [] [] [] 0 0 None None None)
                        (extractCodeChunks commented filePath fileName repositoryName))
                     (extractCodeChunks commented filePath fileName repositoryName))
      by (vm_compute; left; reflexivity).
    specialize (H Hin). vm_compute in H. discriminate H.
Qed.

(** *** The properties on the example repository *)

Section Examples.
Import ExampleHost.

Lemma chunk_ranges_within_file_witness :
  In loginChunk (fst (processRepository (host := exampleHost) exampleRoot repo demo))
  /\ exists file content,
       In file (fst (scanDirectory (host := exampleHost) repo exampleRoot
                       (loadGitignore (host := exampleHost) repo) [])) /\
       fs_readFile (Host := exampleHost) file = Some content /\
       In loginChunk (fst (processFile (host := exampleHost) file repo demo)) /\
       1 <= startLine loginChunk /\ startLine loginChunk <= endLine loginChunk /\
       endLine loginChunk <= length (splitLines content).
Proof.
  assert (H : In loginChunk
                 (fst (processRepository (host := exampleHost) exampleRoot repo demo)))
    by (vm_compute; right; left; reflexivity).
  split; [exact H|].
  exact (chunk_ranges_within_file (host := exampleHost) exampleRoot repo demo loginChunk H).
Defined.

Lemma processFile_emits_one_overview_witness :
  exists content,
    fs_readFile (Host := exampleHost) (lit "repo/auth.js") = Some content /\
    exists overview rest,
      processFile (host := exampleHost) (lit "repo/auth.js") repo demo
      = (overview :: rest, []) /\
      type overview = file_overview /\
      startLine overview = 1 /\ endLine overview = 8 /\
      Processor.content overview = lit "File: auth.js
Total Lines: 8

Comments:
// session helpers

Imports/Dependencies:
import db from './db';


Preview:
// session helpers
import db from './db';

function login(user) {
  /* check
     the password */
  return db.check(user);
}".
Proof.
  eexists. split; [vm_compute; reflexivity|].
  destruct (processFile_emits_one_overview (host := exampleHost)
              (lit "repo/auth.js") repo demo
              (content := lit "// session helpers
import db from './db';

function login(user) {
  /* check
     the password */
  return db.check(user);
}") ltac:(vm_compute; reflexivity))
    as (overview & rest & Hp & _ & Hty & Hs & He & comments & imports
        & Hc & -> & _ & -> & _).
  exists overview, rest.
  split; [exact Hp|]. split; [exact Hty|]. split; [exact Hs|].
  split; [exact He|]. rewrite Hc. vm_compute. reflexivity.
Defined.

Lemma extractConfigChunks_parse_or_skip_witness :
  (exists c,
     extractConfigChunks (host := exampleHost) (lit "{}") (lit "package.json")
                         (lit "package.json") demo = [c] /\
     type c = configuration /\ Processor.content c = lit "{}")
  /\
  (extractConfigChunks (host := exampleHost) (lit "{oops") (lit "broken.json")
                       (lit "broken.json") demo = [] /\
   exists overview,
     processFile (host := exampleHost) (lit "repo/broken.json") repo demo
     = ([overview], [])).
Proof.
  split.
  - destruct (proj1 (extractConfigChunks_parse_or_skip (host := exampleHost)
                       (lit "{}") (lit "package.json") (lit "package.json") demo)
                    EmptyObject ltac:(vm_compute; reflexivity))
      as (c & Hc & Hty & Hcont & _).
    exists c. repeat split; assumption.
  - destruct (proj2 (extractConfigChunks_parse_or_skip (host := exampleHost)
                       (lit "{oops") (lit "broken.json") (lit "broken.json") demo)
                    ltac:(vm_compute; reflexivity))
      as (Hnil & Hfile).
    split; [exact Hnil|].
    destruct (Hfile (lit "repo/broken.json") repo
                    ltac:(vm_compute; reflexivity) ltac:(vm_compute; reflexivity))
      as (overview & Hp & _).
    exists overview. exact Hp.
Defined.

Lemma documentation_chunks_start_at_headers_witness :
  extractDocumentationChunks (lit "plain text
#hashtag") (lit "notes.md") (lit "notes.md") demo = []
  /\ description usageChunk = Some (lit "Usage")
  /\ (exists hashes spaces title rest,
        lit "## Usage" = hashes ++ spaces ++ title ++ rest /\
        description usageChunk = Some title /\
        (rest = [] \/ exists x rest', rest = x :: rest' /\ isDot x = false))
  /\ startLine usageChunk <= endLine usageChunk.
Proof.
  split.
  - apply (proj1 (documentation_chunks_start_at_headers
                    (lit "plain text
#hashtag") (lit "notes.md") (lit "notes.md") demo)).
    intros line [<-|[<-|[]]]; vm_compute; reflexivity.
  - assert (H : In usageChunk
                   (extractDocumentationChunks
                      (lit "Bigstack
# Setup
Run the installer.
## Usage
See the API.") (lit "README.md") (lit "README.md") demo))
      by (vm_compute; right; left; reflexivity).
    destruct (proj2 (documentation_chunks_start_at_headers
                       (lit "Bigstack
# Setup
Run the installer.
## Usage
See the API.") (lit "README.md") (lit "README.md") demo) usageChunk H)
      as (_ & (line & hashes & spaces & title & rest & Hl & _ & E & _ & _ & _
               & Hd & Hrest & _)
          & (_ & Hle & _) & _).
    split; [reflexivity|]. split; [|exact Hle].
    exists hashes, spaces, title, rest.
    assert (El : line = lit "## Usage")
      by (vm_compute in Hl; injection Hl as <-; reflexivity).
    rewrite <- El. auto.
Defined.

End Examples.

End ProcessorFacts.

(** ** The RAG service *)

Module DoubleFacts.
Import Double DoubleSpec.

Local Open Scope Z_scope.

Lemma fexp_eq (e : Z) : fexp prec emax e = Z.max (e - 53) (-1074).
Proof. reflexivity. Qed.

Lemma digits2_pos_bounds (p : positive) :
  2 ^ (Zpos (digits2_pos p) - 1) <= Zpos p < 2 ^ Zpos (digits2_pos p).
Proof.
  induction p as [p IH|p IH|]; cbn [digits2_pos].
  - rewrite Pos2Z.inj_succ. replace (Z.succ (Zpos (digits2_pos p)) - 1)
      with (Z.succ (Zpos (digits2_pos p) - 1)) by lia.
    rewrite !Z.pow_succ_r by lia. lia.
  - rewrite Pos2Z.inj_succ. replace (Z.succ (Zpos (digits2_pos p)) - 1)
      with (Z.succ (Zpos (digits2_pos p) - 1)) by lia.
    rewrite !Z.pow_succ_r by lia. lia.
  - simpl. lia.
Qed.

Lemma digits_unique (p : positive) (d : Z) :
  2 ^ (d - 1) <= Zpos p < 2 ^ d -> Zpos (digits2_pos p) = d.
Proof.
  intros [Hlo Hhi]. pose proof (digits2_pos_bounds p) as [Blo Bhi].
  assert (Hd : 0 < d).
  { destruct (Z.ltb_spec 0 d) as [H|H]; [exact H|].
    exfalso. destruct (Z.eq_dec d 0) as [->|Hne]; [simpl in Hhi; lia|].
    rewrite Z.pow_neg_r in Hhi by lia. lia. }
  destruct (Z.lt_trichotomy (Zpos (digits2_pos p)) d) as [H|[H|H]]; [|exact H|].
  - exfalso. assert (2 ^ Zpos (digits2_pos p) <= 2 ^ (d - 1))
      by (apply Z.pow_le_mono_r; lia). lia.
  - exfalso. assert (2 ^ d <= 2 ^ (Zpos (digits2_pos p) - 1))
      by (apply Z.pow_le_mono_r; lia). lia.
Qed.

(** The number of binary digits of a number that is not negative. *)
Lemma Zdigits2_bounds (m : Z) :
  0 < m -> 0 < Zdigits2 m /\ 2 ^ (Zdigits2 m - 1) <= m < 2 ^ Zdigits2 m.
Proof.
  destruct m as [|p|p]; try lia. intros _. cbn [Zdigits2].
  split; [lia|apply digits2_pos_bounds].
Qed.

Lemma Zdigits2_unique (m d : Z) :
  2 ^ (d - 1) <= m < 2 ^ d -> 0 < m -> Zdigits2 m = d.
Proof.
  destruct m as [|p|p]; try lia. intros H _. apply digits_unique. exact H.
Qed.

Lemma Zdigits2_shift (m n : Z) :
  0 < m -> 0 <= n -> n < Zdigits2 m ->
  0 < m / 2 ^ n /\ Zdigits2 (m / 2 ^ n) = Zdigits2 m - n.
Proof.
  intros Hm Hn Hlt. destruct (Zdigits2_bounds Hm) as [Hd [Hlo Hhi]].
  assert (Hp : 0 < 2 ^ n) by (apply Z.pow_pos_nonneg; lia).
  assert (E1 : 2 ^ (Zdigits2 m - 1) = 2 ^ (Zdigits2 m - n - 1) * 2 ^ n)
    by (rewrite <- Z.pow_add_r by lia; f_equal; lia).
  assert (E2 : 2 ^ Zdigits2 m = 2 ^ (Zdigits2 m - n) * 2 ^ n)
    by (rewrite <- Z.pow_add_r by lia; f_equal; lia).
  assert (Hq1 : 2 ^ (Zdigits2 m - n - 1) <= m / 2 ^ n)
    by (apply Z.div_le_lower_bound; lia).
  assert (Hq2 : m / 2 ^ n < 2 ^ (Zdigits2 m - n))
    by (apply Z.div_lt_upper_bound; lia).
  assert (Hp2 : 0 < 2 ^ (Zdigits2 m - n - 1)) by (apply Z.pow_pos_nonneg; lia).
  split; [lia|].
  apply Zdigits2_unique; [|lia]. split; [exact Hq1|exact Hq2].
Qed.

Lemma Zdigits2_shift_out (m n : Z) :
  0 <= m -> 0 <= n -> Zdigits2 m <= n -> m / 2 ^ n = 0.
Proof.
  intros Hm Hn Hle. destruct (Z.eq_dec m 0) as [->|Hne]; [apply Z.div_0_l; 
    apply Z.pow_nonzero; lia|].
  destruct (@Zdigits2_bounds m ltac:(lia)) as [Hd [Hlo Hhi]].
  apply Z.div_small. split; [lia|].
  assert (2 ^ Zdigits2 m <= 2 ^ n) by (apply Z.pow_le_mono_r; lia). lia.
Qed.

(** *** Shifting to the right *)

Lemma shr_1_m (mrs : shr_record) :
  0 <= shr_m mrs -> shr_m (shr_1 mrs) = shr_m mrs / 2.
Proof.
  destruct mrs as [m r s]. cbn [shr_m]. intros H. unfold shr_1.
  destruct m as [|[p|p|]|p]; cbn [shr_m]; try lia.
  - reflexivity.
  - rewrite (Pos2Z.inj_xI p). apply Z.div_unique with (r := 1); lia.
  - rewrite (Pos2Z.inj_xO p). apply Z.div_unique with (r := 0); lia.
  - reflexivity.
Qed.

Lemma pow_xI (p : positive) : 2 ^ Zpos p~1 = 2 * 2 ^ Zpos p * 2 ^ Zpos p.
Proof.
  rewrite (Pos2Z.inj_xI p).
  replace (2 * Zpos p + 1) with (1 + Zpos p + Zpos p) by lia.
  rewrite !Z.pow_add_r by lia. reflexivity.
Qed.

Lemma pow_xO (p : positive) : 2 ^ Zpos p~0 = 2 ^ Zpos p * 2 ^ Zpos p.
Proof.
  rewrite (Pos2Z.inj_xO p).
  replace (2 * Zpos p) with (Zpos p + Zpos p) by lia.
  rewrite Z.pow_add_r by lia. reflexivity.
Qed.

Lemma shr_iter_m (p : positive) (mrs : shr_record) :
  0 <= shr_m mrs ->
  shr_m (iter_pos shr_1 p mrs) = shr_m mrs / 2 ^ Zpos p.
Proof.
  revert mrs. induction p as [p IH|p IH|]; intros mrs H; cbn [iter_pos].
  - assert (Hp : 0 < 2 ^ Zpos p) by (apply Z.pow_pos_nonneg; lia).
    assert (H1 : 0 <= shr_m (shr_1 mrs))
      by (rewrite shr_1_m by exact H; apply Z.div_pos; lia).
    assert (H2 : 0 <= shr_m (iter_pos shr_1 p (shr_1 mrs)))
      by (rewrite IH by exact H1; apply Z.div_pos; lia).
    rewrite IH by exact H2. rewrite IH by exact H1. rewrite shr_1_m by exact H.
    rewrite !Z.div_div by lia. rewrite pow_xI. f_equal. ring.
  - assert (Hp : 0 < 2 ^ Zpos p) by (apply Z.pow_pos_nonneg; lia).
    assert (H2 : 0 <= shr_m (iter_pos shr_1 p mrs))
      by (rewrite IH by exact H; apply Z.div_pos; lia).
    rewrite IH by exact H2. rewrite IH by exact H.
    rewrite Z.div_div by lia. rewrite pow_xO. reflexivity.
  - rewrite shr_1_m by exact H. reflexivity.
Qed.

Lemma shr_record_of_loc_m (m : Z) (l : location) : shr_m (shr_record_of_loc m l) = m.
Proof. destruct l as [|[]]; reflexivity. Qed.

Lemma shr_fexp_spec (m e : Z) (l : location) :
  0 <= m ->
  let n := Z.max 0 (fexp prec emax (Zdigits2 m + e) - e) in
  shr_m (fst (shr_fexp prec emax m e l)) = m / 2 ^ n
  /\ snd (shr_fexp prec emax m e l) = e + n.
Proof.
  intros Hm n. unfold n, shr_fexp, shr.
  destruct (fexp prec emax (Zdigits2 m + e) - e) as [|p|p] eqn:E; cbn [fst snd].
  - rewrite shr_record_of_loc_m. simpl. rewrite Z.div_1_r. lia.
  - rewrite shr_iter_m by (rewrite shr_record_of_loc_m; exact Hm).
    rewrite shr_record_of_loc_m. rewrite Z.max_r by lia. split; reflexivity.
  - rewrite shr_record_of_loc_m. rewrite Z.max_l by lia. simpl.
    rewrite Z.div_1_r. lia.
Qed.

Lemma round_nearest_even_bounds (m : Z) (l : location) :
  m <= round_nearest_even m l <= m + 1.
Proof.
  unfold round_nearest_even. destruct l as [|[]]; try lia.
  destruct (Z.even m); lia.
Qed.

Lemma Zdigits2_le (m k : Z) : 0 < m -> m < 2 ^ k -> Zdigits2 m <= k.
Proof.
  intros Hm Hk. destruct (Zdigits2_bounds Hm) as [Hd [Hlo _]].
  destruct (Z.le_gt_cases (Zdigits2 m) k) as [H|H]; [exact H|].
  exfalso. assert (0 <= k).
  { destruct (Z.le_gt_cases 0 k) as [H0|H0]; [exact H0|].
    rewrite Z.pow_neg_r in Hk by lia. lia. }
  assert (2 ^ k <= 2 ^ (Zdigits2 m - 1)) by (apply Z.pow_le_mono_r; lia). lia.
Qed.

Lemma Zdigits2_ge (m k : Z) : 2 ^ (k - 1) <= m -> 0 < m -> k <= Zdigits2 m.
Proof.
  intros Hk Hm. destruct (Zdigits2_bounds Hm) as [Hd [_ Hhi]].
  destruct (Z.le_gt_cases k (Zdigits2 m)) as [H|H]; [exact H|].
  exfalso.
  assert (2 ^ Zdigits2 m <= 2 ^ (k - 1)) by (apply Z.pow_le_mono_r; lia). lia.
Qed.

(** The value packed at the end of [binary_round_aux]. *)
Lemma binary_round_aux_cases (s : bool) (m0 : positive) (e0 : Z) (l : location) :
  let E := fexp prec emax (Zpos (digits2_pos m0) + e0) in
  let q := Zpos m0 / 2 ^ (E - e0) in
  e0 <= E ->
  exists m e,
    binary_round_aux prec emax s (Zpos m0) e0 l = packed s m e /\
    0 <= m /\
    (0 < m -> fexp prec emax (Zdigits2 m + e) = e) /\
    ((e = E /\ q <= m <= q + 1) \/ (e = E + 1 /\ m = 2 ^ 52 /\ 2 ^ 52 <= q)) /\
    (E <> -1074 -> 2 ^ 52 <= q).
Proof.
  intros E q HN. unfold binary_round_aux.
  pose proof (@shr_fexp_spec (Zpos m0) e0 l ltac:(lia)) as S1. cbv zeta in S1.
  cbn [Zdigits2] in S1. fold E in S1. rewrite Z.max_r in S1 by lia.
  destruct (shr_fexp prec emax (Zpos m0) e0 l) as [mrs' e'].
  cbn [fst snd] in S1. destruct S1 as [Sm Se]. fold q in Sm.
  replace (e0 + (E - e0)) with E in Se by lia. subst e'.
  pose proof (round_nearest_even_bounds (shr_m mrs') (loc_of_shr_record mrs')) as Hr.
  set (m1 := round_nearest_even (shr_m mrs') (loc_of_shr_record mrs')) in *.
  rewrite Sm in Hr. clear Sm.
  (* what the first shift leaves *)
  assert (Hp : 0 < 2 ^ (E - e0)) by (apply Z.pow_pos_nonneg; lia).
  assert (Hq0 : 0 <= q) by (apply Z.div_pos; lia).
  assert (HE : -1074 <= E) by (unfold E; rewrite fexp_eq; lia).
  assert (Hd0 : 0 < Zdigits2 (Zpos m0)) by (apply Zdigits2_bounds; lia).
  cbn [Zdigits2] in Hd0.
  assert (Hq53 : q < 2 ^ 53).
  { destruct (Z.le_gt_cases (Zpos (digits2_pos m0)) (E - e0)) as [Hout|Hin].
    - unfold q. rewrite (@Zdigits2_shift_out (Zpos m0) (E - e0)); cbn [Zdigits2]; lia.
    - destruct (@Zdigits2_shift (Zpos m0) (E - e0)) as [Hq Hdq]; cbn [Zdigits2]; try lia.
      fold q in Hq, Hdq. cbn [Zdigits2] in Hdq.
      destruct (Zdigits2_bounds Hq) as [_ [_ Hhi]].
      assert (2 ^ Zdigits2 q <= 2 ^ 53).
      { apply Z.pow_le_mono_r; [lia|]. rewrite Hdq. unfold E. rewrite fexp_eq. lia. }
      lia. }
  assert (Hnorm : E <> -1074 -> 2 ^ 52 <= q).
  { intros Hne.
    assert (HEq : E = Zpos (digits2_pos m0) + e0 - 53)
      by (unfold E in *; rewrite fexp_eq in *; lia).
    destruct (@Zdigits2_shift (Zpos m0) (E - e0)) as [Hq Hdq]; cbn [Zdigits2]; try lia.
    fold q in Hq, Hdq. cbn [Zdigits2] in Hdq.
    destruct (Zdigits2_bounds Hq) as [_ [Hlo _]].
    replace (Zdigits2 q - 1) with 52 in Hlo by lia. exact Hlo. }
  pose proof (@shr_fexp_spec m1 E loc_Exact ltac:(lia)) as S2. cbv zeta in S2.
  destruct (shr_fexp prec emax m1 E loc_Exact) as [mrs'' e''].
  cbn [fst snd] in S2. destruct S2 as [Sm2 Se2].
  assert (Hpack : forall m e, shr_m mrs'' = m -> e'' = e ->
            match shr_m mrs'' with
            | 0 => S754_zero s
            | Zpos m2 => if e'' <=? emax - prec then S754_finite s m2 e''
                         else S754_infinity s
            | Zneg _ => S754_nan
            end = packed s m e)
    by (intros m e <- <-; reflexivity).
  destruct (Z.eq_dec m1 0) as [Hz|Hnz].
  - (* rounded to zero *)
    exists 0, E. rewrite Hz in *. cbn [Zdigits2] in *.
    assert (HE0 : E = -1074).
    { destruct (Z.eq_dec E (-1074)) as [H|H]; [exact H|]. apply Hnorm in H. lia. }
    rewrite fexp_eq in Sm2, Se2. rewrite Z.max_l in Sm2, Se2 by lia.
    split; [apply Hpack; [rewrite Sm2; reflexivity|lia]|].
    split; [lia|]. split; [lia|]. split; [|exact Hnorm]. left. split; [reflexivity|lia].
  - destruct (Z.eq_dec m1 (2 ^ 53)) as [Hov|Hno].
    + (* rounded up to the next binade *)
      exists (2 ^ 52), (E + 1). rewrite Hov in *.
      assert (HEn : E <> -1074 \/ E = -1074) by lia.
      assert (Hq : q = 2 ^ 53 - 1) by lia.
      change (Zdigits2 (2 ^ 53)) with 54 in *.
      rewrite fexp_eq in Sm2, Se2.
      replace (Z.max 0 (Z.max (54 + E - 53) (-1074) - E)) with 1 in Sm2, Se2 by lia.
      split; [apply Hpack; [rewrite Sm2; reflexivity|lia]|].
      split; [lia|]. split.
      * intros _. change (Zdigits2 (2 ^ 52)) with 53. rewrite fexp_eq. lia.
      * split; [|exact Hnorm].
        right. split; [reflexivity|]. split; [reflexivity|]. rewrite Hq. lia.
    + (* the mantissa fits *)
      exists m1, E.
      assert (Hm1 : 0 < m1 < 2 ^ 53) by lia.
      assert (Hd1 : Zdigits2 m1 <= 53) by (apply Zdigits2_le; lia).
      assert (Hd1' : E <> -1074 -> 53 <= Zdigits2 m1).
      { intros H. apply Hnorm in H. apply Zdigits2_ge; [|lia].
        change (2 ^ (53 - 1)) with (2 ^ 52). lia. }
      assert (Hcan : fexp prec emax (Zdigits2 m1 + E) = E) by (rewrite fexp_eq; lia).
      rewrite Hcan in Sm2, Se2. rewrite Z.sub_diag in Sm2, Se2.
      simpl in Sm2, Se2. rewrite Z.div_1_r in Sm2.
      split; [apply Hpack; [exact Sm2|lia]|].
      split; [lia|]. split; [intros _; exact Hcan|]. split; [|exact Hnorm].
      left. split; [reflexivity|lia].
Qed.

(** *** Doubles in canonical form *)

Lemma bounded_facts (m : positive) (e : Z) :
  bounded prec emax m e = true ->
  -1074 <= e <= 971 /\ Zpos (digits2_pos m) <= 53 /\
  (Zpos (digits2_pos m) = 53 \/ e = -1074).
Proof.
  unfold bounded, canonical_mantissa. rewrite andb_true_iff, Z.eqb_eq, Z.leb_le.
  rewrite fexp_eq. unfold emax, prec. lia.
Qed.

Lemma bounded_intro (m : positive) (e : Z) :
  fexp prec emax (Zpos (digits2_pos m) + e) = e -> e <= 971 ->
  bounded prec emax m e = true.
Proof.
  intros H1 H2. unfold bounded, canonical_mantissa.
  rewrite andb_true_iff, Z.eqb_eq, Z.leb_le. unfold emax, prec. split; [exact H1|lia].
Qed.

Lemma packed_valid (s : bool) (m e : Z) :
  0 <= m -> (0 < m -> fexp prec emax (Zdigits2 m + e) = e) ->
  valid (packed s m e) = true /\ isNaN (packed s m e) = false.
Proof.
  intros Hm Hc. destruct m as [|p|p]; [split; reflexivity| |lia].
  cbn [packed]. destruct (Z.leb_spec e (emax - prec)) as [Hle|Hgt];
    [|split; reflexivity].
  split; [|reflexivity]. cbn [valid valid_binary]. unfold valid.
  cbn [valid_binary]. apply bounded_intro; [apply Hc; lia|unfold emax, prec in Hle; lia].
Qed.

Lemma digits_mul (x y : positive) :
  Zpos (digits2_pos x) + Zpos (digits2_pos y) - 1 <= Zpos (digits2_pos (x * y)).
Proof.
  pose proof (digits2_pos_bounds x) as [Hx _].
  pose proof (digits2_pos_bounds y) as [Hy _].
  apply (@Zdigits2_ge (Zpos (x * y))); [|lia].
  replace (Zpos (digits2_pos x) + Zpos (digits2_pos y) - 1 - 1)
    with ((Zpos (digits2_pos x) - 1) + (Zpos (digits2_pos y) - 1)) by lia.
  rewrite Z.pow_add_r by lia. rewrite Pos2Z.inj_mul.
  apply Z.mul_le_mono_nonneg; try lia; apply Z.pow_nonneg; lia.
Qed.

(** The product of two canonical mantissas has enough digits for the
    first shift of the rounding not to go to the left. *)
Lemma mul_shift_right (mx my : positive) (ex ey : Z) :
  bounded prec emax mx ex = true -> bounded prec emax my ey = true ->
  ex + ey <= fexp prec emax (Zpos (digits2_pos (mx * my)) + (ex + ey)).
Proof.
  intros Hx Hy. apply bounded_facts in Hx. apply bounded_facts in Hy.
  pose proof (digits_mul mx my) as Hd.
  pose proof (digits2_pos_bounds mx) as _.
  assert (0 < Zpos (digits2_pos mx)) by lia.
  assert (0 < Zpos (digits2_pos my)) by lia.
  rewrite fexp_eq. lia.
Qed.

Lemma mul_finite_cases (sx sy : bool) (mx my : positive) (ex ey : Z) :
  bounded prec emax mx ex = true -> bounded prec emax my ey = true ->
  let E := fexp prec emax (Zpos (digits2_pos (mx * my)) + (ex + ey)) in
  let q := Zpos (mx * my) / 2 ^ (E - (ex + ey)) in
  exists m e,
    mul (S754_finite sx mx ex) (S754_finite sy my ey) = packed (xorb sx sy) m e /\
    0 <= m /\
    (0 < m -> fexp prec emax (Zdigits2 m + e) = e) /\
    ((e = E /\ q <= m <= q + 1) \/ (e = E + 1 /\ m = 2 ^ 52 /\ 2 ^ 52 <= q)) /\
    (E <> -1074 -> 2 ^ 52 <= q).
Proof.
  intros Hx Hy E q. unfold mul. cbn [SFmul].
  apply binary_round_aux_cases. apply mul_shift_right; assumption.
Qed.

(** The doubles are closed under multiplication. *)
Lemma mul_valid (x y : double) :
  valid x = true -> valid y = true -> valid (mul x y) = true.
Proof.
  intros Hx Hy. destruct x as [sx|sx| |sx mx ex], y as [sy|sy| |sy my ey];
    try reflexivity.
  destruct (@mul_finite_cases sx sy mx my ex ey Hx Hy) as (m & e & -> & Hm & Hc & _).
  apply packed_valid; assumption.
Qed.

(** A product is NaN only for NaN, or zero times infinity. *)
Lemma mul_finite_not_NaN (x y : double) :
  valid x = true -> valid y = true ->
  isFinite x = true -> isFinite y = true -> isNaN (mul x y) = false.
Proof.
  intros Hx Hy Fx Fy. destruct x as [sx|sx| |sx mx ex], y as [sy|sy| |sy my ey];
    try reflexivity; try discriminate.
  destruct (@mul_finite_cases sx sy mx my ex ey Hx Hy) as (m & e & -> & Hm & Hc & _).
  apply packed_valid; assumption.
Qed.

(** *** The order of the doubles *)

Lemma beyond_pos : 0 < beyond.
Proof. unfold beyond. apply Z.pow_pos_nonneg; lia. Qed.

Lemma finite_rank_bounds (m : positive) (e : Z) :
  bounded prec emax m e = true ->
  0 < Zpos m * 2 ^ (e + 1074) < beyond.
Proof.
  intros H. apply bounded_facts in H. destruct H as (He & Hd & _).
  pose proof (digits2_pos_bounds m) as [_ Hhi].
  assert (Hm : Zpos m < 2 ^ 53).
  { assert (2 ^ Zpos (digits2_pos m) <= 2 ^ 53) by (apply Z.pow_le_mono_r; lia). lia. }
  assert (Hp : 0 < 2 ^ (e + 1074)) by (apply Z.pow_pos_nonneg; lia).
  assert (Hp2 : 2 ^ (e + 1074) <= 2 ^ 2045) by (apply Z.pow_le_mono_r; lia).
  split; [lia|]. unfold beyond.
  replace (2 ^ 2200) with (2 ^ 53 * 2 ^ 2147) by (rewrite <- Z.pow_add_r by lia; reflexivity).
  assert (2 ^ 2045 < 2 ^ 2147) by (apply Z.pow_lt_mono_r; lia).
  apply Z.mul_lt_mono_nonneg; lia.
Qed.

(** Among canonical mantissas the larger exponent is the larger value. *)
Lemma exponent_decides (mx my : positive) (ex ey : Z) :
  bounded prec emax mx ex = true -> bounded prec emax my ey = true ->
  ex < ey ->
  Zpos mx * 2 ^ (ex + 1074) < Zpos my * 2 ^ (ey + 1074).
Proof.
  intros Hx Hy Hlt. apply bounded_facts in Hx. apply bounded_facts in Hy.
  destruct Hx as (Hex & Hdx & _). destruct Hy as (Hey & _ & Hdy).
  pose proof (digits2_pos_bounds mx) as [_ Hxhi].
  pose proof (digits2_pos_bounds my) as [Hylo _].
  assert (Hdy53 : Zpos (digits2_pos my) = 53) by lia.
  rewrite Hdy53 in Hylo. change (2 ^ (53 - 1)) with (2 ^ 52) in Hylo.
  assert (Hmx : Zpos mx < 2 ^ 53).
  { assert (2 ^ Zpos (digits2_pos mx) <= 2 ^ 53) by (apply Z.pow_le_mono_r; lia). lia. }
  set (a := 2 ^ (ex + 1074)).
  assert (Ha : 0 < a) by (apply Z.pow_pos_nonneg; lia).
  assert (Hb : 2 * a <= 2 ^ (ey + 1074)).
  { replace (2 * a) with (2 ^ (ex + 1 + 1074))
      by (unfold a; replace (ex + 1 + 1074) with (Z.succ (ex + 1074)) by lia;
          rewrite Z.pow_succ_r by lia; reflexivity).
    apply Z.pow_le_mono_r; lia. }
  assert (H1 : Zpos mx * a < 2 ^ 53 * a) by (apply Z.mul_lt_mono_pos_r; lia).
  assert (H2 : 2 ^ 52 * (2 * a) <= Zpos my * 2 ^ (ey + 1074))
    by (apply Z.mul_le_mono_nonneg; lia).
  change (2 ^ 53) with (2 ^ 52 * 2) in H1. lia.
Qed.

Lemma finite_compare (mx my : positive) (ex ey : Z) :
  bounded prec emax mx ex = true -> bounded prec emax my ey = true ->
  match ex ?= ey with
  | Lt => Lt
  | Gt => Gt
  | Eq => Pos.compare_cont Eq mx my
  end = (Zpos mx * 2 ^ (ex + 1074) ?= Zpos my * 2 ^ (ey + 1074)).
Proof.
  intros Hx Hy. symmetry. destruct (Z.compare_spec ex ey) as [->|Hlt|Hgt].
  - pose proof (bounded_facts _ _ Hy) as (He & _).
    assert (Ha : 0 < 2 ^ (ey + 1074)) by (apply Z.pow_pos_nonneg; lia).
    change (Pos.compare_cont Eq mx my) with (Zpos mx ?= Zpos my).
    destruct (Z.compare_spec (Zpos mx) (Zpos my)) as [E|E|E].
    + rewrite E. apply Z.compare_refl.
    + apply Z.compare_lt_iff. apply Z.mul_lt_mono_pos_r; lia.
    + apply Z.compare_gt_iff. apply Z.mul_lt_mono_pos_r; lia.
  - apply Z.compare_lt_iff. apply exponent_decides; assumption.
  - apply Z.compare_gt_iff. apply exponent_decides; assumption.
Qed.

(** Comparison of doubles is comparison of their ranks. *)
Lemma compare_rank (x y : double) :
  ordered x -> ordered y -> SFcompare x y = Some (rank x ?= rank y).
Proof.
  intros [Vx Nx] [Vy Ny].
  pose proof beyond_pos as Hbig.
  assert (Hfin : forall s m e, valid (S754_finite s m e) = true ->
                               0 < Zpos m * 2 ^ (e + 1074) < beyond)
    by (intros s m e H; apply finite_rank_bounds; exact H).
  destruct x as [sx|sx| |sx mx ex], y as [sy|sy| |sy my ey];
    try discriminate; cbn [SFcompare rank];
    try (pose proof (Hfin _ _ _ Vx)); try (pose proof (Hfin _ _ _ Vy));
    try destruct sx; try destruct sy; cbn [cond_Zopp];
    try (f_equal; symmetry;
         first [ apply Z.compare_eq_iff; lia
               | apply Z.compare_lt_iff; lia
               | apply Z.compare_gt_iff; lia ]).
  - f_equal. rewrite Z.compare_opp.
    rewrite <- (@finite_compare my mx ey ex Vy Vx).
    rewrite (Z.compare_antisym ex ey).
    change (Pos.compare_cont Eq my mx) with (Pos.compare my mx).
    rewrite (Pos.compare_antisym mx my).
    destruct (ex ?= ey); reflexivity.
  - f_equal. apply finite_compare; assumption.
Qed.

Lemma ltb_rank (x y : double) :
  ordered x -> ordered y -> ltb x y = (rank x <? rank y).
Proof.
  intros Hx Hy. unfold ltb, SFltb. rewrite (compare_rank Hx Hy).
  unfold Z.ltb. destruct (rank x ?= rank y); reflexivity.
Qed.

Lemma leb_rank (x y : double) :
  ordered x -> ordered y -> leb x y = (rank x <=? rank y).
Proof.
  intros Hx Hy. unfold leb, SFleb. rewrite (compare_rank Hx Hy).
  unfold Z.leb. destruct (rank x ?= rank y); reflexivity.
Qed.

Lemma eqb_rank (x y : double) :
  ordered x -> ordered y -> eqb x y = (rank x =? rank y).
Proof.
  intros Hx Hy. unfold eqb, SFeqb. rewrite (compare_rank Hx Hy).
  destruct (Z.compare_spec (rank x) (rank y)) as [E|E|E]; symmetry;
    [apply Z.eqb_eq; exact E|apply Z.eqb_neq; lia|apply Z.eqb_neq; lia].
Qed.

(** *** The sign of a difference *)

Lemma iter_xO (m d : positive) : Zpos (Pos.iter xO m d) = Zpos m * 2 ^ Zpos d.
Proof.
  induction d as [|d IH] using Pos.peano_ind.
  - cbn [Pos.iter]. rewrite (Pos2Z.inj_xO m). change (2 ^ 1) with 2. lia.
  - rewrite Pos.iter_succ, Pos2Z.inj_xO, IH, Pos2Z.inj_succ, Z.pow_succ_r by lia. ring.
Qed.

Lemma shl_align_spec (m : positive) (e e' : Z) :
  e' <= e ->
  Zpos (fst (shl_align m e e')) = Zpos m * 2 ^ (e - e') /\
  snd (shl_align m e e') = e'.
Proof.
  intros H. unfold shl_align. destruct (e' - e) as [|d|d] eqn:E; cbn [fst snd].
  - replace (e - e') with 0 by lia. simpl. lia.
  - lia.
  - rewrite iter_xO. replace (e - e') with (Zpos d) by lia. split; [reflexivity|lia].
Qed.

Lemma Zdigits2_shl (m k : Z) :
  0 < m -> 0 <= k -> Zdigits2 (m * 2 ^ k) = Zdigits2 m + k.
Proof.
  intros Hm Hk. destruct (Zdigits2_bounds Hm) as [Hd [Hlo Hhi]].
  assert (Hp : 0 < 2 ^ k) by (apply Z.pow_pos_nonneg; lia).
  apply Zdigits2_unique; [|lia].
  replace (Zdigits2 m + k - 1) with (Zdigits2 m - 1 + k) by lia.
  rewrite !Z.pow_add_r by lia. split.
  - apply Z.mul_le_mono_nonneg_r; lia.
  - apply Z.mul_lt_mono_pos_r; lia.
Qed.

(** Rounding a number that is not zero, at an exponent the doubles
    reach, does not give zero. *)
Lemma binary_round_positive (s : bool) (p : positive) (e : Z) :
  -1074 <= e ->
  exists m e', binary_round prec emax s p e = packed s m e' /\ 0 < m.
Proof.
  intros He. unfold binary_round.
  set (F := fexp prec emax (Zpos (digits2_pos p) + e)).
  pose proof (digits2_pos_bounds p) as _.
  assert (Hd : 0 < Zpos (digits2_pos p)) by lia.
  destruct (Z.le_gt_cases e F) as [Hle|Hgt].
  - (* nothing to shift to the left *)
    assert (Hs : shl_align p e F = (p, e)).
    { unfold shl_align. destruct (F - e) as [|d|d] eqn:E; try reflexivity. lia. }
    rewrite Hs.
    destruct (@binary_round_aux_cases s p e loc_Exact Hle) as (m & e' & -> & Hm & _ & Hq & _).
    fold F in Hq. exists m, e'. split; [reflexivity|].
    destruct (@Zdigits2_shift (Zpos p) (F - e)) as [Hq0 _]; cbn [Zdigits2];
      [lia|lia|unfold F; rewrite fexp_eq; lia|].
    destruct Hq as [[_ Hq]|[_ [-> _]]]; [lia|reflexivity].
  - destruct (@shl_align_spec p e F ltac:(lia)) as [Hm Hsnd].
    destruct (shl_align p e F) as [mz ez]. cbn [fst snd] in Hm, Hsnd. subst ez.
    assert (Hdz : Zpos (digits2_pos mz) = Zpos (digits2_pos p) + (e - F)).
    { change (Zpos (digits2_pos mz)) with (Zdigits2 (Zpos mz)). rewrite Hm.
      rewrite Zdigits2_shl by lia. reflexivity. }
    assert (HF : fexp prec emax (Zpos (digits2_pos mz) + F) = F)
      by (rewrite Hdz; replace (Zpos (digits2_pos p) + (e - F) + F)
            with (Zpos (digits2_pos p) + e) by lia; reflexivity).
    destruct (@binary_round_aux_cases s mz F loc_Exact ltac:(rewrite HF; lia))
      as (m & e' & -> & Hm0 & _ & Hq & _).
    rewrite HF, Z.sub_diag in Hq. simpl in Hq. rewrite Z.div_1_r in Hq.
    exists m, e'. split; [reflexivity|].
    destruct Hq as [[_ Hq]|[_ [-> _]]]; [lia|reflexivity].
Qed.

Lemma ltb_zero_packed (s : bool) (m e : Z) :
  0 < m -> ltb zero (packed s m e) = negb s.
Proof.
  intros Hm. destruct m as [|p|p]; try lia. cbn [packed].
  destruct (e <=? emax - prec), s; reflexivity.
Qed.

Lemma ltb_zero_normalize (D e : Z) :
  -1074 <= e ->
  ltb zero (binary_normalize prec emax D e false) = (0 <? D).
Proof.
  intros He. destruct D as [|p|p]; cbn [binary_normalize].
  - reflexivity.
  - destruct (@binary_round_positive false p e He) as (m & e' & -> & Hm).
    rewrite ltb_zero_packed by exact Hm. reflexivity.
  - destruct (@binary_round_positive true p e He) as (m & e' & -> & Hm).
    rewrite ltb_zero_packed by exact Hm. reflexivity.
Qed.

(** [x - y > 0] exactly when [x > y]: the difference of two doubles is
    zero only when they are equal, and the difference of two infinities of
    the same sign, which is NaN, is not above zero. *)
Lemma sub_positive (x y : double) :
  ordered x -> ordered y -> ltb zero (sub x y) = ltb y x.
Proof.
  intros Hx Hy. rewrite (ltb_rank Hy Hx). destruct Hx as [Vx Nx], Hy as [Vy Ny].
  pose proof beyond_pos as Hbig.
  assert (Hfin : forall s m e, valid (S754_finite s m e) = true ->
                               0 < Zpos m * 2 ^ (e + 1074) < beyond)
    by (intros s m e H; apply finite_rank_bounds; exact H).
  destruct x as [sx|sx| |sx mx ex], y as [sy|sy| |sy my ey];
    try discriminate; unfold sub; cbn [SFsub rank];
    try (pose proof (Hfin _ _ _ Vx)); try (pose proof (Hfin _ _ _ Vy)).
  9: { (* two finite doubles *)
    pose proof (bounded_facts _ _ Vx) as (Hex & _).
    pose proof (bounded_facts _ _ Vy) as (Hey & _).
    set (ez := Z.min ex ey).
    rewrite ltb_zero_normalize by (unfold ez; lia).
    destruct (@shl_align_spec mx ex ez ltac:(unfold ez; lia)) as [-> _].
    destruct (@shl_align_spec my ey ez ltac:(unfold ez; lia)) as [-> _].
    assert (Ha : 0 < 2 ^ (ez + 1074)) by (apply Z.pow_pos_nonneg; unfold ez; lia).
    assert (Ex : 2 ^ (ex + 1074) = 2 ^ (ex - ez) * 2 ^ (ez + 1074))
      by (rewrite <- Z.pow_add_r by (unfold ez; lia); f_equal; lia).
    assert (Ey : 2 ^ (ey + 1074) = 2 ^ (ey - ez) * 2 ^ (ez + 1074))
      by (rewrite <- Z.pow_add_r by (unfold ez; lia); f_equal; lia).
    rewrite Ex, Ey.
    set (X := Zpos mx * 2 ^ (ex - ez)). set (Y := Zpos my * 2 ^ (ey - ez)).
    replace (Zpos mx * (2 ^ (ex - ez) * 2 ^ (ez + 1074))) with (X * 2 ^ (ez + 1074))
      by (unfold X; ring).
    replace (Zpos my * (2 ^ (ey - ez) * 2 ^ (ez + 1074))) with (Y * 2 ^ (ez + 1074))
      by (unfold Y; ring).
    destruct sx, sy; cbn [cond_Zopp];
      match goal with
      | |- (0 <? ?d) = (?a <? ?b) =>
          destruct (Z.ltb_spec 0 d); destruct (Z.ltb_spec a b); try reflexivity;
          exfalso; nia
      end. }
  all: try destruct sx; try destruct sy; cbn [cond_Zopp ltb SFltb SFcompare zero];
    symmetry;
    first [ apply Z.ltb_lt; lia | apply Z.ltb_ge; lia ].
Qed.

(** *** Multiplying by a double that is at least 1 *)

Lemma rank_packed (s : bool) (m e : Z) :
  0 < m ->
  rank (packed s m e)
  = cond_Zopp s (if e <=? emax - prec then m * 2 ^ (e + 1074) else beyond).
Proof.
  intros Hm. destruct m as [|p|p]; try lia. cbn [packed].
  destruct (e <=? emax - prec); reflexivity.
Qed.

(** The product of a double that is not negative by a double [y >= 1]
    is not below it, rounding included. *)
Lemma mul_at_least_one (x : double) (my : positive) (ey : Z) :
  ordered x -> 0 <= rank x ->
  bounded prec emax my ey = true -> Zpos (digits2_pos my) = 53 -> -52 <= ey ->
  rank x <= rank (mul x (S754_finite false my ey)).
Proof.
  intros [Vx Nx] Hpos Vy Hdy Hey.
  pose proof beyond_pos as Hbig.
  destruct x as [sx|sx| |sx mx ex]; [| | discriminate Nx | ].
  - unfold mul. cbn [SFmul rank]. lia.
  - unfold mul. cbn [SFmul rank] in *. destruct sx; cbn [xorb cond_Zopp] in *; lia.
  - pose proof (finite_rank_bounds _ _ Vx) as Hrx.
    destruct sx; [cbn [rank cond_Zopp] in Hpos; lia|].
    cbn [rank cond_Zopp].
    destruct (@mul_finite_cases false false mx my ex ey Vx Vy)
      as (m & e & -> & Hm & _ & Hq & Hnorm).
    cbn [xorb].
    pose proof (bounded_facts _ _ Vx) as (Hex & Hdx & Hcx).
    pose proof (digits_mul mx my) as Hd0. rewrite Hdy in Hd0.
    pose proof (digits2_pos_bounds my) as [Hylo _]. rewrite Hdy in Hylo.
    change (2 ^ (53 - 1)) with (2 ^ 52) in Hylo.
    pose proof (digits2_pos_bounds mx) as [_ Hxhi].
    assert (Hmx : Zpos mx < 2 ^ 53).
    { assert (2 ^ Zpos (digits2_pos mx) <= 2 ^ 53) by (apply Z.pow_le_mono_r; lia). lia. }
    set (E := fexp prec emax (Zpos (digits2_pos (mx * my)) + (ex + ey))) in *.
    set (q := Zpos (mx * my) / 2 ^ (E - (ex + ey))) in *.
    assert (HE : ex <= E) by (unfold E; rewrite fexp_eq; lia).
    assert (HE0 : ex + ey <= E) by (apply mul_shift_right; assumption).
    set (a := 2 ^ (ex + 1074)) in *.
    assert (Ha : 0 < a) by (apply Z.pow_pos_nonneg; lia).
    (* the mantissa kept, at the exponent kept, is not below [x] *)
    assert (Hkey : Zpos mx * a <= m * 2 ^ (e + 1074) /\ 0 < m).
    { destruct Hq as [[-> Hq]|[-> [-> _]]].
      - destruct (Z.eq_dec E ex) as [Eq|Ne].
        + assert (Hqx : Zpos mx <= q).
          { unfold q. apply Z.div_le_lower_bound; [apply Z.pow_pos_nonneg; lia|].
            rewrite Pos2Z.inj_mul, (Z.mul_comm (Zpos mx)).
            apply Z.mul_le_mono_nonneg_r; [lia|].
            assert (2 ^ (E - (ex + ey)) <= 2 ^ 52) by (apply Z.pow_le_mono_r; lia).
            lia. }
          rewrite Eq. fold a. split; [|lia].
          apply Z.mul_le_mono_nonneg_r; lia.
        + assert (H52 : 2 ^ 52 <= q) by (apply Hnorm; lia).
          assert (Hb : 2 * a <= 2 ^ (E + 1074)).
          { replace (2 * a) with (2 ^ (ex + 1 + 1074))
              by (unfold a; replace (ex + 1 + 1074) with (Z.succ (ex + 1074)) by lia;
                  rewrite Z.pow_succ_r by lia; reflexivity).
            apply Z.pow_le_mono_r; lia. }
          assert (H1 : 2 ^ 52 * (2 * a) <= m * 2 ^ (E + 1074))
            by (apply Z.mul_le_mono_nonneg; lia).
          assert (H2 : Zpos mx * a < 2 ^ 53 * a) by (apply Z.mul_lt_mono_pos_r; lia).
          change (2 ^ 53) with (2 ^ 52 * 2) in H2. split; lia.
      - assert (Hb : 2 * a <= 2 ^ (E + 1 + 1074)).
        { replace (2 * a) with (2 ^ (ex + 1 + 1074))
            by (unfold a; replace (ex + 1 + 1074) with (Z.succ (ex + 1074)) by lia;
                rewrite Z.pow_succ_r by lia; reflexivity).
          apply Z.pow_le_mono_r; lia. }
        assert (H2 : Zpos mx * a < 2 ^ 53 * a) by (apply Z.mul_lt_mono_pos_r; lia).
        change (2 ^ 53) with (2 ^ 52 * 2) in H2. split; [lia|reflexivity]. }
    destruct Hkey as [Hkey Hm0]. rewrite rank_packed by exact Hm0. cbn [cond_Zopp].
    destruct (e <=? emax - prec); lia.
Qed.

(** The product of a double that is not positive by a positive double
    is not positive. *)
Lemma mul_keeps_sign (x : double) (my : positive) (ey : Z) :
  ordered x -> rank x <= 0 -> bounded prec emax my ey = true ->
  rank (mul x (S754_finite false my ey)) <= 0.
Proof.
  intros [Vx Nx] Hneg Vy.
  pose proof beyond_pos as Hbig.
  destruct x as [sx|sx| |sx mx ex]; [| | discriminate Nx | ].
  - unfold mul. cbn [SFmul rank]. lia.
  - unfold mul. cbn [SFmul rank] in *. destruct sx; cbn [xorb cond_Zopp] in *; lia.
  - pose proof (finite_rank_bounds _ _ Vx) as Hrx.
    destruct sx; [|cbn [rank cond_Zopp] in Hneg; lia].
    destruct (@mul_finite_cases true false mx my ex ey Vx Vy)
      as (m & e & -> & Hm & _ & _ & _).
    cbn [xorb]. destruct (Z.eq_dec m 0) as [->|Hne]; [cbn [packed rank]; lia|].
    rewrite rank_packed by lia. cbn [cond_Zopp].
    assert (0 < 2 ^ (e + 1074) \/ 2 ^ (e + 1074) = 0).
    { destruct (Z.le_gt_cases 0 (e + 1074)) as [H|H];
        [left; apply Z.pow_pos_nonneg; lia|right; apply Z.pow_neg_r; lia]. }
    destruct (e <=? emax - prec); nia.
Qed.

(** *** JSON numbers and products *)

Lemma number_ordered (n : number) : ordered (value n).
Proof.
  destruct n as [x H]. cbn [value]. apply andb_true_iff in H. destruct H as [Hv Hf].
  split; [exact Hv|]. destruct x; try reflexivity; discriminate.
Qed.

Lemma mul_ordered (x : double) (s : bool) (m : positive) (e : Z) :
  ordered x -> bounded prec emax m e = true -> ordered (mul x (S754_finite s m e)).
Proof.
  intros [Vx Nx] Vy. destruct x as [sx|sx| |sx mx ex]; [| |discriminate Nx|].
  - split; reflexivity.
  - split; reflexivity.
  - destruct (@mul_finite_cases sx s mx m ex e Vx Vy) as (m' & e' & E & Hm & Hc & _).
    unfold ordered. rewrite E. apply packed_valid; assumption.
Qed.

(** A double equal to a double in canonical form is in canonical form. *)
Lemma eqb_ordered (x v : double) : ordered x -> eqb x v = true -> ordered v.
Proof.
  intros [Vx Nx]. unfold eqb, SFeqb.
  destruct x as [sx|sx| |sx mx ex], v as [sv|sv| |sv mv ev]; cbn [SFcompare];
    try discriminate; try (intros _; split; reflexivity).
  - destruct sv; discriminate.
  - destruct sx; discriminate.
  - intros H.
    assert (E : sx = sv /\ ex = ev /\ mx = mv).
    { destruct sx, sv; try discriminate H;
        destruct (Z.compare_spec ex ev) as [He|He|He]; try discriminate H;
        change (PosDef.Pos.compare_cont Eq mx mv) with (Pos.compare mx mv) in H;
        destruct (Pos.compare_spec mx mv) as [Hm|Hm|Hm]; try discriminate H;
        auto. }
    destruct E as (<- & <- & <-). split; [exact Vx|reflexivity].
Qed.

End DoubleFacts.

Module RagFacts.
Import Rag DoubleSpec RagSpec JSFacts DoubleFacts.

(** *** The two literals *)

Lemma boost_eq : boost = S754_finite false 6755399441055744 (-52).
Proof. vm_compute. reflexivity. Qed.

Lemma relevanceFloor_eq : relevanceFloor = S754_finite false 5404319552844595 (-54).
Proof. vm_compute. reflexivity. Qed.

Lemma relevanceFloor_ordered : ordered relevanceFloor.
Proof. rewrite relevanceFloor_eq. split; reflexivity. Qed.

Lemma relevanceFloor_rank : (0 < rank relevanceFloor)%Z.
Proof. rewrite relevanceFloor_eq. reflexivity. Qed.

(** *** Repeated boosts *)

Lemma boosted_succ (k : nat) (x : Double.double) :
  boosted (S k) x = Double.mul (boosted k x) boost.
Proof. reflexivity. Qed.

Lemma boosted_first (k : nat) (x : Double.double) :
  boosted (S k) x = boosted k (Double.mul x boost).
Proof. unfold boosted. rewrite Nat.iter_succ_r. reflexivity. Qed.

Lemma boosted_ordered (k : nat) (x : Double.double) :
  ordered x -> ordered (boosted k x).
Proof.
  intros Hx. induction k as [|k IH]; [exact Hx|].
  rewrite boosted_succ, boost_eq. apply mul_ordered; [exact IH|reflexivity].
Qed.

(** A boost does not lower a score that is not negative, whatever the
    rounding. *)
Lemma boosted_at_least (k : nat) (x : Double.double) :
  ordered x -> (0 <= rank x)%Z -> (rank x <= rank (boosted k x))%Z.
Proof.
  intros Hx Hpos. induction k as [|k IH]; [cbn; lia|].
  rewrite boosted_succ, boost_eq.
  pose proof (@mul_at_least_one (boosted k x) 6755399441055744 (-52)
                (boosted_ordered k Hx) ltac:(lia) eq_refl eq_refl ltac:(lia)).
  lia.
Qed.

Lemma boosted_not_positive (k : nat) (x : Double.double) :
  ordered x -> (rank x <= 0)%Z -> (rank (boosted k x) <= 0)%Z.
Proof.
  intros Hx Hneg. induction k as [|k IH]; [exact Hneg|].
  rewrite boosted_succ, boost_eq.
  apply mul_keeps_sign; [apply boosted_ordered; exact Hx|exact IH|reflexivity].
Qed.

(** *** The intent boosts *)

(** The score is multiplied by 1.5 once per triggered condition. *)
Lemma rescore_boosted (query : jstring) (c : hit) :
  adjustedScore (rescore (toLowerCase query) c)
  = boosted (triggers query c) (Double.value (score c)).
Proof.
  unfold rescore, triggers, otherTriggers, setupTriggered, apiTriggered,
    databaseTriggered, authTriggered, boosted.
  destruct (asksSetup (toLowerCase query)), (isSetupChunk c),
    (asksApi (toLowerCase query)), (isApiChunk c),
    (asksDatabase (toLowerCase query)), (isDatabaseChunk c),
    (asksAuth (toLowerCase query)), (isAuthChunk c);
    reflexivity.
Qed.

Lemma rescore_times (queryLower : jstring) (c : hit) :
  exists k, k <= 4 /\
    adjustedScore (rescore queryLower c) = boosted k (Double.value (score c)).
Proof.
  unfold rescore, boosted.
  destruct (asksSetup queryLower), (isSetupChunk c),
    (asksApi queryLower), (isApiChunk c),
    (asksDatabase queryLower), (isDatabaseChunk c),
    (asksAuth queryLower), (isAuthChunk c); cbn [adjustedScore];
    first [ exists 0; split; [lia|reflexivity]
          | exists 1; split; [lia|reflexivity]
          | exists 2; split; [lia|reflexivity]
          | exists 3; split; [lia|reflexivity]
          | exists 4; split; [lia|reflexivity] ].
Qed.

Lemma rescore_ordered (queryLower : jstring) (c : hit) :
  wellScored (rescore queryLower c).
Proof.
  unfold wellScored. destruct (rescore_times queryLower c) as (k & _ & ->).
  apply boosted_ordered. apply number_ordered.
Qed.

Lemma rescore_setup_first (query : jstring) (c : hit) :
  setupTriggered query c = true ->
  adjustedScore (rescore (toLowerCase query) c)
  = boosted (otherTriggers query c) (Double.mul (Double.value (score c)) boost).
Proof.
  intros H. rewrite rescore_boosted. unfold triggers. rewrite H.
  cbn [Nat.b2n Nat.add]. apply boosted_first.
Qed.

Lemma chunk_rescore (queryLower : jstring) (c : hit) :
  chunk (rescore queryLower c) = c.
Proof. reflexivity. Qed.

(** *** Sorting by descending adjusted score *)

Lemma in_insert (A : Type) (cmp : A -> A -> Double.double) (x z : A) (l : list A) :
  In z (insert cmp x l) <-> z = x \/ In z l.
Proof.
  induction l as [|y l IH]; simpl.
  - split; [intros [<-|[]]; auto | intros [->|[]]; auto].
  - destruct (Double.ltb Double.zero (cmp x y)); simpl.
    + rewrite IH. split.
      * intros [<-|[->|H]]; auto.
      * intros [->|[<-|H]]; auto.
    + split; [intros [<-|H]; auto | intros [->|H]; auto].
Qed.

Lemma in_sort (A : Type) (cmp : A -> A -> Double.double) (z : A) (l : list A) :
  In z (sort cmp l) <-> In z l.
Proof.
  induction l as [|x l IH]; simpl; [reflexivity|].
  rewrite in_insert, IH. split; intros [H|H]; auto.
Qed.

Lemma insert_permutation (A : Type) (cmp : A -> A -> Double.double) (x : A)
      (l : list A) :
  Permutation (insert cmp x l) (x :: l).
Proof.
  induction l as [|y l IH]; simpl; [reflexivity|].
  destruct (Double.ltb Double.zero (cmp x y)); [|reflexivity].
  rewrite IH. apply perm_swap.
Qed.

Lemma sort_permutation (A : Type) (cmp : A -> A -> Double.double) (l : list A) :
  Permutation (sort cmp l) l.
Proof.
  induction l as [|x l IH]; simpl; [reflexivity|].
  rewrite insert_permutation, IH. reflexivity.
Qed.

(** The comparator [b.adjustedScore - a.adjustedScore] is above zero
    exactly when [a.adjustedScore < b.adjustedScore]. *)
Lemma byScoreDesc_positive (x y : ranked) :
  wellScored x -> wellScored y ->
  Double.ltb Double.zero (byScoreDesc x y)
  = (rank (adjustedScore x) <? rank (adjustedScore y))%Z.
Proof.
  intros Hx Hy. unfold byScoreDesc.
  rewrite (sub_positive Hy Hx). apply ltb_rank; assumption.
Qed.

Lemma notBelow_rank (a b : ranked) :
  wellScored a -> wellScored b ->
  (notBelow a b <-> (rank (adjustedScore b) <= rank (adjustedScore a))%Z).
Proof.
  intros Ha Hb. unfold notBelow. rewrite (leb_rank Hb Ha). apply Z.leb_le.
Qed.

Lemma insert_sorted (x : ranked) (l : list ranked) :
  wellScored x -> Forall wellScored l ->
  StronglySorted notBelow l -> StronglySorted notBelow (insert byScoreDesc x l).
Proof.
  intros Hx. induction l as [|y l IH]; intros Hl Hs; simpl.
  - repeat constructor.
  - inversion Hs as [|? ? Hsl Hall]; subst.
    inversion Hl as [|? ? Hy Hl']; subst.
    rewrite (byScoreDesc_positive Hx Hy).
    destruct (Z.ltb_spec (rank (adjustedScore x)) (rank (adjustedScore y))) as [Hlt|Hge].
    + constructor; [apply IH; assumption|].
      apply Forall_forall. intros z Hz. apply in_insert in Hz.
      destruct Hz as [->|Hz].
      * apply notBelow_rank; [assumption|assumption|lia].
      * rewrite Forall_forall in Hall. apply Hall; exact Hz.
    + constructor; [exact Hs|].
      constructor; [apply notBelow_rank; assumption|].
      rewrite Forall_forall in *. intros z Hz.
      pose proof (Hall z Hz) as Hyz.
      apply notBelow_rank in Hyz; [|assumption|apply Hl'; exact Hz].
      apply notBelow_rank; [assumption|apply Hl'; exact Hz|lia].
Qed.

Lemma sort_wellScored (l : list ranked) :
  Forall wellScored l -> Forall wellScored (sort byScoreDesc l).
Proof.
  rewrite !Forall_forall. intros H r Hr. apply in_sort in Hr. apply H; exact Hr.
Qed.

Lemma sort_sorted (l : list ranked) :
  Forall wellScored l -> StronglySorted notBelow (sort byScoreDesc l).
Proof.
  induction l as [|x l IH]; intros Hl; simpl; [constructor|].
  inversion Hl; subst.
  apply insert_sorted; [assumption|apply sort_wellScored; assumption|apply IH; assumption].
Qed.

Lemma rescored_wellScored (queryLower : jstring) (candidates : list hit) :
  Forall wellScored (map (rescore queryLower) candidates).
Proof.
  apply Forall_forall. intros r Hr. apply in_map_iff in Hr.
  destruct Hr as (c & <- & _). apply rescore_ordered.
Qed.

Lemma filter_sorted (A : Type) (R : A -> A -> Prop) (f : A -> bool) (l : list A) :
  StronglySorted R l -> StronglySorted R (filter f l).
Proof.
  induction 1 as [|x l Hs IH Hall]; simpl; [constructor|].
  destruct (f x); [|exact IH].
  constructor; [exact IH|].
  apply Forall_forall. intros z Hz. apply filter_In in Hz.
  rewrite Forall_forall in Hall. apply Hall, Hz.
Qed.

Lemma firstn_sorted (A : Type) (R : A -> A -> Prop) (n : nat) (l : list A) :
  StronglySorted R l -> StronglySorted R (firstn n l).
Proof.
  intros Hs. revert n. induction Hs as [|x l Hs IH Hall]; intros [|n]; simpl;
    try constructor.
  - apply IH.
  - apply Forall_forall. intros z Hz. apply ProcessorFacts.in_firstn in Hz.
    rewrite Forall_forall in Hall. apply Hall, Hz.
Qed.

Lemma filter_split_permutation (A : Type) (f : A -> bool) (l : list A) :
  Permutation (filter f l ++ filter (fun x => negb (f x)) l) l.
Proof.
  induction l as [|x l IH]; simpl; [reflexivity|].
  destruct (f x); simpl.
  - constructor; exact IH.
  - rewrite <- Permutation_middle. constructor; exact IH.
Qed.

Lemma in_filterAndRankResults (candidates : list hit) (query : jstring) (r : ranked) :
  In r (filterAndRankResults candidates query) <->
  (exists c, In c candidates /\ r = rescore (toLowerCase query) c) /\
  Double.ltb relevanceFloor (adjustedScore r) = true.
Proof.
  unfold filterAndRankResults, aboveFloor. rewrite filter_In, in_sort, in_map_iff.
  split; intros [(c & H1 & H2) H3]; (split; [exists c; auto|exact H3]).
Qed.

Lemma filterAndRankResults_sorted (candidates : list hit) (query : jstring) :
  StronglySorted notBelow (filterAndRankResults candidates query).
Proof.
  unfold filterAndRankResults. apply filter_sorted. apply sort_sorted.
  apply rescored_wellScored.
Qed.

(** At or below the floor is the contrary of above it. *)
Lemma not_above_floor (x : Double.double) :
  ordered x ->
  (Double.leb x relevanceFloor = true <-> Double.ltb relevanceFloor x = false).
Proof.
  intros Hx. rewrite (leb_rank Hx relevanceFloor_ordered).
  rewrite (ltb_rank relevanceFloor_ordered Hx).
  rewrite Z.leb_le, Z.ltb_ge. reflexivity.
Qed.

(** *** Context assembly *)

Lemma forEachChunk_concat (cs : list ranked) (i : nat) (context : jstring) :
  forEachChunk i cs context
  = (context ++ concat (map (fun p => block (fst p) (chunk (snd p)))
                            (combine (seq i (length cs)) cs)))%list.
Proof.
  revert i context. induction cs as [|c cs IH]; intros i context;
    cbn [forEachChunk length seq combine map concat fst snd].
  - rewrite app_nil_r. reflexivity.
  - replace (i + 1)%nat with (S i) by lia.
    rewrite IH. rewrite <- app_assoc. reflexivity.
Qed.

Lemma firstn_length_exact (text : jstring) (n : nat) :
  (n <= length text)%nat -> length (firstn n text) = n.
Proof. intros H. rewrite length_firstn. lia. Qed.

(** *** The properties of the specification *)

(** C3, as stated, at a query that names two intents: with the query
    [setup api] the manifest [routes/package.json] is boosted twice, so its
    adjusted score is 2.25 times, not 1.5 times, the raw score. *)
Lemma setup_boost_is_not_alone :
  ~ (forall (query : jstring) (c : hit),
        includes (lit "setup") query = true ->
        fileName c = lit "package.json" ->
        adjustedScore (rescore (toLowerCase query) c)
        = Double.mul (Double.value (score c)) boost).
Proof.
  intros H.
  specialize (H (lit "setup api") routesPackageJson eq_refl eq_refl).
  vm_compute in H. discriminate H.
Qed.

(** Two boosts are two rounded products: a score of 0.7 boosted twice is
    1.5749999999999997, which is not the double nearest to 0.7 x 2.25. *)
Lemma two_boosts_round_twice :
  adjustedScore (rescore (toLowerCase (lit "setup api")) weakRoutesPackageJson)
  = Double.literal 15749999999999997 10000000000000000
  /\ adjustedScore (rescore (toLowerCase (lit "setup api")) weakRoutesPackageJson)
     <> Double.mul (Double.value sevenTenths) (Double.literal 225 100).
Proof.
  split; [vm_compute; reflexivity|].
  vm_compute. discriminate.
Qed.

(** C3 (amended).  The adjusted score of a candidate is its raw score
    multiplied by 1.5 once for each of the four intent conditions the
    (query, candidate) pair triggers, each product being rounded to a
    double: two triggers give (score x 1.5) x 1.5.  This is the score of
    every result of [filterAndRankResults].  When the query contains
    [setup] and the file name is [package.json] the setup condition is
    triggered: the adjusted score is 1.5 times the raw score, boosted
    again by the other conditions that are triggered, and 1.5 times the
    raw score when no other condition is triggered. *)
Theorem intent_boosts_multiply (query : jstring) (c : hit) :
  adjustedScore (rescore (toLowerCase query) c)
  = boosted (triggers query c) (Double.value (score c))
  /\ (triggers query c = 2%nat ->
      adjustedScore (rescore (toLowerCase query) c)
      = Double.mul (Double.mul (Double.value (score c)) boost) boost)
  /\ (forall candidates r,
        In r (filterAndRankResults candidates query) ->
        In (chunk r) candidates /\
        adjustedScore r
        = boosted (triggers query (chunk r)) (Double.value (score (chunk r))))
  /\ (includes (lit "setup") query = true ->
      fileName c = lit "package.json" ->
      setupTriggered query c = true /\
      adjustedScore (rescore (toLowerCase query) c)
      = boosted (otherTriggers query c) (Double.mul (Double.value (score c)) boost) /\
      (otherTriggers query c = 0%nat ->
       adjustedScore (rescore (toLowerCase query) c)
       = Double.mul (Double.value (score c)) boost)).
Proof.
  split; [apply rescore_boosted|].
  split.
  { intros H2. rewrite rescore_boosted, H2. reflexivity. }
  split.
  { intros candidates r Hr. apply in_filterAndRankResults in Hr.
    destruct Hr as [(d & Hd & ->) _]. rewrite chunk_rescore.
    split; [exact Hd|apply rescore_boosted]. }
  intros Hq Hf.
  assert (Ht : setupTriggered query c = true).
  { unfold setupTriggered, asksSetup, isSetupChunk.
    rewrite (@includes_toLowerCase (lit "setup") query eq_refl Hq).
    rewrite Hf. reflexivity. }
  split; [exact Ht|].
  split; [apply rescore_setup_first; exact Ht|].
  intros H0. rewrite (rescore_setup_first _ _ Ht), H0. reflexivity.
Qed.

(** C4.  Every result has an adjusted score above 0.3; a candidate whose
    adjusted score is at or below 0.3, in particular equal to 0.3, is not
    among the results.  When no candidate has an adjusted score above 0.3
    the ranked list and the list retrieved are empty, and the context
    built from the empty list is the text
    [No specific codebase context found for this query.] *)
Theorem relevance_floor_is_exclusive (candidates : list hit) (query : jstring) :
  (forall r, In r (filterAndRankResults candidates query) ->
             Double.ltb relevanceFloor (adjustedScore r) = true)
  /\ (forall r, Double.leb (adjustedScore r) relevanceFloor = true ->
                ~ In r (filterAndRankResults candidates query))
  /\ (forall r, Double.eqb (adjustedScore r) relevanceFloor = true ->
                ~ In r (filterAndRankResults candidates query))
  /\ ((forall c, In c candidates ->
                 Double.ltb relevanceFloor
                            (adjustedScore (rescore (toLowerCase query) c)) = false) ->
      filterAndRankResults candidates query = [] /\
      (forall (embedding error : Type)
              (hybridSearch : jstring -> embedding -> nat -> option jstring ->
                              error + list hit)
              (queryEmbedding : embedding) (repositoryFilter : option jstring),
          hybridSearch query queryEmbedding 15%nat (filtersOf repositoryFilter)
          = inr candidates ->
          searchRelevantContext hybridSearch query queryEmbedding repositoryFilter
          = inr []) /\
      buildContext [] = lit "No specific codebase context found for this query.").
Proof.
  assert (H1 : forall r, In r (filterAndRankResults candidates query) ->
                         Double.ltb relevanceFloor (adjustedScore r) = true).
  { intros r Hr. apply in_filterAndRankResults in Hr. apply Hr. }
  assert (H2 : forall r, In r (filterAndRankResults candidates query) ->
                         ordered (adjustedScore r)).
  { intros r Hr. apply in_filterAndRankResults in Hr.
    destruct Hr as [(c & _ & ->) _]. apply rescore_ordered. }
  split; [exact H1|].
  split.
  { intros r Hle Hr. apply (not_above_floor (H2 r Hr)) in Hle.
    rewrite (H1 r Hr) in Hle. discriminate Hle. }
  split.
  { intros r Heq Hr. pose proof (H1 r Hr) as Hlt.
    rewrite (ltb_rank relevanceFloor_ordered (H2 r Hr)) in Hlt.
    rewrite (eqb_rank (H2 r Hr) relevanceFloor_ordered) in Heq.
    apply Z.ltb_lt in Hlt. apply Z.eqb_eq in Heq. lia. }
  intros Hall.
  assert (Hnil : filterAndRankResults candidates query = []).
  { destruct (filterAndRankResults candidates query) as [|r l] eqn:E; [reflexivity|].
    assert (Hr : In r (filterAndRankResults candidates query))
      by (rewrite E; left; reflexivity).
    apply in_filterAndRankResults in Hr. destruct Hr as [(c & Hc & ->) Hlt].
    rewrite (Hall c Hc) in Hlt. discriminate Hlt. }
  split; [exact Hnil|].
  split; [|reflexivity].
  intros embedding error hybridSearch queryEmbedding repositoryFilter Hs.
  unfold searchRelevantContext. rewrite Hs, Hnil. reflexivity.
Qed.

(** C5.  When the hybrid search, asked for 15 candidates, answers,
    [searchRelevantContext] returns at most 8 results, in non-increasing
    order of adjusted score, each the rescored copy of a candidate, and
    together a part of the rescored candidates; when the search throws,
    the error is passed on. *)
Theorem searchRelevantContext_returns_top8
        (embedding error : Type)
        (hybridSearch : jstring -> embedding -> nat -> option jstring ->
                        error + list hit)
        (query : jstring) (queryEmbedding : embedding)
        (repositoryFilter : option jstring) :
  match hybridSearch query queryEmbedding 15%nat (filtersOf repositoryFilter) with
  | inr candidates =>
      exists results,
        searchRelevantContext hybridSearch query queryEmbedding repositoryFilter
        = inr results /\
        (length results <= 8)%nat /\
        StronglySorted
          (fun a b => Double.leb (adjustedScore b) (adjustedScore a) = true) results /\
        (forall r, In r results ->
                   In (chunk r) candidates /\
                   r = rescore (toLowerCase query) (chunk r)) /\
        (exists dropped,
            Permutation (results ++ dropped)
                        (map (rescore (toLowerCase query)) candidates))
  | inl e =>
      searchRelevantContext hybridSearch query queryEmbedding repositoryFilter
      = inl e
  end.
Proof.
  unfold searchRelevantContext.
  destruct (hybridSearch query queryEmbedding 15%nat (filtersOf repositoryFilter))
    as [e|candidates]; [reflexivity|].
  eexists. split; [reflexivity|].
  split; [rewrite length_firstn; lia|].
  split.
  { apply firstn_sorted. apply filterAndRankResults_sorted. }
  split.
  { intros r Hr. apply ProcessorFacts.in_firstn in Hr.
    apply in_filterAndRankResults in Hr. destruct Hr as [(c & Hc & ->) _].
    rewrite chunk_rescore. auto. }
  exists (skipn 8 (filterAndRankResults candidates query)
          ++ filter (fun x => negb (aboveFloor x))
               (sort byScoreDesc (map (rescore (toLowerCase query)) candidates)))%list.
  rewrite app_assoc, firstn_skipn. unfold filterAndRankResults.
  rewrite filter_split_permutation. apply sort_permutation.
Qed.

(** C6.  The content a block shows is the first 1000 characters of the
    chunk's content, followed by the marker [...] exactly when the content
    is longer than 1000 characters: 1001 characters give 1000 characters
    and the marker, 1000 characters give the content unchanged.  The
    context of a non-empty list is the heading followed by one block per
    chunk, in order, each ending with that content between fences. *)
Theorem buildContext_truncates_content :
  (forall text, (length text <= 1000)%nat -> renderedContent text = text)
  /\ (forall text, (1000 < length text)%nat ->
        renderedContent text = (firstn 1000 text ++ lit "...")%list /\
        length (firstn 1000 text) = 1000%nat)
  /\ (forall text, length text = 1001%nat ->
        renderedContent text = (firstn 1000 text ++ lit "...")%list /\
        length (renderedContent text) = 1003%nat)
  /\ (forall text, length text = 1000%nat -> renderedContent text = text)
  /\ (forall c cs,
        buildContext (c :: cs)
        = (lit "## Relevant Codebase Information:" ++ [LF; LF]
           ++ concat (map (fun p => block (fst p) (chunk (snd p)))
                          (indexed (c :: cs))))%list)
  /\ (forall i c, exists heading,
        block i c
        = (heading ++ lit "**Content:**" ++ [LF] ++ fence ++ [LF]
           ++ renderedContent (content c) ++ [LF] ++ fence ++ [LF; LF])%list).
Proof.
  assert (Hshort : forall text, (length text <= 1000)%nat -> renderedContent text = text).
  { intros text H. unfold renderedContent, substring0.
    rewrite firstn_all2 by exact H.
    replace (1000 <? length text)%nat with false
      by (symmetry; apply Nat.ltb_ge; exact H).
    apply app_nil_r. }
  assert (Hlong : forall text, (1000 < length text)%nat ->
                    renderedContent text = (firstn 1000 text ++ lit "...")%list /\
                    length (firstn 1000 text) = 1000%nat).
  { intros text H. unfold renderedContent, substring0.
    replace (1000 <? length text)%nat with true
      by (symmetry; apply Nat.ltb_lt; exact H).
    split; [reflexivity|apply firstn_length_exact; lia]. }
  split; [exact Hshort|]. split; [exact Hlong|].
  split.
  { intros text H. destruct (Hlong text ltac:(lia)) as [E L].
    split; [exact E|]. rewrite E, length_app, L. reflexivity. }
  split; [intros text H; apply Hshort; lia|].
  split.
  { intros c cs. unfold buildContext, indexed.
    cbn [length Nat.eqb]. rewrite forEachChunk_concat.
    rewrite <- !app_assoc. reflexivity. }
  intros i c. exists (blockHead i c). reflexivity.
Qed.

(** *** The properties on sample candidates *)

Lemma intent_boosts_multiply_witness :
  includes (lit "setup") (lit "how do I setup this project?") = true
  /\ fileName packageJson = lit "package.json"
  /\ adjustedScore (rescore (toLowerCase (lit "how do I setup this project?"))
                            packageJson)
     = Double.mul (Double.value (score packageJson)) boost.
Proof.
  assert (Hq : includes (lit "setup") (lit "how do I setup this project?") = true)
    by (vm_compute; reflexivity).
  assert (Hf : fileName packageJson = lit "package.json") by reflexivity.
  split; [exact Hq|]. split; [exact Hf|].
  destruct (proj2 (proj2 (proj2
              (intent_boosts_multiply (lit "how do I setup this project?")
                                      packageJson))) Hq Hf)
    as (_ & _ & H).
  apply H. vm_compute; reflexivity.
Defined.

(** A score of 0.2 boosted once is 0.30000000000000004, which is above
    the floor: the candidate is kept. *)
Lemma one_fifth_boosted_is_kept :
  filterAndRankResults [authorNote] (lit "user guide")
  = [mkRanked authorNote (Double.literal 30000000000000004 100000000000000000)].
Proof. vm_compute. reflexivity. Qed.

Lemma relevance_floor_is_exclusive_witness :
  adjustedScore (rescore (toLowerCase (lit "what is this?")) floorNote)
  = relevanceFloor
  /\ filterAndRankResults [floorNote] (lit "what is this?") = []
  /\ buildContext [] = lit "No specific codebase context found for this query.".
Proof.
  split; [vm_compute; reflexivity|].
  destruct (proj2 (proj2 (proj2
              (relevance_floor_is_exclusive [floorNote] (lit "what is this?")))))
    as (Hnil & _ & Hs).
  - intros c [<-|[]]. vm_compute. reflexivity.
  - split; [exact Hnil|exact Hs].
Defined.

Lemma searchRelevantContext_returns_top8_witness :
  exists results,
    searchRelevantContext
      (fun (_ : jstring) (_ : unit) (_ : nat) (_ : option jstring) =>
         inr [authorNote; packageJson] : unit + list hit)
      (lit "setup") tt None = inr results
    /\ (length results <= 8)%nat
    /\ forall r, In r results -> In (chunk r) [authorNote; packageJson].
Proof.
  pose proof (searchRelevantContext_returns_top8
                (fun (_ : jstring) (_ : unit) (_ : nat) (_ : option jstring) =>
                   inr [authorNote; packageJson] : unit + list hit)
                (lit "setup") tt None) as H.
  cbv beta iota in H. destruct H as (results & E & L & _ & Hin & _).
  exists results. split; [exact E|]. split; [exact L|].
  intros r Hr. apply (Hin r Hr).
Defined.

Lemma buildContext_truncates_content_witness :
  renderedContent (repeat "a"%char 1001)
  = (repeat "a"%char 1000 ++ lit "...")%list
  /\ renderedContent (repeat "b"%char 1000) = repeat "b"%char 1000.
Proof.
  destruct buildContext_truncates_content as (_ & _ & H1001 & H1000 & _).
  split.
  - destruct (H1001 (repeat "a"%char 1001) ltac:(vm_compute; reflexivity)) as [E _].
    rewrite E. vm_compute. reflexivity.
  - apply H1000. vm_compute. reflexivity.
Defined.

End RagFacts.

(** ** Ingestion *)

Module IngestFacts.
Import Ingest IngestSpec.

Lemma filter_partition_length (A : Type) (f : A -> bool) (l : list A) :
  length (filter f l) + length (filter (fun x => negb (f x)) l) = length l.
Proof.
  induction l as [|x l IH]; simpl; [reflexivity|].
  destruct (f x); simpl; lia.
Qed.

Lemma successes_failures (succeeds : nat -> bool) (lo hi : nat) :
  successes succeeds lo hi + failures succeeds lo hi = hi - lo.
Proof.
  unfold successes, failures.
  rewrite filter_partition_length. apply length_seq.
Qed.

Section BatchLoopFacts.
Variable T : Type.
Variable batchSize : nat.
Hypothesis batchSize_pos : 0 < batchSize.
Variable succeeds : nat -> bool.
Variable afterBatch : nat -> T -> T.
Variable total : nat.

Lemma fold_processItem (ks : list nat) (processedCount : nat) :
  fold_left (processItem succeeds) ks processedCount
  = processedCount + length (filter succeeds ks).
Proof.
  revert processedCount. induction ks as [|k ks IH]; intros p; simpl; [lia|].
  rewrite IH. unfold processItem. destruct (succeeds k); simpl; lia.
Qed.

(** One batch adds its successes; the batches partition the positions. *)
Lemma processBatch_successes (processedCount i : nat) :
  i < total ->
  processBatch batchSize succeeds total processedCount i
  + successes succeeds (i + batchSize) total
  = processedCount + successes succeeds i total.
Proof.
  intros Hi. unfold processBatch, batchPositions, successes.
  rewrite fold_processItem.
  replace (total - i)
    with (Nat.min batchSize (total - i) + (total - (i + batchSize))) at 2 by lia.
  rewrite seq_app, filter_app, length_app.
  destruct (Nat.le_gt_cases batchSize (total - i)) as [H|H].
  - rewrite !Nat.min_l by exact H. lia.
  - rewrite !Nat.min_r by lia.
    replace (total - (i + batchSize)) with 0 by lia. simpl. lia.
Qed.

(** The counter when the loop ends. *)
Lemma batchLoop_count (i processedCount : nat) (st : T) :
  fst (batchLoop batchSize_pos succeeds afterBatch total i processedCount st)
  = processedCount + successes succeeds i total.
Proof.
  funelim (batchLoop batchSize_pos succeeds afterBatch total i processedCount st).
  - match goal with IH : fst _ = _ |- _ => rewrite IH end.
    apply processBatch_successes. assumption.
  - simpl. unfold successes.
    replace (total - i) with 0 by lia. simpl. lia.
Qed.

(** Whatever the steps between batches keep true holds when the loop
    ends. *)
Lemma batchLoop_keeps (P : T -> Prop) (i processedCount : nat) (st : T) :
  (forall n t, P t -> P (afterBatch n t)) ->
  P st ->
  P (snd (batchLoop batchSize_pos succeeds afterBatch total i processedCount st)).
Proof.
  funelim (batchLoop batchSize_pos succeeds afterBatch total i processedCount st);
    intros Hstep HP.
  - match goal with IH : forall Q : T -> Prop, _ |- _ => apply IH end;
      [exact Hstep|apply Hstep; exact HP].
  - exact HP.
Qed.
End BatchLoopFacts.

(** *** The job *)

Lemma indexAll_spec (w : world) (chunks : list Processor.chunk) (t : tables) :
  exists progress,
    indexAll w chunks t
    = (inr (successes (itemSucceeds w) 0 (length chunks)),
       mkTables (ingestions t ++ progress) (repositories t)) /\
    Forall isProcessing progress.
Proof.
  unfold indexAll.
  set (after := fun count : nat =>
                  updateIngestionStatus processing (Indexing count (length chunks))).
  pose proof (batchLoop_count batchSize_pos (itemSucceeds w) after
                (length chunks) 0 0 t) as Hc.
  pose proof (@batchLoop_keeps tables batchSize batchSize_pos (itemSucceeds w) after
                (length chunks)
                (fun t' => exists progress,
                     t' = mkTables (ingestions t ++ progress) (repositories t) /\
                     Forall isProcessing progress)
                0 0 t) as Hk.
  destruct (batchLoop batchSize_pos (itemSucceeds w) after (length chunks) 0 0 t)
    as [count t'].
  simpl in Hc, Hk. subst count.
  destruct Hk as (progress & -> & Hp).
  - intros n t1 (progress & -> & Hp).
    exists (progress ++ [mkStatus processing (Indexing n (length chunks))]).
    split.
    + unfold after, updateIngestionStatus. simpl. rewrite <- app_assoc. reflexivity.
    + apply Forall_app. split; [exact Hp|repeat constructor].
  - exists []. split; [|constructor].
    rewrite app_nil_r. destruct t; reflexivity.
  - exists progress. split; [reflexivity|exact Hp].
Qed.

Lemma obtainRepository_spec (w : world) (localPath : option jstring) (t : tables) :
  obtainRepository w localPath t
  = match (if mustClone localPath then gitClone w else None) with
    | Some m => (inl m, t)
    | None => (inr tt, t)
    end.
Proof.
  unfold obtainRepository, mustClone.
  destruct localPath as [p|]; [destruct (truthy p)|]; simpl;
    try destruct (gitClone w); reflexivity.
Qed.

(** An error outside the loop: the job writes [failed] and ends. *)
Lemma job_fails (w : world) (localPath : option jstring) (t0 : tables) (m : jstring) :
  outsideFailure w localPath = Some m ->
  exists before,
    processRepositoryAsync w localPath t0
    = (inr tt,
       mkTables (ingestions t0 ++ before ++ [mkStatus failed (ErrorMessage m)])
                (repositories t0)) /\
    Forall isProcessing before.
Proof.
  unfold outsideFailure, processRepositoryAsync, tryCatch, bind, write.
  cbn beta. rewrite obtainRepository_spec.
  destruct (if mustClone localPath then gitClone w else None) as [m0|].
  - intros [= ->]. exists [mkStatus processing Cloning].
    split; [|repeat constructor].
    unfold updateIngestionStatus. simpl. rewrite <- app_assoc. reflexivity.
  - destruct (processRepository w) as [m0|chunks]; [|discriminate].
    intros [= ->].
    exists [mkStatus processing Cloning; mkStatus processing ProcessingFiles].
    split; [|repeat constructor].
    unfold updateIngestionStatus, throw. simpl. rewrite <- !app_assoc. reflexivity.
Qed.

(** No error outside the loop: the job writes [completed] with the count. *)
Lemma job_completes (w : world) (localPath : option jstring) (t0 : tables) :
  outsideFailure w localPath = None ->
  exists chunks progress,
    processRepository w = inr chunks /\
    processRepositoryAsync w localPath t0
    = (inr tt,
       mkTables
         (ingestions t0
          ++ [mkStatus processing Cloning; mkStatus processing ProcessingFiles;
              mkStatus processing GeneratingEmbeddings]
          ++ progress
          ++ [mkStatus completed
                (SuccessfullyProcessed (successes (itemSucceeds w) 0 (length chunks)))])
         (repositories t0 ++ [successes (itemSucceeds w) 0 (length chunks)])) /\
    Forall isProcessing progress.
Proof.
  unfold outsideFailure, processRepositoryAsync, tryCatch, bind, write.
  cbn beta. rewrite obtainRepository_spec.
  destruct (if mustClone localPath then gitClone w else None) as [m0|];
    [discriminate|].
  destruct (processRepository w) as [m0|chunks]; [discriminate|].
  intros _. unfold ret.
  destruct (indexAll_spec w chunks
              (updateIngestionStatus processing GeneratingEmbeddings
                 (updateIngestionStatus processing ProcessingFiles
                    (updateIngestionStatus processing Cloning t0))))
    as (progress & E & Hp).
  exists chunks, progress. split; [reflexivity|]. split; [|exact Hp].
  rewrite E. unfold updateIngestionStatus, saveRepositoryMetadata. simpl.
  rewrite <- !app_assoc. reflexivity.
Qed.

Lemma finalStatus_last (t : tables) (before : list statusRecord) (s : statusRecord) :
  ingestions t = before ++ [s] -> finalStatus t = Some s.
Proof.
  intros E. unfold finalStatus. rewrite E, map_app. simpl. apply last_last.
Qed.

(** C8.  A failing embed or index call for one chunk only keeps that
    chunk out of the count.  When nothing throws outside the per-item
    loop the job does not throw, its last status is [completed] with the
    number of chunks that were embedded and indexed, which is the number
    of chunks less the failed ones, and every status before it is
    [processing].  The status [failed] is written exactly when [git.clone]
    or [processRepository] throws, with that error's message.  The loop
    of the ingest script counts the same chunks. *)
Theorem item_failures_do_not_fail_the_job
        (w : world) (localPath : option jstring) (t0 : tables) :
  fst (processRepositoryAsync w localPath t0) = inr tt
  /\ (exists written,
        ingestions (snd (processRepositoryAsync w localPath t0))
        = ingestions t0 ++ written /\
        match outsideFailure w localPath with
        | Some m =>
            finalStatus (snd (processRepositoryAsync w localPath t0))
            = Some (mkStatus failed (ErrorMessage m)) /\
            exists before,
              written = before ++ [mkStatus failed (ErrorMessage m)] /\
              Forall isProcessing before
        | None =>
            exists chunks progress,
              processRepository w = inr chunks /\
              finalStatus (snd (processRepositoryAsync w localPath t0))
              = Some (mkStatus completed
                        (SuccessfullyProcessed
                           (successes (itemSucceeds w) 0 (length chunks)))) /\
              written
              = [mkStatus processing Cloning; mkStatus processing ProcessingFiles;
                 mkStatus processing GeneratingEmbeddings]
                ++ progress
                ++ [mkStatus completed
                      (SuccessfullyProcessed
                         (successes (itemSucceeds w) 0 (length chunks)))] /\
              Forall isProcessing progress /\
              repositories (snd (processRepositoryAsync w localPath t0))
              = repositories t0 ++ [successes (itemSucceeds w) 0 (length chunks)] /\
              successes (itemSucceeds w) 0 (length chunks)
              + failures (itemSucceeds w) 0 (length chunks) = length chunks
        end)
  /\ (forall succeeds total,
        scriptIndexed succeeds total = successes succeeds 0 total).
Proof.
  split; [|split].
  - destruct (outsideFailure w localPath) as [m|] eqn:E.
    + destruct (@job_fails w localPath t0 m E) as (before & -> & _). reflexivity.
    + destruct (@job_completes w localPath t0 E) as (chunks & progress & _ & -> & _). reflexivity.
  - destruct (outsideFailure w localPath) as [m|] eqn:E.
    + destruct (@job_fails w localPath t0 m E) as (before & -> & Hb).
      exists (before ++ [mkStatus failed (ErrorMessage m)]).
      split; [reflexivity|].
      split; [|exists before; auto].
      apply finalStatus_last with (before := ingestions t0 ++ before).
      simpl. rewrite <- app_assoc. reflexivity.
    + destruct (@job_completes w localPath t0 E) as (chunks & progress & Hc & -> & Hp).
      eexists. split; [reflexivity|].
      exists chunks, progress.
      split; [exact Hc|].
      split.
      { apply finalStatus_last
          with (before := ingestions t0
                          ++ [mkStatus processing Cloning;
                              mkStatus processing ProcessingFiles;
                              mkStatus processing GeneratingEmbeddings]
                          ++ progress).
        simpl. rewrite <- !app_assoc. reflexivity. }
      split; [reflexivity|]. split; [exact Hp|].
      split; [reflexivity|].
      rewrite successes_failures. lia.
  - intros succeeds total. unfold scriptIndexed. rewrite batchLoop_count. reflexivity.
Qed.

Example three_of_ten_fail :
  processRepositoryAsync threeFail None (mkTables [] [])
  = (inr tt,
     mkTables
       [ mkStatus processing Cloning; mkStatus processing ProcessingFiles;
         mkStatus processing GeneratingEmbeddings;
         mkStatus processing (Indexing 7 10);
         mkStatus completed (SuccessfullyProcessed 7) ]
       [7])
  /\ scriptIndexed (itemSucceeds threeFail) 10 = 7.
Proof. split; vm_compute; reflexivity. Qed.

Lemma item_failures_do_not_fail_the_job_witness :
  fst (processRepositoryAsync threeFail None (mkTables [] [])) = inr tt
  /\ scriptIndexed (itemSucceeds threeFail) 10 = 7.
Proof.
  destruct (item_failures_do_not_fail_the_job threeFail None (mkTables [] []))
    as (H1 & _ & H3).
  split; [exact H1|]. rewrite H3. vm_compute. reflexivity.
Defined.

End IngestFacts.

(** ** The model on sample inputs *)

Module ModelExamples.
Import Processor ProcessorSpec Rag RagSpec.

Example splitLines_trailing_newline :
  splitLines (lit "a
b
") = [lit "a"; lit "b"; []].
Proof. reflexivity. Qed.

Example splitLines_empty : splitLines [] = [[]].
Proof. reflexivity. Qed.

Example trim_both_ends : trim (chr 9 :: lit "  a b  " ++ [chr 160; CR]) = lit "a b".
Proof. reflexivity. Qed.

Example toLowerCase_ascii : toLowerCase (lit "How do I SetUp?") = lit "how do i setup?".
Proof. reflexivity. Qed.

Example function_arrow : anyOf functionPatterns (lit "const add = (a, b) => {") = true.
Proof. vm_compute. reflexivity. Qed.

Example function_method : anyOf functionPatterns (lit "  run: function () {") = true.
Proof. vm_compute. reflexivity. Qed.

Example function_needs_space : anyOf functionPatterns (lit "functionfoo()") = false.
Proof. vm_compute. reflexivity. Qed.

Example function_not_assignment : anyOf functionPatterns (lit "const x = 5;") = false.
Proof. vm_compute. reflexivity. Qed.

Example class_exported : anyOf classPatterns (lit "export default class Z {}") = true.
Proof. vm_compute. reflexivity. Qed.

Example route_router : anyOf routePatterns (lit "router.get('/x', handler);") = true.
Proof. vm_compute. reflexivity. Qed.

Example route_decorator : anyOf routePatterns (lit "  @Post ('/x')") = true.
Proof. vm_compute. reflexivity. Qed.

Example route_other_verb : anyOf routePatterns (lit "app.options('/x')") = false.
Proof. vm_compute. reflexivity. Qed.

Example functionName_arrow :
  extractFunctionName (lit "const add = (a, b) => {") = Some (lit "add").
Proof. vm_compute. reflexivity. Qed.

Example functionName_route : extractFunctionName (lit "router.get('/x', h);") = None.
Proof. vm_compute. reflexivity. Qed.

Example className_interface :
  extractClassName (lit "export interface Shape {") = Some (lit "Shape").
Proof. vm_compute. reflexivity. Qed.

Example header_title : title (lit "##  Sub  title ") = Some (lit "Sub  title ").
Proof. vm_compute. reflexivity. Qed.

Example header_needs_space : title (lit "#NoSpace") = None.
Proof. vm_compute. reflexivity. Qed.

Example header_seven_hashes : title (lit "####### seven") = None.
Proof. vm_compute. reflexivity. Qed.

Example header_blank_title : title (lit "#  ") = Some (lit " ").
Proof. vm_compute. reflexivity. Qed.

Example two_boosts :
  map (fun r => (fileName (chunk r), adjustedScore r))
      (filterAndRankResults [authorNote; routesPackageJson] (lit "Setup API"))
  = [(lit "package.json", Double.literal 225 100)].
Proof. vm_compute. reflexivity. Qed.

End ModelExamples.

(* ===================================================================== *)
(** ** The scan of the repository *)
(* ===================================================================== *)

Module ScanFacts.
Import Processor ProcessorSpec ScanSpec JSFacts.

Lemma dirent_induction (P : dirent -> Prop) :
  (forall name, P (FileEntry name)) ->
  (forall name, P (OtherEntry name)) ->
  (forall name, P (DirectoryEntry name None)) ->
  (forall name entries, Forall P entries -> P (DirectoryEntry name (Some entries))) ->
  forall entry, P entry.
Proof.
  intros Hf Ho Hn Hd. fix IH 1. intros [name|name [entries|]|name].
  - apply Hf.
  - apply Hd. induction entries as [|e es IHes]; constructor.
    + apply IH.
    + exact IHes.
  - apply Hn.
  - apply Ho.
Qed.

Section WithHost.
Context {host : Host}.
Variable gitignore : jstring -> bool.

Lemma scanEntry_directory (dirPath relativePath name : jstring) (entries : list dirent) :
  gitignore (slashes (path_join relativePath name)) = false ->
  has ignoredDirectories name = false ->
  scanEntry gitignore dirPath relativePath (DirectoryEntry name (Some entries))
  = scanDirectory (path_join dirPath name) (Some entries) gitignore
                  (slashes (path_join relativePath name)).
Proof.
  intros Hg Hi. cbn [scanEntry entryName]. rewrite Hg, Hi.
  unfold scanDirectory.
  induction entries as [|e es IH]; [reflexivity|].
  cbn [fold_right]. rewrite <- IH. reflexivity.
Qed.

Lemma in_scanDirectory (dirPath relativePath file : jstring) (entries : list dirent) :
  In file (fst (scanDirectory dirPath (Some entries) gitignore relativePath)) <->
  exists entry, In entry entries /\
                In file (fst (scanEntry gitignore dirPath relativePath entry)).
Proof.
  unfold scanDirectory. induction entries as [|e es IH].
  - simpl. split; [intros []|intros (e & [] & _)].
  - cbn [fold_right fst]. rewrite in_app_iff, IH. split.
    + intros [H|(e' & He' & H)].
      * exists e. split; [left; reflexivity|exact H].
      * exists e'. split; [right; exact He'|exact H].
    + intros (e' & [->|He'] & H); [left; exact H|right; exists e'; auto].
Qed.

Lemma found_iff (dirPath relativePath file : jstring) (entries : list dirent) :
  found gitignore dirPath relativePath entries file <->
  exists entry, In entry entries /\ foundAt gitignore dirPath relativePath entry file.
Proof.
  split.
  - intros H. destruct H as [d r es name Hin Hg Hs|d r es name below f Hin Hg Hi Hf].
    + exists (FileEntry name). split; [exact Hin|]. split; [exact Hg|]. split; auto.
    + exists (DirectoryEntry name (Some below)). split; [exact Hin|].
      split; [exact Hg|]. split; auto.
  - intros (e & Hin & Hg & He). destruct e as [name|name [below|]|name]; simpl in *.
    + destruct He as [Hs ->]. apply foundHere; auto.
    + destruct He as [Hi Hf]. eapply foundBelow; eauto.
    + destruct He.
    + destruct He.
Qed.

Lemma in_scanEntry (entry : dirent) :
  forall dirPath relativePath file,
    In file (fst (scanEntry gitignore dirPath relativePath entry)) <->
    foundAt gitignore dirPath relativePath entry file.
Proof.
  induction entry as [name|name|name|name entries IH] using dirent_induction;
    intros dirPath relativePath file; unfold foundAt.
  - cbn [scanEntry entryName].
    destruct (gitignore (slashes (path_join relativePath name))).
    + simpl. split; [intros []|intros [H _]; discriminate H].
    + destruct (has supportedExtensions (toLowerCase (path_extname name))); simpl.
      * split; [intros [<-|[]]; auto|intros (_ & _ & ->); auto].
      * split; [intros []|intros (_ & H & _); discriminate H].
  - cbn [scanEntry entryName].
    destruct (gitignore (slashes (path_join relativePath name))); simpl;
      (split; [intros []|intros [_ []]]).
  - cbn [scanEntry entryName].
    destruct (gitignore (slashes (path_join relativePath name))).
    + simpl. split; [intros []|intros [_ []]].
    + destruct (has ignoredDirectories name); simpl;
        (split; [intros []|intros [_ []]]).
  - destruct (gitignore (slashes (path_join relativePath name))) eqn:Hg.
    + cbn [scanEntry entryName]. rewrite Hg. simpl.
      split; [intros []|intros [H _]; discriminate H].
    + destruct (has ignoredDirectories name) eqn:Hi.
      * cbn [scanEntry entryName]. rewrite Hg, Hi. simpl.
        split; [intros []|intros (_ & H & _); discriminate H].
      * rewrite (scanEntry_directory _ _ _ _ Hg Hi), in_scanDirectory, found_iff.
        cbn [entryName]. split.
        -- intros (e & Hin & H). split; [exact Hg|]. split; [reflexivity|].
           exists e. split; [exact Hin|].
           rewrite Forall_forall in IH. apply (IH e Hin). exact H.
        -- intros (_ & _ & e & Hin & H). exists e. split; [exact Hin|].
           rewrite Forall_forall in IH. apply (IH e Hin). exact H.
Qed.

(** X1.  The files returned by [scanDirectory] for a readable directory are
    exactly the regular files below it that have a supported extension
    (compared in lower case) and that are reached through directories that
    are neither ignored by the ignore rules, on their path relative to the
    root, nor listed in [ignoredDirectories], by name; the file itself is
    not ignored by the rules either.  Unreadable directories and entries
    that are neither files nor directories contribute nothing. *)
Theorem scanDirectory_finds_supported_files
        (dirPath relativePath file : jstring) (entries : list dirent) :
  In file (fst (scanDirectory dirPath (Some entries) gitignore relativePath)) <->
  found gitignore dirPath relativePath entries file.
Proof.
  rewrite in_scanDirectory, found_iff. split.
  - intros (e & Hin & H). exists e. split; [exact Hin|]. apply in_scanEntry. exact H.
  - intros (e & Hin & H). exists e. split; [exact Hin|]. apply in_scanEntry. exact H.
Qed.

End WithHost.

End ScanFacts.

(* ===================================================================== *)
(** ** Repository processing, file by file *)
(* ===================================================================== *)

Module RepositoryFacts.
Import Processor ProcessorSpec RepositorySpec JSFacts ProcessorFacts.

Section WithHost.
Context {host : Host}.

Lemma fold_left_pairs {A B C : Type} (g : A -> list B) (h : A -> list C)
      (xs : list A) (acc : list B * list C) :
  fold_left (fun acc x => (fst acc ++ g x, snd acc ++ h x)) xs acc
  = (fst acc ++ flat_map g xs, snd acc ++ flat_map h xs).
Proof.
  revert acc. induction xs as [|x xs IH]; intros [bs cs]; simpl.
  - rewrite !app_nil_r. reflexivity.
  - rewrite IH. simpl. rewrite <- !app_assoc. reflexivity.
Qed.

Lemma overviews_of_file (file repositoryPath repositoryName : jstring) :
  length (filter isOverview (fst (processFile file repositoryPath repositoryName)))
  = if readable file then 1 else 0.
Proof.
  unfold readable, processFile.
  destruct (fs_readFile file) as [content|] eqn:Er; simpl; [|reflexivity].
  f_equal.
  set (rest := specificChunks _ _ _ _ _).
  assert (H : forall c, In c rest -> isOverview c = false).
  { intros c Hc. apply specificChunks_inv in Hc. destruct Hc as [Hty _].
    unfold isOverview. destruct (type c); congruence. }
  clearbody rest. induction rest as [|c rest IH]; [reflexivity|].
  simpl. rewrite (H c (or_introl eq_refl)). apply IH.
  intros d Hd. apply H. right. exact Hd.
Qed.

Lemma log_of_file (file repositoryPath repositoryName : jstring) :
  snd (processFile file repositoryPath repositoryName)
  = if unreadable file then [ErrorProcessingFile file] else [].
Proof.
  unfold unreadable, readable, processFile.
  destruct (fs_readFile file); reflexivity.
Qed.

(** X2.  [processRepository] never fails on a file: its chunks are the
    chunks of the scanned files, file after file in the order of the scan;
    they hold exactly one [file_overview] chunk for each scanned file that
    can be read; and the warnings and errors logged are those of the scan
    followed by one error for each scanned file that cannot be read. *)
Theorem processRepository_file_by_file
        (root : option (list dirent)) (repositoryPath repositoryName : jstring) :
  let scanned := scanDirectory repositoryPath root (loadGitignore repositoryPath) [] in
  let result := processRepository root repositoryPath repositoryName in
  fst result
  = flat_map (fun file => fst (processFile file repositoryPath repositoryName))
             (fst scanned)
  /\ length (filter isOverview (fst result)) = length (filter readable (fst scanned))
  /\ snd result
     = snd scanned ++ map ErrorProcessingFile (filter unreadable (fst scanned)).
Proof.
  intros scanned result. unfold result, processRepository. fold scanned.
  rewrite (fold_left_pairs
             (fun file => fst (processFile file repositoryPath repositoryName))
             (fun file => snd (processFile file repositoryPath repositoryName))).
  cbn [fst snd app]. split; [reflexivity|]. split.
  - induction (fst scanned) as [|f fs IH]; [reflexivity|].
    cbn [flat_map filter]. rewrite filter_app, length_app, IH, overviews_of_file.
    destruct (readable f); reflexivity.
  - f_equal. induction (fst scanned) as [|f fs IH]; [reflexivity|].
    cbn [flat_map filter]. rewrite IH, log_of_file.
    destruct (unreadable f); reflexivity.
Qed.

End WithHost.

End RepositoryFacts.

(* ===================================================================== *)
(** ** Sections of a markdown file *)
(* ===================================================================== *)

Module SectionFacts.
Import Processor ProcessorSpec SectionSpec JSFacts ProcessorFacts HeaderFacts.

Lemma truthy_dropWhile (p : ascii -> bool) (s : jstring) :
  truthy (dropWhile p s) = existsb (fun c => negb (p c)) s.
Proof.
  induction s as [|c s IH]; [reflexivity|].
  simpl. destruct (p c); simpl; [exact IH|reflexivity].
Qed.

Lemma existsb_dropWhile (p : ascii -> bool) (s : jstring) :
  existsb (fun c => negb (p c)) (dropWhile p s) = existsb (fun c => negb (p c)) s.
Proof.
  induction s as [|c s IH]; [reflexivity|].
  simpl. destruct (p c) eqn:E; simpl; [exact IH|rewrite E; reflexivity].
Qed.

Lemma truthy_rev (s : jstring) : truthy (rev s) = truthy s.
Proof.
  destruct s as [|c s]; [reflexivity|].
  simpl. destruct (rev s); reflexivity.
Qed.

Lemma existsb_rev {A : Type} (f : A -> bool) (l : list A) :
  existsb f (rev l) = existsb f l.
Proof.
  induction l as [|x l IH]; [reflexivity|].
  simpl. rewrite existsb_app, IH. simpl. rewrite orb_false_r. apply orb_comm.
Qed.

(** [s.trim()] is truthy when [s] is not blank. *)
Lemma truthy_trim (s : jstring) : truthy (trim s) = hasInk s.
Proof.
  unfold trim, trimEnd, trimStart, hasInk.
  rewrite truthy_rev, truthy_dropWhile, existsb_rev, existsb_dropWhile.
  reflexivity.
Qed.

Lemma hasInk_app (a b : jstring) : hasInk (a ++ b) = hasInk a || hasInk b.
Proof. apply existsb_app. Qed.

Lemma header_hasInk (line : jstring) : isHeader line = true -> hasInk line = true.
Proof.
  unfold isHeader, headerMatch. destruct (matchAnchored headerPattern line) as [caps|] eqn:E;
    [|discriminate].
  intros _. apply headerPattern_sound in E.
  destruct E as (hashes & spaces & title & rest & -> & (Hlen & Hall) & _).
  destruct hashes as [|h hashes]; [simpl in Hlen; lia|].
  inversion Hall; subst. reflexivity.
Qed.

Lemma headerLinesFrom_app (i : nat) (a b : list jstring) :
  headerLinesFrom i (a ++ b) = headerLinesFrom i a ++ headerLinesFrom (i + length a) b.
Proof.
  revert i. induction a as [|l a IH]; intros i; simpl.
  - rewrite Nat.add_0_r. reflexivity.
  - rewrite IH, <- app_assoc. replace (i + 1 + length a) with (i + S (length a)) by lia.
    reflexivity.
Qed.

Lemma headerLines_snoc (lines : list jstring) (k : nat) (line : jstring) :
  nth_error lines k = Some line ->
  headerLines (firstn (k + 1) lines)
  = headerLines (firstn k lines) ++ (if isHeader line then [k + 1] else []).
Proof.
  intros Hk. rewrite (firstn_snoc _ _ Hk). unfold headerLines.
  rewrite headerLinesFrom_app. simpl. rewrite app_nil_r.
  rewrite length_firstn. pose proof (nth_error_lt _ _ Hk).
  replace (Nat.min k (length lines)) with k by lia. reflexivity.
Qed.

Section Documentation.
Variables filePath fileName repositoryName : jstring.

Lemma docBody_tiling (lines : list jstring) (k : nat) (line : jstring) (st : docScan) :
  nth_error lines k = Some line ->
  docTiling lines k st ->
  docTiling lines (k + 1) (docBody filePath fileName repositoryName k line st).
Proof.
  intros Hk (Hs & He & Hc & Hn).
  unfold docTiling. rewrite (@headerLines_snoc lines k line Hk).
  unfold docBody, isHeader.
  destruct (headerMatch line) as [caps|] eqn:Eh; cbn [isSome].
  - assert (Hink : hasInk line = true)
      by (apply header_hasInk; unfold isHeader; rewrite Eh; reflexivity).
    destruct st as [ss [c|]]; unfold open in *; cbn [sections currentSection] in *.
    + destruct (Hc c eq_refl) as [Hend Hcont].
      unfold pushIfContent. rewrite truthy_trim, Hcont.
      repeat split.
      * rewrite <- Hs, !map_app. simpl. rewrite <- app_assoc. reflexivity.
      * rewrite map_app in Hs.
        rewrite map_app, He. cbn [map].
        destruct (headerLines (firstn k lines)) as [|h hs].
        { destruct (map startLine ss); discriminate Hs. }
        cbn [tl app]. rewrite map_app. cbn [map]. rewrite Hend.
        replace (Nat.pred (k + 1)) with k by lia. reflexivity.
      * injection H as <-. reflexivity.
      * injection H as <-. simpl. unfold nl. rewrite hasInk_app, Hink. reflexivity.
      * discriminate.
    + rewrite (Hn eq_refl) in *. simpl in Hs. rewrite <- Hs.
      repeat split.
      * injection H as <-. reflexivity.
      * injection H as <-. simpl. unfold nl. rewrite hasInk_app, Hink. reflexivity.
  - rewrite app_nil_r.
    destruct st as [ss [c|]]; unfold open in *; cbn [sections currentSection] in *.
    + destruct (Hc c eq_refl) as [Hend Hcont].
      repeat split.
      * rewrite <- Hs, !map_app. reflexivity.
      * exact He.
      * injection H as <-. reflexivity.
      * injection H as <-. simpl. rewrite hasInk_app, Hcont. reflexivity.
      * discriminate.
    + repeat split; auto; discriminate.
Qed.

(** X3.  The documentation chunks of a markdown file tile it from its
    first header on: there is one chunk for each header line, in the order
    of the file, starting on that line; each chunk ends on the line in
    front of the next header, and the last one on the last line of the
    file. *)
Theorem documentation_sections_tile_the_file (content : jstring) :
  let lines := splitLines content in
  let docs := extractDocumentationChunks content filePath fileName repositoryName in
  map startLine docs = headerLines lines /\
  map endLine docs = sectionEnds (headerLines lines) (length lines).
Proof.
  intros lines docs. unfold docs, extractDocumentationChunks. fold lines.
  assert (Hinv : docTiling lines (length lines)
                   (forLines (docBody filePath fileName repositoryName) 0
                      lines (mkDocScan [] None))).
  { apply forLines_invariant with (P := docTiling lines).
    - repeat split; simpl; auto; discriminate.
    - intros k line st' Hk Hst. apply docBody_tiling; assumption. }
  destruct Hinv as (Hs & He & Hc & Hn). rewrite firstn_all in Hs, He.
  destruct (forLines _ 0 lines _) as [ss [c|]]; unfold open in *;
    cbn [sections currentSection] in *.
  - destruct (Hc c eq_refl) as [Hend Hcont].
    unfold pushIfContent. rewrite truthy_trim, Hcont.
    split; [exact Hs|].
    rewrite map_app, He. cbn [map]. rewrite Hend.
    rewrite map_app in Hs.
    destruct (headerLines lines) as [|h hs]; [destruct (map startLine ss); discriminate Hs|].
    reflexivity.
  - rewrite (Hn eq_refl) in *. simpl in Hs. rewrite <- Hs. split; reflexivity.
Qed.

End Documentation.

End SectionFacts.

(* ===================================================================== *)
(** ** Function, class and route chunks *)
(* ===================================================================== *)

Module CodeFacts.
Import Processor ProcessorSpec CodeSpec JSFacts ProcessorFacts.

Lemma lookup_in (k v : jstring) (m : list (jstring * jstring)) :
  lookup k m = Some v -> In k (map fst m).
Proof.
  induction m as [|[k' v'] m IH]; simpl; [discriminate|].
  destruct (streq k k') eqn:E.
  - intros _. left. symmetry. apply streq_eq. exact E.
  - intros H. right. apply IH. exact H.
Qed.

Lemma has_in (xs : list jstring) (x : jstring) : has xs x = true -> In x xs.
Proof.
  unfold has. rewrite existsb_exists. intros (y & Hy & E).
  apply streq_eq in E. subst y. exact Hy.
Qed.

(** The keys of [typeMap] are written in lower case. *)
Lemma getFileType_capitals (extension : jstring) :
  toLowerCase extension <> extension -> getFileType extension = lit "unknown".
Proof.
  intros Hne. unfold getFileType.
  destruct (lookup extension typeMap) as [t|] eqn:E; [|reflexivity].
  exfalso. apply Hne. apply lookup_in in E.
  assert (G : Forall (fun k => toLowerCase k = k) (map fst typeMap))
    by (repeat constructor).
  rewrite Forall_forall in G. apply G. exact E.
Qed.

(** Every extension of [codeExtensions] is scanned and has a file type. *)
Lemma isCodeFile_known (extension : jstring) :
  isCodeFile extension = true ->
  has supportedExtensions extension = true /\
  getFileType extension <> lit "unknown".
Proof.
  intros H. apply has_in in H.
  assert (G : Forall (fun e => has supportedExtensions e = true /\
                               getFileType e <> lit "unknown") codeExtensions)
    by (repeat constructor; discriminate).
  rewrite Forall_forall in G. apply G. exact H.
Qed.

(** X25.  The three tables of extensions agree: every extension whose
    files are searched for functions, classes and routes is a scanned
    extension and has a file type; among the scanned extensions, those
    without a file type, whose chunks get the type [unknown], are the
    twelve of [untypedExtensions]. *)
Theorem extension_tables_agree (extension : jstring) :
  (isCodeFile extension = true ->
   has supportedExtensions extension = true /\
   getFileType extension <> lit "unknown") /\
  (has supportedExtensions extension = true ->
   (getFileType extension = lit "unknown" <->
    has untypedExtensions extension = true)).
Proof.
  split; [apply isCodeFile_known|].
  intros H. apply has_in in H.
  assert (G : Forall (fun e => getFileType e = lit "unknown" <->
                               has untypedExtensions e = true)
                     supportedExtensions)
    by (repeat constructor; vm_compute; intros E; first [reflexivity|discriminate E]).
  rewrite Forall_forall in G. apply G. exact H.
Qed.

Lemma sorted_snoc {A : Type} (R : A -> A -> Prop) (l : list A) (x : A) :
  StronglySorted R l -> (forall a, In a l -> R a x) -> StronglySorted R (l ++ [x]).
Proof.
  induction 1 as [|a l Hl IH Ha]; intros Hx; simpl.
  - repeat constructor.
  - constructor.
    + apply IH. intros b Hb. apply Hx. right. exact Hb.
    + rewrite Forall_forall in *. intros b Hb. apply in_app_or in Hb.
      destruct Hb as [Hb|[<-|[]]]; [apply Ha; exact Hb|apply Hx; left; reflexivity].
Qed.

Lemma sorted_snoc_inv {A : Type} (R : A -> A -> Prop) (l : list A) (x : A) :
  StronglySorted R (l ++ [x]) -> StronglySorted R l /\ forall a, In a l -> R a x.
Proof.
  induction l as [|a l IH]; simpl; intros H.
  - split; [constructor|intros ? []].
  - inversion H as [|? ? Hl Ha]; subst. destruct (IH Hl) as [Hs Hx]. split.
    + constructor; [exact Hs|]. rewrite Forall_forall in *.
      intros b Hb. apply Ha. apply in_or_app. left. exact Hb.
    + intros b [<-|Hb]; [|apply Hx; exact Hb].
      rewrite Forall_forall in Ha. apply Ha. apply in_or_app. right. left. reflexivity.
Qed.

Section WithHost.
Context {host : Host}.

Section Code.
Variables filePath fileName repositoryName : jstring.
Variable lines : list jstring.

(** [startedOn] reads the fields that are set once. *)
Lemma startedOn_kept (c : chunk) (text : jstring) (n : nat) :
  startedOn fileName lines c ->
  startedOn fileName lines (setEndLine (appendContent c text) n) /\
  startedOn fileName lines (appendContent c text).
Proof. intros H. split; exact H. Qed.

Lemma startChunk_decl (ty : chunkType) (pattern : regex) (k : nat) (line : jstring)
      (st : codeScan) :
  nth_error lines k = Some line ->
  gated lines k = false ->
  isSkippedLine (trim line) = false ->
  In pattern (familyOf ty) -> test pattern line = true ->
  declInv fileName lines st ->
  declInv fileName lines (startChunk filePath fileName repositoryName ty k line st).
Proof.
  intros Hk Hg Hs Hin Ht [H1 H2]. split; simpl.
  - intros c Hc. apply in_pushIfContent in Hc. destruct Hc; auto.
  - intros c [= <-]. exists line. simpl.
    replace (k + 1 - 1) with k by lia.
    repeat split; auto; try lia.
    unfold anyOf. apply existsb_exists. exists pattern. split; assumption.
Qed.

Lemma tryPatterns_decl (ty : chunkType) (ps : list regex) (k : nat) (line : jstring)
      (st : codeScan) :
  nth_error lines k = Some line ->
  gated lines k = false ->
  isSkippedLine (trim line) = false ->
  (forall p, In p ps -> In p (familyOf ty)) ->
  declInv fileName lines st ->
  declInv fileName lines (tryPatterns filePath fileName repositoryName ty ps k line st).
Proof.
  intros Hk Hg Hs. induction ps as [|p ps IH]; intros Hin Hst; simpl; [exact Hst|].
  destruct (test p line) eqn:Et.
  - apply startChunk_decl with (pattern := p); auto. apply Hin. left. reflexivity.
  - apply IH; [|exact Hst]. intros q Hq. apply Hin. right. exact Hq.
Qed.

Lemma checkPatterns_decl (k : nat) (line : jstring) (st : codeScan) :
  nth_error lines k = Some line ->
  gated lines k = false ->
  isSkippedLine (trim line) = false ->
  declInv fileName lines st ->
  declInv fileName lines (checkPatterns filePath fileName repositoryName k line st).
Proof.
  intros Hk Hg Hs Hst. unfold checkPatterns, patterns. cbn [fold_left fst snd].
  repeat (apply tryPatterns_decl; auto).
Qed.

Lemma accumulate_decl (k : nat) (line : jstring) (st : codeScan) :
  declInv fileName lines st -> declInv fileName lines (accumulate k line st).
Proof.
  intros [H1 H2]. unfold accumulate. destruct (currentChunk st) as [c|] eqn:Ec.
  - pose proof (H2 c eq_refl) as Hc.
    match goal with |- context [if ?b then _ else _] => destruct b end; split; simpl.
    + intros d Hd. apply in_app_or in Hd. destruct Hd as [Hd|[<-|[]]]; [auto|exact Hc].
    + discriminate.
    + exact H1.
    + intros d [= <-]. exact Hc.
  - split; [exact H1|]. rewrite Ec. discriminate.
Qed.

Lemma codeBody_decl (k : nat) (line : jstring) (st : codeScan) :
  nth_error lines k = Some line ->
  inMultilineComment st = flagAfter lines k ->
  declInv fileName lines st ->
  declInv fileName lines (codeBody filePath fileName repositoryName k line st).
Proof.
  intros Hk Hflag [H1 H2]. unfold codeBody.
  assert (Hg : gated lines k = commentGate (inMultilineComment st) (trim line))
    by (unfold gated; rewrite (@flagAfter_step lines k line Hk), Hflag; reflexivity).
  destruct (commentGate (inMultilineComment st) (trim line)) eqn:Eg.
  - split; simpl; assumption.
  - destruct (isSkippedLine (trim line)) eqn:Es.
    + split; simpl; [exact H1|].
      intros c Hc. destruct (currentChunk st) as [d|]; [|discriminate].
      injection Hc as <-. apply (H2 d eq_refl).
    + apply accumulate_decl. apply checkPatterns_decl; auto.
      split; simpl; assumption.
Qed.

End Code.

Section Chunks.
Variables filePath fileName repositoryName : jstring.

Lemma extractCodeChunks_startedOn (content : jstring) (c : chunk) :
  In c (extractCodeChunks content filePath fileName repositoryName) ->
  startedOn fileName (splitLines content) c.
Proof.
  unfold extractCodeChunks. intros Hc.
  set (lines := splitLines content) in *.
  assert (Hinv : (fun k st => contentInv lines k st /\ declInv fileName lines st)
                   (length lines)
                   (forLines (codeBody filePath fileName repositoryName) 0 lines
                      (mkCodeScan [] None 0%Z false))).
  { apply forLines_invariant
      with (P := fun k st => contentInv lines k st /\ declInv fileName lines st).
    - split.
      + split; [reflexivity|]. split; simpl; [intros ? []|discriminate].
      + split; simpl; [intros ? []|discriminate].
    - intros k line st' Hk [Hcont Hdecl]. split.
      + apply codeBody_content; assumption.
      + apply codeBody_decl; [exact Hk|apply Hcont|exact Hdecl]. }
  destruct Hinv as [_ [H1 H2]].
  apply in_pushIfContent in Hc. destruct Hc; auto.
Qed.

(** X5.  Every function, class or route chunk starts on a line that
    matches one of the patterns of its own type; that line is neither
    inside a block comment, nor blank, nor a single-line comment.  The
    chunk takes [functionName] from that line, [className] from it when
    the type is [class] and [null] otherwise, and [fileType] from the
    extension of the file name as it is written. *)
Theorem code_chunks_start_at_declarations (content : jstring) (c : chunk) :
  In c (extractCodeChunks content filePath fileName repositoryName) ->
  let lines := splitLines content in
  exists line,
    nth_error lines (startLine c - 1) = Some line /\
    anyOf (familyOf (type c)) line = true /\
    gated lines (startLine c - 1) = false /\
    isSkippedLine (trim line) = false /\
    functionName c = extractFunctionName line /\
    className c = match type c with
                  | class => extractClassName line
                  | _ => None
                  end /\
    fileType c = getFileType (path_extname fileName).
Proof.
  intros Hc lines. apply extractCodeChunks_startedOn in Hc.
  destruct Hc as (line & H1 & _ & H2 & H3 & H4 & H5 & H6 & H7 & _).
  exists line. auto 10.
Qed.

End Chunks.

(** X7.  For a source file whose extension is written with a capital
    letter, such as [App.JS], the overview chunk gets the file type of the
    extension in lower case, which is a known type, while every function,
    class and route chunk of the file gets the file type [unknown]: the
    first is looked up with the lower-cased extension, the others with the
    extension as written. *)
Theorem capital_extension_splits_file_type
        (filePath repositoryPath repositoryName content : jstring) :
  fs_readFile filePath = Some content ->
  isCodeFile (toLowerCase (path_extname filePath)) = true ->
  toLowerCase (path_extname (path_basename filePath))
    <> path_extname (path_basename filePath) ->
  exists overview rest,
    fst (processFile filePath repositoryPath repositoryName) = overview :: rest /\
    fileType overview = getFileType (toLowerCase (path_extname filePath)) /\
    fileType overview <> lit "unknown" /\
    forall c, In c rest -> fileType c = lit "unknown".
Proof.
  intros Hr Hcode Hcap. rewrite (processFile_readable _ _ _ Hr).
  eexists. eexists. split; [reflexivity|]. split; [reflexivity|]. split.
  - apply (isCodeFile_known _ Hcode).
  - unfold specificChunks. rewrite Hcode. intros c Hc.
    apply extractCodeChunks_startedOn in Hc.
    destruct Hc as (line & _ & _ & _ & _ & _ & _ & _ & Hty & _).
    rewrite Hty. apply getFileType_capitals. exact Hcap.
Qed.

End WithHost.

Section Examples.
Import ExampleHost.

Lemma code_chunks_start_at_declarations_witness :
  let c := loginChunk in
  let text := lit "// session helpers
import db from './db';

function login(user) {
  /* check
     the password */
  return db.check(user);
}" in
  In c (extractCodeChunks (host := exampleHost) text (lit "auth.js") (lit "auth.js") demo)
  /\ exists line,
       nth_error (splitLines text) (startLine c - 1) = Some line /\
       anyOf (familyOf (type c)) line = true /\
       gated (splitLines text) (startLine c - 1) = false /\
       isSkippedLine (trim line) = false /\
       functionName c = extractFunctionName line /\
       className c = match type c with
                     | class => extractClassName line
                     | _ => None
                     end /\
       fileType c = getFileType (path_extname (Host := exampleHost) (lit "auth.js")).
Proof.
  assert (H : In loginChunk
                (extractCodeChunks (host := exampleHost)
                   (lit "// session helpers
import db from './db';

function login(user) {
  /* check
     the password */
  return db.check(user);
}") (lit "auth.js") (lit "auth.js") demo))
    by (vm_compute; left; reflexivity).
  split; [exact H|].
  exact (code_chunks_start_at_declarations (host := exampleHost) _ _ _ _ _ H).
Defined.

Lemma capital_extension_splits_file_type_witness :
  let file := lit "repo/App.JS" in
  let text := lit "function f() {
  return 1;
}
class A {}" in
  (fs_readFile (Host := capitalsHost) file = Some text /\
   isCodeFile (toLowerCase (path_extname (Host := capitalsHost) file)) = true /\
   toLowerCase (path_extname (Host := capitalsHost) (path_basename (Host := capitalsHost) file))
     <> path_extname (Host := capitalsHost) (path_basename (Host := capitalsHost) file))
  /\ exists overview rest,
       fst (processFile (host := capitalsHost) file repo demo) = overview :: rest /\
       fileType overview
       = getFileType (toLowerCase (path_extname (Host := capitalsHost) file)) /\
       fileType overview <> lit "unknown" /\
       forall c, In c rest -> fileType c = lit "unknown".
Proof.
  assert (H1 : fs_readFile (Host := capitalsHost) (lit "repo/App.JS")
               = Some (lit "function f() {
  return 1;
}
class A {}")) by reflexivity.
  assert (H2 : isCodeFile (toLowerCase (path_extname (Host := capitalsHost)
                                          (lit "repo/App.JS"))) = true)
    by reflexivity.
  assert (H3 : toLowerCase (path_extname (Host := capitalsHost)
                              (path_basename (Host := capitalsHost) (lit "repo/App.JS")))
               <> path_extname (Host := capitalsHost)
                    (path_basename (Host := capitalsHost) (lit "repo/App.JS")))
    by (vm_compute; discriminate).
  split; [auto|].
  exact (@capital_extension_splits_file_type capitalsHost _ repo demo _ H1 H2 H3).
Defined.

End Examples.

End CodeFacts.

(* ===================================================================== *)
(** ** Ranking: ties, the cut at eight, the reach of the boosts *)
(* ===================================================================== *)

Module RankingFacts.
Import Rag DoubleSpec RagSpec RankingSpec JSFacts DoubleFacts RagFacts.

(** Insertion moves [x] past candidates with a strictly higher score only. *)
Lemma filter_insert (v : Double.double) (x : ranked) (l : list ranked) :
  wellScored x -> Forall wellScored l ->
  filter (scores v) (insert byScoreDesc x l) = filter (scores v) (x :: l).
Proof.
  intros Hx. induction l as [|y l IH]; intros Hl; [reflexivity|].
  inversion Hl as [|? ? Hy Hl']; subst.
  cbn [insert]. rewrite (byScoreDesc_positive Hx Hy).
  destruct (Z.ltb_spec (rank (adjustedScore x)) (rank (adjustedScore y))) as [Hlt|Hge];
    [|reflexivity].
  cbn [filter] in *. rewrite (IH Hl').
  destruct (scores v x) eqn:Ex; [|reflexivity].
  destruct (scores v y) eqn:Ey; [|reflexivity].
  exfalso. unfold scores in Ex, Ey.
  pose proof (@eqb_ordered _ _ Hx Ex) as Hv.
  rewrite (eqb_rank Hx Hv) in Ex. rewrite (eqb_rank Hy Hv) in Ey.
  apply Z.eqb_eq in Ex. apply Z.eqb_eq in Ey. lia.
Qed.

Lemma filter_sort (v : Double.double) (l : list ranked) :
  Forall wellScored l ->
  filter (scores v) (sort byScoreDesc l) = filter (scores v) l.
Proof.
  induction l as [|x l IH]; intros Hl; [reflexivity|].
  inversion Hl as [|? ? Hx Hl']; subst.
  cbn [sort fold_right]. fold (sort byScoreDesc l).
  rewrite (filter_insert v Hx (sort_wellScored Hl')).
  cbn [filter]. rewrite (IH Hl'). reflexivity.
Qed.

Lemma filter_filter_comm {A : Type} (f g : A -> bool) (l : list A) :
  filter f (filter g l) = filter g (filter f l).
Proof.
  induction l as [|x l IH]; [reflexivity|].
  simpl. destruct (f x) eqn:Ef, (g x) eqn:Eg; simpl; rewrite ?Ef, ?Eg, IH; reflexivity.
Qed.

Lemma filter_all {A : Type} (f : A -> bool) (l : list A) :
  (forall x, In x l -> f x = true) -> filter f l = l.
Proof.
  induction l as [|x l IH]; intros H; [reflexivity|].
  simpl. rewrite (H x (or_introl eq_refl)). f_equal. apply IH.
  intros y Hy. apply H. right. exact Hy.
Qed.

(** X8.  Ranking is stable: among the candidates that pass the floor,
    those with the same adjusted score come out in the order in which the
    search returned them. *)
Theorem equal_scores_keep_search_order
        (candidates : list hit) (query : jstring) (v : Double.double) :
  Double.ltb relevanceFloor v = true ->
  filter (scores v) (filterAndRankResults candidates query)
  = filter (scores v) (map (rescore (toLowerCase query)) candidates).
Proof.
  intros Hv. unfold filterAndRankResults.
  rewrite filter_filter_comm, filter_sort by apply rescored_wellScored.
  apply filter_all.
  intros r Hr. apply filter_In in Hr. destruct Hr as [Hin Hr].
  assert (Ho : wellScored r).
  { apply in_map_iff in Hin. destruct Hin as (c & <- & _). apply rescore_ordered. }
  unfold scores in Hr. pose proof (@eqb_ordered _ _ Ho Hr) as Hov.
  unfold aboveFloor.
  rewrite (ltb_rank relevanceFloor_ordered Ho).
  rewrite (ltb_rank relevanceFloor_ordered Hov) in Hv.
  rewrite (eqb_rank Ho Hov) in Hr.
  apply Z.ltb_lt in Hv. apply Z.eqb_eq in Hr. apply Z.ltb_lt. lia.
Qed.

Lemma sorted_app_inv {A : Type} (R : A -> A -> Prop) (a b : list A) :
  StronglySorted R (a ++ b) -> forall x y, In x a -> In y b -> R x y.
Proof.
  induction a as [|z a IH]; intros H x y Hx Hy; [destruct Hx|].
  simpl in H. inversion H as [|? ? Hs Hall]; subst.
  destruct Hx as [<-|Hx].
  - rewrite Forall_forall in Hall. apply Hall. apply in_or_app. right. exact Hy.
  - apply IH; assumption.
Qed.

(** X9.  The eight results of [searchRelevantContext] are the best ones:
    a candidate that is not among them has an adjusted score that is not
    above the score of any result; and when fewer than eight results are
    returned, every candidate above the floor is among them. *)
Theorem no_dropped_candidate_outranks_a_result
        (embedding error : Type)
        (hybridSearch : jstring -> embedding -> nat -> option jstring ->
                        error + list hit)
        (query : jstring) (queryEmbedding : embedding)
        (repositoryFilter : option jstring) (candidates : list hit) :
  hybridSearch query queryEmbedding 15%nat (filtersOf repositoryFilter)
  = inr candidates ->
  exists results,
    searchRelevantContext hybridSearch query queryEmbedding repositoryFilter
    = inr results /\
    (forall c, In c candidates ->
               In (rescore (toLowerCase query) c) results \/
               forall r, In r results ->
                         Double.leb (adjustedScore (rescore (toLowerCase query) c))
                                    (adjustedScore r) = true) /\
    ((length results < 8)%nat ->
     forall c, In c candidates ->
               Double.ltb relevanceFloor
                          (adjustedScore (rescore (toLowerCase query) c)) = true ->
               In (rescore (toLowerCase query) c) results).
Proof.
  intros Hs. unfold searchRelevantContext. rewrite Hs.
  set (kept := filterAndRankResults candidates query).
  exists (firstn 8 kept). split; [reflexivity|].
  assert (Hsorted : StronglySorted notBelow (firstn 8 kept ++ skipn 8 kept)).
  { rewrite firstn_skipn. apply filterAndRankResults_sorted. }
  split.
  - intros c Hc.
    pose proof (rescore_ordered (toLowerCase query) c) as Ho.
    destruct (Double.ltb relevanceFloor
                (adjustedScore (rescore (toLowerCase query) c))) eqn:Habove.
    + assert (Hin : In (rescore (toLowerCase query) c) kept).
      { apply in_filterAndRankResults. split; [exists c; auto|exact Habove]. }
      rewrite <- (firstn_skipn 8 kept) in Hin. apply in_app_or in Hin.
      destruct Hin as [Hin|Hin]; [left; exact Hin|].
      right. intros r Hr. apply (@sorted_app_inv _ _ _ _ Hsorted r _ Hr Hin).
    + right. intros r Hr. apply ProcessorFacts.in_firstn in Hr.
      apply in_filterAndRankResults in Hr. destruct Hr as [(d & _ & ->) Hr].
      pose proof (rescore_ordered (toLowerCase query) d) as Hd.
      rewrite (ltb_rank relevanceFloor_ordered Ho) in Habove.
      rewrite (ltb_rank relevanceFloor_ordered Hd) in Hr.
      rewrite (leb_rank Ho Hd).
      apply Z.ltb_ge in Habove. apply Z.ltb_lt in Hr. apply Z.leb_le. lia.
  - intros Hlen c Hc Habove.
    rewrite length_firstn in Hlen. rewrite firstn_all2 by lia.
    apply in_filterAndRankResults. split; [exists c; auto|exact Habove].
Qed.

(** X10.  The boosts decide only for raw scores between 0 and 0.3.
    Whatever the query, a candidate with a raw score above 0.3 is kept and
    a candidate with a raw score of zero or less is discarded: a boost,
    which is a rounded product by 1.5, does not lower a score that is not
    negative and does not make positive a score that is not. *)
Theorem boosts_decide_only_near_the_floor
        (candidates : list hit) (query : jstring) (c : hit) :
  In c candidates ->
  let r := rescore (toLowerCase query) c in
  (Double.ltb relevanceFloor (Double.value (score c)) = true ->
   In r (filterAndRankResults candidates query)) /\
  (Double.leb (Double.value (score c)) Double.zero = true ->
   ~ In r (filterAndRankResults candidates query)) /\
  (Double.leb Double.zero (Double.value (score c)) = true ->
   Double.leb (Double.value (score c)) (adjustedScore r) = true).
Proof.
  intros Hc r. unfold r.
  pose proof (number_ordered (score c)) as Hs.
  pose proof (rescore_ordered (toLowerCase query) c) as Ho.
  assert (Hz : ordered Double.zero) by (split; reflexivity).
  pose proof relevanceFloor_rank as Hf.
  destruct (rescore_times (toLowerCase query) c) as (k & _ & E).
  unfold wellScored in Ho. rewrite E in *.
  split; [|split].
  - intros H. apply in_filterAndRankResults. split; [exists c; auto|].
    rewrite E. rewrite (ltb_rank relevanceFloor_ordered Hs) in H.
    rewrite (ltb_rank relevanceFloor_ordered Ho).
    apply Z.ltb_lt in H. apply Z.ltb_lt.
    pose proof (@boosted_at_least k _ Hs ltac:(lia)). lia.
  - intros H Hin. apply in_filterAndRankResults in Hin. destruct Hin as [_ Hin].
    rewrite E in Hin. rewrite (leb_rank Hs Hz) in H.
    rewrite (ltb_rank relevanceFloor_ordered Ho) in Hin.
    apply Z.leb_le in H. apply Z.ltb_lt in Hin. cbn [rank Double.zero] in H.
    pose proof (@boosted_not_positive k _ Hs H). lia.
  - intros H. rewrite (leb_rank Hz Hs) in H. rewrite (leb_rank Hs Ho).
    apply Z.leb_le in H. apply Z.leb_le. cbn [rank Double.zero] in H.
    apply boosted_at_least; assumption.
Qed.

Lemma equal_scores_keep_search_order_witness :
  Double.ltb relevanceFloor (Double.value half) = true
  /\ filter (scores (Double.value half))
            (filterAndRankResults fiveHits (lit "what is this?"))
     = filter (scores (Double.value half))
         (map (rescore (toLowerCase (lit "what is this?"))) fiveHits).
Proof.
  assert (H : Double.ltb relevanceFloor (Double.value half) = true)
    by (vm_compute; reflexivity).
  split; [exact H|].
  exact (equal_scores_keep_search_order fiveHits (lit "what is this?") _ H).
Defined.

Lemma no_dropped_candidate_outranks_a_result_witness :
  fiveHitsIndex (lit "how to install") tt 15%nat (filtersOf None) = inr fiveHits
  /\ exists results,
       searchRelevantContext fiveHitsIndex (lit "how to install") tt None
       = inr results /\
       (forall c, In c fiveHits ->
                  In (rescore (toLowerCase (lit "how to install")) c) results \/
                  forall r, In r results ->
                            Double.leb
                              (adjustedScore (rescore (toLowerCase (lit "how to install")) c))
                              (adjustedScore r) = true) /\
       ((length results < 8)%nat ->
        forall c, In c fiveHits ->
                  Double.ltb relevanceFloor
                    (adjustedScore (rescore (toLowerCase (lit "how to install")) c))
                  = true ->
                  In (rescore (toLowerCase (lit "how to install")) c) results).
Proof.
  split; [reflexivity|].
  exact (@no_dropped_candidate_outranks_a_result unit unit fiveHitsIndex
           (lit "how to install") tt None fiveHits eq_refl).
Defined.

Lemma boosts_decide_only_near_the_floor_witness :
  let c := nth 4 fiveHits authorNote in
  let query := lit "the database schema" in
  In c fiveHits
  /\ ((Double.ltb relevanceFloor (Double.value (score c)) = true ->
       In (rescore (toLowerCase query) c) (filterAndRankResults fiveHits query)) /\
      (Double.leb (Double.value (score c)) Double.zero = true ->
       ~ In (rescore (toLowerCase query) c) (filterAndRankResults fiveHits query)) /\
      (Double.leb Double.zero (Double.value (score c)) = true ->
       Double.leb (Double.value (score c))
                  (adjustedScore (rescore (toLowerCase query) c)) = true)).
Proof.
  assert (H : In (nth 4 fiveHits authorNote) fiveHits)
    by (simpl; right; right; right; right; left; reflexivity).
  split; [exact H|].
  exact (boosts_decide_only_near_the_floor fiveHits (lit "the database schema") _ H).
Defined.

End RankingFacts.

(* ===================================================================== *)
(** ** Sessions and the prompt *)
(* ===================================================================== *)

Module SessionFacts.
Import RagService SessionSpec JSFacts.

Lemma streq_sym (a b : jstring) : streq a b = streq b a.
Proof.
  destruct (streq a b) eqn:E1, (streq b a) eqn:E2; try reflexivity.
  - apply streq_eq in E1. subst b. rewrite streq_refl in E2. discriminate.
  - apply streq_eq in E2. subst b. rewrite streq_refl in E1. discriminate.
Qed.

Lemma getItem_putItem_same (key : jstring) (item : session) (t : table) :
  getItem key (putItem key item t) = Some item.
Proof.
  induction t as [|[k old] t IH]; simpl.
  - rewrite streq_refl. reflexivity.
  - destruct (streq key k) eqn:E; simpl; rewrite E; [reflexivity|exact IH].
Qed.

Lemma getItem_putItem_other (key other : jstring) (item : session) (t : table) :
  streq other key = false ->
  getItem other (putItem key item t) = getItem other t.
Proof.
  intros Hne. induction t as [|[k old] t IH]; simpl.
  - rewrite Hne. reflexivity.
  - destruct (streq key k) eqn:E; simpl.
    + apply streq_eq in E. subst k. rewrite Hne. reflexivity.
    + rewrite IH. reflexivity.
Qed.

Section Service.
Variables vector error : Type.
Variable w : services vector error.

(** [getOrCreateSession] always answers; it changes no history and no
    count, and the session it returns is stored under its key. *)
Lemma getOrCreateSession_spec (sessionId : option jstring) (st : store) :
  exists session st',
    getOrCreateSession w sessionId st = (inr session, st') /\
    (forall key, historyOf key st' = historyOf key st) /\
    (forall key, countOf key st' = countOf key st) /\
    (forall key, given sessionId = Some key ->
                 getItem key (items st') = Some session /\
                 conversationHistory session = historyOf key st /\
                 queryCount session = countOf key st).
Proof.
  unfold getOrCreateSession.
  set (key0 := match given sessionId with Some s => s | None => uuidv4 w end).
  destruct (getItem key0 (items st)) as [item|] eqn:Eg.
  - exists item, st. split; [reflexivity|]. split; [reflexivity|]. split; [reflexivity|].
    intros key Hkey. unfold key0 in Eg. rewrite Hkey in Eg.
    unfold historyOf, countOf. rewrite Eg. auto.
  - eexists. eexists. split; [reflexivity|].
    assert (G : forall key,
               getItem key (putItem key0
                              (mkSession key0 (toISOString w (clockReads st))
                                         (toISOString w (clockReads st + 1)) [] 0)
                              (items st))
               = if streq key key0
                 then Some (mkSession key0 (toISOString w (clockReads st))
                                      (toISOString w (clockReads st + 1)) [] 0)
                 else getItem key (items st)).
    { intros key. destruct (streq key key0) eqn:E.
      - apply streq_eq in E. subst key. apply getItem_putItem_same.
      - apply getItem_putItem_other. exact E. }
    split; [|split].
    + intros key. unfold historyOf. cbn [items]. rewrite G.
      destruct (streq key key0) eqn:E; [|reflexivity].
      apply streq_eq in E. subst key. rewrite Eg. reflexivity.
    + intros key. unfold countOf. cbn [items]. rewrite G.
      destruct (streq key key0) eqn:E; [|reflexivity].
      apply streq_eq in E. subst key. rewrite Eg. reflexivity.
    + intros key Hkey. unfold key0 in *. rewrite Hkey in *.
      cbn [items]. rewrite G, streq_refl. unfold historyOf, countOf. rewrite Eg.
      auto.
Qed.

(** [updateSession] appends to the session of a truthy [sessionId] that
    exists; otherwise the table rejects the update and nothing changes. *)
Lemma updateSession_spec (sessionId : option jstring) (query response : jstring)
      (sources : list Rag.ranked) (st : store) :
  match given sessionId with
  | Some key =>
      match getItem key (items st) with
      | Some item =>
          updateSession w sessionId query response sources st
          = (inr tt,
             mkStore (putItem key
                        (mkSession (RagService.sessionId item) (createdAt item)
                           (toISOString w (clockReads st + 1))
                           (conversationHistory item
                            ++ [mkInteraction (toISOString w (clockReads st))
                                              query response
                                              (map savedSourceOf sources)])
                           (queryCount item + 1))
                        (items st))
                     (clockReads st + 1 + 1))
      | None =>
          exists e st', updateSession w sessionId query response sources st
                        = (inl e, st') /\ items st' = items st
      end
  | None =>
      exists e st', updateSession w sessionId query response sources st
                    = (inl e, st') /\ items st' = items st
  end.
Proof.
  unfold updateSession, andThen, now, send_update. cbn [items clockReads].
  destruct (given sessionId) as [key|].
  - destruct (getItem key (items st)) as [item|].
    + reflexivity.
    + eexists. eexists. split; reflexivity.
  - eexists. eexists. split; reflexivity.
Qed.

(** X11.  [processQuery] either fails and leaves every stored history as
    it was, or succeeds for a truthy [sessionId] and appends exactly one
    interaction to the history of that session: the query, the response it
    returns, and the sources of the chunks used, at most eight.  On success
    the [queryCount] of that session goes up by one, and the histories of
    the other sessions are as they were. *)
Theorem processQuery_appends_one_interaction
        (query : jstring) (sessionId repositoryFilter : option jstring) (st : store) :
  let result := processQuery w query sessionId repositoryFilter st in
  match fst result with
  | inl _ => forall key, historyOf key (snd result) = historyOf key st
  | inr a =>
      exists key timestamp relevantChunks,
        given sessionId = Some key /\
        length relevantChunks <= 8 /\
        answerSources a = map citedSourceOf relevantChunks /\
        answerSessionId a = sessionId /\
        historyOf key (snd result)
        = historyOf key st
          ++ [mkInteraction timestamp query (answerResponse a)
                            (map savedSourceOf relevantChunks)] /\
        countOf key (snd result) = countOf key st + 1 /\
        forall other, streq other key = false ->
                      historyOf other (snd result) = historyOf other st
  end.
Proof.
  intros result. remember result as outcome eqn:Er.
  unfold result, processQuery, andThen, await in Er.
  destruct (getOrCreateSession_spec sessionId st)
    as (session & st1 & Eget & Hh & Hn & Hkey).
  rewrite Eget in Er.
  destruct (generateEmbeddings w query) as [e|queryEmbedding];
    [subst outcome; exact Hh|].
  destruct (Rag.searchRelevantContext (hybridSearch w) query queryEmbedding
              repositoryFilter) as [e|relevantChunks] eqn:Es;
    [subst outcome; exact Hh|].
  destruct (generateResponse w query (Rag.buildContext relevantChunks)
              (conversationHistory session)) as [e|response];
    [subst outcome; exact Hh|].
  pose proof (updateSession_spec sessionId query response relevantChunks st1) as Hu.
  destruct (given sessionId) as [key|] eqn:Eg.
  - destruct (Hkey key eq_refl) as (Hitem & Hhist & Hcount).
    rewrite Hitem in Hu. rewrite Hu in Er. subst outcome. cbn [resolve fst snd].
    assert (G : forall other,
               getItem other (items
                 (mkStore (putItem key
                        (mkSession (RagService.sessionId session) (createdAt session)
                           (toISOString w (clockReads st1 + 1))
                           (conversationHistory session
                            ++ [mkInteraction (toISOString w (clockReads st1))
                                              query response
                                              (map savedSourceOf relevantChunks)])
                           (queryCount session + 1))
                        (items st1))
                     (clockReads st1 + 1 + 1)))
               = if streq other key
                 then Some (mkSession (RagService.sessionId session) (createdAt session)
                           (toISOString w (clockReads st1 + 1))
                           (conversationHistory session
                            ++ [mkInteraction (toISOString w (clockReads st1))
                                              query response
                                              (map savedSourceOf relevantChunks)])
                           (queryCount session + 1))
                 else getItem other (items st1)).
    { intros other. cbn [items]. destruct (streq other key) eqn:E.
      - apply streq_eq in E. subst other. apply getItem_putItem_same.
      - apply getItem_putItem_other. exact E. }
    exists key, (toISOString w (clockReads st1)), relevantChunks.
    split; [reflexivity|]. split.
    { unfold Rag.searchRelevantContext in Es.
      destruct (hybridSearch w query queryEmbedding 15 (Rag.filtersOf repositoryFilter))
        as [e|found]; [discriminate|].
      assert (Hrc : relevantChunks = firstn 8 (Rag.filterAndRankResults found query))
        by congruence.
      rewrite Hrc, length_firstn. lia. }
    split; [reflexivity|]. split; [reflexivity|]. split; [|split].
    + unfold historyOf at 1. rewrite G, streq_refl. cbn [conversationHistory].
      rewrite Hhist. reflexivity.
    + unfold countOf at 1. rewrite G, streq_refl. cbn [queryCount].
      rewrite Hcount. reflexivity.
    + intros other Hne. unfold historyOf at 1. rewrite G, Hne.
      rewrite <- Hh. reflexivity.
  - destruct Hu as (e & st2 & Eu & Hitems). rewrite Eu in Er. subst outcome.
    cbn [fst snd].
    intros key. rewrite <- Hh. unfold historyOf. rewrite Hitems. reflexivity.
Qed.

(** X12.  In every session [queryCount] stays equal to the number of
    interactions stored: [processQuery] keeps this true whether it succeeds
    or fails. *)
Theorem processQuery_keeps_counts
        (query : jstring) (sessionId repositoryFilter : option jstring) (st : store) :
  countsMatch st ->
  countsMatch (snd (processQuery w query sessionId repositoryFilter st)).
Proof.
  intros Hst.
  remember (processQuery w query sessionId repositoryFilter st) as outcome eqn:Er.
  unfold processQuery, andThen, await in Er.
  destruct (getOrCreateSession_spec sessionId st)
    as (session & st1 & Eget & Hh & Hn & Hkey).
  rewrite Eget in Er.
  assert (H1 : countsMatch st1).
  { intros key. rewrite Hh, Hn. apply Hst. }
  destruct (generateEmbeddings w query) as [e|queryEmbedding];
    [subst outcome; exact H1|].
  destruct (Rag.searchRelevantContext (hybridSearch w) query queryEmbedding
              repositoryFilter) as [e|relevantChunks];
    [subst outcome; exact H1|].
  destruct (generateResponse w query (Rag.buildContext relevantChunks)
              (conversationHistory session)) as [e|response];
    [subst outcome; exact H1|].
  pose proof (updateSession_spec sessionId query response relevantChunks st1) as Hu.
  destruct (given sessionId) as [key|] eqn:Eg.
  - destruct (Hkey key eq_refl) as (Hitem & Hhist & Hcount).
    rewrite Hitem in Hu. rewrite Hu in Er. subst outcome. cbn [resolve fst snd].
    intros other. unfold countOf, historyOf. cbn [items].
    destruct (streq other key) eqn:E.
    + apply streq_eq in E. subst other. rewrite getItem_putItem_same.
      cbn [queryCount conversationHistory]. rewrite length_app. simpl.
      rewrite Hcount, Hhist. rewrite (Hst key). reflexivity.
    + rewrite (@getItem_putItem_other key other _ _ E). apply (H1 other).
  - destruct Hu as (e & st2 & Eu & Hitems). rewrite Eu in Er. subst outcome.
    cbn [fst snd].
    intros key. unfold countOf, historyOf. rewrite Hitems. apply (H1 key).
Qed.

(** X13.  The prompt does not show what was said before.  [buildPrompt]
    reads [role] and [content] from each element of the history, and the
    interactions stored by [updateSession] have neither: each of them gives
    the line [undefined: undefined].  So the reply to a query depends on
    the number of earlier interactions of the session, not on their
    queries or responses. *)
Theorem history_reaches_the_model_as_undefined
        (prompt context : jstring) (conversationHistory : list interaction) :
  map Bedrock.historyLine (map interactionObject conversationHistory)
  = repeat undefinedLine (length conversationHistory)
  /\ generateResponse w prompt context conversationHistory
     = invokeModel w
         (Bedrock.buildPrompt prompt context
            (repeat [] (length conversationHistory))).
Proof.
  assert (H : forall h : list interaction,
             map Bedrock.historyLine (map interactionObject h)
             = map Bedrock.historyLine (repeat [] (length h))).
  { induction h as [|i h IH]; [reflexivity|]. simpl. rewrite <- IH. reflexivity. }
  split.
  - induction conversationHistory as [|i h IH]; [reflexivity|].
    simpl. rewrite <- IH. reflexivity.
  - unfold generateResponse, Bedrock.buildPrompt. rewrite H. reflexivity.
Qed.

End Service.

Lemma processQuery_keeps_counts_witness :
  countsMatch emptyStore
  /\ countsMatch (snd (processQuery calm (lit "what is x?") (Some (lit "s1")) None
                         emptyStore)).
Proof.
  assert (H : countsMatch emptyStore) by (intros key; reflexivity).
  split; [exact H|].
  exact (@processQuery_keeps_counts unit unit calm (lit "what is x?")
           (Some (lit "s1")) None emptyStore H).
Defined.

End SessionFacts.

(* ===================================================================== *)
(** ** Intents, suggestions, history *)
(* ===================================================================== *)

Module IntentFacts.
Import RagService IntentSpec JSFacts.

Lemma lowerChar_idempotent (c : ascii) : lowerChar (lowerChar c) = lowerChar c.
Proof. destruct c as [[] [] [] [] [] [] [] []]; reflexivity. Qed.

Lemma toLowerCase_idempotent (s : jstring) : toLowerCase (toLowerCase s) = toLowerCase s.
Proof.
  unfold toLowerCase. rewrite map_map. apply map_ext. apply lowerChar_idempotent.
Qed.

Lemma firstIntent_none (entries : list (jstring * list jstring)) (queryLower : jstring) :
  firstIntent entries queryLower = None <->
  forall entry, In entry entries -> silent queryLower entry.
Proof.
  unfold silent. induction entries as [|[intent keywords] rest IH]; simpl.
  - split; [intros _ ? []|reflexivity].
  - destruct (mentions queryLower keywords) eqn:E.
    + split; [discriminate|]. intros H.
      specialize (H (intent, keywords) (or_introl eq_refl)). simpl in H. congruence.
    + rewrite IH. split.
      * intros H entry [<-|Hin]; [exact E|apply H; exact Hin].
      * intros H entry Hin. apply H. right. exact Hin.
Qed.

Lemma firstIntent_first (before after : list (jstring * list jstring))
      (entry : jstring * list jstring) (queryLower : jstring) :
  (forall e, In e before -> silent queryLower e) ->
  mentions queryLower (snd entry) = true ->
  firstIntent (before ++ entry :: after) queryLower = Some (fst entry).
Proof.
  unfold silent. induction before as [|[intent keywords] before IH]; intros Hb He; simpl.
  - destruct entry as [intent keywords]. simpl in *. rewrite He. reflexivity.
  - pose proof (Hb (intent, keywords) (or_introl eq_refl)) as Hk. simpl in Hk.
    rewrite Hk. apply IH; [|exact He]. intros e Hin. apply Hb. right. exact Hin.
Qed.

Lemma firstIntent_listed (entries : list (jstring * list jstring))
      (queryLower intent : jstring) :
  firstIntent entries queryLower = Some intent -> In intent (map fst entries).
Proof.
  induction entries as [|[i keywords] rest IH]; simpl; [discriminate|].
  destruct (mentions queryLower keywords).
  - intros [= <-]. left. reflexivity.
  - intros H. right. apply IH. exact H.
Qed.

(** X14.  [analyzeQueryIntent] answers with the first intent of the table,
    in the order setup, architecture, api, database, authentication,
    deployment, testing, troubleshooting, one of whose keywords occurs in
    the query in lower case: an intent listed earlier wins over the
    intents listed after it.  It answers [general] exactly when no keyword
    of the table occurs, and it does not depend on the case of the
    letters of the query. *)
Theorem analyzeQueryIntent_first_listed_intent (query : jstring) :
  (forall before entry after,
      intents = before ++ entry :: after ->
      (forall e, In e before -> silent (toLowerCase query) e) ->
      mentions (toLowerCase query) (snd entry) = true ->
      analyzeQueryIntent query = fst entry)
  /\ (analyzeQueryIntent query = lit "general" <->
      forall entry, In entry intents -> silent (toLowerCase query) entry)
  /\ analyzeQueryIntent (toLowerCase query) = analyzeQueryIntent query.
Proof.
  split; [|split].
  - intros before entry after Hi Hb He. unfold analyzeQueryIntent.
    rewrite Hi, (firstIntent_first _ _ _ Hb He). reflexivity.
  - rewrite <- firstIntent_none. unfold analyzeQueryIntent.
    destruct (firstIntent intents (toLowerCase query)) as [intent|] eqn:E.
    + split; [|discriminate]. intros ->. exfalso.
      apply firstIntent_listed in E.
      assert (G : Forall (fun i => i <> lit "general") (map fst intents))
        by (repeat constructor; discriminate).
      rewrite Forall_forall in G. apply (G _ E). reflexivity.
    + split; reflexivity.
  - unfold analyzeQueryIntent. rewrite toLowerCase_idempotent. reflexivity.
Qed.

(** The question is about authentication, and it is classified as a
    question about the architecture: [how does] is a keyword of an intent
    listed earlier. *)
Example how_does_wins :
  analyzeQueryIntent howDoesAuthWork = lit "architecture"
  /\ mentions (toLowerCase howDoesAuthWork)
              (map lit ["auth"; "login"; "user"; "permission"; "token"]%string) = true.
Proof. split; reflexivity. Qed.

(** X15.  The suggested questions do not depend on the repository.  When
    the statistics are available the result is the first six of the eight
    general questions, whatever file types the repository has: the
    questions added for JavaScript, TypeScript and Python are appended
    behind the eighth and cut off.  When the statistics fail the result is
    the three fallback questions. *)
Theorem suggestions_ignore_the_repository (error : Type)
        (fileTypes : error + list bucket) :
  generateSuggestedQuestions fileTypes
  = match fileTypes with
    | inr _ => firstn 6 baseSuggestions
    | inl _ => fallbackSuggestions
    end
  /\ length (generateSuggestedQuestions fileTypes)
     = match fileTypes with inr _ => 6 | inl _ => 3 end
  /\ forall question,
       In question (nodeSuggestions ++ pythonSuggestions) ->
       ~ In question (generateSuggestedQuestions fileTypes).
Proof.
  assert (H : generateSuggestedQuestions fileTypes
              = match fileTypes with
                | inr _ => firstn 6 baseSuggestions
                | inl _ => fallbackSuggestions
                end).
  { destruct fileTypes as [e|fileTypes]; [reflexivity|].
    unfold generateSuggestedQuestions.
    destruct (existsb _ fileTypes); destruct (existsb _ fileTypes); reflexivity. }
  split; [exact H|]. rewrite H. split.
  - destruct fileTypes; reflexivity.
  - intros question Hq Hin.
    assert (G : Forall (fun q => ~ In q (firstn 6 baseSuggestions) /\
                                 ~ In q fallbackSuggestions)
                       (nodeSuggestions ++ pythonSuggestions)).
    { repeat constructor; intros Hc; vm_compute in Hc;
        repeat (destruct Hc as [Hc|Hc]; [discriminate Hc|]); exact Hc. }
    rewrite Forall_forall in G. destruct (G _ Hq) as [G1 G2].
    destruct fileTypes; [apply G2|apply G1]; exact Hin.
Qed.

Lemma suffix_skipn {A : Type} (n : nat) (l : list A) :
  exists older, l = older ++ skipn n l.
Proof. exists (firstn n l). symmetry. apply firstn_skipn. Qed.

(** X16.  [getConversationHistory] returns the end of the stored history:
    for a limit of at least 1 its last [limit] interactions, or all of
    them when there are fewer.  A limit of 0, and a limit that is not a
    number, give the whole history; a negative limit [-n] gives the
    history without its first [n] interactions.  A session that does not
    exist, a session without a history and a failure of the table all give
    the empty list. *)
Theorem getConversationHistory_returns_the_tail (error A : Type)
        (conversationHistory : list A) (limit : option Z) :
  let found : error + option (option (list A)) :=
    inr (Some (Some conversationHistory)) in
  (exists older,
      conversationHistory = older ++ getConversationHistory found limit)
  /\ (forall n, limit = Some n -> (1 <= n)%Z ->
                getConversationHistory found limit
                = skipn (length conversationHistory - Z.to_nat n) conversationHistory
                /\ length (getConversationHistory found limit)
                   = Nat.min (Z.to_nat n) (length conversationHistory))
  /\ (limit = Some 0%Z \/ limit = None ->
      getConversationHistory found limit = conversationHistory)
  /\ (forall n, limit = Some n -> (n < 0)%Z ->
                getConversationHistory found limit
                = skipn (Z.to_nat (- n)) conversationHistory)
  /\ (forall e : error, getConversationHistory (A := A) (inl e) limit = [])
  /\ getConversationHistory (error := error) (A := A) (inr None) limit = []
  /\ getConversationHistory (error := error) (A := A) (inr (Some None)) limit = [].
Proof.
  intros found. unfold found, getConversationHistory, slice.
  split; [apply suffix_skipn|].
  split.
  { intros n -> Hn. cbn [minus].
    replace (- n <? 0)%Z with true by (symmetry; apply Z.ltb_lt; lia).
    assert (E : Z.to_nat (Z.max (Z.of_nat (length conversationHistory) + - n) 0)
                = length conversationHistory - Z.to_nat n) by lia.
    rewrite E. split; [reflexivity|]. rewrite length_skipn. lia. }
  split.
  { intros [-> | ->]; cbn [minus Z.opp Z.ltb Z.compare];
      rewrite Z.min_l by lia; reflexivity. }
  split.
  { intros n -> Hn. cbn [minus].
    replace (- n <? 0)%Z with false by (symmetry; apply Z.ltb_ge; lia).
    destruct (Z.le_gt_cases (- n) (Z.of_nat (length conversationHistory))) as [H|H].
    - rewrite Z.min_l by exact H. reflexivity.
    - rewrite Z.min_r by lia. rewrite Nat2Z.id.
      rewrite !skipn_all2 by lia. reflexivity. }
  repeat split.
Qed.

End IntentFacts.

(* ===================================================================== *)
(** ** White space: [trim] and the text that is embedded *)
(* ===================================================================== *)

Module TextFacts.
Import TextSpec JSFacts.

Lemma dropWhile_split (p : ascii -> bool) (s : jstring) :
  exists a, s = a ++ dropWhile p s /\ Forall (fun c => p c = true) a.
Proof.
  induction s as [|c s (a & Hs & Ha)]; simpl.
  - exists []. split; [reflexivity|constructor].
  - destruct (p c) eqn:E.
    + exists (c :: a). split; [simpl; f_equal; exact Hs|constructor; assumption].
    + exists []. split; [reflexivity|constructor].
Qed.

Lemma dropWhile_head (p : ascii -> bool) (s r : jstring) (c : ascii) :
  dropWhile p s = c :: r -> p c = false.
Proof.
  induction s as [|x s IH]; simpl; [discriminate|].
  destruct (p x) eqn:E; [exact IH|]. intros [= <- _]. exact E.
Qed.

Lemma trimEnd_split (s : jstring) : exists b, s = trimEnd s ++ b /\ blank b.
Proof.
  unfold trimEnd. destruct (dropWhile_split isSpace (rev s)) as (a & Hs & Ha).
  exists (rev a). split.
  - rewrite <- rev_app_distr, <- Hs, rev_involutive. reflexivity.
  - unfold blank. apply Forall_rev. exact Ha.
Qed.

(** [s.trim()] is [s] without a blank start and a blank end. *)
Lemma trim_split (s : jstring) :
  exists a b, s = a ++ trim s ++ b /\ blank a /\ blank b.
Proof.
  unfold trim, trimStart.
  destruct (dropWhile_split isSpace s) as (a & Hs & Ha).
  destruct (trimEnd_split (dropWhile isSpace s)) as (b & Ht & Hb).
  exists a, b. split; [|split; assumption].
  rewrite <- Ht. exact Hs.
Qed.

Lemma trim_trimmed (s : jstring) : trimmed (trim s).
Proof.
  unfold trim, trimStart. split.
  - intros c r H.
    destruct (trimEnd_split (dropWhile isSpace s)) as (b & Ht & _).
    rewrite H in Ht. simpl in Ht. apply (dropWhile_head _ _ Ht).
  - intros r c H. unfold trimEnd in H.
    assert (E : dropWhile isSpace (rev (dropWhile isSpace s)) = c :: rev r).
    { rewrite <- (rev_involutive (dropWhile isSpace (rev (dropWhile isSpace s)))).
      rewrite H, rev_app_distr. reflexivity. }
    apply (dropWhile_head _ _ E).
Qed.

Lemma trim_length (s : jstring) : length (trim s) <= length s.
Proof.
  destruct (trim_split s) as (a & b & Hs & _).
  rewrite Hs at 2. rewrite !length_app. lia.
Qed.

Lemma ink_app (a b : jstring) : ink (a ++ b) = ink a ++ ink b.
Proof. apply filter_app. Qed.

Lemma ink_blank (a : jstring) : blank a -> ink a = [].
Proof.
  induction 1 as [|c a Hc _ IH]; [reflexivity|].
  unfold ink in *. simpl. rewrite Hc. exact IH.
Qed.

Lemma ink_trim (s : jstring) : ink (trim s) = ink s.
Proof.
  destruct (trim_split s) as (a & b & Hs & Ha & Hb).
  rewrite Hs at 2. rewrite !ink_app, (ink_blank Ha), (ink_blank Hb), app_nil_r.
  reflexivity.
Qed.

Lemma singleSpaced_infix (a t b : jstring) : singleSpaced (a ++ t ++ b) -> singleSpaced t.
Proof.
  intros H u x y v Ht. apply (H (a ++ u) x y (v ++ b)).
  rewrite Ht, <- !app_assoc. reflexivity.
Qed.

Lemma onlySpaces_infix (a t b : jstring) : onlySpaces (a ++ t ++ b) -> onlySpaces t.
Proof.
  unfold onlySpaces. intros H. apply Forall_app in H. destruct H as [_ H].
  apply Forall_app in H. apply H.
Qed.

Lemma ink_replaceSpaces (inRun : bool) (s : jstring) :
  ink (Bedrock.replaceSpaces inRun s) = ink s.
Proof.
  revert inRun. unfold ink. induction s as [|c s IH]; intros inRun; [reflexivity|].
  simpl. destruct (isSpace c) eqn:E; simpl.
  - destruct inRun; simpl; apply IH.
  - rewrite E. simpl. f_equal. apply IH.
Qed.

Lemma onlySpaces_replaceSpaces (inRun : bool) (s : jstring) :
  onlySpaces (Bedrock.replaceSpaces inRun s).
Proof.
  revert inRun. unfold onlySpaces. induction s as [|c s IH]; intros inRun; simpl;
    [constructor|].
  destruct (isSpace c) eqn:E.
  - destruct inRun; [apply IH|]. constructor; [reflexivity|apply IH].
  - constructor; [congruence|apply IH].
Qed.

Lemma singleSpaced_replaceSpaces (inRun : bool) (s : jstring) :
  singleSpaced (Bedrock.replaceSpaces inRun s) /\
  (inRun = true ->
   forall c r, Bedrock.replaceSpaces inRun s = c :: r -> isSpace c = false).
Proof.
  revert inRun. induction s as [|c s IH]; intros inRun; simpl.
  - split; [|discriminate]. intros [|? ?] x y v H; discriminate H.
  - destruct (isSpace c) eqn:E.
    + destruct inRun; [apply IH|].
      split; [|discriminate].
      intros [|z u] x y v H Hx; simpl in H.
      * injection H as <- H. apply (proj2 (IH true) eq_refl y v H).
      * injection H as _ H. apply (proj1 (IH true) u x y v H Hx).
    + split.
      * intros [|z u] x y v H Hx; simpl in H.
        -- injection H as <- _. congruence.
        -- injection H as _ H. apply (proj1 (IH false) u x y v H Hx).
      * intros _ d r [= <- _]. exact E.
Qed.

Lemma words_inked (s current : jstring) :
  Forall (fun c => isSpace c = false) current ->
  Forall inked (words s current).
Proof.
  revert current. induction s as [|c s IH]; intros current Hc; cbn [words].
  - destruct current; constructor; [|constructor].
    split; [discriminate|exact Hc].
  - destruct (isSpace c) eqn:E.
    + destruct current as [|d current].
      * apply IH. constructor.
      * constructor; [split; [discriminate|exact Hc]|apply IH; constructor].
    + apply IH. apply Forall_app. split; [exact Hc|].
      constructor; [exact E|constructor].
Qed.

Lemma join_cons (sep p : jstring) (ps : list jstring) :
  ps <> [] -> join sep (p :: ps) = p ++ sep ++ join sep ps.
Proof. destruct ps; [congruence|reflexivity]. Qed.

Lemma join_trimmed (ws : list jstring) : Forall inked ws -> trimmed (join [" "%char] ws).
Proof.
  intros H. split.
  - intros c r E. destruct H as [|w ws [Hn Hw] H]; [discriminate|].
    destruct w as [|d w]; [congruence|].
    assert (c = d) as ->.
    { destruct ws; cbn in E; injection E as <- _; reflexivity. }
    inversion Hw; assumption.
  - intros r c E. induction H as [|w ws [Hn Hw] H IH] in r, E |- *.
    + destruct r; discriminate.
    + destruct ws as [|w' ws].
      * cbn in E. subst w. apply Forall_app in Hw. destruct Hw as [_ Hw].
        inversion Hw; assumption.
      * rewrite join_cons in E by discriminate.
        assert (N : join [" "%char] (w' :: ws) <> []).
        { inversion H as [|? ? [Hn' _] _]. destruct w'; [congruence|].
          destruct ws; discriminate. }
        destruct (exists_last N) as (r' & c' & E').
        rewrite E' in E. rewrite !app_assoc in E.
        apply app_inj_tail in E. destruct E as [_ <-].
        apply (IH r' E').
Qed.

Lemma dropWhile_past_blank (a s : jstring) :
  blank a -> dropWhile isSpace (a ++ s) = dropWhile isSpace s.
Proof.
  induction 1 as [|c a Hc _ IH]; [reflexivity|]. cbn. rewrite Hc. exact IH.
Qed.

Lemma dropWhile_all (a : jstring) : blank a -> dropWhile isSpace a = [].
Proof.
  intros H. rewrite <- (app_nil_r a). rewrite dropWhile_past_blank by exact H. reflexivity.
Qed.

(** [trim] undoes a blank frame around a trimmed text. *)
Lemma trim_frame (a t b : jstring) :
  blank a -> blank b -> trimmed t -> trim (a ++ t ++ b) = t.
Proof.
  intros Ha Hb [Hh Hl]. unfold trim, trimStart, trimEnd.
  rewrite dropWhile_past_blank by exact Ha.
  destruct t as [|c t].
  - cbn [app]. rewrite (dropWhile_all Hb). reflexivity.
  - cbn [app dropWhile]. rewrite (Hh c t eq_refl).
    change (c :: t ++ b) with ((c :: t) ++ b).
    rewrite rev_app_distr.
    rewrite dropWhile_past_blank by (apply Forall_rev; exact Hb).
    destruct (exists_last (l := c :: t) ltac:(discriminate)) as (r & d & E).
    rewrite E, rev_app_distr. cbn [rev app dropWhile].
    rewrite (Hl r d E). rewrite <- (rev_involutive r) at 2.
    change (d :: rev r) with ([d] ++ rev r). rewrite rev_app_distr. reflexivity.
Qed.

Lemma replaceSpaces_words (s : jstring) :
  (forall current, current <> [] ->
     exists b, blank b /\
       current ++ Bedrock.replaceSpaces false s = join [" "%char] (words s current) ++ b) /\
  (exists b, blank b /\
     Bedrock.replaceSpaces true s = join [" "%char] (words s []) ++ b).
Proof.
  induction s as [|c s [IH1 IH2]].
  - split.
    + intros current Hc. exists []. split; [constructor|].
      destruct current; [congruence|reflexivity].
    + exists []. split; [constructor|reflexivity].
  - cbn [Bedrock.replaceSpaces words]. destruct (isSpace c) eqn:E.
    + split.
      * intros current Hc. destruct IH2 as (b & Hb & H2). rewrite H2.
        destruct current as [|d current]; [congruence|].
        destruct (words s []) as [|w ws] eqn:W.
        -- exists (" "%char :: b). split; [constructor; [reflexivity|exact Hb]|].
           cbn [join app]. reflexivity.
        -- exists b. split; [exact Hb|].
           rewrite (@join_cons [" "%char] (d :: current) (w :: ws)) by discriminate.
           rewrite <- !app_assoc. reflexivity.
      * exact IH2.
    + split.
      * intros current Hc. destruct (IH1 (current ++ [c])) as (b & Hb & H).
        { destruct current; discriminate. }
        exists b. split; [exact Hb|]. rewrite <- H, <- app_assoc. reflexivity.
      * destruct (IH1 [c]) as (b & Hb & H); [discriminate|].
        exists b. split; [exact Hb|]. exact H.
Qed.

Lemma replaceSpaces_framed (s : jstring) :
  exists a b, blank a /\ blank b /\
    Bedrock.replaceSpaces false s = a ++ join [" "%char] (words s []) ++ b.
Proof.
  destruct s as [|c s]; [exists [], []; repeat split; constructor|].
  destruct (replaceSpaces_words s) as [IH1 IH2].
  cbn [Bedrock.replaceSpaces words]. destruct (isSpace c) eqn:E.
  - destruct IH2 as (b & Hb & H). exists [" "%char], b.
    split; [constructor; [reflexivity|constructor]|]. split; [exact Hb|].
    rewrite H. reflexivity.
  - destruct (IH1 [c]) as (b & Hb & H); [discriminate|].
    exists [], b. split; [constructor|]. split; [exact Hb|]. exact H.
Qed.

Lemma trim_replaceSpaces (s : jstring) :
  trim (Bedrock.replaceSpaces false s) = join [" "%char] (words s []).
Proof.
  destruct (replaceSpaces_framed s) as (a & b & Ha & Hb & H). rewrite H.
  apply trim_frame; [exact Ha|exact Hb|].
  apply join_trimmed. apply words_inked. constructor.
Qed.

(** X17.  The text embedded for a chunk is the path, the type and, when
    the chunk has one, the description, each on a line of its own,
    followed by [Content: ] and the content with its white space made
    uniform: the words of the content, in order, with one space between
    two words that follow each other.  So the units that are not white
    space are those of the content, in order; every run of white space
    between them, line breaks included, has become one space; and there
    is no white space at the start or at the end. *)
Theorem embedded_text_has_uniform_spacing (codeChunk : Processor.chunk) :
  exists body,
    Bedrock.preprocessCodeForEmbedding codeChunk
    = lit "File: " ++ Processor.filePath codeChunk ++ [LF]
      ++ lit "Type: " ++ ChunkType.name (Processor.type codeChunk) ++ [LF]
      ++ descriptionPart (Processor.description codeChunk)
      ++ lit "Content: " ++ body
    /\ ink body = ink (Processor.content codeChunk)
    /\ onlySpaces body /\ singleSpaced body /\ trimmed body
    /\ body = join [" "%char] (words (Processor.content codeChunk) [])
    /\ Forall inked (words (Processor.content codeChunk) []).
Proof.
  exists (trim (Bedrock.replaceSpaces false (Processor.content codeChunk))).
  split.
  - unfold Bedrock.preprocessCodeForEmbedding, Bedrock.descriptionLine, descriptionPart.
    destruct (Processor.type codeChunk);
      destruct (Processor.description codeChunk) as [[|d0 d]|];
      cbn [filter truthy lit list_ascii_of_string app join ChunkType.name];
      rewrite <- ?app_assoc; reflexivity.
  - set (replaced := Bedrock.replaceSpaces false (Processor.content codeChunk)).
    destruct (trim_split replaced) as (a & b & Hs & _).
    split; [rewrite ink_trim; apply ink_replaceSpaces|].
    split; [apply (@onlySpaces_infix a _ b); rewrite <- Hs;
            apply onlySpaces_replaceSpaces|].
    split; [apply (@singleSpaced_infix a _ b); rewrite <- Hs;
            apply singleSpaced_replaceSpaces|].
    split; [apply trim_trimmed|].
    split; [apply trim_replaceSpaces|].
    apply words_inked. constructor.
Qed.

(** The words of a function spread over three indented lines. *)
Example words_of_a_function :
  words (Processor.content indentedChunk) []
  = map lit ["function"; "f()"; "{"; "return"; "1;"; "}"]%string.
Proof. reflexivity. Qed.

(** On a function spread over three indented lines. *)
Example embedded_text_of_a_function :
  Bedrock.preprocessCodeForEmbedding indentedChunk
  = lit "File: src/f.js
Type: function
Content: function f() { return 1; }".
Proof. reflexivity. Qed.

End TextFacts.

(* ===================================================================== *)
(** ** The query route *)
(* ===================================================================== *)

Module ChatFacts.
Import RagService ChatApi TextSpec JSFacts TextFacts.

Section Route.
Variables vector error : Type.
Variable w : services vector error.

(** X18.  The query route answers 400 with the message [Query is
    required and must be a non-empty string], without touching the
    sessions and without calling any service, when the query is missing,
    is not a string or is blank.  For a query that is not blank it looks
    at the length before trimming: above 1000 units it answers 400 with
    the message [Query is too long. Maximum 1000 characters allowed.];
    otherwise it hands [processQuery] the trimmed query, which is not
    empty, is not longer than the query and neither starts nor ends with
    white space, together with the session id of the request or, when
    that is missing or empty, the identifier the generator gives; it
    answers 200 with the result, or 500 when [processQuery] throws. *)
Theorem postQuery_forwards_clean_queries
        (query : bodyValue) (sessionId repository : option jstring) (st : store) :
  ((forall q, query = textValue q -> trim q = []) ->
   postQuery w query sessionId repository st
   = (badRequest (lit "Query is required and must be a non-empty string"), st))
  /\
  (forall q, query = textValue q -> trim q <> [] ->
     (1000 < length q ->
      postQuery w query sessionId repository st
      = (badRequest (lit "Query is too long. Maximum 1000 characters allowed."), st))
     /\
     (length q <= 1000 ->
      let forwarded := trim q in
      let key := match given sessionId with
                 | Some s => s
                 | None => uuidv4 w
                 end in
      1 <= length forwarded /\ length forwarded <= length q /\ trimmed forwarded /\
      postQuery w query sessionId repository st
      = match processQuery w forwarded (Some key) repository st with
        | (inr result, st') =>
            (success result (toISOString w (clockReads st')),
             mkStore (items st') (clockReads st' + 1))
        | (inl _, st') => (serverError, st')
        end)).
Proof.
  split.
  - intros Hblank. destruct query as [| |q]; [reflexivity|reflexivity|].
    unfold postQuery. rewrite (Hblank q eq_refl). cbn [length Nat.eqb].
    rewrite orb_true_r. reflexivity.
  - intros q -> Hq.
    assert (E1 : negb (truthy q) || (length (trim q) =? 0) = false).
    { apply orb_false_iff. split.
      - destruct q; [exfalso; apply Hq; reflexivity|reflexivity].
      - apply Nat.eqb_neq. destruct (trim q); [congruence|simpl; lia]. }
    split.
    + intros Hlong. unfold postQuery. rewrite E1.
      replace (1000 <? length q) with true by (symmetry; apply Nat.ltb_lt; exact Hlong).
      reflexivity.
    + intros Hshort forwarded key. unfold forwarded, key, postQuery. rewrite E1.
      replace (1000 <? length q) with false by (symmetry; apply Nat.ltb_ge; exact Hshort).
      pose proof (trim_length q).
      split; [destruct (trim q); [congruence|simpl; lia]|].
      split; [lia|]. split; [apply trim_trimmed|].
      destruct (processQuery w (trim q) _ repository st) as [[e|result] st'];
        reflexivity.
Qed.

End Route.

End ChatFacts.

(* ===================================================================== *)
(** ** From the index back to the ranking *)
(* ===================================================================== *)

Module IndexFacts.
Import JSFacts DoubleSpec DoubleFacts RagSpec RagFacts.

(** When a condition is triggered the score has been multiplied at least
    once. *)
Lemma rescore_at_least (query : jstring) (found : Rag.hit) :
  Double.leb Double.zero (Double.value (Rag.score found)) = true ->
  (1 <= triggers query found)%nat ->
  Double.leb (Double.mul (Double.value (Rag.score found)) Rag.boost)
             (Rag.adjustedScore (Rag.rescore (toLowerCase query) found)) = true.
Proof.
  intros Hs Ht.
  pose proof (number_ordered (Rag.score found)) as Ho.
  assert (Hz : ordered Double.zero) by (split; reflexivity).
  rewrite (leb_rank Hz Ho) in Hs. apply Z.leb_le in Hs. cbn [rank Double.zero] in Hs.
  rewrite rescore_boosted.
  destruct (triggers query found) as [|k]; [lia|].
  rewrite boosted_first.
  assert (Hm : ordered (Double.mul (Double.value (Rag.score found)) Rag.boost))
    by (rewrite boost_eq; apply mul_ordered; [exact Ho|reflexivity]).
  assert (Hp : (0 <= rank (Double.mul (Double.value (Rag.score found)) Rag.boost))%Z).
  { pose proof (@boosted_at_least 1 _ Ho Hs) as H.
    change (boosted 1 (Double.value (Rag.score found)))
      with (Double.mul (Double.value (Rag.score found)) Rag.boost) in H. lia. }
  rewrite (leb_rank Hm (boosted_ordered k Hm)). apply Z.leb_le.
  apply boosted_at_least; assumption.
Qed.

(** X19.  What the processor writes in [type] is what the ranking reads in
    [chunkType].  A chunk that has been indexed with [indexCodeChunk] and is
    returned by [hybridSearch] with a score that is not negative gets an
    adjusted score that is at least the product of that score by 1.5 when
    it is a documentation chunk and the query asks about setup, when it is
    a route chunk and the query asks about the API, and when it is a class
    chunk and the query asks about the database.  Its content, path and
    file name come back as the processor set them, and its function and
    class names are found where [buildContext] looks for them. *)
Theorem indexed_chunk_types_meet_their_boosts
        (vector : Type) (codeChunk : Processor.chunk) (embedding : vector)
        (now : jstring) (score : Double.number) (query : jstring) :
  let found := OpenSearch.resultOf score
                 (OpenSearch.documentOf codeChunk embedding now) in
  let adjusted := Rag.adjustedScore (Rag.rescore (toLowerCase query) found) in
  Double.leb Double.zero (Double.value score) = true ->
  (Processor.type codeChunk = Processor.documentation ->
   Rag.asksSetup (toLowerCase query) = true ->
   Double.leb (Double.mul (Double.value score) Rag.boost) adjusted = true)
  /\ (Processor.type codeChunk = Processor.route ->
      Rag.asksApi (toLowerCase query) = true ->
      Double.leb (Double.mul (Double.value score) Rag.boost) adjusted = true)
  /\ (Processor.type codeChunk = Processor.class ->
      Rag.asksDatabase (toLowerCase query) = true ->
      Double.leb (Double.mul (Double.value score) Rag.boost) adjusted = true)
  /\ Rag.content found = Processor.content codeChunk
  /\ Rag.filePath found = Processor.filePath codeChunk
  /\ Rag.fileName found = Processor.fileName codeChunk
  /\ option_map Rag.functionName (Rag.meta found)
     = Some (Processor.functionName codeChunk)
  /\ option_map Rag.className (Rag.meta found)
     = Some (Processor.className codeChunk).
Proof.
  intros found adjusted Hs.
  assert (Hscore : Rag.score found = score) by reflexivity.
  assert (Hty : Rag.chunkType found = ChunkType.name (Processor.type codeChunk))
    by reflexivity.
  split; [|split; [|split]].
  - intros Hd Hq. unfold adjusted. rewrite <- Hscore.
    apply rescore_at_least; [rewrite Hscore; exact Hs|].
    assert (Hc : Rag.isSetupChunk found = true).
    { unfold Rag.isSetupChunk. rewrite Hty, Hd. apply orb_true_r. }
    unfold triggers, setupTriggered. rewrite Hq, Hc. cbn [andb Nat.b2n]. lia.
  - intros Hd Hq. unfold adjusted. rewrite <- Hscore.
    apply rescore_at_least; [rewrite Hscore; exact Hs|].
    assert (Hc : Rag.isApiChunk found = true).
    { unfold Rag.isApiChunk. rewrite Hty, Hd. apply orb_true_r. }
    unfold triggers, otherTriggers, apiTriggered. rewrite Hq, Hc.
    cbn [andb Nat.b2n]. lia.
  - intros Hd Hq. unfold adjusted. rewrite <- Hscore.
    apply rescore_at_least; [rewrite Hscore; exact Hs|].
    assert (Hc : Rag.isDatabaseChunk found = true).
    { unfold Rag.isDatabaseChunk. rewrite Hty, Hd. apply orb_true_r. }
    unfold triggers, otherTriggers, databaseTriggered. rewrite Hq, Hc.
    cbn [andb Nat.b2n]. lia.
  - repeat split.
Qed.

(** A documentation chunk found with a score of 0.7, for a query about
    the installation: its adjusted score is 1.0499999999999998, the
    product 0.7 x 1.5 as the language computes it. *)
Lemma documentation_found_at_seven_tenths :
  Rag.adjustedScore
    (Rag.rescore (toLowerCase (lit "How do I install it?"))
       (OpenSearch.resultOf sevenTenths
          (OpenSearch.documentOf ProcessorSpec.usageChunk tt
             (lit "2024-01-01T00:00:00.000Z"))))
  = Double.literal 10499999999999998 10000000000000000.
Proof. vm_compute. reflexivity. Qed.

Lemma indexed_chunk_types_meet_their_boosts_witness :
  let found := OpenSearch.resultOf sevenTenths
                 (OpenSearch.documentOf ProcessorSpec.usageChunk tt
                    (lit "2024-01-01T00:00:00.000Z")) in
  let query := lit "How do I install it?" in
  let adjusted := Rag.adjustedScore (Rag.rescore (toLowerCase query) found) in
  Double.leb Double.zero (Double.value sevenTenths) = true
  /\ ((Processor.type ProcessorSpec.usageChunk = Processor.documentation ->
       Rag.asksSetup (toLowerCase query) = true ->
       Double.leb (Double.mul (Double.value sevenTenths) Rag.boost) adjusted = true)
      /\ (Processor.type ProcessorSpec.usageChunk = Processor.route ->
          Rag.asksApi (toLowerCase query) = true ->
          Double.leb (Double.mul (Double.value sevenTenths) Rag.boost) adjusted = true)
      /\ (Processor.type ProcessorSpec.usageChunk = Processor.class ->
          Rag.asksDatabase (toLowerCase query) = true ->
          Double.leb (Double.mul (Double.value sevenTenths) Rag.boost) adjusted = true)
      /\ Rag.content found = Processor.content ProcessorSpec.usageChunk
      /\ Rag.filePath found = Processor.filePath ProcessorSpec.usageChunk
      /\ Rag.fileName found = Processor.fileName ProcessorSpec.usageChunk
      /\ option_map Rag.functionName (Rag.meta found)
         = Some (Processor.functionName ProcessorSpec.usageChunk)
      /\ option_map Rag.className (Rag.meta found)
         = Some (Processor.className ProcessorSpec.usageChunk)).
Proof.
  assert (H : Double.leb Double.zero (Double.value sevenTenths) = true)
    by (vm_compute; reflexivity).
  split; [exact H|].
  exact (@indexed_chunk_types_meet_their_boosts unit ProcessorSpec.usageChunk tt
           (lit "2024-01-01T00:00:00.000Z") sevenTenths (lit "How do I install it?") H).
Defined.

End IndexFacts.

(* ===================================================================== *)
(** ** The summary of a dry run *)
(* ===================================================================== *)

Module TallyFacts.
Import IngestScript TallySpec JSFacts.

Lemma streq_trans_l (a b c : jstring) : streq a b = true -> streq c a = streq c b.
Proof. intros H. apply streq_eq in H. subst b. reflexivity. Qed.

Lemma countFor_increment (t key : jstring) (counts : list (jstring * nat)) :
  countFor t (increment key counts)
  = countFor t counts + (if streq t key then 1 else 0).
Proof.
  induction counts as [|[k n] rest IH]; simpl.
  - destruct (streq t key); reflexivity.
  - destruct (streq key k) eqn:E; simpl.
    + rewrite (streq_trans_l _ _ t E).
      destruct (streq t k); lia.
    + rewrite IH. destruct (streq t k) eqn:Et; [|reflexivity].
      destruct (streq t key) eqn:Ek; [|lia].
      apply streq_eq in Et. apply streq_eq in Ek. subst. rewrite streq_refl in E.
      discriminate.
Qed.

Lemma keys_increment (key x : jstring) (counts : list (jstring * nat)) :
  In x (map fst (increment key counts)) <-> x = key \/ In x (map fst counts).
Proof.
  induction counts as [|[k n] rest IH]; simpl.
  - split; [intros [<-|[]]; auto|intros [->|[]]; auto].
  - destruct (streq key k) eqn:E; simpl.
    + apply streq_eq in E. subst k. split; [auto|intros [->|H]; auto].
    + rewrite IH. tauto.
Qed.

Lemma wellFormed_increment (key : jstring) (counts : list (jstring * nat)) :
  wellFormed counts -> wellFormed (increment key counts).
Proof.
  unfold wellFormed. induction counts as [|[k n] rest IH]; simpl; intros [Hn Hp].
  - split; repeat constructor. intros [].
  - inversion Hn as [|? ? Hk Hn']; subst. inversion Hp as [|? ? Hk1 Hp']; subst.
    destruct (streq key k) eqn:E; simpl.
    + split; [exact Hn|]. constructor; [simpl in *; lia|exact Hp'].
    + destruct (IH (conj Hn' Hp')) as [IH1 IH2]. split.
      * constructor; [|exact IH1]. rewrite keys_increment. intros [->|H]; [|auto].
        rewrite streq_refl in E. discriminate.
      * constructor; assumption.
Qed.

Lemma sum_increment (key : jstring) (counts : list (jstring * nat)) :
  list_sum (map snd (increment key counts)) = list_sum (map snd counts) + 1.
Proof.
  induction counts as [|[k n] rest IH]; simpl; [reflexivity|].
  destruct (streq key k); simpl; [lia|rewrite IH; lia].
Qed.

Lemma tally_spec (keys : list jstring) (counts : list (jstring * nat)) :
  wellFormed counts ->
  (forall t, countFor t (tally keys counts) = countFor t counts + occurrences t keys)
  /\ wellFormed (tally keys counts)
  /\ list_sum (map snd (tally keys counts)) = list_sum (map snd counts) + length keys.
Proof.
  revert counts. unfold tally, occurrences.
  induction keys as [|key keys IH]; intros counts Hw; simpl.
  - split; [intros t; lia|]. split; [exact Hw|lia].
  - destruct (IH (increment key counts) (wellFormed_increment key Hw)) as (H1 & H2 & H3).
    split; [|split; [exact H2|]].
    + intros t. rewrite H1, countFor_increment.
      destruct (streq t key); simpl; lia.
    + rewrite H3, sum_increment. lia.
Qed.

Lemma drySummary_tally (chunks : list Processor.chunk) (a b : list (jstring * nat)) :
  fold_left
    (fun counts chunk =>
       (increment (Processor.fileType chunk) (fst counts),
        increment (ChunkType.name (Processor.type chunk)) (snd counts)))
    chunks (a, b)
  = (tally (map Processor.fileType chunks) a,
     tally (map (fun chunk => ChunkType.name (Processor.type chunk)) chunks) b).
Proof.
  revert a b. induction chunks as [|c chunks IH]; intros a b; [reflexivity|].
  simpl. rewrite IH. reflexivity.
Qed.

(** X20.  The summary of a dry run counts every chunk once under its file
    type and once under its chunk type: the count printed for a type is
    the number of chunks of that type, no type is printed twice or with a
    count of 0, and the counts of either list add up to the number of
    chunks. *)
Theorem drySummary_counts_every_chunk (chunks : list Processor.chunk) :
  let fileTypes := fst (drySummary chunks) in
  let chunkTypes := snd (drySummary chunks) in
  (forall t, countFor t fileTypes
             = occurrences t (map Processor.fileType chunks))
  /\ (forall t, countFor t chunkTypes
                = occurrences t (map (fun chunk => ChunkType.name (Processor.type chunk))
                                     chunks))
  /\ wellFormed fileTypes /\ wellFormed chunkTypes
  /\ list_sum (map snd fileTypes) = length chunks
  /\ list_sum (map snd chunkTypes) = length chunks.
Proof.
  intros fileTypes chunkTypes. unfold fileTypes, chunkTypes, drySummary.
  rewrite drySummary_tally. cbn [fst snd].
  assert (Hw : wellFormed []) by (split; constructor).
  destruct (tally_spec (map Processor.fileType chunks) Hw) as (F1 & F2 & F3).
  destruct (tally_spec (map (fun chunk => ChunkType.name (Processor.type chunk)) chunks)
              Hw) as (C1 & C2 & C3).
  rewrite length_map in F3, C3. simpl in F3, C3.
  repeat split; try assumption; try (apply F2); try (apply C2).
Qed.

End TallyFacts.

(* ===================================================================== *)
(** ** The progress records of an ingestion *)
(* ===================================================================== *)

Module ProgressFacts.
Import Ingest IngestSpec ProgressSpec IngestFacts.

Lemma batches_step (batchSize m : nat) :
  0 < batchSize -> 0 < m -> batches batchSize m = S (batches batchSize (m - batchSize)).
Proof.
  intros Hb Hm. unfold batches.
  destruct (Nat.le_gt_cases batchSize m) as [H|H].
  - replace (m + batchSize - 1) with ((m - batchSize + batchSize - 1) + 1 * batchSize)
      by lia.
    rewrite Nat.div_add by lia. lia.
  - replace (m - batchSize) with 0 by lia.
    replace (m + batchSize - 1) with ((m - 1) + 1 * batchSize) by lia.
    rewrite Nat.div_add by lia.
    rewrite (Nat.div_small (m - 1)) by lia.
    rewrite (Nat.div_small (0 + batchSize - 1)) by lia. reflexivity.
Qed.

Lemma batches_zero (batchSize : nat) : 0 < batchSize -> batches batchSize 0 = 0.
Proof. intros Hb. unfold batches. apply Nat.div_small. lia. Qed.

Lemma batches_cover (batchSize total : nat) :
  0 < batchSize -> total <= batches batchSize total * batchSize.
Proof.
  intros Hb. unfold batches.
  pose proof (Nat.div_mod_eq (total + batchSize - 1) batchSize) as E.
  pose proof (Nat.mod_upper_bound (total + batchSize - 1) batchSize) as U.
  nia.
Qed.

Lemma successes_split (succeeds : nat -> bool) (lo mid hi : nat) :
  lo <= mid -> mid <= hi ->
  successes succeeds lo hi = successes succeeds lo mid + successes succeeds mid hi.
Proof.
  intros H1 H2. unfold successes.
  replace (hi - lo) with ((mid - lo) + (hi - mid)) by lia.
  rewrite seq_app, filter_app, length_app.
  replace (lo + (mid - lo)) with mid by lia. reflexivity.
Qed.

Section BatchLoopReports.
Variable T : Type.
Variable batchSize : nat.
Hypothesis batchSize_pos : 0 < batchSize.
Variable succeeds : nat -> bool.
Variable afterBatch : nat -> T -> T.
Variable total : nat.

(** The loop calls [afterBatch] once per batch, with the counter reached
    at the end of that batch. *)
Lemma batchLoop_reports (i processedCount : nat) (st : T) :
  snd (batchLoop batchSize_pos succeeds afterBatch total i processedCount st)
  = fold_left (fun st count => afterBatch count st)
      (map (fun j => processedCount
                     + successes succeeds i (Nat.min (i + (j + 1) * batchSize) total))
           (seq 0 (batches batchSize (total - i))))
      st.
Proof.
  funelim (batchLoop batchSize_pos succeeds afterBatch total i processedCount st).
  - match goal with IH : snd _ = _ |- _ => rewrite IH end.
    rewrite (@batches_step batchSize (total - i)) by lia.
    cbn [seq map fold_left].
    assert (E0 : processBatch batchSize succeeds total processedCount i
                 = processedCount
                   + successes succeeds i (Nat.min (i + (0 + 1) * batchSize) total)).
    { unfold processBatch, batchPositions, successes. rewrite (fold_processItem batchSize_pos).
      f_equal. f_equal. f_equal. f_equal. lia. }
    rewrite <- E0. f_equal.
    replace (total - i - batchSize) with (total - (i + batchSize)) by lia.
    rewrite <- seq_shift, map_map.
    destruct (Nat.le_gt_cases total (i + batchSize)) as [Hle|Hgt].
    + replace (total - (i + batchSize)) with 0 by lia.
      rewrite (@batches_zero batchSize batchSize_pos). reflexivity.
    + apply map_ext. intros j. rewrite E0.
      replace (Nat.min (i + (0 + 1) * batchSize) total) with (i + batchSize) by lia.
      replace (i + batchSize + (j + 1) * batchSize) with (i + (S j + 1) * batchSize)
        by lia.
      rewrite (@successes_split succeeds i (i + batchSize)
                 (Nat.min (i + (S j + 1) * batchSize) total)) by lia.
      lia.
  - replace (total - i) with 0 by lia.
    rewrite (@batches_zero batchSize batchSize_pos). reflexivity.
Qed.

End BatchLoopReports.

Lemma fold_left_updates (reports : list nat) (total : nat) (t : tables) :
  fold_left (fun st count => updateIngestionStatus processing (Indexing count total) st)
            reports t
  = mkTables (ingestions t
              ++ map (fun count => mkStatus processing (Indexing count total)) reports)
             (repositories t).
Proof.
  revert t. induction reports as [|c reports IH]; intros t; simpl.
  - rewrite app_nil_r. destruct t; reflexivity.
  - rewrite IH. unfold updateIngestionStatus. simpl. rewrite <- app_assoc. reflexivity.
Qed.

(** X21.  While it indexes, the job writes one progress record for each
    batch of ten chunks, the last batch being the remainder: [total / 10]
    records, rounded up.  The record written after a batch reports the
    number of chunks embedded and indexed so far, the failed ones left
    out; when there is at least one chunk, the last record reports the
    number that the final [completed] record will report. *)
Theorem indexAll_reports_each_batch
        (w : world) (chunks : list Processor.chunk) (t : tables) :
  let total := length chunks in
  indexAll w chunks t
  = (inr (successes (itemSucceeds w) 0 total),
     mkTables (ingestions t ++ progressReports w total) (repositories t))
  /\ length (progressReports w total) = batches batchSize total
  /\ (forall j, j < batches batchSize total ->
                nth_error (progressReports w total) j
                = Some (mkStatus processing
                          (Indexing (successes (itemSucceeds w) 0
                                       (Nat.min ((j + 1) * batchSize) total))
                                    total)))
  /\ (0 < total ->
      last (progressReports w total) (mkStatus failed Cloning)
      = mkStatus processing (Indexing (successes (itemSucceeds w) 0 total) total)).
Proof.
  intros total. split; [|split; [|split]].
  - unfold indexAll. fold total.
    pose proof (batchLoop_count batchSize_pos (itemSucceeds w)
                  (fun count => updateIngestionStatus processing (Indexing count total))
                  total 0 0 t) as Hc.
    pose proof (batchLoop_reports batchSize_pos (itemSucceeds w)
                  (fun count => updateIngestionStatus processing (Indexing count total))
                  total 0 0 t) as Hr.
    destruct (batchLoop batchSize_pos (itemSucceeds w) _ total 0 0 t) as [count t'].
    cbn [fst snd] in Hc, Hr. subst count. rewrite Hr.
    rewrite (fold_left_updates _ total t). unfold progressReports, countAfter.
    rewrite Nat.sub_0_r, map_map. reflexivity.
  - unfold progressReports. rewrite length_map, length_seq. reflexivity.
  - intros j Hj. unfold progressReports, countAfter.
    rewrite nth_error_map, nth_error_seq.
    replace (j <? batches batchSize total) with true
      by (symmetry; apply Nat.ltb_lt; exact Hj).
    reflexivity.
  - intros Hpos. unfold progressReports, countAfter.
    pose proof (@batches_step batchSize total batchSize_pos Hpos) as E.
    rewrite E. rewrite seq_S, map_app. cbn [map]. rewrite last_last.
    pose proof (@batches_cover batchSize total batchSize_pos) as Hcover.
    rewrite E in Hcover.
    replace (Nat.min ((0 + batches batchSize (total - batchSize) + 1) * batchSize) total)
      with total by lia.
    reflexivity.
Qed.

(** Twenty-three chunks give three records: 9 of the first 10, 18 of the
    first 20, 21 of all. *)
Example progress_of_twenty_three :
  map message (progressReports twoFail 23)
  = [Indexing 9 23; Indexing 18 23; Indexing 21 23].
Proof. reflexivity. Qed.

Lemma indexAll_reports_each_batch_witness :
  0 < length twentyThree
  /\ last (progressReports twoFail (length twentyThree)) (mkStatus failed Cloning)
     = mkStatus processing
         (Indexing (successes (itemSucceeds twoFail) 0 (length twentyThree))
                   (length twentyThree)).
Proof.
  assert (H : 0 < length twentyThree) by (simpl; lia).
  split; [exact H|].
  exact (proj2 (proj2 (proj2
           (indexAll_reports_each_batch twoFail twentyThree (mkTables [] [])))) H).
Defined.

End ProgressFacts.

(* ===================================================================== *)
(** ** Lines of a file *)
(* ===================================================================== *)

Module LineFacts.
Import Processor ProcessorSpec JSFacts ProcessorFacts.

Lemma eqb_LF_sym (c : ascii) : Ascii.eqb LF c = Ascii.eqb c LF.
Proof. apply Ascii.eqb_sym. Qed.

(** [s.split('\n').length] is the number of line breaks plus one. *)
Lemma splitLines_countChar (s : jstring) :
  length (splitLines s) = countChar LF s + 1.
Proof.
  unfold countChar. induction s as [|c s IH]; [reflexivity|].
  cbn [splitLines filter]. rewrite (eqb_LF_sym c).
  destruct (Ascii.eqb c LF); cbn [length].
  - rewrite IH. reflexivity.
  - destruct (splitLines s) as [|l ls]; cbn [length] in *; [lia|exact IH].
Qed.

(** [s.split('\n').join('\n')] is [s]. *)
Lemma join_splitLines (s : jstring) : join [LF] (splitLines s) = s.
Proof.
  induction s as [|c s IH]; [reflexivity|].
  simpl. destruct (Ascii.eqb c LF) eqn:E.
  - apply Ascii.eqb_eq in E. subst c.
    pose proof (splitLines_not_nil s) as Hn.
    destruct (splitLines s) as [|l ls]; [contradiction|].
    cbn [join]. simpl. f_equal. exact IH.
  - pose proof (splitLines_not_nil s) as Hn.
    destruct (splitLines s) as [|l ls]; [contradiction|].
    destruct ls as [|l' ls]; simpl in *; f_equal; exact IH.
Qed.

Section WithHost.
Context {host : Host}.

(** X22.  The number of lines of a file is the number of its line breaks
    plus one: an empty file has one line, and a file that ends with a line
    break has an empty last line that counts.  The overview chunk ends on
    that line.  For a file of at most 30 lines the preview that ends the
    overview is the whole content of the file, unchanged. *)
Theorem overview_counts_line_breaks
        (filePath repositoryPath repositoryName content : jstring) :
  fs_readFile filePath = Some content ->
  exists overview rest,
    fst (processFile filePath repositoryPath repositoryName) = overview :: rest /\
    endLine overview = countChar LF content + 1 /\
    (countChar LF content < 30 ->
     exists head,
       Processor.content overview = head ++ lit "Preview:" ++ [LF] ++ content).
Proof.
  intros Hr. rewrite (processFile_readable _ _ _ Hr).
  eexists. eexists. split; [reflexivity|]. split.
  - simpl. apply splitLines_countChar.
  - intros Hshort. cbn [fileOverviewChunk Processor.content]. unfold createFileOverview.
    rewrite firstn_all2 by (rewrite splitLines_countChar; lia).
    rewrite join_splitLines.
    exists (lit "File: " ++ slashes (path_relative repositoryPath filePath) ++ [LF]
            ++ lit "Total Lines: " ++ ofNat (length (splitLines content)) ++ [LF]
            ++ [LF]
            ++ commentsSection (topCommentsOf (splitLines content)) ++ [LF]
            ++ importsSection (importsOf (splitLines content)) ++ [LF]
            ++ [LF]).
    rewrite <- !app_assoc. reflexivity.
Qed.

End WithHost.

Lemma overview_counts_line_breaks_witness :
  let text := lit "Bigstack
# Setup
Run the installer.
## Usage
See the API." in
  fs_readFile (Host := ExampleHost.exampleHost) (lit "repo/README.md") = Some text
  /\ exists overview rest,
       fst (processFile (host := ExampleHost.exampleHost) (lit "repo/README.md")
              repo demo) = overview :: rest /\
       endLine overview = countChar LF text + 1 /\
       (countChar LF text < 30 ->
        exists head,
          Processor.content overview = head ++ lit "Preview:" ++ [LF] ++ text).
Proof.
  assert (H : fs_readFile (Host := ExampleHost.exampleHost) (lit "repo/README.md")
              = Some (lit "Bigstack
# Setup
Run the installer.
## Usage
See the API.")) by reflexivity.
  split; [exact H|].
  exact (@overview_counts_line_breaks ExampleHost.exampleHost _ repo demo _ H).
Defined.

End LineFacts.

(* ===================================================================== *)
(** ** The names of functions and classes *)
(* ===================================================================== *)

Module NameFacts.
Import Processor ProcessorSpec CodeSpec NameSpec RegexSpec RegexFacts JSFacts.

(** A pattern without groups hands the captures on unchanged. *)
Lemma rmatch_groupFree (R : Type) (r : regex) :
  groupFree r = true ->
  forall (input : jstring) (caps : captures)
         (k : jstring -> captures -> option R) (res : R),
    rmatch r input caps k = Some res ->
    exists u rest, input = u ++ rest /\ matches r u /\ k rest caps = Some res.
Proof.
  induction r as [p| |a IHa b IHb|a IHa b IHb|a IHa|n a IHa];
    intros Hg input caps k res H; simpl in H, Hg.
  - destruct input as [|c rest]; [discriminate|].
    destruct (p c) eqn:Ep; [|discriminate].
    exists [c], rest. repeat split; [constructor; exact Ep|exact H].
  - exists [], input. repeat split; [constructor|exact H].
  - apply andb_true_iff in Hg. destruct Hg as [Ha Hb].
    apply (IHa Ha) in H. destruct H as (u & rest & -> & Hu & H).
    apply (IHb Hb) in H. destruct H as (v & rest' & -> & Hv & H).
    exists (u ++ v), rest'. rewrite app_assoc.
    repeat split; [constructor; assumption|exact H].
  - apply andb_true_iff in Hg. destruct Hg as [Ha Hb].
    destruct (rmatch a input caps k) as [res'|] eqn:Ea.
    + injection H as <-. apply (IHa Ha) in Ea.
      destruct Ea as (u & rest & -> & Hu & H).
      exists u, rest. repeat split; [apply mAltL; exact Hu|exact H].
    + apply (IHb Hb) in H. destruct H as (u & rest & -> & Hu & H).
      exists u, rest. repeat split; [apply mAltR; exact Hu|exact H].
  - remember (length input) as fuel eqn:Ef. clear Ef.
    revert input H. induction fuel as [|fuel IHf]; intros input H.
    + exists [], input. repeat split; [constructor|exact H].
    + match type of H with
      | match ?m with _ => _ end = _ => destruct m as [res'|] eqn:Ea
      end.
      * injection H as <-. apply (IHa Hg) in Ea.
        destruct Ea as (u & rest & -> & Hu & H).
        destruct (length rest <? length (u ++ rest)); [|discriminate].
        apply IHf in H. destruct H as (v & rest' & -> & Hv & H).
        exists (u ++ v), rest'. rewrite app_assoc.
        repeat split; [apply mStarApp; assumption|exact H].
      * exists [], input. repeat split; [constructor|exact H].
  - discriminate.
Qed.

(** The group [(\w+)] adds the word it has matched to the captures. *)
Lemma rmatch_name (R : Type) (n : nat) (input : jstring) (caps : captures)
      (k : jstring -> captures -> option R) (res : R) :
  rmatch (rGroup n wd1) input caps k = Some res ->
  exists name rest,
    input = name ++ rest /\ name <> [] /\ Forall (fun c => isWord c = true) name /\
    k rest ((n, name) :: caps) = Some res.
Proof.
  simpl. intros H.
  apply (@rmatch_groupFree R wd1 eq_refl) in H.
  destruct H as (u & rest & -> & Hu & H).
  rewrite firstn_consumed in H. apply matches_plus_class in Hu.
  exists u, rest. tauto.
Qed.

Lemma getGroup_head (n : nat) (name : jstring) (caps : captures) :
  getGroup n ((n, name) :: caps) = Some name.
Proof. simpl. rewrite Nat.eqb_refl. reflexivity. Qed.

Lemma namesGroup_sound (n : nat) (r : regex) :
  namesGroup n r ->
  forall input caps caps' rest,
    rmatch r input caps (fun rest caps => Some (caps, rest)) = Some (caps', rest) ->
    exists name, getGroup n caps' = Some name /\ identifierIn input name.
Proof.
  induction 1 as [|post Hpost|pre r _ IH]; intros input caps caps' rest H.
  - apply rmatch_name in H. destruct H as (name & rest0 & -> & Hn & Hw & H).
    injection H as <- _. exists name. split; [apply getGroup_head|].
    split; [exact Hn|]. split; [exact Hw|]. exists [], rest0. reflexivity.
  - rewrite HeaderFacts.rmatch_seq in H. apply rmatch_name in H.
    destruct H as (name & rest0 & -> & Hn & Hw & H).
    apply (rmatch_groupFree _ Hpost) in H.
    destruct H as (v & rest1 & -> & _ & H). injection H as <- _.
    exists name. split; [apply getGroup_head|].
    split; [exact Hn|]. split; [exact Hw|]. exists [], (v ++ rest1). reflexivity.
  - rewrite HeaderFacts.rmatch_seq in H. apply rmatch_sound in H.
    destruct H as (u & rest0 & caps0 & -> & _ & H).
    destruct (IH _ _ _ _ H) as (name & Hg & Hn & Hw & before & after & ->).
    exists name. split; [exact Hg|].
    split; [exact Hn|]. split; [exact Hw|].
    exists (u ++ before), after. rewrite <- app_assoc. reflexivity.
Qed.

Lemma matchAnywhere_sound (r : regex) (line : jstring) (caps : captures) :
  matchAnywhere r line = Some caps ->
  exists skipped input rest,
    line = skipped ++ input /\ matchHere r input = Some (caps, rest).
Proof.
  induction line as [|c line IH]; simpl.
  - destruct (matchHere r []) as [[caps0 rest]|] eqn:E; [|discriminate].
    intros [= <-]. exists [], [], rest. split; [reflexivity|exact E].
  - destruct (matchHere r (c :: line)) as [[caps0 rest]|] eqn:E.
    + intros [= <-]. exists [], (c :: line), rest. split; [reflexivity|exact E].
    + intros H. destruct (IH H) as (skipped & input & rest & -> & Hm).
      exists (c :: skipped), input, rest. split; [reflexivity|exact Hm].
Qed.

Lemma identifierIn_later (skipped input name : jstring) :
  identifierIn input name -> identifierIn (skipped ++ input) name.
Proof.
  intros (Hn & Hw & before & after & ->). split; [exact Hn|]. split; [exact Hw|].
  exists (skipped ++ before), after. rewrite <- app_assoc. reflexivity.
Qed.

Lemma firstGroup1_sound (ps : list regex) (line name : jstring) :
  Forall (namesGroup 1) ps ->
  firstGroup1 ps line = Some name -> identifierIn line name.
Proof.
  induction 1 as [|p ps Hp _ IH]; simpl; [discriminate|].
  destruct (matchAnywhere p line) as [caps|] eqn:E; [|exact IH].
  intros Hg. apply matchAnywhere_sound in E.
  destruct E as (skipped & input & rest & -> & Hm).
  destruct (namesGroup_sound Hp _ _ Hm) as (name' & Hg' & Hid).
  assert (name' = name) by congruence. subst name'.
  apply identifierIn_later. exact Hid.
Qed.

Lemma extractFunctionName_sound (line name : jstring) :
  extractFunctionName line = Some name -> identifierIn line name.
Proof.
  apply firstGroup1_sound. unfold functionNamePatterns.
  repeat constructor.
Qed.

Lemma extractClassName_sound (line name : jstring) :
  extractClassName line = Some name -> identifierIn line name.
Proof.
  unfold extractClassName.
  destruct (matchAnywhere classNamePattern line) as [caps|] eqn:E; [|discriminate].
  apply matchAnywhere_sound in E. destruct E as (skipped & input & rest & -> & Hm).
  intros Hname. apply identifierIn_later.
  unfold matchHere, classNamePattern in Hm. cbn [rmatch] in Hm.
  match type of Hm with
  | match ?m with _ => _ end = _ => destruct m as [res|] eqn:Ea
  end.
  - injection Hm as ->.
    assert (Hp : namesGroup 1 (rSeqs [word "class"; ws1; rGroup 1 wd1]))
      by (repeat constructor).
    change (rmatch (rSeqs [word "class"; ws1; rGroup 1 wd1]) input []
              (fun rest caps => Some (caps, rest)) = Some (caps, rest)) in Ea.
    destruct (namesGroup_sound Hp _ _ Ea) as (name' & Hg & Hid).
    rewrite Hg in Hname. injection Hname as <-. exact Hid.
  - change (rmatch (rSeq (word "interface") (rSeq ws1 (rGroup 2 wd1))) input []
              (fun rest caps => Some (caps, rest)) = Some (caps, rest)) in Hm.
    rewrite HeaderFacts.rmatch_seq in Hm.
    apply (@rmatch_groupFree _ (word "interface") eq_refl) in Hm.
    destruct Hm as (u & rest0 & -> & _ & Hm).
    rewrite HeaderFacts.rmatch_seq in Hm.
    apply (@rmatch_groupFree _ ws1 eq_refl) in Hm.
    destruct Hm as (v & rest1 & -> & _ & Hm).
    apply rmatch_name in Hm. destruct Hm as (name' & rest2 & -> & Hn & Hw & Hm).
    injection Hm as <- _. simpl in Hname. injection Hname as <-.
    split; [exact Hn|]. split; [exact Hw|].
    exists (u ++ v), rest2. rewrite <- !app_assoc. reflexivity.
Qed.

Section WithHost.
Context {host : Host}.

(** X23.  The names a chunk carries are read from its first line: a
    [functionName] that is set is a non-empty run of letters, digits and
    underscores that occurs in the line that started the chunk, and so is
    a [className]; [className] is set on chunks of type [class] only. *)
Theorem chunk_names_are_identifiers
        (content filePath fileName repositoryName : jstring) (c : chunk) :
  In c (extractCodeChunks content filePath fileName repositoryName) ->
  exists line,
    nth_error (splitLines content) (startLine c - 1) = Some line /\
    (forall name, functionName c = Some name -> identifierIn line name) /\
    (forall name, className c = Some name ->
                  type c = class /\ identifierIn line name).
Proof.
  intros Hc. apply CodeFacts.extractCodeChunks_startedOn in Hc.
  destruct Hc as (line & Hl & _ & _ & _ & _ & Hf & Hn & _).
  exists line. split; [exact Hl|]. split.
  - intros name H. apply extractFunctionName_sound. congruence.
  - intros name H. rewrite Hn in H.
    destruct (type c); try discriminate H.
    split; [reflexivity|]. apply extractClassName_sound. exact H.
Qed.

End WithHost.

Lemma chunk_names_are_identifiers_witness :
  let text := lit "// session helpers
import db from './db';

function login(user) {
  /* check
     the password */
  return db.check(user);
}" in
  In loginChunk
     (extractCodeChunks (host := ExampleHost.exampleHost) text (lit "auth.js")
        (lit "auth.js") demo)
  /\ exists line,
       nth_error (splitLines text) (startLine loginChunk - 1) = Some line /\
       (forall name, functionName loginChunk = Some name -> identifierIn line name) /\
       (forall name, className loginChunk = Some name ->
                     type loginChunk = class /\ identifierIn line name).
Proof.
  assert (H : In loginChunk
                (extractCodeChunks (host := ExampleHost.exampleHost)
                   (lit "// session helpers
import db from './db';

function login(user) {
  /* check
     the password */
  return db.check(user);
}") (lit "auth.js") (lit "auth.js") demo))
    by (vm_compute; left; reflexivity).
  split; [exact H|].
  exact (@chunk_names_are_identifiers ExampleHost.exampleHost _ _ _ _ _ H).
Defined.

End NameFacts.

(* ===================================================================== *)
(** ** The three families of patterns exclude one another *)
(* ===================================================================== *)

Module FamilyFacts.
Import Processor ProcessorSpec TextSpec FamilySpec RegexSpec RegexFacts JSFacts.

Lemma allAscii_complete (c : ascii) : In c allAscii.
Proof.
  unfold allAscii. rewrite <- (ascii_nat_embedding c). apply in_map.
  apply in_seq. pose proof (nat_ascii_bounded c). lia.
Qed.

Lemma nonEmpty_sound (r : regex) (u : jstring) :
  matches r u -> nonEmpty r = true -> u <> [].
Proof.
  induction 1; simpl; intros Hn; try discriminate.
  - apply orb_true_iff in Hn. destruct Hn as [Hn|Hn].
    + specialize (IHmatches1 Hn). destruct u; [contradiction|discriminate].
    + specialize (IHmatches2 Hn). destruct u; [exact IHmatches2|discriminate].
  - apply andb_true_iff in Hn. apply IHmatches. apply Hn.
  - apply andb_true_iff in Hn. apply IHmatches. apply Hn.
  - apply IHmatches. exact Hn.
Qed.

Lemma startsIn_sound (P : ascii -> bool) (r : regex) (u : jstring) :
  matches r u -> startsIn P r = true ->
  match u with
  | [] => True
  | c :: _ => P c = true
  end.
Proof.
  induction 1; cbn [startsIn]; intros Hs; try exact I.
  - rewrite forallb_forall in Hs. specialize (Hs c (allAscii_complete c)).
    rewrite H in Hs. exact Hs.
  - apply andb_true_iff in Hs. destruct Hs as [Ha Hb].
    destruct u as [|c u]; cbn [app].
    + apply orb_true_iff in Hb. destruct Hb as [Hb|Hb].
      * exfalso. apply (nonEmpty_sound H Hb). reflexivity.
      * apply IHmatches2. exact Hb.
    + apply IHmatches1. exact Ha.
  - apply andb_true_iff in Hs. apply IHmatches. apply Hs.
  - apply andb_true_iff in Hs. apply IHmatches. apply Hs.
  - destruct u as [|c u]; cbn [app]; [apply IHmatches2; exact Hs|apply IHmatches1; exact Hs].
  - apply IHmatches. exact Hs.
Qed.

Lemma matches_rLit (w u : jstring) : matches (rLit w) u -> u = w.
Proof.
  revert u. induction w as [|c w IH]; intros u H.
  - inversion H. reflexivity.
  - destruct w as [|d w].
    + simpl in H. inversion H; subst.
      match goal with E : Ascii.eqb _ _ = true |- _ => apply Ascii.eqb_eq in E end.
      congruence.
    + change (matches (rSeq (rIs c) (rLit (d :: w))) u) in H.
      inversion H as [| |a b v x Hv Hx| | | | |]; subst.
      apply IH in Hx. subst x. inversion Hv; subst.
      match goal with E : Ascii.eqb _ _ = true |- _ => apply Ascii.eqb_eq in E end.
      simpl. congruence.
Qed.

Lemma matches_seq (a b : regex) (u : jstring) :
  matches (rSeq a b) u -> exists v x, u = v ++ x /\ matches a v /\ matches b x.
Proof. intros H. inversion H; subst. eauto. Qed.

Lemma matches_group (n : nat) (a : regex) (u : jstring) :
  matches (rGroup n a) u -> matches a u.
Proof. intros H. inversion H; subst. assumption. Qed.

Lemma matches_alt (a b : regex) (u : jstring) :
  matches (rAlt a b) u -> matches a u \/ matches b u.
Proof. intros H. inversion H; subst; auto. Qed.

Lemma matches_ws0 (u : jstring) : matches ws0 u -> blank u.
Proof. apply matches_star_class. Qed.

Lemma matches_ws1 (u : jstring) : matches ws1 u -> u <> [] /\ blank u.
Proof. apply matches_plus_class. Qed.

Lemma test_matches (p : regex) (line : jstring) :
  test p line = true -> exists u rest, line = u ++ rest /\ matches p u.
Proof.
  unfold test, matchAnchored, matchHere.
  destruct (rmatch p line [] _) as [res|] eqn:E; [|discriminate].
  intros _. apply rmatch_sound in E. destruct E as (u & rest & caps & Hl & Hu & _).
  eauto.
Qed.

(** *** The signature of a line *)

Lemma word_not_space (c : ascii) : isWord c = true -> isSpace c = false.
Proof.
  destruct c as [[] [] [] [] [] [] [] []]; vm_compute; intros H;
    first [reflexivity | discriminate H].
Qed.

Lemma dropWhile_blank (a s : jstring) (c : ascii) :
  blank a -> isSpace c = false -> dropWhile isSpace (a ++ c :: s) = c :: s.
Proof.
  intros Ha Hc. induction Ha as [|x a Hx _ IH]; simpl.
  - rewrite Hc. reflexivity.
  - rewrite Hx. exact IH.
Qed.

Lemma takeWhile_word (w s : jstring) (c : ascii) :
  Forall (fun x => isWord x = true) w -> isWord c = false ->
  takeWhile isWord (w ++ c :: s) = w /\ dropWhile isWord (w ++ c :: s) = c :: s.
Proof.
  intros Hw Hc. induction Hw as [|x w Hx _ [IH1 IH2]]; simpl.
  - rewrite Hc. split; reflexivity.
  - rewrite Hx, IH1, IH2. split; reflexivity.
Qed.

(** A line made of an indentation, a word, white space and a unit [c] that
    is no white space has the signature [(word, c)], provided the word ends
    where it is said to end. *)
Lemma signature_of (indent w gap rest : jstring) (c : ascii) :
  blank indent -> Forall (fun x => isWord x = true) w -> blank gap ->
  isSpace c = false ->
  isWord c = false \/ (gap <> [] /\ w <> []) ->
  signature (indent ++ w ++ gap ++ c :: rest) = (w, Some c).
Proof.
  intros Hi Hw Hg Hc Hend. unfold signature, headWord, afterWord, token.
  assert (Htok : dropWhile isSpace (indent ++ w ++ gap ++ c :: rest)
                 = w ++ gap ++ c :: rest \/
                 (w = [] /\ dropWhile isSpace (indent ++ w ++ gap ++ c :: rest)
                            = c :: rest)).
  { destruct w as [|x w].
    - right. split; [reflexivity|]. simpl. rewrite app_assoc.
      apply dropWhile_blank; [|exact Hc]. apply Forall_app. split; assumption.
    - left. simpl. inversion Hw; subst.
      apply dropWhile_blank; [exact Hi|]. apply word_not_space. assumption. }
  destruct Htok as [Htok|[-> Htok]]; rewrite Htok.
  - destruct gap as [|g gap].
    + simpl. destruct Hend as [Hend|[Hend _]]; [|contradiction].
      destruct (@takeWhile_word w rest c Hw Hend) as [E1 E2]. rewrite E1, E2.
      simpl. rewrite Hc. reflexivity.
    + inversion Hg; subst.
      assert (Hgw : isWord g = false).
      { destruct (isWord g) eqn:E; [|reflexivity].
        apply word_not_space in E. congruence. }
      cbn [app]. destruct (@takeWhile_word w (gap ++ c :: rest) g Hw Hgw) as [E1 E2].
      rewrite E1, E2.
      change (g :: gap ++ c :: rest) with ((g :: gap) ++ c :: rest).
      rewrite (@dropWhile_blank (g :: gap) rest c Hg Hc). reflexivity.
  - destruct Hend as [Hend|[_ Hend]]; [|contradiction].
    simpl. rewrite Hend. simpl. rewrite Hc. reflexivity.
Qed.

(** *** What a line matched by a pattern looks like *)

Section Line.
Variables indent rest : jstring.
Hypothesis indent_blank : blank indent.

(** [kw \s+ r]: the keyword, white space, then a unit of [P]. *)
Lemma keyword_signature (kw : jstring) (r : regex) (P : ascii -> bool) (v : jstring) :
  matches (rSeq (rLit kw) (rSeq ws1 r)) v ->
  kw <> [] -> Forall (fun x => isWord x = true) kw ->
  startsIn P r = true -> nonEmpty r = true ->
  (forall c, P c = true -> isSpace c = false) ->
  exists c, P c = true /\ signature (indent ++ v ++ rest) = (kw, Some c).
Proof.
  intros Hm Hkw Hword Hs Hn HP.
  apply matches_seq in Hm. destruct Hm as (k & x & -> & Hk & Hm).
  apply matches_rLit in Hk. subst k.
  apply matches_seq in Hm. destruct Hm as (gap & y & -> & Hgap & Hy).
  apply matches_ws1 in Hgap. destruct Hgap as [Hg1 Hg2].
  pose proof (startsIn_sound P Hy Hs) as Hc.
  pose proof (nonEmpty_sound Hy Hn) as Hne.
  destruct y as [|c y]; [contradiction|].
  exists c. split; [exact Hc|].
  rewrite <- !app_assoc. cbn [app].
  apply signature_of; auto.
Qed.

(** [\w+ \s* : r]: a word, white space, a colon. *)
Lemma label_signature (r : regex) (v : jstring) :
  matches (rSeq wd1 (rSeq ws0 (rSeq (rLit [":"%char]) r))) v ->
  exists w, w <> [] /\ signature (indent ++ v ++ rest) = (w, Some ":"%char).
Proof.
  intros Hm.
  apply matches_seq in Hm. destruct Hm as (w & x & -> & Hw & Hm).
  apply matches_plus_class in Hw. destruct Hw as [Hw1 Hw2].
  apply matches_seq in Hm. destruct Hm as (gap & y & -> & Hgap & Hm).
  apply matches_ws0 in Hgap.
  apply matches_seq in Hm. destruct Hm as (colon & z & -> & Hcolon & _).
  apply matches_rLit in Hcolon. subst colon.
  exists w. split; [exact Hw1|].
  rewrite <- !app_assoc. cbn [app].
  apply signature_of; auto.
Qed.

(** [obj\. r]: the object, a dot. *)
Lemma dotted_signature (obj : jstring) (r : regex) (v : jstring) :
  matches (rSeq (rLit (obj ++ ["."%char])) r) v ->
  Forall (fun x => isWord x = true) obj ->
  signature (indent ++ v ++ rest) = (obj, Some "."%char).
Proof.
  intros Hm Hword.
  apply matches_seq in Hm. destruct Hm as (k & x & -> & Hk & _).
  apply matches_rLit in Hk. subst k.
  rewrite <- !app_assoc. cbn [app].
  apply (@signature_of indent obj [] (x ++ rest) "."%char); auto.
  constructor.
Qed.

(** [@ r] *)
Lemma at_signature (r : regex) (v : jstring) :
  matches (rSeq (rLit ["@"%char]) r) v ->
  signature (indent ++ v ++ rest) = ([], Some "@"%char).
Proof.
  intros Hm.
  apply matches_seq in Hm. destruct Hm as (k & x & -> & Hk & _).
  apply matches_rLit in Hk. subst k.
  apply (@signature_of indent [] [] (x ++ rest) "@"%char); auto; constructor.
Qed.

End Line.

Lemma word_is_no_space (c : ascii) : isWord c = true -> isSpace c = false.
Proof. apply word_not_space. Qed.

Lemma oneOf_is_no_space (cs : list ascii) (c : ascii) :
  Forall (fun x => isSpace x = false) cs -> oneOf cs c = true -> isSpace c = false.
Proof.
  intros Hcs H. unfold oneOf in H. apply existsb_exists in H.
  destruct H as (x & Hx & E). apply Ascii.eqb_eq in E. subst x.
  rewrite Forall_forall in Hcs. apply Hcs. exact Hx.
Qed.

(** A pattern [^\s*( ... )]: the indentation, then the group. *)
Lemma indented_group (body : regex) (line : jstring) :
  test (rSeq ws0 (rGroup 1 body)) line = true ->
  exists indent v rest,
    line = indent ++ v ++ rest /\ blank indent /\ matches body v.
Proof.
  intros H. apply test_matches in H. destruct H as (u & rest & -> & Hu).
  apply matches_seq in Hu. destruct Hu as (indent & v & -> & Hi & Hv).
  apply matches_ws0 in Hi. apply matches_group in Hv.
  exists indent, v, rest. rewrite <- app_assoc. auto.
Qed.

Ltac keyword P :=
  match goal with
  | Hi : blank ?indent, H : matches (rSeq (rLit ?kw) (rSeq ws1 ?r)) ?v
    |- context [signature (?indent ++ ?v ++ ?rest)] =>
      let c := fresh "c" in
      let Hc := fresh "Hc" in
      let Hsig := fresh "Hsig" in
      destruct (@keyword_signature indent rest Hi kw r P v H) as (c & Hc & Hsig);
      [ discriminate
      | repeat constructor
      | reflexivity
      | reflexivity
      | first [ exact word_is_no_space
              | intros ? ?; eapply oneOf_is_no_space; [|eassumption];
                repeat constructor ]
      | rewrite Hsig ]
  end.

Lemma functionPatterns_signature (line : jstring) :
  anyOf functionPatterns line = true -> sigFunction (signature line) = true.
Proof.
  unfold anyOf, functionPatterns, word. cbn [existsb rSeqs rAlts]. rewrite orb_false_r.
  intros H. apply orb_true_iff in H. destruct H as [H|H];
    [|apply orb_true_iff in H; destruct H as [H|H]];
    apply indented_group in H; destruct H as (indent & v & rest & -> & Hi & Hv).
  - apply matches_alt in Hv. destruct Hv as [Hv|Hv];
      [|apply matches_alt in Hv; destruct Hv as [Hv|Hv];
        [|apply matches_alt in Hv; destruct Hv as [Hv|Hv]]];
      keyword isWord; unfold sigFunction; cbn [fst snd]; rewrite Hc; reflexivity.
  - apply matches_alt in Hv. destruct Hv as [Hv|Hv].
    + keyword isWord. unfold sigFunction; cbn [fst snd]; rewrite Hc; reflexivity.
    + keyword (oneOf ["a"; "f"]%char).
      unfold sigFunction; cbn [fst snd]. rewrite Hc. reflexivity.
  - apply matches_alt in Hv. destruct Hv as [Hv|Hv];
      apply (label_signature rest Hi) in Hv; destruct Hv as (w & Hw & Hsig);
      rewrite Hsig; unfold sigFunction; cbn [fst snd];
      (destruct w; [contradiction|]); cbn [truthy andb]; apply orb_true_r.
Qed.

Lemma classPatterns_signature (line : jstring) :
  anyOf classPatterns line = true -> sigClass (signature line) = true.
Proof.
  unfold anyOf, classPatterns, word. cbn [existsb rSeqs rAlts]. rewrite orb_false_r.
  intros H. apply orb_true_iff in H. destruct H as [H|H];
    apply indented_group in H; destruct H as (indent & v & rest & -> & Hi & Hv).
  - apply matches_alt in Hv. destruct Hv as [Hv|Hv];
      [|apply matches_alt in Hv; destruct Hv as [Hv|Hv]];
      keyword isWord; unfold sigClass; cbn [fst snd]; rewrite Hc; reflexivity.
  - keyword (oneOf ["d"; "c"]%char).
    unfold sigClass; cbn [fst snd]. rewrite Hc. reflexivity.
Qed.

Lemma routePatterns_signature (line : jstring) :
  anyOf routePatterns line = true -> sigRoute (signature line) = true.
Proof.
  unfold anyOf, routePatterns, word. cbn [existsb rSeqs rAlts]. rewrite orb_false_r.
  intros H. apply orb_true_iff in H. destruct H as [H|H].
  - apply indented_group in H. destruct H as (indent & v & rest & -> & Hi & Hv).
    apply matches_alt in Hv. destruct Hv as [Hv|Hv].
    + rewrite (@dotted_signature indent rest Hi (lit "app") _ v Hv)
        by (repeat constructor).
      reflexivity.
    + rewrite (@dotted_signature indent rest Hi (lit "router") _ v Hv)
        by (repeat constructor).
      reflexivity.
  - apply test_matches in H. destruct H as (u & rest & -> & Hu).
    apply matches_seq in Hu. destruct Hu as (indent & v & -> & Hi & Hv).
    apply matches_ws0 in Hi. rewrite <- app_assoc.
    rewrite (@at_signature indent rest Hi _ v Hv). reflexivity.
Qed.

Ltac split_on_keywords w :=
  repeat match goal with
         | |- context [streq w (lit ?k)] =>
             let E := fresh "E" in
             destruct (streq w (lit k)) eqn:E;
             [ apply streq_eq in E; subst w | ]
         end.

(** No signature belongs to two families. *)
Lemma signatures_exclusive (s : jstring * option ascii) :
  sigFunction s && sigClass s = false /\
  sigFunction s && sigRoute s = false /\
  sigClass s && sigRoute s = false.
Proof.
  destruct s as [w [c|]]; [|repeat split].
  unfold sigFunction, sigClass, sigRoute, has, oneOf.
  cbn [fst snd map existsb].
  split_on_keywords w;
    try (destruct c as [[] [] [] [] [] [] [] []]; repeat split; reflexivity).
  destruct w as [|x w]; cbn [truthy negb andb orb];
    destruct c as [[] [] [] [] [] [] [] []]; repeat split; reflexivity.
Qed.

Lemma families_exclusive (line : jstring) : familiesMatching line <= 1.
Proof.
  unfold familiesMatching.
  pose proof (functionPatterns_signature line) as HF.
  pose proof (classPatterns_signature line) as HC.
  pose proof (routePatterns_signature line) as HR.
  destruct (signatures_exclusive (signature line)) as (E1 & E2 & E3).
  destruct (anyOf functionPatterns line), (anyOf classPatterns line),
    (anyOf routePatterns line); simpl; try lia;
    try rewrite (HF eq_refl) in *; try rewrite (HC eq_refl) in *;
    try rewrite (HR eq_refl) in *; discriminate.
Qed.

(** X24.  The three families of patterns exclude one another: no line
    matches a function pattern and a class pattern, a function pattern and
    a route pattern, or a class pattern and a route pattern.  So a line
    starts at most one chunk, and the type of that chunk does not depend
    on the order in which the families are tried. *)
Theorem pattern_families_are_exclusive (line : jstring) :
  anyOf functionPatterns line && anyOf classPatterns line = false /\
  anyOf functionPatterns line && anyOf routePatterns line = false /\
  anyOf classPatterns line && anyOf routePatterns line = false /\
  familiesMatching line <= 1.
Proof.
  pose proof (families_exclusive line) as H. unfold familiesMatching in *.
  destruct (anyOf functionPatterns line), (anyOf classPatterns line),
    (anyOf routePatterns line); simpl in *; repeat split; try reflexivity; lia.
Qed.

End FamilyFacts.

(* ===================================================================== *)
(** ** What a code chunk holds, and where the chunks lie *)
(* ===================================================================== *)

Module ExactFacts.
Import Processor ProcessorSpec CodeSpec FamilySpec ExactSpec JSFacts ProcessorFacts.
Import CodeFacts FamilyFacts.

Section WithHost.
Context {host : Host}.

Section Code.
Variables filePath fileName repositoryName : jstring.

Lemma tryPatterns_anyOf (ty : chunkType) (ps : list regex) (k : nat) (line : jstring)
      (st : codeScan) :
  tryPatterns filePath fileName repositoryName ty ps k line st
  = if anyOf ps line
    then startChunk filePath fileName repositoryName ty k line st
    else st.
Proof.
  unfold anyOf. induction ps as [|p ps IH]; simpl; [reflexivity|].
  destruct (test p line); [reflexivity|exact IH].
Qed.

(** One turn of the loop starts at most one chunk. *)
Lemma checkPatterns_once (k : nat) (line : jstring) (st : codeScan) :
  checkPatterns filePath fileName repositoryName k line st = st \/
  (familiesMatching line = 1 /\
   exists ty, checkPatterns filePath fileName repositoryName k line st
              = startChunk filePath fileName repositoryName ty k line st).
Proof.
  unfold checkPatterns, patterns. cbn [fold_left fst snd].
  rewrite !tryPatterns_anyOf.
  pose proof (families_exclusive line) as H. unfold familiesMatching in *.
  destruct (anyOf functionPatterns line), (anyOf classPatterns line),
    (anyOf routePatterns line); simpl in *; try lia; eauto.
Qed.

Section Lines.
Variable lines : list jstring.

Lemma exactContent_extend (k : nat) (c c' : chunk) (text : jstring) :
  exactContent lines k c ->
  text = (if gated lines k then [] else nl (nth k lines [])) ->
  startLine c' = startLine c ->
  content c' = content c ++ text ->
  (endLine c' = k + 1 \/
   (endLine c' = endLine c /\
    (gated lines k = true \/ isSkippedLine (trim (nth k lines [])) = true))) ->
  exactContent lines (k + 1) c'.
Proof.
  intros (trigger & Ht & H1 & Hse & He & Hc & Hrest) Htext Hs Hcont Hend.
  exists trigger. rewrite Hs.
  split; [exact Ht|]. split; [exact H1|].
  split; [destruct Hend as [->|[-> _]]; lia|].
  split; [destruct Hend as [->|[-> _]]; lia|].
  split.
  - rewrite Hcont, Hc, keptText_snoc by lia. rewrite Htext, <- !app_assoc. reflexivity.
  - intros j Hj. destruct Hend as [E|[E Hk]]; rewrite E in Hj; [lia|].
    destruct (Nat.eq_dec j k) as [->|Hne]; [exact Hk|].
    apply Hrest. lia.
Qed.

Lemma replace_last (l : list chunk) (c c' : chunk) (k : nat) :
  StronglySorted endsBefore (l ++ [c]) ->
  startLine c' = startLine c -> endLine c' <= k ->
  (forall d, In d l -> endLine d <= k) ->
  StronglySorted endsBefore (l ++ [c']) /\
  (forall d, In d (l ++ [c']) -> endLine d <= k).
Proof.
  intros Hs Hstart Hend Hb. apply sorted_snoc_inv in Hs. destruct Hs as [Hs Hc].
  split.
  - apply sorted_snoc; [exact Hs|]. intros a Ha. unfold endsBefore in *.
    rewrite Hstart. apply Hc. exact Ha.
  - intros d Hd. apply in_app_or in Hd. destruct Hd as [Hd|[<-|[]]]; auto.
Qed.

Lemma pushed_sorted (st : codeScan) :
  StronglySorted endsBefore (opened st) ->
  StronglySorted endsBefore (pushIfContent (chunks st) (currentChunk st)).
Proof.
  unfold opened, pushIfContent. intros Hs. destruct (currentChunk st) as [c|].
  - destruct (truthy (trim (content c))); [exact Hs|].
    apply sorted_snoc_inv in Hs. apply Hs.
  - rewrite app_nil_r in Hs. exact Hs.
Qed.

Lemma checkPatterns_exact (k : nat) (line : jstring) (st : codeScan) :
  nth_error lines k = Some line ->
  gated lines k = false ->
  isSkippedLine (trim line) = false ->
  exactPre lines k st ->
  exactMid lines k line (checkPatterns filePath fileName repositoryName k line st).
Proof.
  intros Hk Hg Hskip (H1 & H2 & Hs & Hb). pose proof (nth_error_lt _ _ Hk) as Hlt.
  destruct (checkPatterns_once k line st) as [->|[Hfam [ty ->]]].
  - unfold opened in *.
    split; [exact H1|]. split; [intros c Hc; left; apply H2; exact Hc|].
    split; [exact Hs|]. split.
    + intros c Hc. apply Hb. apply in_or_app. left. exact Hc.
    + intros c Hc. rewrite Hc in Hb.
      specialize (Hb c (in_elt c (chunks st) [])). lia.
  - pose proof (@pushed_sorted st Hs) as Hps.
    unfold exactMid, opened in *. cbn [startChunk chunks currentChunk].
    assert (Hp : forall c, In c (pushIfContent (chunks st) (currentChunk st)) ->
                           exactEmitted lines c /\ endLine c <= k).
    { intros c Hc. split.
      - apply in_pushIfContent in Hc. destruct Hc as [Hc|Hc]; [auto|].
        exists k. split; [lia|]. split; [apply H2; exact Hc|].
        right. right. exists line. auto.
      - apply Hb. apply in_pushIfContent in Hc. apply in_or_app.
        destruct Hc as [Hc|Hc]; [left; exact Hc|right; rewrite Hc; left; reflexivity]. }
    split; [intros c Hc; apply Hp; exact Hc|].
    split; [intros c [= <-]; right; simpl; auto|].
    split.
    + apply sorted_snoc; [exact Hps|]. intros a Ha. unfold endsBefore. simpl.
      destruct (Hp a Ha) as [_ Hle]. lia.
    + split; [intros c Hc; apply Hp; exact Hc|].
      intros c [= <-]. simpl. lia.
Qed.

Lemma accumulate_exact (k : nat) (line : jstring) (st : codeScan) :
  nth_error lines k = Some line ->
  gated lines k = false ->
  inMultilineComment st = flagAfter lines (k + 1) ->
  exactMid lines k line st ->
  exactInv lines (k + 1) (accumulate k line st).
Proof.
  intros Hk Hg Hflag (H1 & H2 & Hs & Hb1 & Hb2). pose proof (nth_error_lt _ _ Hk) as Hlt.
  unfold accumulate, exactInv, exactPre, opened in *.
  destruct (currentChunk st) as [c|] eqn:Ec.
  - assert (Hc' : exactContent lines (k + 1)
                    (setEndLine (appendContent c (nl line)) (k + 1))).
    { destruct (H2 c eq_refl) as [Ho|(Hcont & Hst & He)].
      - apply exactContent_extend with (c := c) (text := nl line);
          [ exact Ho
          | rewrite Hg, (nth_of_nth_error _ _ Hk); reflexivity
          | reflexivity
          | reflexivity
          | left; reflexivity ].
      - exists line. simpl. rewrite Hst, Hcont, keptText_nil.
        replace (k + 1 - 1) with k by lia.
        repeat split; auto; try lia.
        rewrite app_nil_r. reflexivity. }
    destruct (@replace_last (chunks st) c
                (setEndLine (appendContent c (nl line)) (k + 1)) (k + 1) Hs eq_refl)
      as [Hs' Hb'].
    { simpl. lia. }
    { intros d Hd. specialize (Hb1 d Hd). lia. }
    match goal with |- context [if ?b then _ else _] => destruct b end;
      cbn [chunks currentChunk inMultilineComment];
      (split; [exact Hflag|]); (split; [|split; [|split]]).
    + intros d Hd. apply in_app_or in Hd. destruct Hd as [Hd|[<-|[]]]; [auto|].
      exists (k + 1). split; [lia|]. split; [exact Hc'|].
      left. reflexivity.
    + discriminate.
    + rewrite app_nil_r. exact Hs'.
    + rewrite app_nil_r. exact Hb'.
    + exact H1.
    + intros d [= <-]. exact Hc'.
    + exact Hs'.
    + exact Hb'.
  - rewrite Ec. split; [exact Hflag|]. split; [exact H1|].
    split; [discriminate|]. split; [exact Hs|].
    intros d Hd. rewrite app_nil_r in Hd. specialize (Hb1 d Hd). lia.
Qed.

Lemma codeBody_exact (k : nat) (line : jstring) (st : codeScan) :
  nth_error lines k = Some line ->
  exactInv lines k st ->
  exactInv lines (k + 1) (codeBody filePath fileName repositoryName k line st).
Proof.
  intros Hk (Hflag & Hpre). pose proof Hpre as (H1 & H2 & Hs & Hb).
  assert (Hg : gated lines k = commentGate (inMultilineComment st) (trim line))
    by (unfold gated; rewrite (flagAfter_step _ _ Hk), Hflag; reflexivity).
  unfold codeBody. rewrite <- Hg.
  destruct (gated lines k) eqn:Eg.
  - unfold exactInv, exactPre, opened in *.
    cbn [chunks currentChunk inMultilineComment].
    split; [symmetry; exact Eg|]. split; [exact H1|].
    split; [|split; [exact Hs|intros c Hc; specialize (Hb c Hc); lia]].
    intros c Hc.
    apply exactContent_extend with (c := c) (text := []);
      [ apply H2; exact Hc
      | rewrite Eg; reflexivity
      | reflexivity
      | symmetry; apply app_nil_r
      | right; split; [reflexivity|left; exact Eg] ].
  - destruct (isSkippedLine (trim line)) eqn:Es.
    + unfold exactInv, exactPre, opened in *.
      cbn [chunks currentChunk inMultilineComment].
      split; [symmetry; exact Eg|]. split; [exact H1|].
      destruct (currentChunk st) as [d|] eqn:Ed; cbn [option_map].
      * destruct (@replace_last (chunks st) d (appendContent d (nl line)) (k + 1) Hs
                    eq_refl) as [Hs' Hb'].
        { simpl. specialize (Hb d (in_elt d (chunks st) [])). lia. }
        { intros x Hx. specialize (Hb x (in_or_app _ _ _ (or_introl Hx))). lia. }
        split; [|split; [exact Hs'|exact Hb']].
        intros c [= <-].
        apply exactContent_extend with (c := d) (text := nl line);
          [ apply H2; reflexivity
          | rewrite Eg, (nth_of_nth_error _ _ Hk); reflexivity
          | reflexivity
          | reflexivity
          | right; split; [reflexivity|];
            right; rewrite (nth_of_nth_error _ _ Hk); exact Es ].
      * split; [discriminate|]. split; [exact Hs|].
        intros c Hc. specialize (Hb c Hc). lia.
    + apply accumulate_exact; auto.
      * rewrite inMultilineComment_checkPatterns. simpl. symmetry. exact Eg.
      * apply checkPatterns_exact; auto.
Qed.

End Lines.

Lemma scan_exact (content : jstring) :
  exactInv (splitLines content) (length (splitLines content))
    (forLines (codeBody filePath fileName repositoryName) 0
       (splitLines content) (mkCodeScan [] None 0%Z false)).
Proof.
  apply forLines_invariant with (P := exactInv (splitLines content)).
  - split; [reflexivity|]. unfold exactPre, opened. simpl.
    split; [intros ? []|]. split; [discriminate|].
    split; [constructor|intros ? []].
  - intros k line st' Hk Hst. apply codeBody_exact; assumption.
Qed.

(** X4.  The content of every function, class or route chunk is the line
    that started it, written twice, followed by the lines read while the
    chunk was open, in order, without the lines left out as part of a
    block comment.  The content stops on the last line of the chunk, in
    front of the line that started another chunk, or at the end of the
    file; the lines of the content that lie behind [endLine] are blank
    lines and single-line comments. *)
Theorem code_chunk_content_shape (content : jstring) (c : chunk) :
  In c (extractCodeChunks content filePath fileName repositoryName) ->
  let lines := splitLines content in
  exists trigger last,
    nth_error lines (startLine c - 1) = Some trigger /\
    1 <= startLine c /\ startLine c <= endLine c /\
    endLine c <= last /\ last <= length lines /\
    Processor.content c
    = nl trigger ++ nl trigger ++ keptText lines (startLine c) last /\
    (last = endLine c \/ last = length lines \/
     exists line, nth_error lines last = Some line /\
                  gated lines last = false /\
                  isSkippedLine (trim line) = false /\
                  familiesMatching line = 1) /\
    forall j, endLine c <= j < last ->
              gated lines j = true \/ isSkippedLine (trim (nth j lines [])) = true.
Proof.
  intros Hc lines. unfold extractCodeChunks in Hc. fold lines in Hc.
  destruct (scan_exact content) as (_ & H1 & H2 & _). fold lines in H1, H2.
  assert (He : exactEmitted lines c).
  { apply in_pushIfContent in Hc. destruct Hc as [Hc|Hc]; [auto|].
    exists (length lines). split; [lia|]. split; [apply H2; exact Hc|].
    right. left. reflexivity. }
  destruct He as (last & Hlast & (trigger & Ht & Hs1 & Hse & Hel & Hcont & Hrest) & Hcl).
  exists trigger, last. auto 10.
Qed.

(** X6.  The function, class and route chunks of a file come in the order
    of the file and do not overlap: every chunk ends in front of the line
    on which the next one starts. *)
Theorem code_chunks_in_file_order (content : jstring) :
  StronglySorted (fun a b => endLine a < startLine b)
    (extractCodeChunks content filePath fileName repositoryName).
Proof.
  unfold extractCodeChunks.
  destruct (scan_exact content) as (_ & _ & _ & Hs & _).
  apply pushed_sorted. exact Hs.
Qed.

End Code.

End WithHost.

Section Examples.
Import ExampleHost.

Lemma code_chunk_content_shape_witness :
  let c := loginChunk in
  let text := lit "// session helpers
import db from './db';

function login(user) {
  /* check
     the password */
  return db.check(user);
}" in
  In c (extractCodeChunks (host := exampleHost) text (lit "auth.js") (lit "auth.js") demo)
  /\ exists trigger last,
       nth_error (splitLines text) (startLine c - 1) = Some trigger /\
       1 <= startLine c /\ startLine c <= endLine c /\
       endLine c <= last /\ last <= length (splitLines text) /\
       Processor.content c
       = nl trigger ++ nl trigger ++ keptText (splitLines text) (startLine c) last /\
       (last = endLine c \/ last = length (splitLines text) \/
        exists line, nth_error (splitLines text) last = Some line /\
                     gated (splitLines text) last = false /\
                     isSkippedLine (trim line) = false /\
                     familiesMatching line = 1) /\
       forall j, endLine c <= j < last ->
                 gated (splitLines text) j = true \/
                 isSkippedLine (trim (nth j (splitLines text) [])) = true.
Proof.
  assert (H : In loginChunk
                (extractCodeChunks (host := exampleHost)
                   (lit "// session helpers
import db from './db';

function login(user) {
  /* check
     the password */
  return db.check(user);
}") (lit "auth.js") (lit "auth.js") demo))
    by (vm_compute; left; reflexivity).
  split; [exact H|].
  exact (code_chunk_content_shape (host := exampleHost) _ _ _ _ _ H).
Defined.

End Examples.

End ExactFacts.

(* ===================================================================== *)
(** ** The services on small inputs *)
(* ===================================================================== *)

Module ServiceExamples.
Import Processor ProcessorSpec ScanSpec SectionSpec SessionSpec TallySpec.

(** The scan goes down [src/api], passes over the directory [build] and
    the image, and logs the directory it cannot read. *)
Example scan_of_a_nested_tree :
  scanDirectory (host := ExampleHost.exampleHost) repo (Some nestedRoot)
                (fun _ => false) []
  = ([lit "repo/src/api/chat.JS"], [ErrorScanningDirectory (lit "repo/locked")]).
Proof. reflexivity. Qed.

(** The line in front of the first header belongs to no section. *)
Example sections_of_the_readme :
  map (fun c => (startLine c, endLine c))
      (extractDocumentationChunks (lit "Bigstack
# Setup
Run the installer.
## Usage
See the API.") (lit "README.md") (lit "README.md") demo)
  = [(2, 3); (4, 5)].
Proof. reflexivity. Qed.

Example history_last_two :
  RagService.getConversationHistory (error := unit) (inr (Some (Some [1; 2; 3])))
    (Some 2%Z) = [2; 3].
Proof. reflexivity. Qed.

Example history_limit_zero :
  RagService.getConversationHistory (error := unit) (inr (Some (Some [1; 2; 3])))
    (Some 0%Z) = [1; 2; 3].
Proof. reflexivity. Qed.

Example history_negative_limit :
  RagService.getConversationHistory (error := unit) (inr (Some (Some [1; 2; 3])))
    (Some (-1)%Z) = [2; 3].
Proof. reflexivity. Qed.

Example blank_query_is_rejected :
  ChatApi.postQuery calm (ChatApi.textValue (lit "   ")) (Some (lit "s1")) None
                    emptyStore
  = (ChatApi.badRequest ChatApi.queryRequired, emptyStore).
Proof. reflexivity. Qed.

(** The length is tested on the query as it was sent: 1001 units of which
    999 are left by [trim] are too long. *)
Example long_query_is_rejected_before_trimming :
  let query := lit "  " ++ repeat "a"%char 999 in
  length query = 1001 /\ length (trim query) = 999 /\
  ChatApi.postQuery calm (ChatApi.textValue query) (Some (lit "s1")) None emptyStore
  = (ChatApi.badRequest (lit "Query is too long. Maximum 1000 characters allowed."),
     emptyStore).
Proof. repeat split; vm_compute; reflexivity. Qed.

(** Two queries in one session: two interactions, a count of 2. *)
Example two_queries_one_session :
  let st1 := snd (RagService.processQuery calm (lit "what is x?") (Some (lit "s1"))
                    None emptyStore) in
  let st2 := snd (RagService.processQuery calm (lit "and y?") (Some (lit "s1"))
                    None st1) in
  map RagService.query (historyOf (lit "s1") st2) = [lit "what is x?"; lit "and y?"]
  /\ countOf (lit "s1") st2 = 2.
Proof. split; reflexivity. Qed.

(** The history section of the prompt of the second query. *)
Example prompt_of_the_second_query :
  let st1 := snd (RagService.processQuery calm (lit "what is x?") (Some (lit "s1"))
                    None emptyStore) in
  map Bedrock.historyLine
      (map RagService.interactionObject (historyOf (lit "s1") st1))
  = [lit "undefined: undefined"].
Proof. reflexivity. Qed.

Example dry_run_of_the_example_repository :
  IngestScript.drySummary
    (fst (processRepository (host := ExampleHost.exampleHost)
            ExampleHost.exampleRoot repo demo))
  = ([(lit "javascript", 2); (lit "markdown", 3); (lit "json", 3)],
     [(lit "file_overview", 4); (lit "function", 1); (lit "documentation", 2);
      (lit "configuration", 1)]).
Proof. vm_compute. reflexivity. Qed.

End ServiceExamples.
